(** * Axiolotl: forward-chaining RDFS/OWL materialisation

    A shallow embedding of [public/lib/axiolotl-inference.js] together with
    the term helpers of [public/lib/comunica-indexeddb-bridge.js] it calls,
    followed by the properties of the inference run.

    Conventions of the embedding.
    - JavaScript strings are byte strings (UTF-8).
    - A [Set<string>] or an array that the code iterates is a duplicate-free
      list in insertion order; a [Set<string>] that is only probed ([seen],
      [symmetricProps], [transitiveProps]) is a [gset string]; a
      [Map<string, Set<string>>] is a [gmap string (list string)].
    - An [N3.Store] is the duplicate-free list of its quads in insertion
      order, an rdflib formula the list of its statements; [addQuad] and
      [formula.add] skip what is already held.
    - rdflib and N3 terms share one type [Term]. The factory functions of
      N3 ([namedNode], [blankNode], [literal]) never fail; [literal] puts a
      language tag in lower case. rdflib's [$rdf.sym] throws for a name
      without a colon or with a space ([sym_ok]): the calls the source
      guards by [isAbsoluteIri] cannot throw, the unguarded calls of
      [applyInverseAndSymmetric] and [applyTransitiveProps] can, and the
      conversions of the engine's answers and of the overlay store are
      applied to names the engine and the store hold as named nodes, which
      are taken as accepted. rdflib's [$rdf.literal] takes a value and a
      language or a datatype: a third argument is ignored.
    - The key of a statement is rdflib's [Statement#toNT]: the N-Triples
      form of subject, predicate and object.
    - The SPARQL engine behind [applyConstructWithComunica] is a parameter
      [queryQuads]: it answers a query over a store with a list of quads or
      fails. The queries it is handed are recorded in the run state.
    - A thrown exception is the outcome [Thrown], carrying the state at the
      throw; loops that the code does not bound take fuel and end in
      [OutOfFuel] (the outer loop) or [None] (the drain) when it runs out.

    Layout: the embedding, then the vocabulary of the properties, then the
    properties. *)

From Stdlib Require Import String Ascii List Arith Lia.
From stdpp Require Import base gmap sets list strings.
From Equations Require Import Equations.
Import ListNotations.
Open Scope string_scope.
Open Scope list_scope.
Set Warnings "-clear-no-such-hyp".

(** ** Vocabulary *)

Definition RDFS_SC : string := "http://www.w3.org/2000/01/rdf-schema#subClassOf".
Definition RDFS_SP : string := "http://www.w3.org/2000/01/rdf-schema#subPropertyOf".
Definition OWL_INV : string := "http://www.w3.org/2002/07/owl#inverseOf".
Definition OWL_SYM : string := "http://www.w3.org/2002/07/owl#SymmetricProperty".
Definition OWL_TRANS : string := "http://www.w3.org/2002/07/owl#TransitiveProperty".
Definition RDFS_DOMAIN : string := "http://www.w3.org/2000/01/rdf-schema#domain".
Definition RDFS_RANGE : string := "http://www.w3.org/2000/01/rdf-schema#range".
Definition RDF_TYPE : string := "http://www.w3.org/1999/02/22-rdf-syntax-ns#type".
Definition XSD_STRING : string := "http://www.w3.org/2001/XMLSchema#string".

(** ** Strings: the regular expressions of the bridge *)

Definition chr (n : nat) : ascii := ascii_of_nat n.
Definition str1 (n : nat) : string := String (chr n) EmptyString.

(** ASCII members of the class [\s]. *)
Definition ws1 (c : ascii) : bool :=
  let n := nat_of_ascii c in
  (Nat.leb 9 n && Nat.leb n 13) || Nat.eqb n 32.

(** The other members of [\s], as UTF-8 sequences: U+00A0, U+1680,
    U+2000..U+200A, U+2028, U+2029, U+202F, U+205F, U+3000, U+FEFF. *)
Definition ws_tail (a b c : nat) : bool :=
  match a with
  | 225 => Nat.eqb b 154 && Nat.eqb c 128
  | 226 =>
      (Nat.eqb b 128
         && ((Nat.leb 128 c && Nat.leb c 138) || Nat.eqb c 168 || Nat.eqb c 169
             || Nat.eqb c 175))
      || (Nat.eqb b 129 && Nat.eqb c 159)
  | 227 => Nat.eqb b 128 && Nat.eqb c 128
  | 239 => Nat.eqb b 187 && Nat.eqb c 191
  | _ => false
  end.

(** [ws_strip s] is the rest of [s] after one leading whitespace character,
    if [s] starts with one. *)
Definition ws_strip (s : string) : option string :=
  match s with
  | EmptyString => None
  | String a r =>
      if ws1 a then Some r
      else match r with
           | EmptyString => None
           | String b r' =>
               if Nat.eqb (nat_of_ascii a) 194 && Nat.eqb (nat_of_ascii b) 160
               then Some r'
               else match r' with
                    | EmptyString => None
                    | String c r'' =>
                        if ws_tail (nat_of_ascii a) (nat_of_ascii b) (nat_of_ascii c)
                        then Some r'' else None
                    end
           end
  end.

(** [/\s/.test(s)] *)
Fixpoint has_ws (s : string) : bool :=
  match s with
  | EmptyString => false
  | String _ r => match ws_strip s with Some _ => true | None => has_ws r end
  end.

Fixpoint trim_start_fuel (n : nat) (s : string) : string :=
  match n with
  | O => s
  | S n' => match ws_strip s with Some r => trim_start_fuel n' r | None => s end
  end.

Definition trim_start (s : string) : string := trim_start_fuel (String.length s) s.

(** [s] consists of whitespace only. *)
Definition all_ws (s : string) : bool := String.eqb (trim_start s) "".

Fixpoint trim_end (s : string) : string :=
  match s with
  | EmptyString => EmptyString
  | String a r => if all_ws s then EmptyString else String a (trim_end r)
  end.

(** [String.prototype.trim] *)
Definition trim (s : string) : string := trim_end (trim_start s).

Definition lower (c : ascii) : ascii :=
  let n := nat_of_ascii c in
  if Nat.leb 65 n && Nat.leb n 90 then ascii_of_nat (n + 32) else c.

Fixpoint lower_string (s : string) : string :=
  match s with
  | EmptyString => EmptyString
  | String c r => String (lower c) (lower_string r)
  end.

(** [s.startsWith(pat)] *)
Definition startsWith (pat s : string) : bool := String.prefix pat s.

(** A case-insensitive anchored match of a literal, [/^pat/i]. *)
Definition startsWith_ci (pat s : string) : bool := String.prefix pat (lower_string s).

Fixpoint last_char (s : string) : option ascii :=
  match s with
  | EmptyString => None
  | String c EmptyString => Some c
  | String _ r => last_char r
  end.

Fixpoint drop_last (s : string) : string :=
  match s with
  | EmptyString => EmptyString
  | String _ EmptyString => EmptyString
  | String c r => String c (drop_last r)
  end.

(** [s.replace(/^pat/, '')] *)
Definition strip_prefix (pat s : string) : string :=
  if String.prefix pat s
  then String.substring (String.length pat) (String.length s - String.length pat) s
  else s.

Definition is_digit (c : ascii) : bool :=
  let n := nat_of_ascii c in Nat.leb 48 n && Nat.leb n 57.

Definition is_alpha (c : ascii) : bool :=
  let n := nat_of_ascii c in
  (Nat.leb 65 n && Nat.leb n 90) || (Nat.leb 97 n && Nat.leb n 122).

Fixpoint all_digits (s : string) : bool :=
  match s with
  | EmptyString => true
  | String c r => is_digit c && all_digits r
  end.

(** Absolute IRI detection that does not classify CURIEs as IRIs. *)
Definition isAbsoluteIri (s : string) : bool :=
  if String.eqb s "" then false
  else if has_ws s then false
  else if existsb (fun sch => startsWith_ci (sch +:+ "://") s)
            ["http"; "https"; "ws"; "wss"; "ftp"; "file"] then true
  else if existsb (fun sch => startsWith_ci (sch +:+ ":") s)
            ["urn"; "tag"; "mailto"; "data"; "ipfs"; "ipns"] then true
  else false.

Definition looksLikeBnodeId (v : string) : bool :=
  startsWith "_:" v || startsWith "_g_" v
  || match v with
     | String c (String d r) => is_alpha c && all_digits (String d r)
     | _ => false
     end.

(** Trim, then remove one pair of surrounding angle brackets. *)
Definition normalizeIriString (s : string) : string :=
  let t := trim s in
  match t with
  | String a (String b r) =>
      if Ascii.eqb a "<" && (match last_char (String b r) with
                             | Some z => Ascii.eqb z ">" | None => false end)
      then trim (drop_last (String b r))
      else t
  | _ => t
  end.

(** ** Terms and statements *)

Inductive TermType := T_NamedNode | T_BlankNode | T_Literal.

Inductive Term :=
| NamedNode (value : string)
| BlankNode (id : string)
| Literal (value : string) (language : string) (datatype : option string).

Definition termType (t : Term) : TermType :=
  match t with
  | NamedNode _ => T_NamedNode
  | BlankNode _ => T_BlankNode
  | Literal _ _ _ => T_Literal
  end.

(** [t.value]; for a blank node this is its [id]. *)
Definition value (t : Term) : string :=
  match t with
  | NamedNode v => v
  | BlankNode i => i
  | Literal v _ _ => v
  end.

(** A statement or quad. The predicate is always a named node and is kept
    as its IRI; [graph = None] is the default graph. *)
Record Statement := st4 {
  subject : Term;
  predicate : string;
  object : Term;
  graph : option string
}.

Abbreviation Quad := Statement (only parsing).

(** [$rdf.st(s, $rdf.sym(p), o)] *)
Definition st (s : Term) (p : string) (o : Term) : Statement := st4 s p o None.

(** [quad(s, namedNode(p), o, defaultGraph())] *)
Definition quad (s : Term) (p : string) (o : Term) : Quad := st4 s p o None.

#[global] Instance TermType_eq_dec : EqDecision TermType.
Proof. solve_decision. Defined.
#[global] Instance Term_eq_dec : EqDecision Term.
Proof. solve_decision. Defined.
#[global] Instance Statement_eq_dec : EqDecision Statement.
Proof. solve_decision. Defined.

(** The factory functions building literals. [literal_lang] is rdflib's
    [$rdf.literal(v, lang)], [literal_plain] is [$rdf.literal(v)] and what
    [$rdf.literal(v, undefined, dt)] gives, its third argument ignored;
    [n3_literal_lang] and [literal_dt] are N3's [literal(v, lang)], which
    puts the tag in lower case (ASCII letters, as language tags have), and
    [literal(v, namedNode(dt))]. *)
Definition RDF_LANGSTRING : string :=
  "http://www.w3.org/1999/02/22-rdf-syntax-ns#langString".
Definition literal_lang (v lang : string) : Term := Literal v lang (Some RDF_LANGSTRING).
Definition literal_dt (v dt : string) : Term := Literal v "" (Some dt).
Definition literal_plain (v : string) : Term := Literal v "" (Some XSD_STRING).
Definition n3_literal_lang (v lang : string) : Term := literal_lang v (lower_string lang).

(** [s.includes(c)] for a character. *)
Fixpoint includes (c : ascii) (s : string) : bool :=
  match s with
  | EmptyString => false
  | String a r => Ascii.eqb a c || includes c r
  end.

(** The names rdflib's [NamedNode] accepts: [$rdf.sym(v)] throws for the
    empty string, for a value without a colon and for one with a space. *)
Definition sym_ok (v : string) : bool := includes ":" v && negb (includes " " v).

(** *** The deduplication key: rdflib's [Statement#toNT] *)

Definition escape_char (c : ascii) : string :=
  let n := nat_of_ascii c in
  if Nat.eqb n 92 then "\\"
  else if Nat.eqb n 34 then "\" +:+ str1 34
  else if Nat.eqb n 10 then "\n"
  else if Nat.eqb n 13 then "\r"
  else String c EmptyString.

Fixpoint escape (s : string) : string :=
  match s with
  | EmptyString => EmptyString
  | String c r => escape_char c +:+ escape r
  end.

Definition term_toNT (t : Term) : string :=
  match t with
  | NamedNode v => "<" +:+ v +:+ ">"
  | BlankNode i => "_:" +:+ i
  | Literal v lang dt =>
      let body := str1 34 +:+ escape v +:+ str1 34 in
      if negb (String.eqb lang "") then body +:+ "@" +:+ lang
      else match dt with
           | Some d => if String.eqb d XSD_STRING then body
                       else body +:+ "^^<" +:+ d +:+ ">"
           | None => body
           end
  end.

(** Subject, predicate and object joined by spaces, then [" ."]; the graph
    takes no part. *)
Definition toNT (s : Statement) : string :=
  term_toNT (subject s) +:+ " " +:+ ("<" +:+ predicate s +:+ ">") +:+ " "
  +:+ term_toNT (object s) +:+ " .".

(** ** Term conversions *)

(** [toSubject] of [inferUntilStable]: rdflib term to N3 subject. *)
Definition toSubject (s : Term) : Term :=
  match s with
  | NamedNode v => NamedNode v
  | _ => BlankNode (value s)
  end.

(** [toObject] of [inferUntilStable]: rdflib term to N3 object. *)
Definition toObject (o : Term) : Term :=
  match o with
  | NamedNode v => NamedNode v
  | BlankNode i => BlankNode i
  | Literal v lang dt =>
      if negb (String.eqb lang "") then n3_literal_lang v lang
      else match dt with
           | Some d => literal_dt v d
           | None => literal_plain v
           end
  end.

(** [o.lang || o.language || undefined] and [o.datatype?.value]. *)
Definition lang_of (t : Term) : option string :=
  match t with
  | Literal _ lang _ => if String.eqb lang "" then None else Some lang
  | _ => None
  end.

Definition datatype_of (t : Term) : option string :=
  match t with
  | Literal _ _ dt => dt
  | _ => None
  end.

(** Truthiness of an optional string: [undefined] and [''] are falsy. *)
Definition truthy (o : option string) : bool :=
  match o with
  | Some s => negb (String.eqb s "")
  | None => false
  end.

(** The bridge's helpers from stored shapes to RDF/JS terms. *)
Definition strip_bnode_prefix (v : string) : string :=
  strip_prefix "_g_" (strip_prefix "_:" v).

Definition asRdfjsSubject (v : string) (type : TermType) : Term :=
  let iri := normalizeIriString v in
  if isAbsoluteIri iri then NamedNode iri
  else BlankNode (strip_bnode_prefix v).

(** [None] stands for the thrown [Error('Predicate must be absolute IRI')]. *)
Definition asRdfjsPredicate (v : string) (type : TermType) : option string :=
  let iri := normalizeIriString v in
  if isAbsoluteIri iri then Some iri else None.

Definition asRdfjsObject (v : string) (type : TermType)
    (lang datatype : option string) : Term :=
  let iri := normalizeIriString v in
  if (if decide (type = T_NamedNode) then isAbsoluteIri iri else false)
  then NamedNode iri
  else if (if decide (type = T_BlankNode) then true else looksLikeBnodeId v)
  then BlankNode (strip_bnode_prefix v)
  else if truthy lang then n3_literal_lang v (default "" lang)
  else if truthy datatype
  then literal_dt v (normalizeIriString (default "" datatype))
  else if isAbsoluteIri iri then NamedNode iri else literal_plain v.

(** One statement of [formulaToRdfjsStore]. *)
Definition statementToQuad (s : Statement) : Quad :=
  let sub := toSubject (subject s) in
  let obj :=
    match object s with
    | NamedNode v => NamedNode v
    | BlankNode i => BlankNode (if String.eqb i "" then "o" else i)
    | Literal v lang dt =>
        match lang_of (object s) with
        | Some l => n3_literal_lang v l
        | None => match dt with
                  | Some d => literal_dt v d
                  | None => literal_plain v
                  end
        end
    end in
  let g := match graph s with
           | Some v => if String.eqb v "" then None else Some v
           | None => None
           end in
  st4 sub (predicate s) obj g.

(** RDF/JS quad to rdflib statement, as in the data handler of
    [applyConstructWithComunica] and at the end of [inferUntilStable]. *)
Definition quadSubject (t : Term) : Term :=
  match t with
  | NamedNode v => NamedNode v
  | _ => BlankNode (value t)
  end.

Definition quadObject (t : Term) : Term :=
  match t with
  | NamedNode v => NamedNode v
  | BlankNode i => BlankNode i
  | Literal v lang dt =>
      match lang_of t with
      | Some l => literal_lang v l
      | None => literal_plain v
      end
  end.

(** ** The two containers: N3.Store and the rdflib formula *)

Abbreviation Store := (list Quad) (only parsing).

Definition addQuad (q : Quad) (store : Store) : Store :=
  if bool_decide (q ∈ store) then store else store ++ [q].

Definition matches {A} `{EqDecision A} (pat : option A) (x : A) : bool :=
  match pat with
  | None => true
  | Some y => bool_decide (x = y)
  end.

(** [store.getQuads(s, p, o, null)]: every graph. *)
Definition getQuads (s : option Term) (p : option string) (o : option Term)
    (store : Store) : list Quad :=
  List.filter
    (fun q => matches s (subject q) && matches p (predicate q) && matches o (object q))
    store.

(** [formula.add(s, p, o, why)]: a statement already held is not added. *)
Definition formula_add (g : list Statement) (s : Statement) : list Statement :=
  if bool_decide (s ∈ g) then g else g ++ [s].

Definition formulaToRdfjsStore (g : list Statement) : Store :=
  fold_left (fun store s => addQuad (statementToQuad s) store) g [].

(** ** Hierarchy closure builder *)

(** [set.add(x)] on an insertion-ordered set. *)
Definition set_add (x : string) (l : list string) : list string :=
  if bool_decide (x ∈ l) then l else l ++ [x].

(** [M.get(k)], read as the empty set when the key is absent. *)
Definition lookup_set (M : gmap string (list string)) (k : string) : list string :=
  default [] (M !! k).

(** [if (!M.has(a)) M.set(a, new Set()); M.get(a).add(b)] *)
Definition map_add (a b : string) (M : gmap string (list string))
    : gmap string (list string) :=
  <[a := set_add b (lookup_set M a)]> M.

(** Adjacency map of one predicate, across all graphs. *)
Definition mapFromQuads (store : Store) (predIRI : string)
    : gmap string (list string) :=
  fold_left (fun M q => map_add (value (subject q)) (value (object q)) M)
            (getQuads None (Some predIRI) None store) ∅.

(** The direct-edge relation of an adjacency map. *)
Definition edge (edges : gmap string (list string)) (a b : string) : Prop :=
  ∃ ps, edges !! a = Some ps ∧ b ∈ ps.

(** Edges still to be pushed: the out-degrees of the nodes not yet expanded. *)
Definition weight_list (l : list (string * list string)) (seenLocal : list string) : nat :=
  sum_list (map (fun kv : string * list string =>
                   if bool_decide (kv.1 ∈ seenLocal) then 0 else length kv.2) l).

Definition weight (edges : gmap string (list string)) (seenLocal : list string) : nat :=
  weight_list (map_to_list edges) seenLocal.

(** [if (pp) pp.forEach(x => stack.push(x))]; the stack is kept with its
    top first. *)
Definition push_all (pp : option (list string)) (stack : list string) : list string :=
  match pp with
  | Some xs => reverse xs ++ stack
  | None => stack
  end.

Definition inspect {A} (a : A) : {b | a = b} := exist _ a eq_refl.

(** The [while (stack.length)] loop of [transitiveClosure] for one child. *)
Equations? closure_loop (edges : gmap string (list string))
    (seenLocal stack : list string) : list string
  by wf (length stack + weight edges seenLocal) lt :=
closure_loop edges seenLocal [] := seenLocal;
closure_loop edges seenLocal (p :: rest)
  with inspect (bool_decide (p ∈ seenLocal)) := {
  | exist _ true _ := closure_loop edges seenLocal rest;
  | exist _ false Hp :=
      closure_loop edges (seenLocal ++ [p]) (push_all (edges !! p) rest) }.
Proof.
  apply bool_decide_eq_false in Hp.
  assert (Hfresh : forall l : list (string * list string),
             p ∉ l.*1 -> weight_list l (seenLocal ++ [p]) = weight_list l seenLocal).
  { unfold weight_list. induction l as [|[k v] l IH]; simpl; intros Hn; [done|].
    rewrite IH by set_solver. f_equal.
    assert (k ≠ p) by set_solver.
    destruct (bool_decide_reflect (k ∈ seenLocal ++ [p])) as [H1|H1];
      destruct (bool_decide_reflect (k ∈ seenLocal)) as [H2|H2]; simpl; try done;
      set_solver. }
  assert (Hstep : forall (l : list (string * list string)) v,
             NoDup l.*1 -> (p, v) ∈ l ->
             weight_list l (seenLocal ++ [p]) + length v = weight_list l seenLocal).
  { induction l as [|[k w] l IH]; simpl; intros v Hnd Hin; [by inversion Hin|].
    apply NoDup_cons in Hnd as [Hk Hnd].
    apply elem_of_cons in Hin as [Heq|Hin].
    - inversion Heq; subst k w.
      unfold weight_list at 1 2; simpl. fold (weight_list l (seenLocal ++ [p])).
      fold (weight_list l seenLocal).
      rewrite Hfresh by done.
      rewrite bool_decide_eq_true_2 by set_solver.
      rewrite bool_decide_eq_false_2 by done. lia.
    - assert (k ≠ p).
      { intros ->. apply Hk. apply list_elem_of_fmap. by exists (p, v). }
      specialize (IH v Hnd Hin).
      unfold weight_list in *; simpl.
      destruct (bool_decide_reflect (k ∈ seenLocal ++ [p])) as [H1|H1];
        destruct (bool_decide_reflect (k ∈ seenLocal)) as [H2|H2]; simpl; try lia;
        set_solver. }
  assert (Hw : weight edges (seenLocal ++ [p]) + length (lookup_set edges p)
               = weight edges seenLocal).
  { unfold weight, lookup_set. destruct (edges !! p) as [v|] eqn:E; simpl.
    - apply Hstep; [apply NoDup_fst_map_to_list|]. by apply elem_of_map_to_list.
    - rewrite Hfresh; [lia|].
      intros Hin. apply list_elem_of_fmap in Hin as [[k v] [-> Hin]].
      apply elem_of_map_to_list in Hin. simpl in E. congruence. }
  unfold push_all, lookup_set in *. destruct (edges !! p); simpl in *;
    rewrite ?length_app, ?length_reverse; lia.
Qed.

(** Generic transitive closure over a directed relation. *)
Definition transitiveClosure (edges : gmap string (list string))
    : gmap string (list string) :=
  (fun parents => closure_loop edges [] (reverse parents)) <$> edges.

(** ** Property metadata index *)

(** The indices frozen at the start of a run. *)
Record Indices := mkIndices {
  classSupers : gmap string (list string);
  propSupers : gmap string (list string);
  domainMap : gmap string (list string);
  rangeMap : gmap string (list string);
  symmetricProps : gset string;
  transitiveProps : gset string;
  inversePairs : gmap string (list string)
}.

(** [new Set(store.getQuads(null, RDF_TYPE, cls, null).map(q => q.subject.value))] *)
Definition declared (store : Store) (cls : string) : gset string :=
  list_to_set
    (map (fun q => value (subject q))
         (getQuads None (Some RDF_TYPE) (Some (NamedNode cls)) store)).

(** One iteration of the loop that makes [inverseOf] two-way. *)
Definition inverse_step (M : gmap string (list string)) (q : Quad)
    : gmap string (list string) :=
  let p := value (subject q) in
  let inv := value (object q) in
  map_add inv p (map_add p inv M).

(** The source runs this loop twice over the same quads. *)
Definition buildInversePairs (store : Store) : gmap string (list string) :=
  let qs := getQuads None (Some OWL_INV) None store in
  fold_left inverse_step qs (fold_left inverse_step qs ∅).

Definition buildIndices (store : Store) : Indices :=
  {| classSupers := transitiveClosure (mapFromQuads store RDFS_SC);
     propSupers := transitiveClosure (mapFromQuads store RDFS_SP);
     domainMap := mapFromQuads store RDFS_DOMAIN;
     rangeMap := mapFromQuads store RDFS_RANGE;
     symmetricProps := declared store OWL_SYM;
     transitiveProps := declared store OWL_TRANS;
     inversePairs := buildInversePairs store |}.

(** ** Run state *)

(** The mutable variables of one run of [inferUntilStable]. [asked] is the
    trace of the queries handed to the evaluator, oldest first. *)
Record State := mkState {
  baseGraph : list Statement;
  seen : gset string;
  overlayStore : list Quad;
  rdfjsStore : list Quad;
  workTypes : list Statement;
  workProps : list Statement;
  totalAdded : nat;
  asked : list string
}.

#[global] Instance State_eq_dec : EqDecision State.
Proof. solve_decision. Defined.

(** ** Outcomes *)

(** What a part of the run ends in: a value, a thrown error with the state
    at the throw, or no fuel left for a loop the source does not bound. *)
Inductive Outcome (A : Type) :=
| Returned (a : A)
| Thrown (σ : State)
| OutOfFuel.
Arguments Returned {A} a.
Arguments Thrown {A} σ.
Arguments OutOfFuel {A}.

#[global] Instance Outcome_eq_dec {A} `{EqDecision A} : EqDecision (Outcome A).
Proof. solve_decision. Defined.

#[global] Instance Outcome_bind : MBind Outcome := fun A B k m =>
  match m with
  | Returned a => k a
  | Thrown σ => Thrown σ
  | OutOfFuel => OutOfFuel
  end.

(** ** Work queues and enqueue *)

(** The body of the loop of [enqueue] for one candidate. *)
Definition enqueue1 (σ : State) (s : Statement) : State :=
  let nt := toNT s in
  if bool_decide (nt ∈ seen σ) then σ
  else
    let q := quad (toSubject (subject s)) (predicate s) (toObject (object s)) in
    {| baseGraph := formula_add (baseGraph σ) (st (subject s) (predicate s) (object s));
       seen := {[nt]} ∪ seen σ;
       overlayStore := addQuad q (overlayStore σ);
       rdfjsStore := addQuad q (rdfjsStore σ);
       workTypes := if String.eqb (predicate s) RDF_TYPE
                    then workTypes σ ++ [s] else workTypes σ;
       workProps := if String.eqb (predicate s) RDF_TYPE
                    then workProps σ else workProps σ ++ [s];
       totalAdded := totalAdded σ;
       asked := asked σ |}.

Definition enqueue (σ : State) (stmts : list Statement) : State :=
  fold_left enqueue1 stmts σ.

(** ** Local expanders *)

Definition supers_of (M : gmap string (list string)) (k : string) : list string :=
  List.filter isAbsoluteIri (lookup_set M k).

Definition expandTypesWithClosure (idx : Indices) (newTypes : list Statement)
    : list Statement :=
  flat_map
    (fun s => map (fun sup => st (subject s) RDF_TYPE (NamedNode sup))
                  (supers_of (classSupers idx) (value (object s))))
    newTypes.

Definition expandPropsWithClosure (idx : Indices) (newProps : list Statement)
    : list Statement :=
  flat_map
    (fun s => map (fun sup => st (subject s) sup (object s))
                  (supers_of (propSupers idx) (predicate s)))
    newProps.

(** A loop that pushes onto [out] what its body makes of each element;
    [None] when the body throws. *)
Fixpoint forEach {A B} (body : A -> option (list B)) (l : list A) : option (list B) :=
  match l with
  | [] => Some []
  | x :: rest =>
      match body x with
      | None => None
      | Some ys =>
          match forEach body rest with
          | None => None
          | Some zs => Some (ys ++ zs)
          end
      end
  end.

(** [$rdf.sym(p)] and [$rdf.sym(inv)] are not guarded: [None] is the error
    rdflib throws for a name it does not accept. *)
Definition applyInverseAndSymmetric (idx : Indices) (newProps : list Statement)
    : option (list Statement) :=
  forEach
    (fun s =>
       let p := predicate s in
       match (if bool_decide (p ∈ symmetricProps idx)
              then if sym_ok p then Some [st (object s) p (subject s)] else None
              else Some []) with
       | None => None
       | Some flipped =>
           match forEach (fun inv => if sym_ok inv
                                     then Some [st (object s) inv (subject s)]
                                     else None)
                         (lookup_set (inversePairs idx) p) with
           | None => None
           | Some inverted => Some (flipped ++ inverted)
           end
       end)
    newProps.

Definition applyDomainRange (idx : Indices) (newProps : list Statement)
    : list Statement :=
  flat_map
    (fun s =>
       let p := predicate s in
       map (fun d => st (subject s) RDF_TYPE (NamedNode d))
           (supers_of (domainMap idx) p)
       ++ map (fun r => st (object s) RDF_TYPE (NamedNode r))
              (supers_of (rangeMap idx) p))
    newProps.

(** Transitive properties, joined with the shared store. The far end of a
    joined quad is rebuilt by [$rdf.sym] from its value, whatever its kind;
    [None] is the error thrown for a value that is no name. *)
Definition applyTransitiveProps (idx : Indices) (store : Store)
    (newPropsBatch : list Statement) : option (list Statement) :=
  forEach
    (fun s =>
       let p := predicate s in
       if bool_decide (p ∈ transitiveProps idx)
       then
         match forEach (fun yz => if sym_ok p && sym_ok (value (object yz))
                                  then Some [st (subject s) p
                                                (NamedNode (value (object yz)))]
                                  else None)
                       (getQuads (Some (object s)) (Some p) None store) with
         | None => None
         | Some forward =>
             match forEach (fun wx => if sym_ok (value (subject wx)) && sym_ok p
                                      then Some [st (NamedNode (value (subject wx)))
                                                    p (object s)]
                                      else None)
                           (getQuads None (Some p) (Some (subject s)) store) with
             | None => None
             | Some backward => Some (forward ++ backward)
             end
         end
       else Some [])
    newPropsBatch.

(** [if (extra.length) { enqueue(extra); progressed = true; }] *)
Definition enqueue_extra (extra : list Statement) (c : State * bool) : State * bool :=
  match extra with
  | [] => c
  | _ => (enqueue (fst c) extra, true)
  end.

Definition set_workTypes (l : list Statement) (σ : State) : State :=
  {| baseGraph := baseGraph σ; seen := seen σ; overlayStore := overlayStore σ;
     rdfjsStore := rdfjsStore σ; workTypes := l; workProps := workProps σ;
     totalAdded := totalAdded σ; asked := asked σ |}.

Definition set_workProps (l : list Statement) (σ : State) : State :=
  {| baseGraph := baseGraph σ; seen := seen σ; overlayStore := overlayStore σ;
     rdfjsStore := rdfjsStore σ; workTypes := workTypes σ; workProps := l;
     totalAdded := totalAdded σ; asked := asked σ |}.

(** The first [if] of the body of the drain loop; its expander cannot throw. *)
Definition drainTypes (idx : Indices) (c : State * bool) : State * bool :=
  match workTypes (fst c) with
  | [] => c
  | batch =>
      let σ1 := set_workTypes [] (fst c) in
      enqueue_extra (expandTypesWithClosure idx batch) (σ1, snd c)
  end.

(** The second [if]: the four expansions are computed from the state
    before any of them is enqueued, so an expander that throws leaves the
    state with the batch taken off the queue and nothing of it enqueued. *)
Definition drainProps (idx : Indices) (c : State * bool) : Outcome (State * bool) :=
  match workProps (fst c) with
  | [] => Returned c
  | batch =>
      let σ1 := set_workProps [] (fst c) in
      let extra1 := expandPropsWithClosure idx batch in
      match applyInverseAndSymmetric idx batch with
      | None => Thrown σ1
      | Some extra2 =>
          let extra3 := applyDomainRange idx batch in
          match applyTransitiveProps idx (rdfjsStore σ1) batch with
          | None => Thrown σ1
          | Some extra4 =>
              Returned
                (enqueue_extra extra4
                   (enqueue_extra extra3
                      (enqueue_extra extra2 (enqueue_extra extra1 (σ1, snd c)))))
          end
      end
  end.

Definition queues_empty (σ : State) : bool :=
  match workTypes σ, workProps σ with
  | [], [] => true
  | _, _ => false
  end.

(** [while (workTypes.length || workProps.length) { ... }]; [OutOfFuel]
    when the fuel runs out before the queues are empty. *)
Fixpoint drain (fuel : nat) (idx : Indices) (c : State * bool)
    : Outcome (State * bool) :=
  if queues_empty (fst c) then Returned c
  else match fuel with
       | O => OutOfFuel
       | S n => c' ← drainProps idx (drainTypes idx c); drain n idx c'
       end.

Definition processQueues (fuel : nat) (idx : Indices) (σ : State)
    : Outcome (State * bool) :=
  drain fuel idx (σ, false).

(** De-duplicate a batch, then drop what the global index already has. *)
Fixpoint selectUnseen_loop (stmts : list Statement) (seenNT batchSet : gset string)
    : list Statement :=
  match stmts with
  | [] => []
  | s :: rest =>
      let nt := toNT s in
      if bool_decide (nt ∈ batchSet) then selectUnseen_loop rest seenNT batchSet
      else
        let tail := selectUnseen_loop rest seenNT ({[nt]} ∪ batchSet) in
        if bool_decide (nt ∈ seenNT) then tail else s :: tail
  end.

Definition selectUnseen (stmts : list Statement) (seenNT : gset string)
    : list Statement :=
  selectUnseen_loop stmts seenNT ∅.

(** The batch de-duplication inside the rule loop. *)
Definition dedupeBatch (newStmts : list Statement) : list Statement :=
  selectUnseen_loop newStmts ∅ ∅.
(** ** The rule catalogue: one CONSTRUCT query per rule *)

Definition PREFIXES : string := "
    PREFIX rdf:  <http://www.w3.org/1999/02/22-rdf-syntax-ns#>
    PREFIX rdfs: <http://www.w3.org/2000/01/rdf-schema#>
    PREFIX owl:  <http://www.w3.org/2002/07/owl#>
  ".

Definition RULE_inverse : string := "
      CONSTRUCT { ?S ?P ?O }
      WHERE {
        {
          ?x ?p ?y .
          ?p owl:inverseOf ?inverse .
          BIND(?y AS ?S) BIND(?inverse AS ?P) BIND(?x AS ?O)
        }
        UNION
        {
          ?x ?inverse ?y .
          ?p owl:inverseOf ?inverse .
          BIND(?y AS ?S) BIND(?p AS ?P) BIND(?x AS ?O)
        }
        FILTER NOT EXISTS {
          { ?S ?P ?O }
          UNION
          { GRAPH ?g { ?S ?P ?O } }
        }
      }
    ".

Definition RULE_subpropertyof : string := "
      CONSTRUCT { ?x ?super ?y }
      WHERE {
        ?x ?p ?y .
        ?p rdfs:subPropertyOf+ ?super .
        FILTER(?p != ?super)
        FILTER NOT EXISTS {
          { ?x ?super ?y }
          UNION
          { GRAPH ?g { ?x ?super ?y } }
        }
      }
    ".

Definition RULE_subclassof : string := "
      CONSTRUCT { ?x rdf:type ?superClass }
      WHERE {
        ?x rdf:type ?class .
        ?class rdfs:subClassOf+ ?superClass .
        FILTER(?class != ?superClass)
        FILTER NOT EXISTS {
          { ?x rdf:type ?superClass }
          UNION
          { GRAPH ?g { ?x rdf:type ?superClass } }
        }
      }
    ".

Definition RULE_domain : string := "
      CONSTRUCT { ?x rdf:type ?domain }
      WHERE {
        ?x ?p ?y .
        ?p rdfs:domain ?domain .
        FILTER NOT EXISTS {
          { ?x rdf:type ?domain }
          UNION
          { GRAPH ?g { ?x rdf:type ?domain } }
        }
      }
    ".

Definition RULE_range : string := "
      CONSTRUCT { ?y rdf:type ?range }
      WHERE {
        ?x ?p ?y .
        ?p rdfs:range ?range .
        FILTER NOT EXISTS {
          { ?y rdf:type ?range }
          UNION
          { GRAPH ?g { ?y rdf:type ?range } }
        }
      }
    ".

Definition RULE_transitive : string := "
      CONSTRUCT { ?x ?p ?z }
      WHERE {
        ?x ?p ?y .
        ?y ?p ?z .
        ?p a owl:TransitiveProperty .
        FILTER NOT EXISTS {
          { ?x ?p ?z }
          UNION
          { GRAPH ?g { ?x ?p ?z } }
        }
      }
    ".

Definition RULE_symmetric : string := "
      CONSTRUCT { ?y ?p ?x }
      WHERE {
        ?x ?p ?y .
        ?p a owl:SymmetricProperty .
        FILTER NOT EXISTS {
          { ?y ?p ?x }
          UNION
          { GRAPH ?g { ?y ?p ?x } }
        }
      }
    ".

(** [RULES[rule] || ''], for identifiers that name no member every
    JavaScript object inherits ([toString], [constructor] and the like). *)
Definition RULES (rule : string) : string :=
  if String.eqb rule "inverse" then RULE_inverse
  else if String.eqb rule "subpropertyof" then RULE_subpropertyof
  else if String.eqb rule "subclassof" then RULE_subclassof
  else if String.eqb rule "domain" then RULE_domain
  else if String.eqb rule "range" then RULE_range
  else if String.eqb rule "transitive" then RULE_transitive
  else if String.eqb rule "symmetric" then RULE_symmetric
  else "".

Definition getConstructQueryForRule (rule : string) : string :=
  PREFIXES +:+ RULES rule.

(** The fixed catalogue of rule identifiers. *)
Definition catalogue : list string :=
  ["inverse"; "subpropertyof"; "subclassof"; "domain"; "range"; "transitive";
   "symmetric"].

(** ** The run *)

(** The value resolved by [inferUntilStable]. *)
Record Result := mkResult {
  overlayGraph : list Statement;
  metrics_totalAdded : nat
}.

#[global] Instance Result_eq_dec : EqDecision Result.
Proof. solve_decision. Defined.

Definition initState (graph : list Statement) : State :=
  {| baseGraph := graph;
     seen := list_to_set (map toNT graph);
     overlayStore := [];
     rdfjsStore := formulaToRdfjsStore graph;
     workTypes := [];
     workProps := [];
     totalAdded := 0;
     asked := [] |}.

(** The quad written for a seeded lift; [None] when [asRdfjsPredicate] throws. *)
Definition seedQuad (s : Statement) : option Quad :=
  match asRdfjsPredicate (predicate s) T_NamedNode with
  | None => None
  | Some p =>
      Some (quad (asRdfjsSubject (value (subject s)) (termType (subject s)))
                 p
                 (asRdfjsObject (value (object s)) (termType (object s))
                                (lang_of (object s)) (datatype_of (object s))))
  end.

(** The effects applied to one unseen seeded lift. *)
Definition seedApply1 (σ : State) (s : Statement) : Outcome State :=
  let g := formula_add (baseGraph σ) (st (subject s) (predicate s) (object s)) in
  match seedQuad s with
  | None =>
      Thrown {| baseGraph := g; seen := seen σ; overlayStore := overlayStore σ;
                rdfjsStore := rdfjsStore σ; workTypes := workTypes σ;
                workProps := workProps σ; totalAdded := totalAdded σ;
                asked := asked σ |}
  | Some q =>
      Returned {| baseGraph := g; seen := {[toNT s]} ∪ seen σ;
                  overlayStore := addQuad q (overlayStore σ);
                  rdfjsStore := addQuad q (rdfjsStore σ);
                  workTypes := workTypes σ; workProps := workProps σ;
                  totalAdded := totalAdded σ; asked := asked σ |}
  end.

Fixpoint seedApply (σ : State) (unseen : list Statement) : Outcome State :=
  match unseen with
  | [] => Returned σ
  | s :: rest => σ' ← seedApply1 σ s; seedApply σ' rest
  end.

Definition is_type (s : Statement) : bool := String.eqb (predicate s) RDF_TYPE.

(** The seed: subPropertyOf+ then subClassOf+ over the statements of the
    graph as loaded. *)
Definition seedPhase (idx : Indices) (σ : State) : Outcome State :=
  let seedTypes := List.filter is_type (baseGraph σ) in
  let seedProps := List.filter (fun s => negb (is_type s)) (baseGraph σ) in
  let seededPropLifts := expandPropsWithClosure idx seedProps in
  σ1 ← seedApply σ (selectUnseen seededPropLifts (seen σ));
  let seededTypeLifts := expandTypesWithClosure idx seedTypes in
  seedApply σ1 (selectUnseen seededTypeLifts (seen σ1)).

Definition add_asked (q : string) (σ : State) : State :=
  {| baseGraph := baseGraph σ; seen := seen σ; overlayStore := overlayStore σ;
     rdfjsStore := rdfjsStore σ; workTypes := workTypes σ; workProps := workProps σ;
     totalAdded := totalAdded σ; asked := asked σ ++ [q] |}.

Definition add_total (n : nat) (σ : State) : State :=
  {| baseGraph := baseGraph σ; seen := seen σ; overlayStore := overlayStore σ;
     rdfjsStore := rdfjsStore σ; workTypes := workTypes σ; workProps := workProps σ;
     totalAdded := totalAdded σ + n; asked := asked σ |}.

(** RDF/JS quad to rdflib statement; [keep_graph] is false where the source
    adds to the default graph. *)
Definition quadToStatement (keep_graph : bool) (q : Quad) : Statement :=
  st4 (quadSubject (subject q)) (predicate q) (quadObject (object q))
      (if keep_graph then graph q else None).

Section Run.
(** The SPARQL engine: [None] when the query rejects or its stream errors. *)
Variable queryQuads : string -> Store -> option (list Quad).

Definition applyConstructWithComunica (constructQuery : string) (store : Store)
    : option (list Statement) :=
  match queryQuads constructQuery store with
  | None => None
  | Some quads =>
      Some (fold_left (fun temp q => formula_add temp (quadToStatement true q))
                      quads [])
  end.

(** The CONSTRUCT path, the one taken since [applyConstructWithComunica] is
    defined; the query is logged in [asked]. *)
Definition runRuleOnce (rule : string) (σ : State) : Outcome (State * list Statement) :=
  let q := getConstructQueryForRule rule in
  let σ1 := add_asked q σ in
  match applyConstructWithComunica q (rdfjsStore σ1) with
  | None => Thrown σ1
  | Some stmts => Returned (σ1, stmts)
  end.

(** The body of [for (const rule of rulesFiltered)]. *)
Definition ruleStep (fuel : nat) (idx : Indices) (rule : string)
    (c : State * bool) : Outcome (State * bool) :=
  let constructQuery := getConstructQueryForRule rule in
  if String.eqb constructQuery "" then Returned c
  else
    '(σ1, newStmts) ← runRuleOnce rule (fst c);
    let batch := dedupeBatch newStmts in
    let beforeSeenSize := size (seen σ1) in
    let σ2 := enqueue σ1 batch in
    '(σ3, progressed) ← processQueues fuel idx σ2;
    let added := size (seen σ3) - beforeSeenSize in
    if Nat.ltb 0 added then Returned (add_total added σ3, true)
    else Returned (σ3, snd c).

Fixpoint forRules (fuel : nat) (idx : Indices) (rulesFiltered : list string)
    (c : State * bool) : Outcome (State * bool) :=
  match rulesFiltered with
  | [] => Returned c
  | rule :: rest => c' ← ruleStep fuel idx rule c; forRules fuel idx rest c'
  end.

Definition filterRules (rules : list string) : list string :=
  List.filter
    (fun r => negb (String.eqb r "subclassof") && negb (String.eqb r "subpropertyof"))
    rules.

(** One pass of [while (changed)]. *)
Definition pass (fuel : nat) (idx : Indices) (rules : list string) (σ : State)
    : Outcome (State * bool) :=
  forRules fuel idx (filterRules rules) (σ, false).

Fixpoint mainLoop (fuel : nat) (idx : Indices) (rules : list string) (σ : State)
    : Outcome State :=
  match fuel with
  | O => OutOfFuel
  | S n =>
      '(σ', changed) ← pass fuel idx rules σ;
      if (changed : bool) then mainLoop n idx rules σ' else Returned σ'
  end.

(** The overlay store converted to an rdflib graph. *)
Definition overlayOf (σ : State) : list Statement :=
  fold_left (fun g q => formula_add g (quadToStatement false q)) (overlayStore σ) [].

(** The run as far as its last state, for a graph as loaded. *)
Definition runState (fuel : nat) (rules : list string) (graph : list Statement)
    : Outcome State :=
  let σ0 := initState graph in
  let idx := buildIndices (rdfjsStore σ0) in
  σ1 ← seedPhase idx σ0;
  mainLoop fuel idx rules σ1.

Definition inferUntilStable (fuel : nat) (rules : list string)
    (graph : list Statement) : Outcome Result :=
  σ ← runState fuel rules graph;
  Returned {| overlayGraph := overlayOf σ; metrics_totalAdded := totalAdded σ |}.
End Run.


(** ** [selectUnseen] with both of its results *)

(** The value returned by [selectUnseen]: [$new] and [batchUnique]. *)
Record Selection := mkSelection {
  new : list Statement;
  batchUnique : nat
}.

(** One iteration of the loop of [selectUnseen], on the pair of [batchSet]
    and [uniq]. *)
Definition selectUnseen_step (seenNT : gset string)
    (acc : gset string * list Statement) (s : Statement)
    : gset string * list Statement :=
  let nt := toNT s in
  if bool_decide (nt ∈ acc.1) then acc
  else ({[nt]} ∪ acc.1, if bool_decide (nt ∈ seenNT) then acc.2 else acc.2 ++ [s]).

Definition selectUnseenResult (stmts : list Statement) (seenNT : gset string)
    : Selection :=
  let acc := fold_left (selectUnseen_step seenNT) stmts (∅, []) in
  {| new := acc.2; batchUnique := size acc.1 |}.

(** * Persistence: the bridge around the inference run

    The rest of the embedding follows [public/lib/comunica-indexeddb-bridge.js]
    and [public/lib/indexeddb-triplestore.js] as far as the inference module
    reaches them: loading the working graph, stashing an overlay, naming a
    graph.

    - The object store [triples] is the list of its rows in key order, as
      [getAll] returns them; its key path is [subject, predicate, object,
      graph], so these four fields are strings in every row, and a [put]
      replaces the row that has the same key. Keys are compared field by
      field, strings byte by byte.
    - The clock and the random source are values of the host: [new Date()]
      is [now], [crypto.randomUUID] is present or not, and the [i]-th
      [Math.random()*16|0] of a call is [random16 i].
    - A thrown [Error] is [Err] with its message. *)

From Stdlib Require DecimalString HexadecimalString OrderedTypeEx.

(** ** Naming a graph *)

(** The UTC fields of a [Date], an instant to the millisecond; months count
    from 0. *)
Record Date := mkDate {
  getUTCFullYear : nat;
  getUTCMonth : nat;
  getUTCDate : nat;
  getUTCHours : nat;
  getUTCMinutes : nat;
  getUTCSeconds : nat;
  getUTCMilliseconds : nat
}.

Record Host := mkHost {
  now : Date;
  randomUUID : option string;
  random16 : nat -> nat
}.

(** [String(n)] of a non-negative integer. *)
Definition String_of_nat (n : nat) : string :=
  DecimalString.NilEmpty.string_of_uint (Nat.to_uint n).

(** [String(n).padStart(2, '0')] *)
Definition pad2 (n : nat) : string :=
  let s := String_of_nat n in
  if Nat.ltb (String.length s) 2 then "0" +:+ s else s.

(** [YYYYMMDDThhmmssZ] *)
Definition timestampUTC (d : Date) : string :=
  String_of_nat (getUTCFullYear d) +:+ pad2 (getUTCMonth d + 1)
  +:+ pad2 (getUTCDate d) +:+ "T" +:+ pad2 (getUTCHours d)
  +:+ pad2 (getUTCMinutes d) +:+ pad2 (getUTCSeconds d) +:+ "Z".

(** [v.toString(16)] *)
Definition toString16 (v : nat) : string :=
  HexadecimalString.NilEmpty.string_of_uint (Nat.to_hex_uint v).

(** The replacement of every [x] and [y] of the template, left to right;
    [i] counts the calls of [Math.random] so far. *)
Fixpoint uuid_replace (template : string) (random : nat -> nat) (i : nat) : string :=
  match template with
  | EmptyString => EmptyString
  | String c rest =>
      if Ascii.eqb c "x"
      then toString16 (random i) +:+ uuid_replace rest random (S i)
      else if Ascii.eqb c "y"
      then toString16 (Nat.lor (Nat.land (random i) 3) 8)
           +:+ uuid_replace rest random (S i)
      else String c (uuid_replace rest random i)
  end.

Definition uuid (h : Host) : string :=
  match randomUUID h with
  | Some u => u
  | None => uuid_replace "xxxxxxxx-xxxx-4xxx-yxxx-xxxxxxxxxxxx" (random16 h) 0
  end.

Fixpoint all_slashes (s : string) : bool :=
  match s with
  | EmptyString => true
  | String c r => Ascii.eqb c "/" && all_slashes r
  end.

(** [s.replace(/\/+$/, '')] *)
Fixpoint strip_trailing_slashes (s : string) : string :=
  match s with
  | EmptyString => EmptyString
  | String c r => if all_slashes s then EmptyString
                  else String c (strip_trailing_slashes r)
  end.

Definition makeNamedGraphIRI (h : Host) (base : string) : string :=
  strip_trailing_slashes base +:+ "/" +:+ timestampUTC (now h) +:+ "/" +:+ uuid h.

(** ** rdflib terms from stored values *)

(** [type === name], for type metadata that may be missing. *)
Definition type_is (type : option string) (name : string) : bool :=
  match type with
  | Some t => String.eqb t name
  | None => false
  end.

(** [String(v).replace(/^_:/, '').replace(/^_g_/, '') || fallback] *)
Definition bnodeId (v fallback : string) : string :=
  let id := strip_bnode_prefix v in
  if String.eqb id "" then fallback else id.

Definition asSubjectTerm (v : string) (type : option string) : Term :=
  if type_is type "NamedNode" && isAbsoluteIri v then NamedNode v
  else if isAbsoluteIri v then NamedNode v
  else BlankNode (bnodeId v "s").

(** [None] stands for the thrown [Error('Predicate must be absolute IRI')]. *)
Definition asPredicateTerm (v : string) (type : option string) : option string :=
  if type_is type "NamedNode" && isAbsoluteIri v then Some v
  else if isAbsoluteIri v then Some v
  else None.

(** The datatype is handed to [$rdf.literal] as a third argument, which
    that function does not read: the literal made is a plain one. [None]
    stands for the error [$rdf.sym(datatype)] throws before that, for a
    datatype that is no name. *)
Definition asObjectTerm (v : string) (type lang datatype : option string)
    : option Term :=
  if type_is type "NamedNode" && isAbsoluteIri v then Some (NamedNode v)
  else if type_is type "BlankNode" || looksLikeBnodeId v
  then Some (BlankNode (bnodeId v "o"))
  else if truthy lang then Some (literal_lang v (default "" lang))
  else if truthy datatype
  then if sym_ok (default "" datatype) then Some (literal_plain v) else None
  else if isAbsoluteIri v then Some (NamedNode v)
  else Some (literal_plain v).

(** ** The object store *)

(** A row of the store: the four key fields, and the type metadata under
    its current and its legacy names. *)
Record Row := mkRow {
  row_subject : string;
  row_predicate : string;
  row_object : string;
  row_graph : string;
  row_subjectType : option string;
  row_predicateType : option string;
  row_objectType : option string;
  row_objectLang : option string;
  row_objectDatatype : option string;
  row_sType : option string;
  row_pType : option string;
  row_oType : option string;
  row_lang : option string;
  row_datatype : option string
}.

#[global] Instance Row_eq_dec : EqDecision Row.
Proof. solve_decision. Defined.

Definition Key : Type := string * string * string * string.

Definition keyOf (t : Row) : Key :=
  (row_subject t, row_predicate t, row_object t, row_graph t).

(** The order of the keys: field by field. *)
Definition key_compare (a b : Key) : comparison :=
  let '(a1, a2, a3, a4) := a in
  let '(b1, b2, b3, b4) := b in
  match String.compare a1 b1 with
  | Eq => match String.compare a2 b2 with
          | Eq => match String.compare a3 b3 with
                  | Eq => String.compare a4 b4
                  | c => c
                  end
          | c => c
          end
  | c => c
  end.

(** [store.put(row)] *)
Fixpoint put (t : Row) (rows : list Row) : list Row :=
  match rows with
  | [] => [t]
  | r :: rest =>
      match key_compare (keyOf t) (keyOf r) with
      | Lt => t :: r :: rest
      | Eq => t :: rest
      | Gt => r :: put t rest
      end
  end.

(** [db.getAll('triples')] *)
Definition getAllTriples (db : list Row) : list Row := db.

Definition termTypeName (ty : TermType) : string :=
  match ty with
  | T_NamedNode => "NamedNode"
  | T_BlankNode => "BlankNode"
  | T_Literal => "Literal"
  end.

(** [x || null] of an optional string. *)
Definition orNull (o : option string) : option string :=
  if truthy o then o else None.

(** The row [storeTriplesInNamedGraph] writes for a statement. *)
Definition rowOf (t : Statement) : Row :=
  {| row_subject := value (subject t);
     row_subjectType := Some (termTypeName (termType (subject t)));
     row_predicate := predicate t;
     row_predicateType := Some "NamedNode";
     row_object := value (object t);
     row_objectType := Some (termTypeName (termType (object t)));
     row_objectLang := orNull (lang_of (object t));
     row_objectDatatype := orNull (datatype_of (object t));
     row_graph := default "" (graph t);
     row_sType := None; row_pType := None; row_oType := None;
     row_lang := None; row_datatype := None |}.

Definition storeTriplesInNamedGraph (triples : list Statement) (db : list Row)
    : list Row :=
  fold_left (fun db t => put (rowOf t) db) triples db.

(** [a ?? b] *)
Definition nullish {A} (a b : option A) : option A :=
  match a with
  | Some x => Some x
  | None => b
  end.

(** The body of the loop of [loadGraphFromIndexedDB] for one row; [None]
    when it throws and the row is skipped. *)
Definition loadTriple (t : Row) : option Statement :=
  let s := asSubjectTerm (row_subject t) (nullish (row_subjectType t) (row_sType t)) in
  match asPredicateTerm (row_predicate t)
          (nullish (row_predicateType t) (row_pType t)) with
  | None => None
  | Some p =>
      match asObjectTerm (row_object t)
              (nullish (row_objectType t) (row_oType t))
              (nullish (row_objectLang t) (row_lang t))
              (nullish (row_objectDatatype t) (row_datatype t)) with
      | None => None
      | Some o =>
          if negb (String.eqb (row_graph t) "")
             && negb (String.eqb (trim (row_graph t)) "")
          then if sym_ok (row_graph t)
               then Some (st4 s p o (Some (row_graph t)))
               else None
          else Some (st4 s p o None)
      end
  end.

Definition loadGraphFromIndexedDB (db : list Row) : list Statement :=
  fold_left (fun graph t => match loadTriple t with
                            | Some s => formula_add graph s
                            | None => graph
                            end)
            (getAllTriples db) [].

(** ** Stashing a graph *)

Inductive Res (A : Type) :=
| Ok (a : A)
| Err (message : string).
Arguments Ok {A} a.
Arguments Err {A} message.

(** The value resolved by [stashGraphToIndexedDB]. *)
Record Stashed := mkStashed {
  count : nat;
  graphIRI : string
}.

(** [stashGraphToIndexedDB(graph, mode, graphIRI, autoBase, { dedupe })];
    the option [replace] has no effect in the source. *)
Definition stashGraphToIndexedDB (h : Host) (graph : option (list Statement))
    (mode : string) (graphIRI : option string) (autoBase : string)
    (dedupe : bool) (db : list Row) : Res (list Row * Stashed) :=
  match graph with
  | None => Err "No graph provided"
  | Some statements =>
      let iri := if String.eqb mode "named"
                 then Some (if truthy graphIRI then default "" graphIRI
                            else makeNamedGraphIRI h autoBase)
                 else None in
      let graphSym := if truthy iri then iri else None in
      let prepared :=
        map (fun s => st4 (subject s) (predicate s) (object s) graphSym) statements in
      let prepared := if dedupe then dedupeBatch prepared else prepared in
      let db' := storeTriplesInNamedGraph prepared db in
      Ok (db', {| count := length prepared;
                  graphIRI := if truthy iri then default "" iri
                              else "(default graph)" |})
  end.

(** ** The inference run over the store *)

(** The value resolved by [runInferenceOverlay]; [stashed] is present when
    the overlay was persisted. *)
Record Overlay := mkOverlay {
  result : Result;
  stashed : option Stashed
}.

Inductive RunOutcome :=
| Resolved (db : list Row) (o : Overlay)
| Rejected (db : list Row)
| Unfinished.

Definition runInferenceOverlay (h : Host)
    (queryQuads : string -> list Quad -> option (list Quad)) (fuel : nat)
    (rules : list string) (targetMode : string) (graphIRI : option string)
    (persist : bool) (db : list Row) : RunOutcome :=
  match inferUntilStable queryQuads fuel rules (loadGraphFromIndexedDB db) with
  | Returned r =>
      if negb persist then Resolved db {| result := r; stashed := None |}
      else match stashGraphToIndexedDB h (Some (overlayGraph r)) targetMode graphIRI
                   "urn:graph:inferred" true db with
           | Ok (db', res) => Resolved db' {| result := r; stashed := Some res |}
           | Err _ => Rejected db
           end
  | Thrown _ => Rejected db
  | OutOfFuel => Unfinished
  end.


(** * Vocabulary of the properties *)

(** Closed decidable facts, by evaluation. *)
Ltac by_evaluation := apply (bool_decide_unpack _); vm_compute; exact I.

(** ** Runs *)

Definition startIndices (graph : list Statement) : Indices :=
  buildIndices (rdfjsStore (initState graph)).

(** The state an outcome ends in. *)
Definition state_of (o : Outcome State) : State :=
  match o with
  | Returned σ => σ
  | Thrown σ => σ
  | OutOfFuel => initState []
  end.

Definition returned_of (o : Outcome Result) : Result :=
  match o with
  | Returned r => r
  | _ => {| overlayGraph := []; metrics_totalAdded := 0 |}
  end.

(** ** Invariants of the run *)

(** [σ'] has the counter and the evaluator trace of [σ]. *)
Definition same_meta (σ σ' : State) : Prop :=
  totalAdded σ' = totalAdded σ /\ asked σ' = asked σ.

(** Every container of [σ] is included in that of [σ']. *)
Definition grows (σ σ' : State) : Prop :=
  baseGraph σ ⊆ baseGraph σ' /\ seen σ ⊆ seen σ'
  /\ overlayStore σ ⊆ overlayStore σ' /\ rdfjsStore σ ⊆ rdfjsStore σ'.

(** [τ] has the store of [σ] and knows every key of [σ] that a rule answer
    can have: the key of a statement whose subject is not a literal. *)
Definition same_view (σ τ : State) : Prop :=
  rdfjsStore τ = rdfjsStore σ
  /\ forall s, termType (subject s) <> T_Literal ->
                toNT s ∈ seen σ -> toNT s ∈ seen τ.

Definition log_only (τ τ' : State) : Prop :=
  baseGraph τ' = baseGraph τ /\ seen τ' = seen τ
  /\ overlayStore τ' = overlayStore τ /\ rdfjsStore τ' = rdfjsStore τ
  /\ workTypes τ' = workTypes τ /\ workProps τ' = workProps τ
  /\ totalAdded τ' = totalAdded τ.

(** The lifts the seed writes: property lifts first, then type lifts
    filtered against the index as the property lifts left it. *)
Definition seedPropUnseen (idx : Indices) (σ : State) : list Statement :=
  selectUnseen
    (expandPropsWithClosure idx (List.filter (fun s => negb (is_type s)) (baseGraph σ)))
    (seen σ).

Definition seedTypeUnseen (idx : Indices) (σ σ1 : State) : list Statement :=
  selectUnseen
    (expandTypesWithClosure idx (List.filter is_type (baseGraph σ)))
    (seen σ1).

(** The quad of a lift whose predicate is an absolute IRI. *)
Definition liftQuad (s : Statement) : Quad :=
  quad (asRdfjsSubject (value (subject s)) (termType (subject s)))
       (predicate s)
       (asRdfjsObject (value (object s)) (termType (object s))
                      (lang_of (object s)) (datatype_of (object s))).

(** ** The expanders that can throw *)

(** The names [applyInverseAndSymmetric] hands to [$rdf.sym] for a
    statement: its predicate when that is declared symmetric, then its
    inverses. *)
Definition inverseNames (idx : Indices) (s : Statement) : list string :=
  (if bool_decide (predicate s ∈ symmetricProps idx) then [predicate s] else [])
  ++ lookup_set (inversePairs idx) (predicate s).

(** What [applyInverseAndSymmetric] emits when none of these calls throws. *)
Definition inverseAndSymmetricOf (idx : Indices) (newProps : list Statement)
    : list Statement :=
  flat_map (fun s => map (fun name => st (object s) name (subject s))
                         (inverseNames idx s))
           newProps.

(** The names [applyTransitiveProps] hands to [$rdf.sym] for a statement:
    for every joined quad the predicate and the value of the far end. *)
Definition transitiveNames (idx : Indices) (store : list Quad) (s : Statement)
    : list string :=
  if bool_decide (predicate s ∈ transitiveProps idx)
  then flat_map (fun yz => [predicate s; value (object yz)])
                (getQuads (Some (object s)) (Some (predicate s)) None store)
       ++ flat_map (fun wx => [value (subject wx); predicate s])
                   (getQuads None (Some (predicate s)) (Some (subject s)) store)
  else [].

(** What [applyTransitiveProps] emits when none of these calls throws. *)
Definition transitiveOf (idx : Indices) (store : list Quad)
    (newPropsBatch : list Statement) : list Statement :=
  flat_map
    (fun s =>
       let p := predicate s in
       if bool_decide (p ∈ transitiveProps idx)
       then
         map (fun yz => st (subject s) p (NamedNode (value (object yz))))
             (getQuads (Some (object s)) (Some p) None store)
         ++ map (fun wx => st (NamedNode (value (subject wx))) p (object s))
                (getQuads None (Some p) (Some (subject s)) store)
       else [])
    newPropsBatch.

(** Every name that [applyInverseAndSymmetric] hands to [$rdf.sym] for the
    batch is one that [$rdf.sym] accepts. *)
Definition inverseNamesAccepted (idx : Indices) (batch : list Statement) : bool :=
  forallb (fun s => forallb sym_ok (inverseNames idx s)) batch.

(** The same for [applyTransitiveProps] against a store. *)
Definition transitiveNamesAccepted (idx : Indices) (store : list Quad)
    (batch : list Statement) : bool :=
  forallb (fun s => forallb sym_ok (transitiveNames idx store s)) batch.

(** Every [$rdf.sym] call of the second [if] of the drain is accepted in
    state [σ]. *)
Definition propsAccepted (idx : Indices) (σ : State) : bool :=
  inverseNamesAccepted idx (workProps σ)
  && transitiveNamesAccepted idx (rdfjsStore σ) (workProps σ).

(** An expander threw in state [σb]: it refused a name, and [σ'] is [σb]
    with the batch taken off the property queue. *)
Definition expanderThrew (idx : Indices) (σb σ' : State) : Prop :=
  propsAccepted idx σb = false /\ σ' = set_workProps [] σb.

(** The step of [rule] threw from state [σb], leaving [σ']: either the
    evaluator failed on the rule's query, which is logged, or the query was
    answered and an expander threw while the queues were drained. *)
Definition ruleThrew (queryQuads : string -> Store -> option (list Quad))
    (idx : Indices) (rule : string) (σb σ' : State) : Prop :=
  let q := getConstructQueryForRule rule in
  (queryQuads q (rdfjsStore σb) = None /\ σ' = add_asked q σb)
  \/ (is_Some (queryQuads q (rdfjsStore σb))
      /\ exists σe, grows σb σe /\ asked σe = asked σb ++ [q]
                    /\ totalAdded σe = totalAdded σb
                    /\ expanderThrew idx σe σ').

(** The loop [while (changed)], entered at [σ] with [fuel] turns left,
    comes to the start of a pass at [σ'] with [fuel'] turns left: every pass
    in between returned and reported a change. *)
Inductive passesFrom (queryQuads : string -> Store -> option (list Quad))
    (idx : Indices) (rules : list string) : nat -> State -> nat -> State -> Prop :=
  | passes_here (fuel : nat) (σ : State) :
      passesFrom queryQuads idx rules fuel σ fuel σ
  | passes_next (fuel : nat) (σ σ1 : State) (fuel' : nat) (σ' : State) :
      pass queryQuads (S fuel) idx rules σ = Returned (σ1, true) ->
      passesFrom queryQuads idx rules fuel σ1 fuel' σ' ->
      passesFrom queryQuads idx rules (S fuel) σ fuel' σ'.

(** What the second [if] of the drain leaves when none of them throws. *)
Definition drainPropsReturn (idx : Indices) (c : State * bool) : State * bool :=
  match workProps (fst c) with
  | [] => c
  | batch =>
      let σ1 := set_workProps [] (fst c) in
      enqueue_extra (transitiveOf idx (rdfjsStore σ1) batch)
        (enqueue_extra (applyDomainRange idx batch)
           (enqueue_extra (inverseAndSymmetricOf idx batch)
              (enqueue_extra (expandPropsWithClosure idx batch) (σ1, snd c))))
  end.

(** [q] declares [a] and [b] inverse of each other, in either order. *)
Definition links (q : Quad) (a b : string) : Prop :=
  (a = value (subject q) /\ b = value (object q))
  \/ (a = value (object q) /\ b = value (subject q)).

(** ** Closure and termination measures *)

(** Every successor of an expanded node is expanded or waits on the stack. *)
Definition frontier_ok (edges : gmap string (list string))
    (seenLocal stack : list string) : Prop :=
  forall a b, a ∈ seenLocal -> edge edges a b -> b ∈ seenLocal \/ b ∈ stack.

Definition inU (T : list Term) (P : list string) (s : Statement) : Prop :=
  subject s ∈ T /\ predicate s ∈ P /\ object s ∈ T.

Definition bounded (T : list Term) (P : list string) (σ : State) : Prop :=
  (forall s, s ∈ workTypes σ -> inU T P s) /\ (forall s, s ∈ workProps σ -> inU T P s)
  /\ (forall q, q ∈ rdfjsStore σ -> subject q ∈ T /\ object q ∈ T).

Definition allStatements (T : list Term) (P : list string) : list Statement :=
  flat_map (fun s => flat_map (fun p => map (fun o => st s p o) T) P) T.

Definition universe (T : list Term) (P : list string) : gset string :=
  list_to_set (map toNT (allStatements T P)).

(** Keys of the universe not yet seen, plus the statements queued. *)
Definition rank (T : list Term) (P : list string) (σ : State) : nat :=
  size (universe T P ∖ seen σ).

Definition potential (T : list Term) (P : list string) (σ : State) : nat :=
  rank T P σ + length (workTypes σ) + length (workProps σ).

Definition termsOf (l : list Statement) : list Term :=
  flat_map (fun s => [subject s; object s]) l.

Definition closeTerm (t : Term) : list Term :=
  [t; toSubject t; toObject t; NamedNode (value t)].

Definition map_values (M : gmap string (list string)) : list string :=
  flat_map snd (map_to_list M).

Definition termUniverse (idx : Indices) (σ : State) : list Term :=
  flat_map closeTerm (termsOf (workTypes σ ++ workProps σ ++ rdfjsStore σ))
  ++ map NamedNode (map_values (classSupers idx) ++ map_values (domainMap idx)
                    ++ map_values (rangeMap idx)).

Definition predUniverse (idx : Indices) (σ : State) : list string :=
  RDF_TYPE :: map predicate (workTypes σ ++ workProps σ)
  ++ map_values (propSupers idx) ++ map_values (inversePairs idx).

(** ** Worked inputs *)

(** A cyclic hierarchy: a -> b, a -> c, b -> a, c -> d. *)
Definition cyclic_edges : gmap string (list string) :=
  <["a" := ["b"; "c"]]> (<["b" := ["a"]]> (<["c" := ["d"]]> ∅)).

Definition trans_idx : Indices :=
  {| classSupers := ∅; propSupers := ∅; domainMap := ∅; rangeMap := ∅;
     symmetricProps := ∅; transitiveProps := {["urn:p"]}; inversePairs := ∅ |}.

Definition trans_store : list Quad :=
  [quad (NamedNode "urn:x") "urn:p" (NamedNode "urn:y");
   quad (NamedNode "urn:y") "urn:p" (BlankNode "b1")].

(** The same with the plain literal "urn:z" at the far end. *)
Definition trans_literal_store : list Quad :=
  [quad (NamedNode "urn:x") "urn:p" (NamedNode "urn:y");
   quad (NamedNode "urn:y") "urn:p" (Literal "urn:z" "" (Some XSD_STRING))].

Definition trans_batch : list Statement :=
  [st (NamedNode "urn:x") "urn:p" (NamedNode "urn:y")].

(** An anonymous inverse property, [_:b1 owl:inverseOf urn:q], and a batch
    that uses [urn:q]. *)
Definition anonymous_inverse : list Quad :=
  [quad (BlankNode "b1") OWL_INV (NamedNode "urn:q")].

Definition inverse_batch : list Statement :=
  [st (NamedNode "urn:x") "urn:q" (NamedNode "urn:y")].

(** A declared pair of inverses, [urn:p owl:inverseOf urn:q]. *)
Definition named_inverse : list Quad :=
  [quad (NamedNode "urn:p") OWL_INV (NamedNode "urn:q")].

(** x p y, with p a sub-property of q and q symmetric. *)
Definition sym_graph : list Statement :=
  [ st (NamedNode "urn:x") "urn:p" (NamedNode "urn:y");
    st (NamedNode "urn:p") RDFS_SP (NamedNode "urn:q");
    st (NamedNode "urn:q") RDF_TYPE (NamedNode OWL_SYM) ].

(** An evaluator for the symmetric rule: the flipped quads of declared
    symmetric properties that the store does not hold yet; nothing for the
    other queries. *)
Definition symmetricEvaluator (query : string) (store : list Quad)
    : option (list Quad) :=
  if String.eqb query (getConstructQueryForRule "symmetric")
  then Some (List.filter
               (fun t => negb (bool_decide (t ∈ store)))
               (map (fun t => quad (object t) (predicate t) (subject t))
                    (List.filter
                       (fun t => bool_decide (predicate t ∈ declared store OWL_SYM))
                       store)))
  else Some [].

Definition failingEvaluator (query : string) (store : list Quad)
    : option (list Quad) := None.

(** An evaluator that fails late: it answers as [symmetricEvaluator] does
    until the store holds y q x, and from then on rejects the symmetric
    query. *)
Definition lateFailingEvaluator (query : string) (store : list Quad)
    : option (list Quad) :=
  if String.eqb query (getConstructQueryForRule "symmetric")
     && bool_decide (quad (NamedNode "urn:y") "urn:q" (NamedNode "urn:x") ∈ store)
  then None
  else symmetricEvaluator query store.

Definition sym_result : Result :=
  returned_of (inferUntilStable symmetricEvaluator 3 ["symmetric"] sym_graph).

Definition sym_final : State :=
  state_of (runState symmetricEvaluator 3 ["symmetric"] sym_graph).

(** A drain on the symmetric graph: y q x has just been enqueued. *)
Definition drain_state : State :=
  enqueue (state_of (seedPhase (startIndices sym_graph) (initState sym_graph)))
          [st (NamedNode "urn:y") "urn:q" (NamedNode "urn:x")].

Definition drained : State * bool :=
  match processQueues 1 (startIndices sym_graph) drain_state with
  | Returned c => c
  | _ => (drain_state, false)
  end.

(** A hierarchy statement that only the seed brings to light: A p B with p a
    sub-property of rdfs:subClassOf, and x of type A. *)
Definition late_hierarchy : list Statement :=
  [ st (NamedNode "urn:A") "urn:p" (NamedNode "urn:B");
    st (NamedNode "urn:p") RDFS_SP (NamedNode RDFS_SC);
    st (NamedNode "urn:x") RDF_TYPE (NamedNode "urn:A") ].


(** ** Vocabulary of the further properties *)

(** The keys of a list of statements. *)
Definition keys (stmts : list Statement) : gset string :=
  list_to_set (map toNT stmts).

(** The queries of the rules a pass runs, in order. *)
Definition keptQueries (rules : list string) : list string :=
  map getConstructQueryForRule (filterRules rules).

(** A state with one property assertion queued and nothing known about its
    predicate. *)
Definition lone_state : State :=
  enqueue (initState []) [st (NamedNode "urn:x") "urn:p" (NamedNode "urn:y")].

(** An engine answer with a repeated quad, a blank-node subject and a quad
    of a named graph. *)
Definition noisyEvaluator (query : string) (store : list Quad)
    : option (list Quad) :=
  Some [quad (BlankNode "b0") "urn:p" (Literal "v" "" None);
        quad (BlankNode "b0") "urn:p" (Literal "v" "" None);
        st4 (NamedNode "urn:x") "urn:p" (NamedNode "urn:y") (Some "urn:g")].

(** The containers of a state agree: the seen index is the key set of the
    working graph, the shared store is the store as loaded plus the overlay
    store, both stores are duplicate-free, and the overlay holds
    default-graph quads whose subjects are not literals. *)
Definition consistent (loaded : list Statement) (σ : State) : Prop :=
  seen σ = keys (baseGraph σ)
  /\ (forall q, q ∈ rdfjsStore σ
                <-> q ∈ formulaToRdfjsStore loaded \/ q ∈ overlayStore σ)
  /\ NoDup (overlayStore σ) /\ NoDup (rdfjsStore σ)
  /\ (forall q, q ∈ overlayStore σ ->
                graph q = None /\ termType (subject q) <> T_Literal).

(** ** Saturation *)

(** The statement [enqueue] adds to the working graph for a candidate. *)
Definition norm (s : Statement) : Statement :=
  st (subject s) (predicate s) (object s).

(** What the drain derives from one queued property assertion, joined with
    a given store. *)
Definition propExpansions (idx : Indices) (store : list Quad) (s : Statement)
    : list Statement :=
  expandPropsWithClosure idx [s] ++ default [] (applyInverseAndSymmetric idx [s])
  ++ applyDomainRange idx [s] ++ default [] (applyTransitiveProps idx store [s]).

(** What the drain derives from a statement, by the queue it is routed to. *)
Definition expansions (idx : Indices) (store : list Quad) (s : Statement)
    : list Statement :=
  if is_type s then expandTypesWithClosure idx [s] else propExpansions idx store s.

(** A statement waits in the type queue, or its type expansions are seen. *)
Definition typeSettled (idx : Indices) (σ : State) (s : Statement) : Prop :=
  s ∈ workTypes σ
  \/ forall t, t ∈ expandTypesWithClosure idx [s] -> toNT t ∈ seen σ.

(** The two expanders that can throw return for the statement, joined with
    a given store. *)
Definition expandable (idx : Indices) (store : list Quad) (s : Statement) : Prop :=
  is_Some (applyInverseAndSymmetric idx [s])
  /\ is_Some (applyTransitiveProps idx store [s]).

(** A statement waits in the property queue, or no expander throws on it
    and its property expansions are seen. *)
Definition propSettled (idx : Indices) (store : list Quad) (σ : State)
    (s : Statement) : Prop :=
  s ∈ workProps σ
  \/ (expandable idx store s
      /\ forall t, t ∈ propExpansions idx store s -> toNT t ∈ seen σ).

(** From [σ] to [σ']: what was settled stays settled, the shared store grew,
    and every statement the working graph gained is settled by the queue of
    its predicate. *)
Definition advances (idx : Indices) (store : list Quad) (σ σ' : State) : Prop :=
  (forall s, typeSettled idx σ s -> typeSettled idx σ' s)
  /\ (forall s, propSettled idx store σ s -> propSettled idx store σ' s)
  /\ rdfjsStore σ ⊆ rdfjsStore σ'
  /\ (forall s, s ∈ baseGraph σ' ->
        s ∈ baseGraph σ
        \/ exists s0, s = norm s0
             /\ ((is_type s0 = true /\ typeSettled idx σ' s0)
                 \/ (is_type s0 = false /\ propSettled idx store σ' s0))).

(** ** Terms *)

(** Terms that the seed's conversion ([asRdfjsSubject], [asRdfjsObject]) and
    that of [enqueue] ([toSubject], [toObject]) read alike: named nodes with
    an absolute IRI, blank nodes whose label has no [_:] or [_g_] prefix and
    is no IRI, literals whose text does not look like a blank-node label and
    that carry a language tag or an absolute datatype IRI. *)
Definition plainTerm (t : Term) : bool :=
  match t with
  | NamedNode v => isAbsoluteIri v
  | BlankNode i =>
      negb (isAbsoluteIri (normalizeIriString i))
      && negb (startsWith "_:" i) && negb (startsWith "_g_" i)
  | Literal v lang dt =>
      negb (looksLikeBnodeId v)
      && (negb (String.eqb lang "")
          || match dt with Some d => isAbsoluteIri d | None => false end)
  end.

(** Terms in the form the factories of the run give and keep: any named
    node, a blank node with a label, a plain string, or a literal with a
    language tag in lower case. On such a term [toObject], [quadObject] and
    the conversion of [formulaToRdfjsStore] change nothing. *)
Definition normalTerm (t : Term) : bool :=
  match t with
  | NamedNode _ => true
  | BlankNode i => negb (String.eqb i "")
  | Literal v lang dt =>
      if String.eqb lang "" then bool_decide (dt = Some XSD_STRING)
      else String.eqb (lower_string lang) lang
           && bool_decide (dt = Some RDF_LANGSTRING)
  end.

Definition normalStatement (s : Statement) : bool :=
  normalTerm (subject s) && normalTerm (object s).

(** A lift that the seed and [enqueue] write alike and that reads back from
    the store as it is: plain, normal terms and no literal subject. *)
Definition liftable (s : Statement) : bool :=
  plainTerm (subject s) && plainTerm (object s) && normalStatement s
  && negb (bool_decide (termType (subject s) = T_Literal)).

(** What the seed can lift from a graph: the statements of
    [seededPropLifts] and of [seededTypeLifts] whose key the graph does not
    hold. *)
Definition seedLifts (idx : Indices) (g : list Statement) : list Statement :=
  List.filter
    (fun s => negb (bool_decide (toNT s ∈ keys g)))
    (expandPropsWithClosure idx (List.filter (fun s => negb (is_type s)) g)
     ++ expandTypesWithClosure idx (List.filter is_type g)).

Definition wellFormedSeed (g : list Statement) : bool :=
  forallb liftable (seedLifts (startIndices g) g).

(** An answer of the engine that reads back, in the data handler of
    [applyConstructWithComunica], as a statement of normal terms: no empty
    blank-node label, no capital in a language tag. Its datatype is free,
    the handler drops it. *)
Definition normalAnswer (x : Quad) : bool :=
  normalStatement (quadToStatement true x).

Definition wellFormedAnswers
    (queryQuads : string -> list Quad -> option (list Quad)) : Prop :=
  forall query store quads,
    queryQuads query store = Some quads ->
    forall x, x ∈ quads -> normalAnswer x = true.

(** The quad [enqueue] writes for a statement. *)
Definition quadOf (s : Statement) : Quad :=
  quad (toSubject (subject s)) (predicate s) (toObject (object s)).

(** The state of a run over the graph [g], as far as a second run depends
    on it: the queued statements are normal; every overlay quad was written
    for a normal statement; the shared store is the store of [g] with the
    overlay quads added in their order; and every key of the seen index is
    that of a statement of [g] or of a statement whose quad is in the
    overlay. *)
Definition steady (g : list Statement) (σ : State) : Prop :=
  (forall s, s ∈ workTypes σ ++ workProps σ -> normalStatement s = true)
  /\ (forall q, q ∈ overlayStore σ ->
         exists s, normalStatement s = true /\ q = quadOf s)
  /\ rdfjsStore σ
     = fold_left (fun store q => addQuad q store) (overlayStore σ)
                 (formulaToRdfjsStore g)
  /\ (forall k, k ∈ seen σ ->
         k ∈ keys g
         \/ exists s, toNT s = k /\ normalStatement s = true
                      /\ quadOf s ∈ overlayStore σ).

(** The symmetric evaluator, leaving out the answers that are not normal. *)
Definition cleanEvaluator (query : string) (store : list Quad)
    : option (list Quad) :=
  match symmetricEvaluator query store with
  | Some quads => Some (List.filter normalAnswer quads)
  | None => None
  end.

(** The symmetric graph with a typed literal that no rule and no lift
    touches. *)
Definition typed_graph : list Statement :=
  sym_graph
  ++ [st (NamedNode "urn:x") "urn:age"
         (literal_dt "5" "http://www.w3.org/2001/XMLSchema#integer")].

(** A typed literal under a sub-property: the seed lifts it. *)
Definition typed_lift : list Statement :=
  [ st (NamedNode "urn:x") "urn:p"
       (literal_dt "5" "http://www.w3.org/2001/XMLSchema#integer");
    st (NamedNode "urn:p") RDFS_SP (NamedNode "urn:r") ].

(** The first two characters of the schemes [isAbsoluteIri] knows. *)
Definition schemeHeads : list (ascii * ascii) :=
  [("h", "t"); ("w", "s"); ("f", "t"); ("f", "i"); ("u", "r"); ("t", "a");
   ("m", "a"); ("d", "a"); ("i", "p")]%char.

(** ** The object store *)

Definition key_lt (a b : Key) : Prop := key_compare a b = Lt.

(** The rows are in strictly increasing key order: what the object store
    keeps. *)
Fixpoint sortedDB (db : list Row) : Prop :=
  match db with
  | [] => True
  | r :: rest => (forall r', r' ∈ rest -> key_lt (keyOf r) (keyOf r')) /\ sortedDB rest
  end.

(** The key under which a statement is stored. *)
Definition keyOfStatement (s : Statement) : Key :=
  (value (subject s), predicate s, value (object s), default "" (graph s)).

(** Terms that come back from the store as they went in. *)
Definition storableSubject (t : Term) : bool :=
  match t with
  | NamedNode v => isAbsoluteIri v
  | BlankNode i =>
      negb (isAbsoluteIri i) && negb (startsWith "_:" i) && negb (startsWith "_g_" i)
      && negb (String.eqb i "")
  | Literal _ _ _ => false
  end.

Definition storableObject (t : Term) : bool :=
  match t with
  | NamedNode v => isAbsoluteIri v
  | BlankNode i =>
      negb (startsWith "_:" i) && negb (startsWith "_g_" i) && negb (String.eqb i "")
  | Literal v lang dt =>
      negb (looksLikeBnodeId v)
      && (if String.eqb lang ""
          then bool_decide (dt = Some XSD_STRING)
          else bool_decide (dt = Some RDF_LANGSTRING))
  end.

(** Statements that come back from the store as they went in: storable
    terms, an absolute predicate, and the default graph or a graph named by
    an absolute IRI. *)
Definition storable (s : Statement) : bool :=
  storableSubject (subject s) && isAbsoluteIri (predicate s)
  && storableObject (object s)
  && match graph s with
     | Some g => isAbsoluteIri g
     | None => true
     end.

(** ** Stashing *)

(** The graph term [stashGraphToIndexedDB] gives the statements it writes:
    in mode [named] the IRI given or, for want of one, made; none in any
    other mode. *)
Definition stashTarget (h : Host) (mode : string) (graphIRI : option string)
    (autoBase : string) : option string :=
  if String.eqb mode "named"
  then Some (if truthy graphIRI then default "" graphIRI
             else makeNamedGraphIRI h autoBase)
  else None.

(** A statement moved to a graph. *)
Definition retarget (g : option string) (s : Statement) : Statement :=
  st4 (subject s) (predicate s) (object s) g.

(** The store after the symmetric graph has been imported. *)
Definition sym_db : list Row := storeTriplesInNamedGraph sym_graph [].

(** A statement with the language tag of its object, if it has one, in
    lower case: what N3's factory makes of it. *)
Definition lowerTag (s : Statement) : Statement :=
  st4 (subject s) (predicate s)
      (match object s with
       | Literal v lang dt => Literal v (lower_string lang) dt
       | t => t
       end)
      (graph s).

(** Rows with language tags in upper and in lower case. *)
Definition tagged_db : list Row :=
  storeTriplesInNamedGraph
    [st (NamedNode "urn:x") "urn:p" (literal_lang "chat" "FR");
     st (NamedNode "urn:x") "urn:q" (literal_lang "cat" "en")] [].

(** ** Hierarchies *)

(** Some quad of the store, in any graph, has predicate [p], a subject of
    value [a] and an object of value [b]. *)
Definition declares (store : list Quad) (p a b : string) : Prop :=
  exists q, q ∈ store /\ predicate q = p
            /\ value (subject q) = a /\ value (object q) = b.

(** ** Names *)

(** The first comparison that decides. *)
Definition lexi (c1 c2 : comparison) : comparison :=
  match c1 with
  | Eq => c2
  | _ => c1
  end.

(** The order of two dates in time, read off their UTC fields. *)
Definition dateCompare (d1 d2 : Date) : comparison :=
  lexi (Nat.compare (getUTCFullYear d1) (getUTCFullYear d2))
    (lexi (Nat.compare (getUTCMonth d1) (getUTCMonth d2))
       (lexi (Nat.compare (getUTCDate d1) (getUTCDate d2))
          (lexi (Nat.compare (getUTCHours d1) (getUTCHours d2))
             (lexi (Nat.compare (getUTCMinutes d1) (getUTCMinutes d2))
                (Nat.compare (getUTCSeconds d1) (getUTCSeconds d2)))))).

(** The fields of a date of the years 1000 to 9999. *)
Definition fourDigitYear (d : Date) : Prop :=
  (1000 <= getUTCFullYear d < 10 * 1000 /\ getUTCMonth d < 12
   /\ 1 <= getUTCDate d <= 31 /\ getUTCHours d < 24
   /\ getUTCMinutes d < 60 /\ getUTCSeconds d < 60)%nat.

Definition is_hex (c : ascii) : bool :=
  is_digit c || (Nat.leb 97 (nat_of_ascii c) && Nat.leb (nat_of_ascii c) 102).

(** A string of the shape of a template: a hexadecimal digit for every [x],
    one of [8 9 a b] for every [y], and the template's own character
    elsewhere. *)
Fixpoint shaped (template s : string) : bool :=
  match template, s with
  | EmptyString, EmptyString => true
  | String t template', String c s' =>
      (if Ascii.eqb t "x" then is_hex c
       else if Ascii.eqb t "y"
       then existsb (Ascii.eqb c) ["8"; "9"; "a"; "b"]%char
       else Ascii.eqb t c)
      && shaped template' s'
  | _, _ => false
  end.

(** A version-4 UUID in lower case. *)
Definition isUuidV4 (s : string) : bool :=
  shaped "xxxxxxxx-xxxx-4xxx-yxxx-xxxxxxxxxxxx" s.

(** ** Worked inputs of the persistence functions *)

Definition labelled : list Statement :=
  [st (NamedNode "urn:x") "urn:p" (literal_lang "chat" "fr");
   st (BlankNode "n0") "urn:p" (literal_dt "1" "http://www.w3.org/2001/XMLSchema#integer")].

Definition someHost : Host :=
  {| now := mkDate 2026 10 2 9 5 0 250;
     randomUUID := None;
     random16 := fun i => i mod 16 |}.


(** * Properties *)

(** ** Containers *)

Lemma elem_of_filter_bool {A} (f : A -> bool) (l : list A) (x : A) :
  x ∈ List.filter f l <-> x ∈ l /\ f x = true.
Proof. rewrite !list_elem_of_In. apply filter_In. Qed.

Lemma elem_of_flat_map {A B} (f : A -> list B) (l : list A) (y : B) :
  y ∈ flat_map f l <-> exists x, x ∈ l /\ y ∈ f x.
Proof.
  rewrite list_elem_of_In, in_flat_map. split; intros (x & H1 & H2); exists x;
    rewrite ?list_elem_of_In in *; auto.
Qed.

Lemma elem_of_map {A B} (f : A -> B) (l : list A) (y : B) :
  y ∈ map f l <-> exists x, y = f x /\ x ∈ l.
Proof. apply (list_elem_of_fmap f l y). Qed.

Lemma elem_of_set_add x y l : x ∈ set_add y l <-> x = y \/ x ∈ l.
Proof.
  unfold set_add. case_bool_decide; [|rewrite elem_of_app, list_elem_of_singleton];
    naive_solver.
Qed.

Lemma NoDup_set_add y l : NoDup l -> NoDup (set_add y l).
Proof.
  unfold set_add. case_bool_decide; [done|]. intros Hl.
  apply NoDup_app. split; [done|]. split; [|apply NoDup_singleton].
  intros x Hx Hx'. apply list_elem_of_singleton in Hx'. by subst.
Qed.

Lemma elem_of_addQuad q q' store : q' ∈ addQuad q store <-> q' = q \/ q' ∈ store.
Proof.
  unfold addQuad. case_bool_decide; [|rewrite elem_of_app, list_elem_of_singleton];
    naive_solver.
Qed.

Lemma NoDup_addQuad q store : NoDup store -> NoDup (addQuad q store).
Proof.
  unfold addQuad. case_bool_decide; [done|]. intros Hl.
  apply NoDup_app. split; [done|]. split; [|apply NoDup_singleton].
  intros x Hx Hx'. apply list_elem_of_singleton in Hx'. by subst.
Qed.

Lemma elem_of_formula_add s s' g : s' ∈ formula_add g s <-> s' = s \/ s' ∈ g.
Proof.
  unfold formula_add. case_bool_decide; [|rewrite elem_of_app, list_elem_of_singleton];
    naive_solver.
Qed.

Lemma NoDup_formula_add s g : NoDup g -> NoDup (formula_add g s).
Proof.
  unfold formula_add. case_bool_decide; [done|]. intros Hl.
  apply NoDup_app. split; [done|]. split; [|apply NoDup_singleton].
  intros x Hx Hx'. apply list_elem_of_singleton in Hx'. by subst.
Qed.

Lemma matches_spec {A} `{EqDecision A} (pat : option A) (x : A) :
  matches pat x = true <-> forall y, pat = Some y -> x = y.
Proof.
  destruct pat as [y|]; simpl.
  - rewrite bool_decide_eq_true. naive_solver.
  - naive_solver.
Qed.

Lemma elem_of_getQuads s p o store q :
  q ∈ getQuads s p o store
  <-> q ∈ store /\ (forall x, s = Some x -> subject q = x)
      /\ (forall x, p = Some x -> predicate q = x)
      /\ (forall x, o = Some x -> object q = x).
Proof.
  unfold getQuads. rewrite elem_of_filter_bool, !andb_true_iff, !matches_spec.
  naive_solver.
Qed.

Lemma lookup_set_map_add a b M k x :
  x ∈ lookup_set (map_add a b M) k <-> (k = a /\ x = b) \/ x ∈ lookup_set M k.
Proof.
  unfold map_add, lookup_set at 1. destruct (decide (k = a)) as [->|Hne].
  - rewrite lookup_insert_eq. simpl. rewrite elem_of_set_add. naive_solver.
  - rewrite lookup_insert_ne by done. fold (lookup_set M k). naive_solver.
Qed.

(** ** Loops that can throw *)

Lemma forEach_Some {A B} (body : A -> option (list B)) (l : list A) out :
  forEach body l = Some out
  <-> (forall x, x ∈ l -> is_Some (body x))
      /\ out = flat_map (fun x => default [] (body x)) l.
Proof.
  revert out. induction l as [|x l IH]; intros out; simpl.
  - split; [intros [= <-]; split; [|done]; by intros x ?%elem_of_nil|].
    by intros [_ ->].
  - destruct (body x) as [ys|] eqn:E.
    + destruct (forEach body l) as [zs|] eqn:El.
      * destruct (proj1 (IH zs) eq_refl) as [H1 ->]. split.
        -- intros [= <-]. split; [|done]. intros y Hy.
           apply elem_of_cons in Hy as [->|Hy]; [by rewrite E|by apply H1].
        -- by intros [_ ->].
      * split; [done|]. intros [H _].
        assert (Hl : forall y, y ∈ l -> is_Some (body y))
          by (intros y Hy; apply H; apply elem_of_cons; by right).
        pose proof (proj2 (IH _) (conj Hl eq_refl)). done.
    + split; [done|]. intros [H _].
      destruct (H x) as [? Hx]; [apply elem_of_cons; by left|]. congruence.
Qed.

Lemma forEach_None {A B} (body : A -> option (list B)) (l : list A) :
  forEach body l = None <-> exists x, x ∈ l /\ body x = None.
Proof.
  induction l as [|x l IH]; simpl.
  - split; [done|]. by intros (x & ?%elem_of_nil & _).
  - destruct (body x) as [ys|] eqn:E.
    + destruct (forEach body l) as [zs|] eqn:El.
      * split; [done|]. intros (y & Hy & Ey).
        apply elem_of_cons in Hy as [->|Hy]; [congruence|].
        assert (Some zs = None) by (apply IH; by exists y). done.
      * split; [|done]. intros _. destruct (proj1 IH eq_refl) as (y & Hy & Ey).
        exists y. split; [apply elem_of_cons; by right|done].
    + split; [|done]. intros _. exists x. split; [apply elem_of_cons; by left|done].
Qed.

Lemma forEach_guarded {A B} (ok : A -> bool) (h : A -> B) (l : list A) :
  forEach (fun x => if ok x then Some [h x] else None) l
  = if forallb ok l then Some (map h l) else None.
Proof.
  induction l as [|x l IH]; simpl; [done|]. rewrite IH.
  destruct (ok x); simpl; [|done]. by destruct (forallb ok l).
Qed.

(** A loop whose body throws when a guard fails and otherwise pushes what
    [h] gives. *)
Lemma forEach_guards {A B} (ok : A -> bool) (h : A -> list B) (l : list A) :
  forEach (fun x => if ok x then Some (h x) else None) l
  = if forallb ok l then Some (flat_map h l) else None.
Proof.
  induction l as [|x l IH]; simpl; [done|]. rewrite IH.
  destruct (ok x); simpl; [|done]. by destruct (forallb ok l).
Qed.

Lemma forEach_ext {A B} (f g : A -> option (list B)) (l : list A) :
  (forall x, f x = g x) -> forEach f l = forEach g l.
Proof. intros H. induction l as [|x l IH]; simpl; [done|]. by rewrite H, IH. Qed.

Lemma forallb_flat_map {A B} (ok : B -> bool) (f : A -> list B) (l : list A) :
  forallb ok (flat_map f l) = forallb (fun x => forallb ok (f x)) l.
Proof.
  induction l as [|x l IH]; simpl; [done|]. by rewrite forallb_app, IH.
Qed.

Lemma forallb_ext_eq {A} (f g : A -> bool) (l : list A) :
  (forall x, f x = g x) -> forallb f l = forallb g l.
Proof. intros H. induction l as [|x l IH]; simpl; [done|]. by rewrite H, IH. Qed.

Lemma forallb_elem_of {A} (f : A -> bool) (l : list A) :
  forallb f l = true <-> forall x, x ∈ l -> f x = true.
Proof.
  rewrite forallb_forall. split; intros H x Hx; apply H;
    by apply list_elem_of_In.
Qed.

Lemma forallb_false_elem_of {A} (f : A -> bool) (l : list A) :
  forallb f l = false <-> exists x, x ∈ l /\ f x = false.
Proof.
  induction l as [|x l IH]; simpl.
  - split; [done|]. by intros (x & ?%elem_of_nil & _).
  - rewrite andb_false_iff, IH. split.
    + intros [H|(y & Hy & H)]; [exists x|exists y]; (split; [|done]);
        apply elem_of_cons; auto.
    + intros (y & Hy & H). apply elem_of_cons in Hy as [->|Hy]; [by left|].
      right. by exists y.
Qed.


(** ** Hierarchy closure *)

Section closure.
Variable edges : gmap string (list string).

Lemma closure_loop_NoDup seenLocal stack :
  NoDup seenLocal -> NoDup (closure_loop edges seenLocal stack).
Proof.
  funelim (closure_loop edges seenLocal stack); intros Hnd; [done|auto|].
  match goal with IH : NoDup _ -> _ |- _ => apply IH end.
  match goal with Hp : bool_decide _ = false |- _ =>
    pose proof (proj1 (bool_decide_eq_false _) Hp) as Hp' end.
  apply NoDup_app. split; [done|]. split; [|apply NoDup_singleton].
  intros x Hx Hx'. apply list_elem_of_singleton in Hx'. by subst.
Qed.

(** Whatever holds of the start nodes and is carried along edges holds of
    every node the loop collects. *)
Lemma closure_loop_sound (R : string -> Prop) seenLocal stack :
  (forall a b, R a -> edge edges a b -> R b) ->
  (forall y, y ∈ seenLocal -> R y) -> (forall y, y ∈ stack -> R y) ->
  forall y, y ∈ closure_loop edges seenLocal stack -> R y.
Proof.
  intros HR.
  funelim (closure_loop edges seenLocal stack); intros Hs Hst y Hy.
  - auto.
  - match goal with IH : _ -> _ -> _ -> forall y, _ -> _ |- _ =>
      eapply IH; eauto end.
    intros; apply Hst; set_solver.
  - match goal with IH : _ -> _ -> _ -> forall y, _ -> _ |- _ =>
      eapply IH; eauto end.
    + intros z Hz. apply elem_of_app in Hz as [Hz|Hz]; [auto|].
      apply Hst. set_solver.
    + intros z Hz. unfold push_all in Hz. destruct (edges !! p) as [ps|] eqn:E.
      * apply elem_of_app in Hz as [Hz|Hz].
        -- apply (HR p); [apply Hst; set_solver|]. exists ps. split; [done|].
           by apply elem_of_reverse.
        -- apply Hst; set_solver.
      * apply Hst; set_solver.
Qed.

Lemma closure_loop_complete seenLocal stack :
  frontier_ok edges seenLocal stack ->
  (forall y, y ∈ seenLocal -> y ∈ closure_loop edges seenLocal stack)
  /\ (forall y, y ∈ stack -> y ∈ closure_loop edges seenLocal stack)
  /\ (forall a b, a ∈ closure_loop edges seenLocal stack -> edge edges a b ->
                  b ∈ closure_loop edges seenLocal stack).
Proof.
  funelim (closure_loop edges seenLocal stack); intros Hf.
  - split; [done|]. split; [set_solver|]. intros a b Ha Hab.
    destruct (Hf a b Ha Hab); set_solver.
  - match goal with e : bool_decide _ = true |- _ =>
      pose proof (proj1 (bool_decide_eq_true _) e) as e' end.
    match goal with IH : frontier_ok _ _ _ -> _ |- _ =>
      destruct IH as (H1 & H2 & H3) end.
    { intros a b Ha Hab. destruct (Hf a b Ha Hab) as [?|Hb]; [by left|].
      apply elem_of_cons in Hb as [->|?]; auto. }
    split; [done|]. split; [|done].
    intros y Hy. apply elem_of_cons in Hy as [->|?]; auto.
  - match goal with Hp : bool_decide _ = false |- _ =>
      pose proof (proj1 (bool_decide_eq_false _) Hp) as Hp' end.
    match goal with IH : frontier_ok _ _ _ -> _ |- _ =>
      destruct IH as (H1 & H2 & H3) end.
    { intros a b Ha Hab. apply elem_of_app in Ha as [Ha|Ha].
      - destruct (Hf a b Ha Hab) as [?|Hb]; [left; set_solver|].
        apply elem_of_cons in Hb as [->|?]; [left; set_solver|].
        right. unfold push_all. destruct (edges !! p); set_solver.
      - apply list_elem_of_singleton in Ha as ->. right.
        destruct Hab as (ps & E & Hb). unfold push_all. rewrite E.
        apply elem_of_app. left. by apply elem_of_reverse. }
    split; [intros; apply H1; set_solver|]. split; [|done].
    intros y Hy. apply elem_of_cons in Hy as [->|?]; [apply H1; set_solver|].
    apply H2. unfold push_all. destruct (edges !! p); set_solver.
Qed.

Lemma closure_loop_reachable child parents x :
  edges !! child = Some parents ->
  x ∈ closure_loop edges [] (reverse parents) <-> tc (edge edges) child x.
Proof.
  intros E. split.
  - apply (closure_loop_sound (tc (edge edges) child)).
    + intros a b Ha Hab. eapply tc_r; eauto.
    + intros y Hy. by apply elem_of_nil in Hy.
    + intros y Hy. rewrite elem_of_reverse in Hy. apply tc_once. by exists parents.
  - destruct (closure_loop_complete [] (reverse parents)) as (_ & H2 & H3).
    { intros a b Ha. by apply elem_of_nil in Ha. }
    assert (Hcl : forall y z, tc (edge edges) y z ->
              y ∈ closure_loop edges [] (reverse parents) ->
              z ∈ closure_loop edges [] (reverse parents)).
    { induction 1; eauto. }
    intros Htc. inversion Htc as [? ? Hxy|? y ? Hxy Hyz]; subst.
    + apply H2. apply elem_of_reverse. destruct Hxy as (ps & E' & Hx). congruence.
    + apply (Hcl y x Hyz). apply H2. apply elem_of_reverse.
      destruct Hxy as (ps & E' & Hx). congruence.
Qed.
End closure.

(** C2. For every finite direct-edge map, [transitiveClosure] is a total
    function (the loop is defined by well-founded recursion on the number of
    edges still to be pushed plus the stack height, cycles or not). For each
    child that is a key of the map it returns the duplicate-free set of
    exactly the identifiers reachable from the child by one or more edges;
    hence the child is in its own closure exactly when it lies on a cycle. *)
Theorem transitiveClosure_reachable (edges : gmap string (list string))
    (child : string) (parents : list string) :
  edges !! child = Some parents ->
  exists cl, transitiveClosure edges !! child = Some cl /\ NoDup cl
    /\ (forall x, x ∈ cl <-> tc (edge edges) child x)
    /\ (child ∈ cl <-> tc (edge edges) child child).
Proof.
  intros E. exists (closure_loop edges [] (reverse parents)).
  split; [unfold transitiveClosure; by rewrite lookup_fmap, E|].
  split; [apply closure_loop_NoDup, NoDup_nil_2|].
  split; [intros x|]; by apply closure_loop_reachable.
Qed.

Lemma transitiveClosure_reachable_witness :
  cyclic_edges !! "a" = Some ["b"; "c"]
  /\ exists cl, transitiveClosure cyclic_edges !! "a" = Some cl /\ NoDup cl
       /\ (forall x, x ∈ cl <-> tc (edge cyclic_edges) "a" x)
       /\ ("a" ∈ cl <-> tc (edge cyclic_edges) "a" "a").
Proof.
  split; [reflexivity|].
  apply (transitiveClosure_reachable cyclic_edges "a" ["b"; "c"]). reflexivity.
Defined.

Example transitiveClosure_cyclic :
  transitiveClosure cyclic_edges !! "a" = Some ["c"; "d"; "b"; "a"]
  /\ transitiveClosure cyclic_edges !! "c" = Some ["d"]
  /\ transitiveClosure cyclic_edges !! "d" = None.
Proof. vm_compute. done. Qed.

Lemma dom_transitiveClosure edges : dom (transitiveClosure edges) = dom edges.
Proof. unfold transitiveClosure. apply dom_fmap_L. Qed.


(** ** Property metadata *)

Lemma elem_of_declared store cls p :
  p ∈ declared store cls
  <-> exists q, q ∈ store /\ predicate q = RDF_TYPE /\ object q = NamedNode cls
                /\ value (subject q) = p.
Proof.
  unfold declared. rewrite elem_of_list_to_set, elem_of_map. split.
  - intros (q & -> & Hq). apply elem_of_getQuads in Hq as (? & _ & Hp & Ho).
    exists q. naive_solver.
  - intros (q & ? & ? & ? & <-). exists q. split; [done|].
    apply elem_of_getQuads. naive_solver.
Qed.

Lemma links_sym q a b : links q a b -> links q b a.
Proof. unfold links. naive_solver. Qed.

Lemma lookup_set_inverse_step M q k x :
  x ∈ lookup_set (inverse_step M q) k <-> links q k x \/ x ∈ lookup_set M k.
Proof.
  unfold inverse_step, links. rewrite !lookup_set_map_add. naive_solver.
Qed.

Lemma lookup_set_inverse_fold qs M k x :
  x ∈ lookup_set (fold_left inverse_step qs M) k
  <-> (exists q, q ∈ qs /\ links q k x) \/ x ∈ lookup_set M k.
Proof.
  revert M. induction qs as [|q qs IH]; intros M; simpl.
  - split; [auto|]. intros [(q & Hq & _)|?]; [by apply elem_of_nil in Hq|done].
  - rewrite IH, lookup_set_inverse_step. split.
    + intros [(q' & ? & ?)|[?|?]]; [left; exists q'|left; exists q|right];
        set_solver.
    + intros [(q' & Hq' & ?)|?]; [|auto].
      apply elem_of_cons in Hq' as [->|?]; [auto|]. left. by exists q'.
Qed.

(** The inverse map holds exactly the declared pairs, both ways round. *)
Lemma elem_of_buildInversePairs store p x :
  x ∈ lookup_set (buildInversePairs store) p
  <-> exists q, q ∈ store /\ predicate q = OWL_INV /\ links q p x.
Proof.
  unfold buildInversePairs. rewrite !lookup_set_inverse_fold. split.
  - intros [(q & Hq & ?)|[(q & Hq & ?)|H]].
    + apply elem_of_getQuads in Hq. exists q. naive_solver.
    + apply elem_of_getQuads in Hq. exists q. naive_solver.
    + unfold lookup_set in H. rewrite lookup_empty in H. by apply elem_of_nil in H.
  - intros (q & ? & ? & ?). left. exists q. split; [|done].
    apply elem_of_getQuads. naive_solver.
Qed.

Lemma elem_of_inverseNames idx s name :
  name ∈ inverseNames idx s
  <-> (predicate s ∈ symmetricProps idx /\ name = predicate s)
      \/ name ∈ lookup_set (inversePairs idx) (predicate s).
Proof.
  unfold inverseNames. rewrite elem_of_app.
  case_bool_decide; [rewrite list_elem_of_singleton|rewrite elem_of_nil]; naive_solver.
Qed.

Lemma elem_of_inverseAndSymmetricOf idx batch t :
  t ∈ inverseAndSymmetricOf idx batch
  <-> exists s, s ∈ batch
        /\ ((predicate s ∈ symmetricProps idx
             /\ t = st (object s) (predicate s) (subject s))
            \/ exists inv, inv ∈ lookup_set (inversePairs idx) (predicate s)
                           /\ t = st (object s) inv (subject s)).
Proof.
  unfold inverseAndSymmetricOf.
  rewrite elem_of_flat_map. apply exist_proper; intros s.
  apply and_iff_compat_l. rewrite elem_of_map. split.
  - intros (name & -> & [[? ->]|?]%elem_of_inverseNames); [by left|].
    right. by exists name.
  - intros [[? ->]|(inv & ? & ->)]; eexists; (split; [done|]);
      apply elem_of_inverseNames; auto.
Qed.

(** [applyInverseAndSymmetric] returns what the loops push when every
    [$rdf.sym] call is accepted, and throws otherwise. *)
Lemma applyInverseAndSymmetric_eq idx batch :
  applyInverseAndSymmetric idx batch
  = if inverseNamesAccepted idx batch
    then Some (inverseAndSymmetricOf idx batch) else None.
Proof.
  unfold applyInverseAndSymmetric, inverseNamesAccepted, inverseAndSymmetricOf.
  rewrite <- (forEach_guards (fun s => forallb sym_ok (inverseNames idx s))).
  apply forEach_ext. intros s. rewrite forEach_guarded.
  unfold inverseNames. rewrite forallb_app, map_app.
  case_bool_decide; simpl.
  - destruct (sym_ok (predicate s)); simpl; [|done].
    by destruct (forallb sym_ok (lookup_set (inversePairs idx) (predicate s))).
  - by destruct (forallb sym_ok (lookup_set (inversePairs idx) (predicate s))).
Qed.

Lemma applyInverseAndSymmetric_Some idx batch out :
  applyInverseAndSymmetric idx batch = Some out ->
  inverseNamesAccepted idx batch = true /\ out = inverseAndSymmetricOf idx batch.
Proof.
  rewrite applyInverseAndSymmetric_eq.
  destruct (inverseNamesAccepted idx batch); [|done]. by intros [= <-].
Qed.

(** It throws exactly when a symmetric predicate of the batch, or an inverse
    of a predicate of the batch, is a name that [$rdf.sym] refuses. *)
Lemma applyInverseAndSymmetric_throws idx batch :
  applyInverseAndSymmetric idx batch = None
  <-> exists s name, s ∈ batch /\ sym_ok name = false
        /\ ((predicate s ∈ symmetricProps idx /\ name = predicate s)
            \/ name ∈ lookup_set (inversePairs idx) (predicate s)).
Proof.
  rewrite applyInverseAndSymmetric_eq. unfold inverseNamesAccepted.
  destruct (forallb _ batch) eqn:E.
  - split; [done|]. intros (s & name & Hs & Hn & Hin).
    rewrite forallb_elem_of in E. specialize (E s Hs).
    rewrite forallb_elem_of in E.
    rewrite E in Hn; [done|]. by apply elem_of_inverseNames.
  - split; [|done]. intros _.
    apply forallb_false_elem_of in E as (s & Hs & E).
    apply forallb_false_elem_of in E as (name & Hn & E).
    exists s, name. split; [done|]. split; [done|].
    by apply elem_of_inverseNames.
Qed.




(** The frozen symmetric and inverse indices say what the store declares. *)
Lemma buildIndices_metadata store p :
  (p ∈ symmetricProps (buildIndices store)
   <-> exists q, q ∈ store /\ predicate q = RDF_TYPE
                 /\ object q = NamedNode OWL_SYM /\ value (subject q) = p)
  /\ (p ∈ transitiveProps (buildIndices store)
      <-> exists q, q ∈ store /\ predicate q = RDF_TYPE
                    /\ object q = NamedNode OWL_TRANS /\ value (subject q) = p).
Proof. split; apply elem_of_declared. Qed.

(** ** Transitive properties *)

(** What [applyTransitiveProps] emits when it returns: the far end of each
    joined quad enters the new statement as a named node made of its
    [value]. *)
Lemma elem_of_transitiveOf idx store batch t :
  t ∈ transitiveOf idx store batch
  <-> exists s, s ∈ batch /\ predicate s ∈ transitiveProps idx
        /\ ((exists yz, yz ∈ store /\ subject yz = object s
                        /\ predicate yz = predicate s
                        /\ t = st (subject s) (predicate s)
                                  (NamedNode (value (object yz))))
            \/ (exists wx, wx ∈ store /\ object wx = subject s
                           /\ predicate wx = predicate s
                           /\ t = st (NamedNode (value (subject wx)))
                                     (predicate s) (object s))).
Proof.
  unfold transitiveOf. rewrite elem_of_flat_map.
  apply exist_proper; intros s. apply and_iff_compat_l.
  case_bool_decide as Hp.
  - rewrite elem_of_app, !elem_of_map. split.
    + intros [(yz & -> & H)|(wx & -> & H)]; apply elem_of_getQuads in H;
        (split; [done|]); [left; exists yz|right; exists wx]; naive_solver.
    + intros (_ & [(yz & ? & ? & ? & ->)|(wx & ? & ? & ? & ->)]);
        [left; exists yz|right; exists wx]; (split; [done|]);
        apply elem_of_getQuads; naive_solver.
  - rewrite elem_of_nil. naive_solver.
Qed.

Lemma elem_of_transitiveNames idx store s name :
  name ∈ transitiveNames idx store s
  <-> predicate s ∈ transitiveProps idx
      /\ ((exists yz, yz ∈ store /\ subject yz = object s
                      /\ predicate yz = predicate s
                      /\ (name = predicate s \/ name = value (object yz)))
          \/ (exists wx, wx ∈ store /\ object wx = subject s
                         /\ predicate wx = predicate s
                         /\ (name = value (subject wx) \/ name = predicate s))).
Proof.
  unfold transitiveNames. case_bool_decide as Hp.
  - rewrite elem_of_app, !elem_of_flat_map. split.
    + intros [(yz & H & Hn)|(wx & H & Hn)]; apply elem_of_getQuads in H;
        (split; [done|]); [left; exists yz|right; exists wx];
        set_solver.
    + intros (_ & [(yz & ? & ? & ? & Hn)|(wx & ? & ? & ? & Hn)]);
        [left; exists yz|right; exists wx];
        (split; [apply elem_of_getQuads; naive_solver|set_solver]).
  - rewrite elem_of_nil. naive_solver.
Qed.

(** [applyTransitiveProps] returns what the loops push when every [$rdf.sym]
    call is accepted, and throws otherwise. *)
Lemma applyTransitiveProps_eq idx store batch :
  applyTransitiveProps idx store batch
  = if transitiveNamesAccepted idx store batch
    then Some (transitiveOf idx store batch) else None.
Proof.
  unfold applyTransitiveProps, transitiveNamesAccepted, transitiveOf.
  rewrite <- (forEach_guards (fun s => forallb sym_ok (transitiveNames idx store s))).
  apply forEach_ext. intros s. unfold transitiveNames. simpl.
  case_bool_decide; [|done].
  rewrite !forEach_guarded, forallb_app, !forallb_flat_map. simpl.
  rewrite (forallb_ext_eq
             (fun yz => sym_ok (predicate s) && (sym_ok (value (object yz)) && true))
             (fun yz => sym_ok (predicate s) && sym_ok (value (object yz))))
    by (intros; by rewrite andb_true_r).
  rewrite (forallb_ext_eq
             (fun wx => sym_ok (value (subject wx)) && (sym_ok (predicate s) && true))
             (fun wx => sym_ok (value (subject wx)) && sym_ok (predicate s)))
    by (intros; by rewrite andb_true_r).
  destruct (forallb _ (getQuads (Some (object s)) _ _ _)); simpl; [|done].
  by destruct (forallb _ (getQuads None _ _ _)).
Qed.

Lemma applyTransitiveProps_Some idx store batch out :
  applyTransitiveProps idx store batch = Some out ->
  transitiveNamesAccepted idx store batch = true
  /\ out = transitiveOf idx store batch.
Proof.
  rewrite applyTransitiveProps_eq.
  destruct (transitiveNamesAccepted idx store batch); [|done]. by intros [= <-].
Qed.

(** Where the far ends are named nodes with accepted names this is the rule
    as specified. *)
Lemma applyTransitiveProps_named idx store x p y z w out :
  p ∈ transitiveProps idx ->
  (applyTransitiveProps idx store [st x p (NamedNode y)] = Some out ->
   st4 (NamedNode y) p (NamedNode z) None ∈ store ->
   st x p (NamedNode z) ∈ out)
  /\ (applyTransitiveProps idx store [st (NamedNode y) p x] = Some out ->
      st4 (NamedNode w) p (NamedNode y) None ∈ store ->
      st (NamedNode w) p x ∈ out).
Proof.
  intros Hp. split; intros [_ ->]%applyTransitiveProps_Some Hin;
    apply elem_of_transitiveOf;
    eexists; (split; [apply list_elem_of_here|]); (split; [done|]);
    [left|right]; eexists; (split; [exact Hin|]); done.
Qed.

(** C4, at the failing input: p is transitive, the working set holds
    (y, p, _:b1) and the batch brings (x, p, y). The statement (x, p, _:b1) is
    not emitted: [$rdf.sym] throws on the label "b1", so the expander emits
    nothing at all and the drain that called it aborts. With the literal
    "urn:z" in place of the blank node the expander returns, and what it emits
    is not (x, p, "urn:z") but (x, p, <urn:z>), a named node made of the
    literal's text. *)
Theorem applyTransitiveProps_coerces_far_end :
  "urn:p" ∈ transitiveProps trans_idx
  /\ quad (NamedNode "urn:y") "urn:p" (BlankNode "b1") ∈ trans_store
  /\ st (NamedNode "urn:x") "urn:p" (NamedNode "urn:y") ∈ trans_batch
  /\ applyTransitiveProps trans_idx trans_store trans_batch = None
  /\ (forall (σ : State) (b : bool),
         workProps σ = trans_batch -> rdfjsStore σ = trans_store ->
         drainProps trans_idx (σ, b) = Thrown (set_workProps [] σ))
  /\ quad (NamedNode "urn:y") "urn:p" (Literal "urn:z" "" (Some XSD_STRING))
       ∈ trans_literal_store
  /\ applyTransitiveProps trans_idx trans_literal_store trans_batch
     = Some [st (NamedNode "urn:x") "urn:p" (NamedNode "urn:z")].
Proof.
  assert (E : applyTransitiveProps trans_idx trans_store trans_batch = None)
    by by_evaluation.
  split; [by_evaluation|]. split; [by_evaluation|].
  split; [apply list_elem_of_here|]. split; [exact E|].
  split; [|split; by_evaluation].
  intros σ b Hw Hs. unfold drainProps. simpl fst. rewrite Hw.
  unfold trans_batch at 1.
  replace (rdfjsStore (set_workProps [] σ)) with trans_store by by rewrite <- Hs.
  fold trans_batch. rewrite E.
  by destruct (applyInverseAndSymmetric trans_idx trans_batch).
Qed.

(** The same on the other side of the join, with a blank node w whose label
    happens to have a colon: it comes out as a named node. *)
Example applyTransitiveProps_coerces_subject :
  applyTransitiveProps trans_idx
    [quad (BlankNode "n:w") "urn:p" (NamedNode "urn:x")]
    trans_batch
  = Some [st (NamedNode "n:w") "urn:p" (NamedNode "urn:y")].
Proof. by_evaluation. Qed.

(** ** The deduplication key *)

Lemma toNT_spo s1 s2 :
  subject s1 = subject s2 -> predicate s1 = predicate s2 -> object s1 = object s2 ->
  toNT s1 = toNT s2.
Proof. unfold toNT. by intros -> -> ->. Qed.

Lemma enqueue1_seen σ s : toNT s ∈ seen σ -> enqueue1 σ s = σ.
Proof. intros H. unfold enqueue1. by rewrite bool_decide_eq_true_2. Qed.

Lemma seen_enqueue1 σ s : seen (enqueue1 σ s) = {[toNT s]} ∪ seen σ.
Proof.
  unfold enqueue1. case_bool_decide; simpl; [|done]. set_solver.
Qed.

Lemma enqueue1_same_key σ a b :
  toNT a = toNT b -> enqueue1 (enqueue1 σ a) b = enqueue1 σ a.
Proof.
  intros E. apply enqueue1_seen. rewrite seen_enqueue1, <- E. set_solver.
Qed.

Lemma selectUnseen_loop_keys stmts seenNT batchSet :
  NoDup (map toNT (selectUnseen_loop stmts seenNT batchSet))
  /\ forall s, s ∈ selectUnseen_loop stmts seenNT batchSet ->
               s ∈ stmts /\ (toNT s ∉ seenNT) /\ (toNT s ∉ batchSet).
Proof.
  revert batchSet. induction stmts as [|s stmts IH]; intros batchSet; simpl.
  - split; [constructor|]. intros s Hs. by apply elem_of_nil in Hs.
  - case_bool_decide as Hb.
    + destruct (IH batchSet) as [IH1 IH2]. split; [done|].
      intros t Ht. destruct (IH2 t Ht) as (? & ? & ?). set_solver.
    + destruct (IH ({[toNT s]} ∪ batchSet)) as [IH1 IH2].
      case_bool_decide as Hs.
      * split; [done|]. intros t Ht. destruct (IH2 t Ht) as (? & ? & ?). set_solver.
      * split.
        -- simpl. apply NoDup_cons. split; [|done].
           intros Hin. apply elem_of_map in Hin as (t & E & Ht).
           destruct (IH2 t Ht) as (_ & _ & Hn). rewrite <- E in Hn. set_solver.
        -- intros t Ht. apply elem_of_cons in Ht as [->|Ht]; [set_solver|].
           destruct (IH2 t Ht) as (? & ? & ?). set_solver.
Qed.

(** C6. The deduplication key is a function of subject, predicate and
    object alone: two statements that differ only in their graph have the
    same key. Hence of two such statements handed to [enqueue] the second
    changes nothing (overlay, working set, seen index, queues and counter stay
    as the first left them); once one of them is recorded, enqueueing the
    other is a no-op in every later state; and the seed's [selectUnseen] keeps
    at most one statement per key and none whose key is already seen. *)
Theorem key_ignores_context :
  (forall (s : Term) (p : string) (o : Term) (g1 g2 : option string),
      toNT (st4 s p o g1) = toNT (st4 s p o g2))
  /\ (forall (σ : State) (s : Term) (p : string) (o : Term) (g1 g2 : option string),
         enqueue σ [st4 s p o g1; st4 s p o g2] = enqueue σ [st4 s p o g1])
  /\ (forall (σ σ' : State) (s : Term) (p : string) (o : Term) (g1 g2 : option string),
         toNT (st4 s p o g1) ∈ seen σ -> seen σ ⊆ seen σ' ->
         enqueue1 σ' (st4 s p o g2) = σ')
  /\ (forall (stmts : list Statement) (seenNT : gset string),
         NoDup (map toNT (selectUnseen stmts seenNT))
         /\ forall t, t ∈ selectUnseen stmts seenNT -> toNT t ∉ seenNT).
Proof.
  split; [reflexivity|]. split.
  { intros σ s p o g1 g2. simpl. by apply enqueue1_same_key. }
  split.
  { intros σ σ' s p o g1 g2 H Hsub. apply enqueue1_seen. by apply Hsub. }
  intros stmts seenNT. destruct (selectUnseen_loop_keys stmts seenNT ∅) as [H1 H2].
  split; [done|]. intros t Ht. by destruct (H2 t Ht) as (_ & ? & _).
Qed.


(** ** Absolute IRIs survive normalisation *)

Lemma trim_start_no_ws s : has_ws s = false -> trim_start s = s.
Proof.
  unfold trim_start. destruct s as [|a r]; [done|].
  cbn [String.length trim_start_fuel has_ws].
  destruct (ws_strip (String a r)); [discriminate|done].
Qed.

Lemma has_ws_tail a r : has_ws (String a r) = false -> has_ws r = false.
Proof. cbn [has_ws]. by destruct (ws_strip (String a r)). Qed.

Lemma trim_end_no_ws s : has_ws s = false -> trim_end s = s.
Proof.
  induction s as [|a r IH]; [done|]. intros H. cbn [trim_end].
  unfold all_ws. rewrite (trim_start_no_ws _ H).
  cbn [String.eqb]. by rewrite IH by (by eapply has_ws_tail).
Qed.

Lemma trim_no_ws s : has_ws s = false -> trim s = s.
Proof. intros H. unfold trim. by rewrite trim_start_no_ws, trim_end_no_ws. Qed.

Lemma isAbsoluteIri_no_ws s : isAbsoluteIri s = true -> has_ws s = false.
Proof.
  unfold isAbsoluteIri. destruct (String.eqb s ""); [done|].
  by destruct (has_ws s).
Qed.

Lemma isAbsoluteIri_head a r :
  isAbsoluteIri (String a r) = true -> Ascii.eqb a "<" = false.
Proof.
  destruct (Ascii.eqb a "<") eqn:E; [|done]. apply Ascii.eqb_eq in E. subst a.
  unfold isAbsoluteIri. cbn [String.eqb].
  destruct (has_ws _); [done|]. vm_compute. done.
Qed.

Lemma normalizeIriString_absolute s :
  isAbsoluteIri s = true -> normalizeIriString s = s.
Proof.
  intros H. unfold normalizeIriString.
  rewrite (trim_no_ws s) by (by apply isAbsoluteIri_no_ws).
  destruct s as [|a [|b r]]; [done..|].
  by rewrite (isAbsoluteIri_head _ _ H).
Qed.

Lemma asRdfjsPredicate_absolute p ty :
  isAbsoluteIri p = true -> asRdfjsPredicate p ty = Some p.
Proof.
  intros H. unfold asRdfjsPredicate.
  by rewrite (normalizeIriString_absolute p H), H.
Qed.

Lemma elem_of_supers_of M k x :
  x ∈ supers_of M k <-> x ∈ lookup_set M k /\ isAbsoluteIri x = true.
Proof. apply elem_of_filter_bool. Qed.

Lemma elem_of_expandTypesWithClosure idx batch t :
  t ∈ expandTypesWithClosure idx batch
  <-> exists s sup, s ∈ batch /\ sup ∈ lookup_set (classSupers idx) (value (object s))
        /\ isAbsoluteIri sup = true /\ t = st (subject s) RDF_TYPE (NamedNode sup).
Proof.
  unfold expandTypesWithClosure. rewrite elem_of_flat_map. split.
  - intros (s & Hs & Ht). apply elem_of_map in Ht as (sup & -> & Hsup).
    apply elem_of_supers_of in Hsup as [? ?]. by exists s, sup.
  - intros (s & sup & ? & ? & ? & ->). exists s. split; [done|].
    apply elem_of_map. exists sup. split; [done|]. by apply elem_of_supers_of.
Qed.

Lemma elem_of_expandPropsWithClosure idx batch t :
  t ∈ expandPropsWithClosure idx batch
  <-> exists s sup, s ∈ batch /\ sup ∈ lookup_set (propSupers idx) (predicate s)
        /\ isAbsoluteIri sup = true /\ t = st (subject s) sup (object s).
Proof.
  unfold expandPropsWithClosure. rewrite elem_of_flat_map. split.
  - intros (s & Hs & Ht). apply elem_of_map in Ht as (sup & -> & Hsup).
    apply elem_of_supers_of in Hsup as [? ?]. by exists s, sup.
  - intros (s & sup & ? & ? & ? & ->). exists s. split; [done|].
    apply elem_of_map. exists sup. split; [done|]. by apply elem_of_supers_of.
Qed.

Lemma elem_of_applyDomainRange idx batch t :
  t ∈ applyDomainRange idx batch
  <-> exists s, s ∈ batch
        /\ ((exists d, d ∈ lookup_set (domainMap idx) (predicate s)
                       /\ isAbsoluteIri d = true
                       /\ t = st (subject s) RDF_TYPE (NamedNode d))
            \/ (exists r, r ∈ lookup_set (rangeMap idx) (predicate s)
                          /\ isAbsoluteIri r = true
                          /\ t = st (object s) RDF_TYPE (NamedNode r))).
Proof.
  unfold applyDomainRange. rewrite elem_of_flat_map.
  apply exist_proper; intros s. apply and_iff_compat_l.
  rewrite elem_of_app, !elem_of_map. split.
  - intros [(d & -> & H)|(r & -> & H)]; apply elem_of_supers_of in H as [? ?];
      [left; exists d|right; exists r]; done.
  - intros [(d & ? & ? & ->)|(r & ? & ? & ->)]; [left; exists d|right; exists r];
      (split; [done|]); by apply elem_of_supers_of.
Qed.

Lemma isAbsoluteIri_RDF_TYPE : isAbsoluteIri RDF_TYPE = true.
Proof. reflexivity. Qed.

(** ** Frames: what each step leaves alone *)

#[global] Instance same_meta_refl : Reflexive same_meta.
Proof. by intros σ. Qed.

Lemma same_meta_trans σ1 σ2 σ3 : same_meta σ1 σ2 -> same_meta σ2 σ3 -> same_meta σ1 σ3.
Proof. unfold same_meta. intros [-> ->] [-> ->]. done. Qed.

Lemma same_meta_enqueue1 σ s : same_meta σ (enqueue1 σ s).
Proof. unfold enqueue1, same_meta. by case_bool_decide. Qed.

Lemma same_meta_enqueue σ stmts : same_meta σ (enqueue σ stmts).
Proof.
  revert σ. induction stmts as [|s stmts IH]; intros σ; simpl; [done|].
  eapply same_meta_trans; [apply same_meta_enqueue1|apply IH].
Qed.

Lemma same_meta_enqueue_extra extra c : same_meta (fst c) (fst (enqueue_extra extra c)).
Proof. destruct extra; [done|]. apply (same_meta_enqueue (fst c) (_ :: _)). Qed.

Lemma same_meta_drainTypes idx c : same_meta (fst c) (fst (drainTypes idx c)).
Proof.
  unfold drainTypes. destruct (workTypes (fst c)) eqn:E; [done|].
  eapply same_meta_trans; [|apply same_meta_enqueue_extra]. done.
Qed.

Lemma same_meta_drainPropsReturn idx c :
  same_meta (fst c) (fst (drainPropsReturn idx c)).
Proof.
  unfold drainPropsReturn. destruct (workProps (fst c)) eqn:E; [done|].
  repeat (eapply same_meta_trans; [|apply same_meta_enqueue_extra]). done.
Qed.

(** The second [if] of the drain returns when every [$rdf.sym] call is
    accepted, and throws otherwise, with the batch taken off the queue. *)
Lemma drainProps_eq idx c :
  drainProps idx c
  = if propsAccepted idx (fst c) then Returned (drainPropsReturn idx c)
    else Thrown (set_workProps [] (fst c)).
Proof.
  unfold drainProps, drainPropsReturn, propsAccepted.
  destruct (workProps (fst c)) as [|s batch] eqn:E; [done|].
  rewrite applyInverseAndSymmetric_eq, applyTransitiveProps_eq.
  destruct (inverseNamesAccepted idx (s :: batch)); [|done].
  change (rdfjsStore (set_workProps [] (fst c))) with (rdfjsStore (fst c)).
  by destruct (transitiveNamesAccepted idx _ (s :: batch)).
Qed.

Lemma drainProps_Returned idx c c' :
  drainProps idx c = Returned c' ->
  propsAccepted idx (fst c) = true /\ c' = drainPropsReturn idx c.
Proof.
  rewrite drainProps_eq. destruct (propsAccepted idx (fst c)); [|done].
  by intros [= <-].
Qed.

Lemma drainProps_Thrown idx c σ' :
  drainProps idx c = Thrown σ' ->
  propsAccepted idx (fst c) = false /\ σ' = set_workProps [] (fst c).
Proof.
  rewrite drainProps_eq. destruct (propsAccepted idx (fst c)); [done|].
  by intros [= <-].
Qed.

Lemma drainProps_fuel idx c : drainProps idx c <> OutOfFuel.
Proof. rewrite drainProps_eq. by destruct (propsAccepted idx (fst c)). Qed.

(** One turn of the [while] loop of the drain. *)
Lemma drain_step n idx c :
  queues_empty (fst c) = false ->
  drain (S n) idx c
  = if propsAccepted idx (fst (drainTypes idx c))
    then drain n idx (drainPropsReturn idx (drainTypes idx c))
    else Thrown (set_workProps [] (fst (drainTypes idx c))).
Proof.
  intros E. cbn [drain]. rewrite E, drainProps_eq.
  by destruct (propsAccepted idx (fst (drainTypes idx c))).
Qed.

Lemma same_meta_drain fuel idx c c' :
  drain fuel idx c = Returned c' -> same_meta (fst c) (fst c').
Proof.
  revert c. induction fuel as [|n IH]; intros c.
  - simpl. destruct (queues_empty (fst c)); [by intros [= ->]|done].
  - destruct (queues_empty (fst c)) eqn:E.
    + simpl. rewrite E. by intros [= ->].
    + rewrite drain_step by done.
      destruct (propsAccepted idx _); [|done].
      intros H. apply IH in H.
      eapply same_meta_trans; [apply same_meta_drainTypes|].
      eapply same_meta_trans; [apply same_meta_drainPropsReturn|done].
Qed.

Lemma drain_queues_empty fuel idx c c' :
  drain fuel idx c = Returned c' -> queues_empty (fst c') = true.
Proof.
  revert c. induction fuel as [|n IH]; intros c.
  - simpl. destruct (queues_empty (fst c)) eqn:E; [by intros [= <-]|done].
  - destruct (queues_empty (fst c)) eqn:E.
    + simpl. rewrite E. by intros [= <-].
    + rewrite drain_step by done.
      destruct (propsAccepted idx _); [|done]. apply IH.
Qed.

Lemma queues_empty_spec σ :
  queues_empty σ = true <-> workTypes σ = [] /\ workProps σ = [].
Proof. unfold queues_empty. destruct (workTypes σ), (workProps σ); naive_solver. Qed.

(** ** Growth: nothing is ever taken back *)

#[global] Instance grows_preorder : PreOrder grows.
Proof.
  split.
  - intros σ. unfold grows. set_solver.
  - intros σ1 σ2 σ3 (? & ? & ? & ?) (? & ? & ? & ?). unfold grows.
    repeat split; etrans; eauto.
Qed.

Lemma grows_enqueue1 σ s : grows σ (enqueue1 σ s).
Proof.
  unfold enqueue1. case_bool_decide; [done|]. unfold grows; simpl.
  split; [intros x Hx; apply elem_of_formula_add; auto|].
  split; [set_solver|].
  split; intros x Hx; apply elem_of_addQuad; auto.
Qed.

Lemma grows_enqueue σ stmts : grows σ (enqueue σ stmts).
Proof.
  revert σ. induction stmts as [|s stmts IH]; intros σ; simpl; [done|].
  etrans; [apply grows_enqueue1|apply IH].
Qed.

Lemma grows_enqueue_extra extra c : grows (fst c) (fst (enqueue_extra extra c)).
Proof. destruct extra; [done|]. apply (grows_enqueue (fst c) (_ :: _)). Qed.

Lemma grows_drainTypes idx c : grows (fst c) (fst (drainTypes idx c)).
Proof.
  unfold drainTypes. destruct (workTypes (fst c)) eqn:E; [done|].
  etrans; [|apply grows_enqueue_extra]. done.
Qed.

Lemma grows_drainPropsReturn idx c : grows (fst c) (fst (drainPropsReturn idx c)).
Proof.
  unfold drainPropsReturn. destruct (workProps (fst c)) eqn:E; [done|].
  repeat (etrans; [|apply grows_enqueue_extra]). done.
Qed.

Lemma grows_drain fuel idx c c' :
  drain fuel idx c = Returned c' -> grows (fst c) (fst c').
Proof.
  revert c. induction fuel as [|n IH]; intros c.
  - simpl. destruct (queues_empty (fst c)); [by intros [= ->]|done].
  - destruct (queues_empty (fst c)) eqn:E.
    + simpl. rewrite E. by intros [= ->].
    + rewrite drain_step by done.
      destruct (propsAccepted idx _); [|done].
      intros H. apply IH in H.
      etrans; [apply grows_drainTypes|].
      etrans; [apply grows_drainPropsReturn|done].
Qed.

(** A drain that throws: an expander refused a name in a state grown from
    the first one, and the state thrown is that state with the property
    queue emptied; the counter and the trace are untouched. *)
Lemma drain_Thrown fuel idx c σ' :
  drain fuel idx c = Thrown σ' ->
  exists σb, grows (fst c) σb /\ same_meta (fst c) σb
    /\ expanderThrew idx σb σ'.
Proof.
  revert c. induction fuel as [|n IH]; intros c.
  - simpl. by destruct (queues_empty (fst c)).
  - destruct (queues_empty (fst c)) eqn:E.
    + simpl. by rewrite E.
    + rewrite drain_step by done.
      destruct (propsAccepted idx _) eqn:Ea.
      * intros H. apply IH in H as (σb & G & M & T). exists σb.
        split.
        { etrans; [apply grows_drainTypes|].
          etrans; [apply grows_drainPropsReturn|done]. }
        split; [|done].
        eapply same_meta_trans; [apply same_meta_drainTypes|].
        eapply same_meta_trans; [apply same_meta_drainPropsReturn|done].
      * intros [= <-]. exists (fst (drainTypes idx c)).
        split; [apply grows_drainTypes|].
        split; [apply same_meta_drainTypes|]. done.
Qed.

Lemma expanderThrew_frame idx σb σ' :
  expanderThrew idx σb σ' ->
  grows σb σ' /\ same_meta σb σ' /\ workProps σ' = []
  /\ workTypes σ' = workTypes σb.
Proof. intros [_ ->]. done. Qed.


(** ** The seed phase *)

Lemma elem_of_selectUnseen stmts seenNT s :
  s ∈ selectUnseen stmts seenNT -> s ∈ stmts /\ toNT s ∉ seenNT.
Proof.
  intros H. destruct (selectUnseen_loop_keys stmts seenNT ∅) as [_ H2].
  destruct (H2 s H) as (? & ? & _). done.
Qed.

Lemma seedPropUnseen_absolute idx σ s :
  s ∈ seedPropUnseen idx σ -> isAbsoluteIri (predicate s) = true.
Proof.
  intros H. apply elem_of_selectUnseen in H as [H _].
  apply elem_of_expandPropsWithClosure in H as (s0 & sup & _ & _ & ? & ->). done.
Qed.

Lemma seedTypeUnseen_absolute idx σ σ1 s :
  s ∈ seedTypeUnseen idx σ σ1 -> isAbsoluteIri (predicate s) = true.
Proof.
  intros H. apply elem_of_selectUnseen in H as [H _].
  apply elem_of_expandTypesWithClosure in H as (s0 & sup & _ & _ & ? & ->). done.
Qed.

Lemma seedQuad_absolute s :
  isAbsoluteIri (predicate s) = true -> seedQuad s = Some (liftQuad s).
Proof. intros H. unfold seedQuad. by rewrite asRdfjsPredicate_absolute. Qed.

(** What the seed's loop does to the state, for lifts with absolute
    predicates: it returns, the state grows by the lifts, and neither the
    queues nor the counter nor the trace are touched. *)
Lemma seedApply_spec σ l :
  (forall s, s ∈ l -> isAbsoluteIri (predicate s) = true) ->
  exists σ', seedApply σ l = Returned σ' /\ grows σ σ' /\ same_meta σ σ'
    /\ workTypes σ' = workTypes σ /\ workProps σ' = workProps σ
    /\ seen σ' = list_to_set (map toNT l) ∪ seen σ
    /\ (forall q, q ∈ overlayStore σ' <->
                  q ∈ overlayStore σ \/ exists s, s ∈ l /\ q = liftQuad s)
    /\ (forall q, q ∈ rdfjsStore σ' <->
                  q ∈ rdfjsStore σ \/ exists s, s ∈ l /\ q = liftQuad s)
    /\ (forall s, s ∈ l -> st (subject s) (predicate s) (object s) ∈ baseGraph σ').
Proof.
  revert σ. induction l as [|s l IH]; intros σ Habs.
  - exists σ. simpl. repeat split; try done; try set_solver.
  - assert (Hs : isAbsoluteIri (predicate s) = true) by (apply Habs; set_solver).
    simpl. unfold seedApply1. rewrite (seedQuad_absolute s Hs).
    cbn [mbind Outcome_bind].
    match goal with |- context [seedApply ?σ1 l] =>
      destruct (IH σ1) as (σ' & E & Hg & Hm & HT & HP & Hseen & Hov & Hst & Hbase) end.
    { intros; apply Habs; set_solver. }
    exists σ'. split; [done|]. simpl in *.
    split.
    { etrans; [|exact Hg]. unfold grows; simpl.
      split; [intros x Hx; apply elem_of_formula_add; auto|].
      split; [set_solver|].
      split; intros x Hx; apply elem_of_addQuad; auto. }
    split; [done|]. split; [done|]. split; [done|].
    split; [rewrite Hseen; set_solver|].
    split.
    { intros q. rewrite Hov, elem_of_addQuad. split.
      - intros [[->|?]|(t & ? & ->)]; [right; exists s|by left|right; exists t];
          set_solver.
      - intros [?|(t & Ht & ->)]; [auto|].
        apply elem_of_cons in Ht as [->|?]; [auto|]. right. by exists t. }
    split.
    { intros q. rewrite Hst, elem_of_addQuad. split.
      - intros [[->|?]|(t & ? & ->)]; [right; exists s|by left|right; exists t];
          set_solver.
      - intros [?|(t & Ht & ->)]; [auto|].
        apply elem_of_cons in Ht as [->|?]; [auto|]. right. by exists t. }
    intros t Ht. apply elem_of_cons in Ht as [->|?]; [|auto].
    destruct Hg as (Hb & _). apply Hb. simpl. apply elem_of_formula_add. auto.
Qed.

(** The seed always completes: its lifts have absolute predicates, so the
    predicate conversion never throws. *)
Lemma seedPhase_spec idx σ :
  exists σ1 σ',
    seedApply σ (seedPropUnseen idx σ) = Returned σ1
    /\ seedApply σ1 (seedTypeUnseen idx σ σ1) = Returned σ'
    /\ seedPhase idx σ = Returned σ'.
Proof.
  destruct (seedApply_spec σ (seedPropUnseen idx σ)) as (σ1 & E1 & _).
  { apply seedPropUnseen_absolute. }
  destruct (seedApply_spec σ1 (seedTypeUnseen idx σ σ1)) as (σ' & E2 & _).
  { apply seedTypeUnseen_absolute. }
  exists σ1, σ'. split; [done|]. split; [done|].
  unfold seedPhase. fold (seedPropUnseen idx σ). rewrite E1.
  cbn [mbind Outcome_bind]. fold (seedTypeUnseen idx σ σ1). done.
Qed.

Lemma seedPhase_frame idx σ σ' :
  seedPhase idx σ = Returned σ' ->
  grows σ σ' /\ same_meta σ σ'
  /\ workTypes σ' = workTypes σ /\ workProps σ' = workProps σ.
Proof.
  destruct (seedPhase_spec idx σ) as (σ1 & σ2 & E1 & E2 & E). rewrite E.
  intros [= <-].
  destruct (seedApply_spec σ (seedPropUnseen idx σ)) as (? & E1' & G1 & M1 & T1 & P1 & _).
  { apply seedPropUnseen_absolute. }
  destruct (seedApply_spec σ1 (seedTypeUnseen idx σ σ1))
    as (? & E2' & G2 & M2 & T2 & P2 & _).
  { apply seedTypeUnseen_absolute. }
  rewrite E1 in E1'. injection E1' as <-. rewrite E2 in E2'. injection E2' as <-.
  split; [by etrans|]. split; [by eapply same_meta_trans|]. split; congruence.
Qed.

(** ** The rule loop *)

Lemma grows_add_asked q σ : grows σ (add_asked q σ).
Proof. done. Qed.

Lemma grows_add_total n σ : grows σ (add_total n σ).
Proof. done. Qed.

Lemma dedupeBatch_subset stmts s : s ∈ dedupeBatch stmts -> s ∈ stmts.
Proof.
  intros H. destruct (selectUnseen_loop_keys stmts ∅ ∅) as [_ H2].
  by destruct (H2 s H).
Qed.

(** The guard [if (!constructQuery) continue] never fires: every query
    starts with the prefix block. *)
Lemma getConstructQueryForRule_nonempty rule :
  String.eqb (getConstructQueryForRule rule) "" = false.
Proof. reflexivity. Qed.

Section RuleLoop.
Variable queryQuads : string -> list Quad -> option (list Quad).

Lemma ruleStep_unfold fuel idx rule c :
  ruleStep queryQuads fuel idx rule c =
    let q := getConstructQueryForRule rule in
    let σ1 := add_asked q (fst c) in
    match applyConstructWithComunica queryQuads q (rdfjsStore (fst c)) with
    | None => Thrown σ1
    | Some stmts =>
        match processQueues fuel idx (enqueue σ1 (dedupeBatch stmts)) with
        | OutOfFuel => OutOfFuel
        | Thrown σ' => Thrown σ'
        | Returned (σ3, _) =>
            let added := size (seen σ3) - size (seen (fst c)) in
            if Nat.ltb 0 added then Returned (add_total added σ3, true)
            else Returned (σ3, snd c)
        end
    end.
Proof.
  unfold ruleStep. rewrite getConstructQueryForRule_nonempty.
  unfold runRuleOnce. simpl.
  destruct (applyConstructWithComunica _ _ _); [|reflexivity].
  cbn [mbind Outcome_bind].
  by destruct (processQueues _ _ _) as [[? ?]| |].
Qed.

(** A rule step that returns: the state grew, the queues are drained, one
    query was logged, and the counter advanced by the growth of [seen]. *)
Lemma ruleStep_Returned fuel idx rule c c' :
  ruleStep queryQuads fuel idx rule c = Returned c' ->
  grows (fst c) (fst c') /\ queues_empty (fst c') = true
  /\ asked (fst c') = asked (fst c) ++ [getConstructQueryForRule rule]
  /\ totalAdded (fst c') + size (seen (fst c))
     = totalAdded (fst c) + size (seen (fst c'))
  /\ (snd c = true -> snd c' = true).
Proof.
  rewrite ruleStep_unfold. cbv zeta.
  destruct (applyConstructWithComunica _ _ _) as [stmts|]; [|done].
  destruct (processQueues _ _ _) as [[σ3 pr]|σt|] eqn:E; [|done..].
  pose proof (grows_drain _ _ _ _ E) as G. simpl in G.
  pose proof (same_meta_drain _ _ _ _ E) as [M1 M2]. simpl in M1, M2.
  pose proof (drain_queues_empty _ _ _ _ E) as Q. simpl in Q.
  pose proof (grows_enqueue (add_asked (getConstructQueryForRule rule) (fst c))
                (dedupeBatch stmts)) as G2.
  pose proof (same_meta_enqueue (add_asked (getConstructQueryForRule rule) (fst c))
                (dedupeBatch stmts)) as [M3 M4].
  assert (G3 : grows (fst c) σ3) by (etrans; [apply grows_add_asked|by etrans]).
  assert (Hsz : size (seen (fst c)) <= size (seen σ3)).
  { apply subseteq_size. apply G3. }
  destruct (Nat.ltb_spec 0 (size (seen σ3) - size (seen (fst c)))) as [Hlt|Hge];
    intros [= <-]; simpl.
  - split; [done|]. split; [done|].
    split; [by rewrite M2, M4|]. rewrite M1, M3. simpl. split; [lia|done].
  - split; [done|]. split; [done|].
    split; [by rewrite M2, M4|]. rewrite M1, M3. simpl. split; [lia|done].
Qed.

(** A rule step that throws: either the evaluator failed on this rule's
    query, and the state is the one the step started from with that query
    logged; or the query was answered and an expander threw in the drain. *)
Lemma ruleStep_Thrown fuel idx rule c σ' :
  ruleStep queryQuads fuel idx rule c = Thrown σ' ->
  ruleThrew queryQuads idx rule (fst c) σ'.
Proof.
  rewrite ruleStep_unfold. cbv zeta. unfold applyConstructWithComunica, ruleThrew.
  destruct (queryQuads _ _) as [quads|]; [|intros [= <-]; by left].
  destruct (processQueues _ _ _) as [[σ3 pr]|σt|] eqn:E; [by destruct (Nat.ltb _ _)| |done].
  intros [= ->]. right. split; [done|].
  apply drain_Thrown in E as (σb & G & [M1 M2] & T). simpl in G, M1, M2.
  match type of G with grows (enqueue ?σ ?l) _ =>
    pose proof (grows_enqueue σ l) as G2;
    pose proof (same_meta_enqueue σ l) as [M3 M4] end.
  exists σb. split; [etrans; [apply grows_add_asked|by etrans]|].
  split; [by rewrite M2, M4|]. split; [by rewrite M1, M3|done].
Qed.

Lemma ruleThrew_frame idx rule σb σ' :
  ruleThrew queryQuads idx rule σb σ' ->
  grows σb σ' /\ asked σ' = asked σb ++ [getConstructQueryForRule rule]
  /\ totalAdded σ' = totalAdded σb.
Proof.
  intros [[_ ->]|(_ & σe & G & A & T & _ & ->)]; [done|].
  split; [|done]. etrans; [exact G|done].
Qed.

Lemma forRules_Returned fuel idx rs c c' :
  forRules queryQuads fuel idx rs c = Returned c' ->
  grows (fst c) (fst c')
  /\ (queues_empty (fst c) = true -> queues_empty (fst c') = true)
  /\ asked (fst c') = asked (fst c) ++ map getConstructQueryForRule rs
  /\ totalAdded (fst c') + size (seen (fst c))
     = totalAdded (fst c) + size (seen (fst c'))
  /\ (snd c = true -> snd c' = true).
Proof.
  revert c. induction rs as [|r rs IH]; intros c; simpl.
  - intros [= <-]. rewrite app_nil_r. done.
  - destruct (ruleStep queryQuads fuel idx r c) as [c1| |] eqn:E; try done.
    cbn [mbind Outcome_bind]. intros H. apply IH in H as (G & Q & A & T & B).
    apply ruleStep_Returned in E as (G1 & Q1 & A1 & T1 & B1).
    split; [by etrans|]. split; [auto|].
    split; [rewrite A, A1, <- app_assoc; done|]. split; [lia|auto].
Qed.

(** The rules of a pass run in order, each from the state the one before
    it left. *)
Lemma forRules_app fuel idx rs1 rs2 c :
  forRules queryQuads fuel idx (rs1 ++ rs2) c
  = c' ← forRules queryQuads fuel idx rs1 c; forRules queryQuads fuel idx rs2 c'.
Proof.
  revert c. induction rs1 as [|r rs1 IH]; intros c; simpl; [done|].
  destruct (ruleStep queryQuads fuel idx r c) as [c1|σ1|]; cbn [mbind Outcome_bind];
    [apply IH|done..].
Qed.

(** A pass that throws: the step of some rule threw, at the state the rules
    before it left, and the rules after it did not run. *)
Lemma forRules_Thrown_at fuel idx rs c σ' :
  forRules queryQuads fuel idx rs c = Thrown σ' ->
  exists rs1 rule rs2 cb,
    rs = rs1 ++ rule :: rs2
    /\ forRules queryQuads fuel idx rs1 c = Returned cb
    /\ ruleStep queryQuads fuel idx rule cb = Thrown σ'.
Proof.
  revert c. induction rs as [|r rs IH]; intros c; simpl; [done|].
  destruct (ruleStep queryQuads fuel idx r c) as [c1|σ1|] eqn:E;
    cbn [mbind Outcome_bind]; [|intros [= <-]|done].
  - intros H. apply IH in H as (rs1 & rule & rs2 & cb & -> & H1 & H2).
    exists (r :: rs1), rule, rs2, cb. split; [done|]. split; [|done].
    simpl. rewrite E. done.
  - exists [], r, rs, c. done.
Qed.

(** A pass that throws: some rule step threw, in a state grown from the
    pass's first state. *)
Lemma forRules_Thrown fuel idx rs c σ' :
  forRules queryQuads fuel idx rs c = Thrown σ' ->
  exists rule σb,
    rule ∈ rs /\ grows (fst c) σb
    /\ (queues_empty (fst c) = true -> queues_empty σb = true)
    /\ ruleThrew queryQuads idx rule σb σ'.
Proof.
  intros H. apply forRules_Thrown_at in H as (rs1 & rule & rs2 & cb & -> & H1 & H2).
  apply forRules_Returned in H1 as (G & Q & _).
  apply ruleStep_Thrown in H2.
  exists rule, (fst cb). split; [set_solver|]. done.
Qed.

Lemma elem_of_filterRules rules r :
  r ∈ filterRules rules <-> r ∈ rules /\ r <> "subclassof" /\ r <> "subpropertyof".
Proof.
  unfold filterRules. rewrite elem_of_filter_bool, andb_true_iff, !negb_true_iff.
  rewrite !String.eqb_neq. done.
Qed.

Lemma mainLoop_Returned fuel idx rules σ σ' :
  mainLoop queryQuads fuel idx rules σ = Returned σ' ->
  grows σ σ'
  /\ (queues_empty σ = true -> queues_empty σ' = true)
  /\ totalAdded σ' + size (seen σ) = totalAdded σ + size (seen σ').
Proof.
  revert σ. induction fuel as [|n IH]; intros σ; [done|].
  cbn [mainLoop]. unfold pass.
  destruct (forRules _ _ _ _ _) as [[σ1 ch]| |] eqn:E; try done.
  cbn [mbind Outcome_bind].
  apply forRules_Returned in E as (G & Q & _ & T & _). simpl in *.
  destruct ch.
  - intros H. apply IH in H as (G' & Q' & T').
    split; [by etrans|]. split; [auto|lia].
  - intros [= <-]. done.
Qed.

(** The run aborts only through a rule step: the state thrown is the one
    the throwing step left, from a state grown from the start of the loop. *)
Lemma mainLoop_Thrown fuel idx rules σ σ' :
  mainLoop queryQuads fuel idx rules σ = Thrown σ' ->
  exists rule σb,
    rule ∈ filterRules rules /\ grows σ σb
    /\ (queues_empty σ = true -> queues_empty σb = true)
    /\ ruleThrew queryQuads idx rule σb σ'.
Proof.
  revert σ. induction fuel as [|n IH]; intros σ; [done|].
  cbn [mainLoop]. unfold pass.
  destruct (forRules _ _ _ _ _) as [[σ1 ch]|σ1|] eqn:E;
    cbn [mbind Outcome_bind]; [|intros [= <-]|done].
  - apply forRules_Returned in E as (G & Q & _). simpl in *.
    destruct ch; [|done].
    intros H. apply IH in H as (rule & σb & ? & G' & Q' & ?).
    exists rule, σb. split; [done|]. split; [by etrans|]. auto.
  - apply forRules_Thrown in E as (rule & σb & ? & ? & ? & ?).
    by exists rule, σb.
Qed.
End RuleLoop.


(** ** The returned overlay *)

Lemma fold_formula_add {A} (f : A -> Statement) (l : list A) (g : list Statement) :
  (NoDup g -> NoDup (fold_left (fun g q => formula_add g (f q)) l g))
  /\ forall x, x ∈ fold_left (fun g q => formula_add g (f q)) l g
               <-> x ∈ g \/ exists q, q ∈ l /\ x = f q.
Proof.
  revert g. induction l as [|q l IH]; intros g; simpl.
  - split; [done|]. intros x. split; [auto|].
    intros [?|(q & Hq & _)]; [done|by apply elem_of_nil in Hq].
  - destruct (IH (formula_add g (f q))) as [IH1 IH2]. split.
    + intros. by apply IH1, NoDup_formula_add.
    + intros x. rewrite IH2, elem_of_formula_add. split.
      * intros [[->|?]|(q' & ? & ->)]; [right; exists q|by left|right; exists q'];
          set_solver.
      * intros [?|(q' & Hq' & ->)]; [auto|].
        apply elem_of_cons in Hq' as [->|?]; [auto|]. right. by exists q'.
Qed.

Lemma NoDup_overlayOf σ : NoDup (overlayOf σ).
Proof. unfold overlayOf. apply fold_formula_add. constructor. Qed.

Lemma elem_of_overlayOf σ x :
  x ∈ overlayOf σ <-> exists q, q ∈ overlayStore σ /\ x = quadToStatement false q.
Proof.
  unfold overlayOf. rewrite (proj2 (fold_formula_add _ _ _)).
  split; [intros [H|?]; [by apply elem_of_nil in H|done]|auto].
Qed.

(** ** Unknown rule identifiers *)

(** Every identifier outside the catalogue has the prefix block as its
    query. *)
Lemma unknown_rule_query rule :
  rule ∉ catalogue -> getConstructQueryForRule rule = PREFIXES.
Proof.
  intros H. unfold getConstructQueryForRule, RULES.
  repeat match goal with
         | |- context [String.eqb rule ?n] =>
             destruct (String.eqb_spec rule n) as [->|_];
             [exfalso; apply H; unfold catalogue; set_solver|]
         end.
  vm_compute; reflexivity.
Qed.

(** C9, at the failing input: the identifier "foo" is not in the catalogue,
    yet its query is the non-empty prefix block, so the guard does not skip it:
    the rule step never leaves the state as it was, the evaluator is handed the
    prefix-only query, and when the evaluator rejects it the run aborts. *)
Theorem unknown_rule_is_evaluated
    (queryQuads : string -> list Quad -> option (list Quad))
    (fuel : nat) (idx : Indices) (σ : State) (b : bool) :
  ("foo" ∉ catalogue)
  /\ getConstructQueryForRule "foo" = PREFIXES
  /\ ruleStep queryQuads fuel idx "foo" (σ, b) <> Returned (σ, b)
  /\ ruleStep (fun _ _ => None) fuel idx "foo" (σ, b) = Thrown (add_asked PREFIXES σ)
  /\ inferUntilStable (fun _ _ => None) (S fuel) ["foo"] []
     = Thrown (add_asked PREFIXES (initState [])).
Proof.
  split; [unfold catalogue; set_solver|]. split; [reflexivity|].
  split; [|split; reflexivity].
  intros H. apply ruleStep_Returned in H as (_ & _ & A & _). simpl in A.
  apply (f_equal length) in A. rewrite length_app in A. simpl in A. lia.
Qed.

(** ** Evaluator failure *)

Lemma runState_unfold queryQuads fuel rules graph :
  exists σs, seedPhase (startIndices graph) (initState graph) = Returned σs
    /\ runState queryQuads fuel rules graph
       = mainLoop queryQuads fuel (startIndices graph) rules σs.
Proof.
  destruct (seedPhase_spec (startIndices graph) (initState graph))
    as (σ1 & σs & _ & _ & E).
  exists σs. split; [done|]. unfold runState, startIndices in *. cbv zeta.
  by rewrite E.
Qed.

Section Passes.
Variable queryQuads : string -> list Quad -> option (list Quad).

(** The loop continues from wherever its passes have brought it. *)
Lemma mainLoop_passes idx rules fuel σ fuel' σ' :
  passesFrom queryQuads idx rules fuel σ fuel' σ' ->
  mainLoop queryQuads fuel idx rules σ = mainLoop queryQuads fuel' idx rules σ'.
Proof.
  induction 1 as [|fuel σ σ1 fuel' σ' E _ IH]; [done|].
  cbn [mainLoop]. rewrite E. cbn [mbind Outcome_bind]. exact IH.
Qed.

Lemma grows_passes idx rules fuel σ fuel' σ' :
  passesFrom queryQuads idx rules fuel σ fuel' σ' -> grows σ σ'.
Proof.
  induction 1 as [|fuel σ σ1 fuel' σ' E _ IH]; [done|].
  apply forRules_Returned in E as (G & _). by etrans.
Qed.

(** A failing query at any place of a pass ends the pass there. *)
Lemma forRules_fails_at fuel idx rs1 rule rs2 c cb :
  forRules queryQuads fuel idx rs1 c = Returned cb ->
  queryQuads (getConstructQueryForRule rule) (rdfjsStore (fst cb)) = None ->
  forRules queryQuads fuel idx (rs1 ++ rule :: rs2) c
  = Thrown (add_asked (getConstructQueryForRule rule) (fst cb)).
Proof.
  intros E H. rewrite forRules_app, E. cbn [mbind Outcome_bind forRules].
  rewrite ruleStep_unfold. cbv zeta. unfold applyConstructWithComunica.
  by rewrite H.
Qed.
End Passes.

(** C8. If the evaluator fails on the query of some rule, the rule step
    throws; this holds at every place in the rule list and in every pass of
    the loop, and a throw leaves every enclosing loop and the run itself
    unchanged: [inferUntilStable] ends in the same throw, with the failing
    query logged last (it is not asked again). Nothing is rolled back: the
    state thrown contains every statement the seed and the earlier rule steps
    put into the working set, the store, the overlay and the seen index. A run
    that throws does so from a rule step, either because the evaluator failed
    on its query or because an expander threw while the queues were
    drained. *)
Theorem evaluator_failure_aborts
    (queryQuads : string -> list Quad -> option (list Quad)) :
  (forall fuel idx rule σ b,
      queryQuads (getConstructQueryForRule rule) (rdfjsStore σ) = None ->
      ruleStep queryQuads fuel idx rule (σ, b)
      = Thrown (add_asked (getConstructQueryForRule rule) σ))
  /\ (forall fuel idx rs1 rule rs2 c cb,
         forRules queryQuads fuel idx rs1 c = Returned cb ->
         queryQuads (getConstructQueryForRule rule) (rdfjsStore (fst cb)) = None ->
         forRules queryQuads fuel idx (rs1 ++ rule :: rs2) c
         = Thrown (add_asked (getConstructQueryForRule rule) (fst cb)))
  /\ (forall fuel idx rules σ k σp σ',
         passesFrom queryQuads idx rules fuel σ (S k) σp ->
         pass queryQuads (S k) idx rules σp = Thrown σ' ->
         mainLoop queryQuads fuel idx rules σ = Thrown σ')
  /\ (forall fuel rules graph σ',
         runState queryQuads fuel rules graph = Thrown σ' ->
         inferUntilStable queryQuads fuel rules graph = Thrown σ')
  /\ (forall fuel rules graph σs k σp rs1 rule rs2 cb,
         seedPhase (startIndices graph) (initState graph) = Returned σs ->
         passesFrom queryQuads (startIndices graph) rules fuel σs (S k) σp ->
         filterRules rules = rs1 ++ rule :: rs2 ->
         forRules queryQuads (S k) (startIndices graph) rs1 (σp, false)
         = Returned cb ->
         queryQuads (getConstructQueryForRule rule) (rdfjsStore (fst cb)) = None ->
         inferUntilStable queryQuads fuel rules graph
         = Thrown (add_asked (getConstructQueryForRule rule) (fst cb))
         /\ grows (initState graph) σs /\ grows σs σp /\ grows σp (fst cb))
  /\ (forall fuel rules graph σ',
         runState queryQuads fuel rules graph = Thrown σ' ->
         exists σs rule σb,
           seedPhase (startIndices graph) (initState graph) = Returned σs
           /\ rule ∈ filterRules rules
           /\ grows (initState graph) σs /\ grows σs σb /\ grows σb σ'
           /\ asked σ' = asked σb ++ [getConstructQueryForRule rule]
           /\ ruleThrew queryQuads (startIndices graph) rule σb σ').
Proof.
  split.
  { intros fuel idx rule σ b H. rewrite ruleStep_unfold. cbv zeta.
    unfold applyConstructWithComunica. simpl fst. by rewrite H. }
  split; [intros *; apply forRules_fails_at|].
  assert (P : forall fuel idx rules σ k σp σ',
             passesFrom queryQuads idx rules fuel σ (S k) σp ->
             pass queryQuads (S k) idx rules σp = Thrown σ' ->
             mainLoop queryQuads fuel idx rules σ = Thrown σ').
  { intros fuel idx rules σ k σp σ' H E.
    rewrite (mainLoop_passes _ _ _ _ _ _ _ H). cbn [mainLoop]. by rewrite E. }
  split; [exact P|].
  assert (I : forall fuel rules graph σ',
             runState queryQuads fuel rules graph = Thrown σ' ->
             inferUntilStable queryQuads fuel rules graph = Thrown σ').
  { intros fuel rules graph σ' H. unfold inferUntilStable. by rewrite H. }
  split; [exact I|].
  split.
  { intros fuel rules graph σs k σp rs1 rule rs2 cb Es Hp Er E H.
    split.
    - apply I. destruct (runState_unfold queryQuads fuel rules graph)
        as (σs' & Es' & ->).
      rewrite Es in Es'. injection Es' as <-.
      eapply P; [exact Hp|]. unfold pass. rewrite Er.
      by apply forRules_fails_at.
    - split; [by apply seedPhase_frame in Es as [? _]|].
      split; [by eapply grows_passes|].
      by apply forRules_Returned in E as [? _]. }
  intros fuel rules graph σ' H.
  destruct (runState_unfold queryQuads fuel rules graph) as (σs & Es & E).
  rewrite E in H. apply mainLoop_Thrown in H as (rule & σb & ? & ? & _ & T).
  destruct (ruleThrew_frame _ _ _ _ _ T) as (G & A & _).
  exists σs, rule, σb. split; [done|]. split; [done|].
  split; [by apply seedPhase_frame in Es as [? _]|]. done.
Qed.

(** ** Worked runs *)

(** The evaluator fails at the second rule of the second pass, and the run
    ends in that throw. *)
Lemma evaluator_failure_aborts_witness :
  exists σ',
    inferUntilStable lateFailingEvaluator 3 ["domain"; "symmetric"] sym_graph
    = Thrown σ'
    /\ asked σ' = map getConstructQueryForRule
                     ["domain"; "symmetric"; "domain"; "symmetric"]
    /\ st (NamedNode "urn:y") "urn:q" (NamedNode "urn:x") ∈ baseGraph σ'.
Proof.
  pose (idx := startIndices sym_graph).
  pose (σs := state_of (seedPhase idx (initState sym_graph))).
  pose (σp := match pass lateFailingEvaluator 3 idx ["domain"; "symmetric"] σs with
              | Returned c => fst c
              | _ => σs
              end).
  pose (cb := match forRules lateFailingEvaluator 2 idx ["domain"] (σp, false) with
              | Returned c => c
              | _ => (σp, false)
              end).
  exists (add_asked (getConstructQueryForRule "symmetric") (fst cb)).
  split; [|split; [vm_compute; reflexivity|by_evaluation]].
  refine (proj1 (proj1 (proj2 (proj2 (proj2 (proj2
              (evaluator_failure_aborts lateFailingEvaluator)))))
              3 ["domain"; "symmetric"] sym_graph σs 1 σp ["domain"] "symmetric" [] cb
              _ _ _ _ _)).
  - vm_compute. reflexivity.
  - eapply passes_next; [|apply passes_here]. vm_compute. reflexivity.
  - reflexivity.
  - vm_compute. reflexivity.
  - vm_compute. reflexivity.
Defined.


(** ** The enqueue discipline *)

Lemma enqueue1_unseen σ s :
  toNT s ∉ seen σ ->
  st (subject s) (predicate s) (object s) ∈ baseGraph (enqueue1 σ s)
  /\ quad (toSubject (subject s)) (predicate s) (toObject (object s))
       ∈ overlayStore (enqueue1 σ s)
  /\ quad (toSubject (subject s)) (predicate s) (toObject (object s))
       ∈ rdfjsStore (enqueue1 σ s)
  /\ seen (enqueue1 σ s) = {[toNT s]} ∪ seen σ
  /\ size (seen (enqueue1 σ s)) = S (size (seen σ))
  /\ (if String.eqb (predicate s) RDF_TYPE
      then workTypes (enqueue1 σ s) = workTypes σ ++ [s]
           /\ workProps (enqueue1 σ s) = workProps σ
      else workProps (enqueue1 σ s) = workProps σ ++ [s]
           /\ workTypes (enqueue1 σ s) = workTypes σ).
Proof.
  intros H. unfold enqueue1. rewrite bool_decide_eq_false_2 by done. simpl.
  split; [apply elem_of_formula_add; auto|].
  split; [apply elem_of_addQuad; auto|].
  split; [apply elem_of_addQuad; auto|].
  split; [done|].
  split; [rewrite size_union by set_solver; by rewrite size_singleton|].
  by destruct (String.eqb _ _).
Qed.

Lemma enqueue1_fixed σ s : toNT s ∈ seen σ <-> enqueue1 σ s = σ.
Proof.
  split; [apply enqueue1_seen|]. intros E.
  destruct (decide (toNT s ∈ seen σ)) as [|Hn]; [done|].
  apply enqueue1_unseen in Hn as (_ & _ & _ & Hs & _). rewrite E in Hs. set_solver.
Qed.

(** What a finished run returns, in terms of the state after the seed and
    the last state. *)
Lemma inferUntilStable_Returned queryQuads fuel rules graph r :
  inferUntilStable queryQuads fuel rules graph = Returned r ->
  exists σs σf,
    seedPhase (startIndices graph) (initState graph) = Returned σs
    /\ runState queryQuads fuel rules graph = Returned σf
    /\ mainLoop queryQuads fuel (startIndices graph) rules σs = Returned σf
    /\ r = {| overlayGraph := overlayOf σf; metrics_totalAdded := totalAdded σf |}
    /\ totalAdded σs = 0 /\ queues_empty σs = true.
Proof.
  unfold inferUntilStable.
  destruct (runState_unfold queryQuads fuel rules graph) as (σs & Es & E).
  destruct (runState queryQuads fuel rules graph) as [σf| |] eqn:Ef; try done.
  cbn [mbind Outcome_bind]. intros [= <-]. exists σs, σf.
  apply seedPhase_frame in Es as Hf. destruct Hf as (_ & [Ht _] & HT & HP).
  split; [done|]. split; [done|]. split; [congruence|]. split; [done|].
  split; [done|]. apply queues_empty_spec. by rewrite HT, HP.
Qed.

(** ** Batches of candidates *)

Lemma keys_cons s l : keys (s :: l) = {[toNT s]} ∪ keys l.
Proof. reflexivity. Qed.

Lemma elem_of_keys k l : k ∈ keys l <-> exists s, s ∈ l /\ toNT s = k.
Proof.
  unfold keys. rewrite elem_of_list_to_set, elem_of_map. split.
  - intros (s & -> & ?). by exists s.
  - intros (s & ? & <-). by exists s.
Qed.

(** The loop of [selectUnseen] reads the global index only outside its
    batch set. *)
Lemma selectUnseen_loop_outside stmts G G' B :
  (forall k, k ∉ B -> k ∈ G <-> k ∈ G') ->
  selectUnseen_loop stmts G B = selectUnseen_loop stmts G' B.
Proof.
  revert B. induction stmts as [|s stmts IH]; intros B H; simpl; [done|].
  case_bool_decide as Hb; [by apply IH|].
  rewrite (IH ({[toNT s]} ∪ B)) by (intros k Hk; apply H; set_solver).
  destruct (H (toNT s) Hb) as [H1 H2].
  repeat case_bool_decide; try done; tauto.
Qed.

Lemma selectUnseen_loop_sublist stmts G B :
  selectUnseen_loop stmts G B `sublist_of` stmts.
Proof.
  revert B. induction stmts as [|s stmts IH]; intros B; simpl; [done|].
  repeat case_bool_decide; try (apply sublist_cons; apply IH);
    by apply sublist_skip.
Qed.

Lemma selectUnseen_loop_keyset stmts G B :
  keys (selectUnseen_loop stmts G B) = keys stmts ∖ (G ∪ B).
Proof.
  revert B. induction stmts as [|s stmts IH]; intros B.
  - unfold keys; simpl. set_solver.
  - cbn [selectUnseen_loop]. cbv zeta. rewrite (keys_cons s stmts).
    case_bool_decide; [|case_bool_decide; [|rewrite keys_cons]]; rewrite IH;
      generalize dependent (toNT s); generalize (keys stmts); clear;
      intros g k; intros; apply set_eq; intros x; destruct (decide (x = k));
      set_solver.
Qed.


Lemma seen_enqueue σ stmts : seen (enqueue σ stmts) = keys stmts ∪ seen σ.
Proof.
  revert σ. induction stmts as [|s stmts IH]; intros σ.
  - unfold keys; simpl. set_solver.
  - unfold enqueue in *. simpl. rewrite IH, seen_enqueue1, keys_cons. set_solver.
Qed.


Lemma enqueue_selectUnseen_loop σ stmts B :
  B ⊆ seen σ ->
  enqueue σ stmts = enqueue σ (selectUnseen_loop stmts (seen σ) B).
Proof.
  revert σ B. induction stmts as [|s stmts IH]; intros σ B HB; [done|].
  cbn [selectUnseen_loop]. cbv zeta.
  change (enqueue σ (s :: stmts)) with (enqueue (enqueue1 σ s) stmts).
  case_bool_decide as Hb.
  - rewrite enqueue1_seen by set_solver. by apply IH.
  - case_bool_decide as Hs.
    + rewrite enqueue1_seen by done. apply IH. set_solver.
    + change (enqueue σ (s :: ?l)) with (enqueue (enqueue1 σ s) l).
      rewrite (IH (enqueue1 σ s) ({[toNT s]} ∪ B))
        by (rewrite seen_enqueue1; set_solver).
      f_equal. apply selectUnseen_loop_outside. intros k Hk.
      rewrite seen_enqueue1. set_solver.
Qed.

Lemma enqueue1_fresh σ s :
  toNT s ∉ seen σ ->
  workTypes (enqueue1 σ s) = workTypes σ ++ List.filter is_type [s]
  /\ workProps (enqueue1 σ s)
     = workProps σ ++ List.filter (fun s => negb (is_type s)) [s]
  /\ overlayStore (enqueue1 σ s)
     = addQuad (quad (toSubject (subject s)) (predicate s) (toObject (object s)))
               (overlayStore σ)
  /\ rdfjsStore (enqueue1 σ s)
     = addQuad (quad (toSubject (subject s)) (predicate s) (toObject (object s)))
               (rdfjsStore σ).
Proof.
  intros H. unfold enqueue1. rewrite bool_decide_eq_false_2 by done.
  cbn [workTypes workProps overlayStore rdfjsStore List.filter]. unfold is_type.
  destruct (String.eqb (predicate s) RDF_TYPE); simpl; by rewrite ?app_nil_r.
Qed.

Lemma enqueue_fresh σ l :
  NoDup (map toNT l) -> (forall s, s ∈ l -> toNT s ∉ seen σ) ->
  workTypes (enqueue σ l) = workTypes σ ++ List.filter is_type l
  /\ workProps (enqueue σ l) = workProps σ ++ List.filter (fun s => negb (is_type s)) l
  /\ (forall q, q ∈ overlayStore (enqueue σ l)
                <-> q ∈ overlayStore σ
                    \/ exists s, s ∈ l
                         /\ q = quad (toSubject (subject s)) (predicate s)
                                     (toObject (object s)))
  /\ (forall q, q ∈ rdfjsStore (enqueue σ l)
                <-> q ∈ rdfjsStore σ
                    \/ exists s, s ∈ l
                         /\ q = quad (toSubject (subject s)) (predicate s)
                                     (toObject (object s))).
Proof.
  revert σ. induction l as [|s l IH]; intros σ Hnd Hfresh.
  - simpl. rewrite !app_nil_r. repeat split; try tauto; set_solver.
  - simpl in Hnd. apply NoDup_cons in Hnd as [Hs Hnd].
    change (enqueue σ (s :: l)) with (enqueue (enqueue1 σ s) l).
    assert (Hs' : toNT s ∉ seen σ) by (apply Hfresh; set_solver).
    destruct (IH (enqueue1 σ s) Hnd) as (T & P & O & R).
    { intros t Ht. rewrite seen_enqueue1. intros Hin.
      apply elem_of_union in Hin as [Hin|Hin].
      - apply elem_of_singleton in Hin. apply Hs. rewrite <- Hin.
        apply elem_of_map. by exists t.
      - revert Hin. apply Hfresh. set_solver. }
    destruct (enqueue1_fresh σ s Hs') as (T1 & P1 & O1 & R1).
    rewrite T, P, T1, P1. clear T P T1 P1.
    split; [rewrite <- app_assoc; f_equal; symmetry; apply (List.filter_app _ [s] l)|].
    split; [rewrite <- app_assoc; f_equal; symmetry; apply (List.filter_app _ [s] l)|].
    split; intros q; [rewrite O, O1|rewrite R, R1]; rewrite elem_of_addQuad; split.
    + intros [[->|?]|(t & ? & ->)]; [right; exists s|by left|right; exists t];
        set_solver.
    + intros [?|(t & Ht & ->)]; [auto|].
      apply elem_of_cons in Ht as [->|?]; [auto|]. right. by exists t.
    + intros [[->|?]|(t & ? & ->)]; [right; exists s|by left|right; exists t];
        set_solver.
    + intros [?|(t & Ht & ->)]; [auto|].
      apply elem_of_cons in Ht as [->|?]; [auto|]. right. by exists t.
Qed.


Lemma enqueue_app σ l1 l2 : enqueue σ (l1 ++ l2) = enqueue (enqueue σ l1) l2.
Proof. apply fold_left_app. Qed.

Lemma enqueue_extra_enqueue extra c :
  fst (enqueue_extra extra c) = enqueue (fst c) extra.
Proof. by destruct extra. Qed.

Lemma keys_app l1 l2 : keys (l1 ++ l2) = keys l1 ∪ keys l2.
Proof. unfold keys. rewrite map_app. set_solver. Qed.

(** The seed in full: both loops return; the lifts written are those of
    the closure expansions whose key the seen index does not hold; each is
    written to the working graph, both stores and the seen index; the queues
    are left as they were. *)
Lemma seedPhase_lifts idx σ :
  exists σ1 σ',
    seedApply σ (seedPropUnseen idx σ) = Returned σ1
    /\ seedApply σ1 (seedTypeUnseen idx σ σ1) = Returned σ'
    /\ seedPhase idx σ = Returned σ'
    /\ keys (seedPropUnseen idx σ)
       = keys (expandPropsWithClosure idx
                 (List.filter (fun s => negb (is_type s)) (baseGraph σ)))
         ∖ seen σ
    /\ keys (seedTypeUnseen idx σ σ1)
       = keys (expandTypesWithClosure idx (List.filter is_type (baseGraph σ)))
         ∖ seen σ1
    /\ seen σ1 = keys (seedPropUnseen idx σ) ∪ seen σ
    /\ seen σ' = keys (seedTypeUnseen idx σ σ1) ∪ seen σ1
    /\ (forall s, s ∈ seedPropUnseen idx σ ++ seedTypeUnseen idx σ σ1 ->
                  st (subject s) (predicate s) (object s) ∈ baseGraph σ'
                  /\ liftQuad s ∈ overlayStore σ' /\ liftQuad s ∈ rdfjsStore σ'
                  /\ toNT s ∈ seen σ')
    /\ (forall q, q ∈ overlayStore σ'
                  <-> q ∈ overlayStore σ
                      \/ exists s, s ∈ seedPropUnseen idx σ ++ seedTypeUnseen idx σ σ1
                                   /\ q = liftQuad s)
    /\ workTypes σ' = workTypes σ /\ workProps σ' = workProps σ
    /\ totalAdded σ' = totalAdded σ.
Proof.
  destruct (seedApply_spec σ (seedPropUnseen idx σ))
    as (σ1 & E1 & G1 & [M1 _] & T1 & P1 & S1 & O1 & R1 & B1).
  { apply seedPropUnseen_absolute. }
  destruct (seedApply_spec σ1 (seedTypeUnseen idx σ σ1))
    as (σ' & E2 & G2 & [M2 _] & T2 & P2 & S2 & O2 & R2 & B2).
  { apply seedTypeUnseen_absolute. }
  exists σ1, σ'. split; [done|]. split; [done|].
  split.
  { unfold seedPhase. fold (seedPropUnseen idx σ). rewrite E1.
    cbn [mbind Outcome_bind]. fold (seedTypeUnseen idx σ σ1). done. }
  split.
  { unfold seedPropUnseen, selectUnseen. rewrite selectUnseen_loop_keyset. set_solver. }
  split.
  { unfold seedTypeUnseen, selectUnseen. rewrite selectUnseen_loop_keyset. set_solver. }
  split; [done|]. split; [done|].
  split.
  { intros s Hs. apply elem_of_app in Hs as [Hs|Hs].
    - split; [apply G2, B1, Hs|].
      split; [apply G2, O1; right; by exists s|].
      split; [apply G2, R1; right; by exists s|].
      apply G2. rewrite S1. apply elem_of_union_l, elem_of_keys. by exists s.
    - split; [by apply B2|].
      split; [apply O2; right; by exists s|].
      split; [apply R2; right; by exists s|].
      rewrite S2. apply elem_of_union_l, elem_of_keys. by exists s. }
  split.
  { intros q. rewrite O2, O1. setoid_rewrite elem_of_app. naive_solver. }
  split; [congruence|]. split; congruence.
Qed.

(** C1, as the code has it. Every candidate handed to [enqueue], as the answers of
    a rule and the expansions of the drain are, is added to the working set,
    the overlay store, the shared store and the seen index, and routed to the
    type queue or the property queue by its predicate, if and only if its key
    is not in the seen index when the loop of [enqueue] comes to it; otherwise
    it changes nothing. The lifts of the seed pass the same key test and are
    written to the working set, both stores and the seen index, but are routed
    to no queue and not counted. For every run that returns, no statement
    occurs twice in the returned overlay, every quad of the overlay store is
    returned, and totalAdded is the number of keys that entered the seen index
    after the seed: a statement first derived inside the rule loop is counted
    once however often it is derived again, a statement first lifted by the
    seed is not counted. *)
Theorem enqueue_discipline
    (queryQuads : string -> list Quad -> option (list Quad)) :
  (forall (σ : State) (l1 : list Statement) (s : Statement) (l2 : list Statement),
      enqueue σ (l1 ++ s :: l2) = enqueue (enqueue1 (enqueue σ l1) s) l2
      /\ grows (enqueue1 (enqueue σ l1) s) (enqueue σ (l1 ++ s :: l2))
      /\ (toNT s ∈ seen (enqueue σ l1)
          -> enqueue σ (l1 ++ s :: l2) = enqueue σ (l1 ++ l2)))
  /\ (forall (σ : State) (s : Statement),
         (toNT s ∈ seen σ <-> enqueue1 σ s = σ)
         /\ (toNT s ∉ seen σ ->
             st (subject s) (predicate s) (object s) ∈ baseGraph (enqueue1 σ s)
             /\ quad (toSubject (subject s)) (predicate s) (toObject (object s))
                  ∈ overlayStore (enqueue1 σ s)
             /\ quad (toSubject (subject s)) (predicate s) (toObject (object s))
                  ∈ rdfjsStore (enqueue1 σ s)
             /\ seen (enqueue1 σ s) = {[toNT s]} ∪ seen σ
             /\ size (seen (enqueue1 σ s)) = S (size (seen σ))
             /\ (if String.eqb (predicate s) RDF_TYPE
                 then workTypes (enqueue1 σ s) = workTypes σ ++ [s]
                      /\ workProps (enqueue1 σ s) = workProps σ
                 else workProps (enqueue1 σ s) = workProps σ ++ [s]
                      /\ workTypes (enqueue1 σ s) = workTypes σ)))
  /\ (forall (σ : State) (stmts : list Statement),
         seen (enqueue σ stmts) = keys stmts ∪ seen σ
         /\ exists types props,
              workTypes (enqueue σ stmts) = workTypes σ ++ types
              /\ workProps (enqueue σ stmts) = workProps σ ++ props
              /\ forall s, s ∈ types ++ props
                           <-> s ∈ selectUnseen stmts (seen σ))
  /\ (forall (extra : list Statement) (c : State * bool),
         fst (enqueue_extra extra c) = enqueue (fst c) extra)
  /\ (forall (fuel : nat) (idx : Indices) (rule : string) (c : State * bool)
             (stmts : list Statement),
         applyConstructWithComunica queryQuads (getConstructQueryForRule rule)
           (rdfjsStore (fst c)) = Some stmts ->
         ruleStep queryQuads fuel idx rule c
         = (c3 ← processQueues fuel idx
                   (enqueue (add_asked (getConstructQueryForRule rule) (fst c))
                            (dedupeBatch stmts));
            let added := size (seen (fst c3)) - size (seen (fst c)) in
            if Nat.ltb 0 added then Returned (add_total added (fst c3), true)
            else Returned (fst c3, snd c)))
  /\ (forall (idx : Indices) (σ : State),
         exists σ1 σ',
           seedApply σ (seedPropUnseen idx σ) = Returned σ1
           /\ seedApply σ1 (seedTypeUnseen idx σ σ1) = Returned σ'
           /\ seedPhase idx σ = Returned σ'
           /\ keys (seedPropUnseen idx σ)
              = keys (expandPropsWithClosure idx
                        (List.filter (fun s => negb (is_type s)) (baseGraph σ)))
                ∖ seen σ
           /\ keys (seedTypeUnseen idx σ σ1)
              = keys (expandTypesWithClosure idx
                        (List.filter is_type (baseGraph σ)))
                ∖ seen σ1
           /\ seen σ1 = keys (seedPropUnseen idx σ) ∪ seen σ
           /\ seen σ' = keys (seedTypeUnseen idx σ σ1) ∪ seen σ1
           /\ (forall s, s ∈ seedPropUnseen idx σ ++ seedTypeUnseen idx σ σ1 ->
                         st (subject s) (predicate s) (object s) ∈ baseGraph σ'
                         /\ liftQuad s ∈ overlayStore σ'
                         /\ liftQuad s ∈ rdfjsStore σ'
                         /\ toNT s ∈ seen σ')
           /\ (forall q, q ∈ overlayStore σ'
                         <-> q ∈ overlayStore σ
                             \/ exists s,
                                  s ∈ seedPropUnseen idx σ ++ seedTypeUnseen idx σ σ1
                                  /\ q = liftQuad s)
           /\ workTypes σ' = workTypes σ /\ workProps σ' = workProps σ
           /\ totalAdded σ' = totalAdded σ)
  /\ (forall (fuel : nat) (rules : list string) (graph : list Statement) (r : Result),
         inferUntilStable queryQuads fuel rules graph = Returned r ->
         exists σs σf,
           seedPhase (startIndices graph) (initState graph) = Returned σs
           /\ runState queryQuads fuel rules graph = Returned σf
           /\ NoDup (overlayGraph r)
           /\ (forall q, q ∈ overlayStore σf -> quadToStatement false q ∈ overlayGraph r)
           /\ seen σs ⊆ seen σf
           /\ metrics_totalAdded r = size (seen σf ∖ seen σs)).
Proof.
  split.
  { intros σ l1 s l2.
    assert (E : enqueue σ (l1 ++ s :: l2) = enqueue (enqueue1 (enqueue σ l1) s) l2)
      by by rewrite enqueue_app.
    split; [exact E|]. split; [rewrite E; apply grows_enqueue|].
    intros H. rewrite E, (enqueue1_seen _ _ H). by rewrite enqueue_app. }
  split.
  { intros σ s. split; [apply enqueue1_fixed|apply enqueue1_unseen]. }
  split.
  { intros σ stmts. split; [apply seen_enqueue|].
    assert (N : NoDup (map toNT (selectUnseen stmts (seen σ))))
      by apply selectUnseen_loop_keys.
    assert (F : forall s, s ∈ selectUnseen stmts (seen σ) -> toNT s ∉ seen σ).
    { intros s Hs. by apply elem_of_selectUnseen in Hs as [_ ?]. }
    destruct (enqueue_fresh σ _ N F) as (T & P & _).
    rewrite (enqueue_selectUnseen_loop σ stmts ∅) by set_solver.
    fold (selectUnseen stmts (seen σ)).
    eexists _, _. split; [exact T|]. split; [exact P|].
    intros s. rewrite elem_of_app, !elem_of_filter_bool.
    destruct (is_type s); simpl; naive_solver. }
  split; [intros; apply enqueue_extra_enqueue|].
  split.
  { intros fuel idx rule c stmts E. rewrite ruleStep_unfold. cbv zeta.
    rewrite E. by destruct (processQueues _ _ _) as [[? ?]| |]. }
  split; [apply seedPhase_lifts|].
  intros fuel rules graph r H.
  apply inferUntilStable_Returned in H as (σs & σf & Es & Ef & El & -> & H0 & _).
  exists σs, σf. simpl.
  apply mainLoop_Returned in El as (G & _ & T).
  split; [done|]. split; [done|]. split; [apply NoDup_overlayOf|].
  split; [intros q Hq; apply elem_of_overlayOf; by exists q|].
  assert (Hsub : seen σs ⊆ seen σf) by apply G.
  split; [done|].
  rewrite size_difference by done. lia.
Qed.

Example sym_run :
  inferUntilStable symmetricEvaluator 3 ["symmetric"] sym_graph
  = Returned
      {| overlayGraph := [st (NamedNode "urn:x") "urn:q" (NamedNode "urn:y");
                          st (NamedNode "urn:y") "urn:q" (NamedNode "urn:x")];
         metrics_totalAdded := 1 |}.
Proof. vm_compute. reflexivity. Qed.

Lemma enqueue_discipline_witness :
  inferUntilStable symmetricEvaluator 3 ["symmetric"] sym_graph = Returned sym_result
  /\ exists σs σf,
       seedPhase (startIndices sym_graph) (initState sym_graph) = Returned σs
       /\ runState symmetricEvaluator 3 ["symmetric"] sym_graph = Returned σf
       /\ NoDup (overlayGraph sym_result)
       /\ (forall q, q ∈ overlayStore σf ->
                     quadToStatement false q ∈ overlayGraph sym_result)
       /\ seen σs ⊆ seen σf
       /\ metrics_totalAdded sym_result = size (seen σf ∖ seen σs).
Proof.
  assert (E : inferUntilStable symmetricEvaluator 3 ["symmetric"] sym_graph
              = Returned sym_result) by by_evaluation.
  split; [exact E|].
  exact (proj2 (proj2 (proj2 (proj2 (proj2 (proj2
           (enqueue_discipline symmetricEvaluator))))))
           3 ["symmetric"] sym_graph sym_result E).
Defined.

(** C1 as stated fails on the seed path. In the graph x p y, p subPropertyOf
    q, q symmetric, the statement x q y is produced by an expander with a key
    not yet seen; the seed adds it to the working set, the overlay store and
    the seen index but routes it to neither queue. With the symmetric rule on,
    the same statement is derived a second time by another expander while the
    queues are drained; the returned overlay has it once, next to y q x, and
    totalAdded is 1: x q y is not counted. *)
Lemma enqueue_discipline_counterexample :
  let σ0 := initState sym_graph in
  let idx := startIndices sym_graph in
  let lifted := st (NamedNode "urn:x") "urn:q" (NamedNode "urn:y") in
  let flipped := st (NamedNode "urn:y") "urn:q" (NamedNode "urn:x") in
  lifted ∈ expandPropsWithClosure idx
             (List.filter (fun s => negb (is_type s)) (baseGraph σ0))
  /\ (toNT lifted ∉ seen σ0)
  /\ (exists σs, seedPhase idx σ0 = Returned σs
                 /\ toNT lifted ∈ seen σs /\ lifted ∈ baseGraph σs
                 /\ lifted ∈ overlayStore σs
                 /\ workTypes σs = [] /\ workProps σs = [])
  /\ applyInverseAndSymmetric idx [flipped] = Some [lifted]
  /\ inferUntilStable symmetricEvaluator 3 ["symmetric"] sym_graph
     = Returned {| overlayGraph := [lifted; flipped]; metrics_totalAdded := 1 |}.
Proof.
  cbv zeta. split; [by_evaluation|]. split; [by_evaluation|].
  split.
  { exists (state_of (seedPhase (startIndices sym_graph) (initState sym_graph))).
    split; [by_evaluation|].
    split; [by_evaluation|]. split; [by_evaluation|]. split; [by_evaluation|].
    split; by_evaluation. }
  split; [by_evaluation|]. exact sym_run.
Qed.


(** ** Seeded lifts and the counter *)

(** C10. The seed always completes. Every statement it lifts (the unseen
    sub-property lifts, then the unseen sub-class lifts) had an unseen key and
    ends up in the working set, the overlay store, the shared store and the
    seen index, while the counter and both queues are left as they were. For
    every run that returns, the counter is zero when the rule loop starts and
    is afterwards exactly the growth of the seen index inside the loop, and
    every quad the seed put into the overlay store is in the returned overlay.
    So the overlay can hold more statements than totalAdded reports: with no
    rule selected, the graph x p y, p subPropertyOf q, q symmetric returns one
    statement and totalAdded = 0. *)
Theorem seed_lifts_not_counted
    (queryQuads : string -> list Quad -> option (list Quad)) :
  (forall (idx : Indices) (σ : State),
      exists σ1 σs,
        seedApply σ (seedPropUnseen idx σ) = Returned σ1
        /\ seedPhase idx σ = Returned σs
        /\ totalAdded σs = totalAdded σ
        /\ workTypes σs = workTypes σ /\ workProps σs = workProps σ
        /\ forall s, s ∈ seedPropUnseen idx σ ++ seedTypeUnseen idx σ σ1 ->
             (toNT s ∉ seen σ)
             /\ toNT s ∈ seen σs
             /\ st (subject s) (predicate s) (object s) ∈ baseGraph σs
             /\ seedQuad s = Some (liftQuad s)
             /\ liftQuad s ∈ overlayStore σs
             /\ liftQuad s ∈ rdfjsStore σs)
  /\ (forall (fuel : nat) (rules : list string) (graph : list Statement) (r : Result),
         inferUntilStable queryQuads fuel rules graph = Returned r ->
         exists σs σf,
           seedPhase (startIndices graph) (initState graph) = Returned σs
           /\ runState queryQuads fuel rules graph = Returned σf
           /\ totalAdded σs = 0
           /\ metrics_totalAdded r + size (seen σs) = size (seen σf)
           /\ (forall q, q ∈ overlayStore σs -> quadToStatement false q ∈ overlayGraph r))
  /\ (exists r, inferUntilStable queryQuads 1 [] sym_graph = Returned r
                /\ metrics_totalAdded r < length (overlayGraph r)).
Proof.
  split.
  { intros idx σ.
    destruct (seedApply_spec σ (seedPropUnseen idx σ))
      as (σ1 & E1 & G1 & M1 & T1 & P1 & S1 & O1 & R1 & B1).
    { apply seedPropUnseen_absolute. }
    destruct (seedApply_spec σ1 (seedTypeUnseen idx σ σ1))
      as (σs & E2 & G2 & M2 & T2 & P2 & S2 & O2 & R2 & B2).
    { apply seedTypeUnseen_absolute. }
    destruct (seedPhase_spec idx σ) as (σ1' & σs' & E1' & E2' & E).
    rewrite E1 in E1'. injection E1' as <-. rewrite E2 in E2'. injection E2' as <-.
    exists σ1, σs. split; [done|]. split; [done|].
    destruct M1 as [M1 _], M2 as [M2 _].
    split; [congruence|]. split; [congruence|]. split; [congruence|].
    intros s Hs. apply elem_of_app in Hs as [Hs|Hs].
    - split; [by apply elem_of_selectUnseen in Hs as [_ ?]|].
      split; [rewrite S2, S1; apply elem_of_union_r, elem_of_union_l,
                elem_of_list_to_set, elem_of_map; by exists s|].
      split; [by apply G2, B1|].
      split; [by eapply seedQuad_absolute, seedPropUnseen_absolute|].
      split; [apply O2; left; apply O1; right; by exists s|].
      apply R2. left. apply R1. right. by exists s.
    - split.
      { apply elem_of_selectUnseen in Hs as [_ Hn]. intros Hin. apply Hn.
        by apply G1. }
      split; [rewrite S2; apply elem_of_union_l, elem_of_list_to_set, elem_of_map;
                by exists s|].
      split; [by apply B2|].
      split; [by eapply seedQuad_absolute, seedTypeUnseen_absolute|].
      split; [apply O2; right; by exists s|]. apply R2. right. by exists s. }
  split.
  { intros fuel rules graph r H.
    apply inferUntilStable_Returned in H as (σs & σf & Es & Ef & El & -> & H0 & _).
    exists σs, σf. simpl.
    apply mainLoop_Returned in El as (G & _ & T).
    split; [done|]. split; [done|]. split; [done|]. split; [lia|].
    intros q Hq. apply elem_of_overlayOf. exists q. split; [|done]. by apply G. }
  eexists. split; [vm_compute; reflexivity|]. simpl. lia.
Qed.

Lemma seed_lifts_not_counted_witness :
  inferUntilStable symmetricEvaluator 3 ["symmetric"] sym_graph = Returned sym_result
  /\ exists σs σf,
       seedPhase (startIndices sym_graph) (initState sym_graph) = Returned σs
       /\ runState symmetricEvaluator 3 ["symmetric"] sym_graph = Returned σf
       /\ totalAdded σs = 0
       /\ metrics_totalAdded sym_result + size (seen σs) = size (seen σf)
       /\ (forall q, q ∈ overlayStore σs ->
                     quadToStatement false q ∈ overlayGraph sym_result).
Proof.
  assert (E : inferUntilStable symmetricEvaluator 3 ["symmetric"] sym_graph
              = Returned sym_result) by by_evaluation.
  split; [exact E|].
  exact (proj1 (proj2 (seed_lifts_not_counted symmetricEvaluator))
           3 ["symmetric"] sym_graph sym_result E).
Defined.


(** ** The drain loop terminates *)

(** Every statement the expanders can emit is made of terms and predicates
    of a finite universe fixed when the drain starts; each pass either pushes
    nothing or records a new key of that universe. *)
Section Termination.
Variable idx : Indices.
Variable T : list Term.
Variable P : list string.
Hypothesis T_toSubject : forall t, t ∈ T -> toSubject t ∈ T.
Hypothesis T_toObject : forall t, t ∈ T -> toObject t ∈ T.
Hypothesis T_named : forall t, t ∈ T -> NamedNode (value t) ∈ T.
Hypothesis T_class : forall k c, c ∈ lookup_set (classSupers idx) k -> NamedNode c ∈ T.
Hypothesis T_domain : forall k c, c ∈ lookup_set (domainMap idx) k -> NamedNode c ∈ T.
Hypothesis T_range : forall k c, c ∈ lookup_set (rangeMap idx) k -> NamedNode c ∈ T.
Hypothesis P_type : RDF_TYPE ∈ P.
Hypothesis P_super : forall k p, p ∈ lookup_set (propSupers idx) k -> p ∈ P.
Hypothesis P_inverse : forall k p, p ∈ lookup_set (inversePairs idx) k -> p ∈ P.

Lemma inU_universe s : inU T P s -> toNT s ∈ universe T P.
Proof.
  intros (Hs & Hp & Ho). unfold universe.
  apply elem_of_list_to_set, elem_of_map.
  exists (st (subject s) (predicate s) (object s)). split; [by apply toNT_spo|].
  unfold allStatements. apply elem_of_flat_map. exists (subject s). split; [done|].
  apply elem_of_flat_map. exists (predicate s). split; [done|].
  apply elem_of_map. by exists (object s).
Qed.

Lemma bounded_enqueue1 σ s :
  bounded T P σ -> inU T P s ->
  bounded T P (enqueue1 σ s) /\ potential T P (enqueue1 σ s) <= potential T P σ.
Proof.
  intros (BT & BP & BS) Hs. unfold enqueue1. case_bool_decide as Hk; [done|].
  split.
  - unfold bounded; simpl. destruct Hs as (H1 & H2 & H3).
    split; [|split].
    + destruct (String.eqb _ _); [|done]. intros t Ht.
      apply elem_of_app in Ht as [?|Ht]; [auto|].
      apply list_elem_of_singleton in Ht as ->. done.
    + destruct (String.eqb _ _); [done|]. intros t Ht.
      apply elem_of_app in Ht as [?|Ht]; [auto|].
      apply list_elem_of_singleton in Ht as ->. done.
    + intros q Hq. apply elem_of_addQuad in Hq as [->|?]; [|auto].
      simpl. auto.
  - unfold potential, rank; simpl.
    assert (Hin : toNT s ∈ universe T P ∖ seen σ).
    { apply elem_of_difference. split; [by apply inU_universe|done]. }
    assert (E : universe T P ∖ ({[toNT s]} ∪ seen σ)
                = (universe T P ∖ seen σ) ∖ {[toNT s]}) by set_solver.
    rewrite E, size_difference by set_solver. rewrite size_singleton.
    assert (0 < size (universe T P ∖ seen σ)).
    { assert (Hle : size ({[toNT s]} : gset string) <= size (universe T P ∖ seen σ))
        by (apply subseteq_size; set_solver).
      rewrite size_singleton in Hle. lia. }
    destruct (String.eqb _ _); rewrite length_app; simpl; lia.
Qed.

Lemma bounded_enqueue σ stmts :
  bounded T P σ -> (forall s, s ∈ stmts -> inU T P s) ->
  bounded T P (enqueue σ stmts) /\ potential T P (enqueue σ stmts) <= potential T P σ.
Proof.
  revert σ. induction stmts as [|s stmts IH]; intros σ B Hs; simpl; [done|].
  destruct (bounded_enqueue1 σ s B) as [B1 L1]; [apply Hs; set_solver|].
  destruct (IH (enqueue1 σ s) B1) as [B2 L2]; [intros; apply Hs; set_solver|].
  split; [done|lia].
Qed.

Lemma bounded_enqueue_extra extra c :
  bounded T P (fst c) -> (forall s, s ∈ extra -> inU T P s) ->
  bounded T P (fst (enqueue_extra extra c))
  /\ potential T P (fst (enqueue_extra extra c)) <= potential T P (fst c).
Proof.
  intros B Hs. destruct extra as [|s extra]; [done|].
  apply (bounded_enqueue (fst c) (s :: extra)); done.
Qed.

Lemma inU_expandTypes batch t :
  (forall s, s ∈ batch -> inU T P s) -> t ∈ expandTypesWithClosure idx batch -> inU T P t.
Proof.
  intros Hb Ht. apply elem_of_expandTypesWithClosure in Ht
    as (s & sup & Hs & Hsup & _ & ->).
  destruct (Hb s Hs) as (? & ? & ?). unfold inU; simpl. eauto.
Qed.

Lemma inU_expandProps batch t :
  (forall s, s ∈ batch -> inU T P s) -> t ∈ expandPropsWithClosure idx batch -> inU T P t.
Proof.
  intros Hb Ht. apply elem_of_expandPropsWithClosure in Ht
    as (s & sup & Hs & Hsup & _ & ->).
  destruct (Hb s Hs) as (? & ? & ?). unfold inU; simpl. eauto.
Qed.

Lemma inU_inverseSymmetric batch t :
  (forall s, s ∈ batch -> inU T P s) -> t ∈ inverseAndSymmetricOf idx batch -> inU T P t.
Proof.
  intros Hb Ht. apply elem_of_inverseAndSymmetricOf in Ht
    as (s & Hs & [[_ ->]|(inv & Hinv & ->)]);
    destruct (Hb s Hs) as (? & ? & ?); unfold inU; simpl; eauto.
Qed.

Lemma inU_domainRange batch t :
  (forall s, s ∈ batch -> inU T P s) -> t ∈ applyDomainRange idx batch -> inU T P t.
Proof.
  intros Hb Ht. apply elem_of_applyDomainRange in Ht
    as (s & Hs & [(d & Hd & _ & ->)|(r & Hr & _ & ->)]);
    destruct (Hb s Hs) as (? & ? & ?); unfold inU; simpl; eauto.
Qed.

Lemma inU_transitive store batch t :
  (forall s, s ∈ batch -> inU T P s) ->
  (forall q, q ∈ store -> subject q ∈ T /\ object q ∈ T) ->
  t ∈ transitiveOf idx store batch -> inU T P t.
Proof.
  intros Hb Hst Ht. apply elem_of_transitiveOf in Ht
    as (s & Hs & _ & [(yz & Hyz & _ & _ & ->)|(wx & Hwx & _ & _ & ->)]);
    destruct (Hb s Hs) as (? & ? & ?).
  - destruct (Hst yz Hyz) as [_ ?]. unfold inU; simpl. auto.
  - destruct (Hst wx Hwx) as [? _]. unfold inU; simpl. auto.
Qed.

Lemma bounded_drainTypes c :
  bounded T P (fst c) ->
  bounded T P (fst (drainTypes idx c))
  /\ potential T P (fst (drainTypes idx c)) + length (workTypes (fst c))
     <= potential T P (fst c).
Proof.
  intros B. unfold drainTypes. destruct (workTypes (fst c)) as [|s batch] eqn:E.
  - split; [done|]. simpl. lia.
  - destruct B as (BT & BP & BS).
    destruct (bounded_enqueue_extra
                (expandTypesWithClosure idx (s :: batch))
                (set_workTypes [] (fst c), snd c)) as [B' L'].
    + unfold bounded; simpl. split; [|done]. intros t Ht. by apply elem_of_nil in Ht.
    + intros t. apply inU_expandTypes. by rewrite <- E.
    + split; [done|].
      assert (L0 : potential T P (set_workTypes [] (fst c)) + length (s :: batch)
                   = potential T P (fst c)).
      { unfold potential, rank; simpl. rewrite E. simpl. lia. }
      cbn [fst] in L'. lia.
Qed.

Lemma bounded_drainPropsReturn c :
  bounded T P (fst c) ->
  bounded T P (fst (drainPropsReturn idx c))
  /\ potential T P (fst (drainPropsReturn idx c)) + length (workProps (fst c))
     <= potential T P (fst c).
Proof.
  intros B. unfold drainPropsReturn. destruct (workProps (fst c)) as [|s batch] eqn:E.
  - split; [done|]. simpl. lia.
  - destruct B as (BT & BP & BS).
    assert (Hbatch : forall t, t ∈ s :: batch -> inU T P t) by (by rewrite <- E).
    set (c0 := (set_workProps [] (fst c), snd c)).
    assert (B0 : bounded T P (fst c0)).
    { unfold bounded; simpl. split; [done|]. split; [|done].
      intros t Ht. by apply elem_of_nil in Ht. }
    assert (L0 : potential T P (fst c0) + length (s :: batch) = potential T P (fst c)).
    { unfold potential; simpl. rewrite E. simpl. unfold rank. simpl. lia. }
    destruct (bounded_enqueue_extra (expandPropsWithClosure idx (s :: batch)) c0 B0)
      as [B1 L1]; [intros t; by apply inU_expandProps|].
    destruct (bounded_enqueue_extra (inverseAndSymmetricOf idx (s :: batch)) _ B1)
      as [B2 L2]; [intros t; by apply inU_inverseSymmetric|].
    destruct (bounded_enqueue_extra (applyDomainRange idx (s :: batch)) _ B2)
      as [B3 L3]; [intros t; by apply inU_domainRange|].
    destruct (bounded_enqueue_extra
                (transitiveOf idx (rdfjsStore (set_workProps [] (fst c)))
                   (s :: batch)) _ B3)
      as [B4 L4]; [intros t; by apply inU_transitive|].
    split; [exact B4|]. cbn [fst length] in *. lia.
Qed.

(** With fuel for the potential of the state the loop comes to an end: it
    returns or an expander throws. *)
Lemma drain_terminates n c :
  bounded T P (fst c) -> potential T P (fst c) <= n ->
  drain n idx c <> OutOfFuel.
Proof.
  revert c. induction n as [|n IH]; intros c B L;
    destruct (queues_empty (fst c)) eqn:Q.
  - simpl. by rewrite Q.
  - exfalso. unfold potential, queues_empty in *.
    destruct (workTypes (fst c)), (workProps (fst c)); simpl in *; try done; lia.
  - simpl. by rewrite Q.
  - rewrite drain_step by done.
    destruct (propsAccepted idx _); [|done].
    destruct (bounded_drainTypes c B) as [B1 L1].
    destruct (bounded_drainPropsReturn (drainTypes idx c) B1) as [B2 L2].
    apply IH; [done|].
    assert (0 < length (workTypes (fst c))
            \/ 0 < length (workProps (fst (drainTypes idx c)))).
    { unfold queues_empty in Q.
      destruct (workTypes (fst c)) as [|t ts] eqn:ET; [|left; simpl; lia].
      right. unfold drainTypes. rewrite ET.
      destruct (workProps (fst c)); [done|simpl; lia]. }
    lia.
Qed.
End Termination.

(** More fuel does not change how the loop ends. *)
Lemma drain_fuel_mono n m idx c :
  drain n idx c <> OutOfFuel -> n <= m -> drain m idx c = drain n idx c.
Proof.
  revert m c. induction n as [|n IH]; intros m c;
    destruct (queues_empty (fst c)) eqn:Q.
  - intros _ _. destruct m; simpl; by rewrite Q.
  - simpl. by rewrite Q.
  - intros _ _. destruct m; simpl; by rewrite Q.
  - intros H Hle. destruct m as [|m]; [lia|].
    rewrite !drain_step in * by done.
    destruct (propsAccepted idx _); [|done]. apply IH; [done|lia].
Qed.

(** *** The universe of a state *)

Lemma elem_of_map_values M k x : x ∈ lookup_set M k -> x ∈ map_values M.
Proof.
  unfold lookup_set, map_values. destruct (M !! k) as [l|] eqn:E; simpl.
  - intros Hx. apply elem_of_flat_map. exists (k, l). split; [|done].
    by apply elem_of_map_to_list.
  - intros Hx. by apply elem_of_nil in Hx.
Qed.

Lemma lower_idem c : lower (lower c) = lower c.
Proof. destruct c as [[] [] [] [] [] [] [] []]; reflexivity. Qed.

Lemma lower_string_idem s : lower_string (lower_string s) = lower_string s.
Proof. induction s as [|c r IH]; simpl; [done|]. by rewrite lower_idem, IH. Qed.

Lemma lower_string_empty s : String.eqb (lower_string s) "" = String.eqb s "".
Proof. by destruct s. Qed.

Lemma toObject_idem t : toObject (toObject t) = toObject t.
Proof.
  destruct t as [v|i|v lang dt]; simpl; try done.
  destruct (String.eqb lang "") eqn:E; simpl.
  - destruct dt; simpl; done.
  - unfold n3_literal_lang. by rewrite lower_string_empty, E, lower_string_idem.
Qed.

Lemma toSubject_toObject t : toSubject (toObject t) = toSubject t.
Proof.
  destruct t as [v|i|v lang dt]; simpl; try done.
  destruct (String.eqb lang ""); simpl; [destruct dt|]; done.
Qed.

Lemma value_toObject t : value (toObject t) = value t.
Proof.
  destruct t as [v|i|v lang dt]; simpl; try done.
  destruct (String.eqb lang ""); simpl; [destruct dt|]; done.
Qed.

Lemma closeTerm_closed t u :
  u ∈ closeTerm t ->
  toSubject u ∈ closeTerm t /\ toObject u ∈ closeTerm t
  /\ NamedNode (value u) ∈ closeTerm t.
Proof.
  unfold closeTerm. intros Hu.
  repeat (apply elem_of_cons in Hu as [->|Hu]); [| | | |by apply elem_of_nil in Hu].
  - set_solver.
  - assert (toSubject (toSubject t) = toSubject t) as -> by (by destruct t).
    assert (toObject (toSubject t) = toSubject t) as -> by (by destruct t).
    assert (value (toSubject t) = value t) as -> by (by destruct t).
    set_solver.
  - rewrite toSubject_toObject, toObject_idem, value_toObject. set_solver.
  - simpl. set_solver.
Qed.

Lemma termUniverse_closed idx σ u :
  u ∈ termUniverse idx σ ->
  toSubject u ∈ termUniverse idx σ /\ toObject u ∈ termUniverse idx σ
  /\ NamedNode (value u) ∈ termUniverse idx σ.
Proof.
  unfold termUniverse. intros Hu. apply elem_of_app in Hu as [Hu|Hu].
  - apply elem_of_flat_map in Hu as (t & Ht & Hu).
    destruct (closeTerm_closed t u Hu) as (H1 & H2 & H3).
    repeat split; apply elem_of_app; left; apply elem_of_flat_map; by exists t.
  - apply elem_of_map in Hu as (c & -> & Hc). simpl.
    repeat split; apply elem_of_app; right; apply elem_of_map; by exists c.
Qed.

Lemma termUniverse_terms idx σ s :
  s ∈ workTypes σ ++ workProps σ ++ rdfjsStore σ ->
  subject s ∈ termUniverse idx σ /\ object s ∈ termUniverse idx σ.
Proof.
  intros Hs. unfold termUniverse.
  split; apply elem_of_app; left; apply elem_of_flat_map.
  - exists (subject s). split; [|unfold closeTerm; set_solver].
    apply elem_of_flat_map. exists s. split; [done|set_solver].
  - exists (object s). split; [|unfold closeTerm; set_solver].
    apply elem_of_flat_map. exists s. split; [done|set_solver].
Qed.

(** The terms and predicates of a state and the frozen indices bound every
    statement the drain can reach from it. *)
Lemma drain_ends idx σ b :
  drain (potential (termUniverse idx σ) (predUniverse idx σ) σ) idx (σ, b)
  <> OutOfFuel.
Proof.
  set (T := termUniverse idx σ). set (P := predUniverse idx σ).
  apply (drain_terminates idx T P).
  - intros t Ht. apply (termUniverse_closed idx σ t Ht).
  - intros t Ht. apply (termUniverse_closed idx σ t Ht).
  - intros t Ht. apply (termUniverse_closed idx σ t Ht).
  - intros k c Hc. apply elem_of_app. right. apply elem_of_map. exists c.
    split; [done|]. apply elem_of_app. left. by eapply elem_of_map_values.
  - intros k c Hc. apply elem_of_app. right. apply elem_of_map. exists c.
    split; [done|]. apply elem_of_app. right. apply elem_of_app. left.
    by eapply elem_of_map_values.
  - intros k c Hc. apply elem_of_app. right. apply elem_of_map. exists c.
    split; [done|]. apply elem_of_app. right. apply elem_of_app. right.
    by eapply elem_of_map_values.
  - unfold P, predUniverse. set_solver.
  - intros k p Hp. unfold P, predUniverse. apply elem_of_cons. right.
    apply elem_of_app. right. apply elem_of_app. left.
    by eapply elem_of_map_values.
  - intros k p Hp. unfold P, predUniverse. apply elem_of_cons. right.
    apply elem_of_app. right. apply elem_of_app. right.
    by eapply elem_of_map_values.
  - unfold bounded, inU. simpl. split; [|split].
    + intros s Hs. destruct (termUniverse_terms idx σ s) as [? ?]; [set_solver|].
      split; [done|]. split; [|done]. unfold P, predUniverse.
      apply elem_of_cons. right. apply elem_of_app. left.
      apply elem_of_map. exists s. split; [done|set_solver].
    + intros s Hs. destruct (termUniverse_terms idx σ s) as [? ?]; [set_solver|].
      split; [done|]. split; [|done]. unfold P, predUniverse.
      apply elem_of_cons. right. apply elem_of_app. left.
      apply elem_of_map. exists s. split; [done|set_solver].
    + intros q Hq. apply (termUniverse_terms idx σ q). set_solver.
  - simpl. lia.
Qed.

(** C7. From every state the drain loop [processQueues] terminates: there is
    a number of turns within which it comes to an end, in the same way
    whatever larger bound it is given, and the universe of derivable
    statements is finite for every state (its terms and predicates are those
    of the queues, the store and the frozen indices). It ends by returning, or
    by the throw of an expander that refused a name, in a state grown from the
    first one. Whenever it returns, the type queue and the property queue are
    both empty; and since every rule step that returns ends by draining, the
    queues are empty at the end of every rule step, of every pass and of the
    run. *)
Theorem processQueues_terminates :
  (forall (idx : Indices) (σ : State),
      exists fuel,
        (exists σ' progressed,
            workTypes σ' = [] /\ workProps σ' = []
            /\ forall fuel', fuel <= fuel' ->
                 processQueues fuel' idx σ = Returned (σ', progressed))
        \/ (exists σb σ',
               grows σ σb /\ expanderThrew idx σb σ'
               /\ forall fuel', fuel <= fuel' ->
                    processQueues fuel' idx σ = Thrown σ'))
  /\ (forall (fuel : nat) (idx : Indices) (σ σ' : State) (progressed : bool),
         processQueues fuel idx σ = Returned (σ', progressed) ->
         workTypes σ' = [] /\ workProps σ' = [])
  /\ (forall queryQuads fuel idx rule c c',
         ruleStep queryQuads fuel idx rule c = Returned c' ->
         workTypes (fst c') = [] /\ workProps (fst c') = [])
  /\ (forall queryQuads fuel rules graph σ',
         runState queryQuads fuel rules graph = Returned σ' ->
         workTypes σ' = [] /\ workProps σ' = []).
Proof.
  split.
  { intros idx σ.
    set (n := potential (termUniverse idx σ) (predUniverse idx σ) σ).
    pose proof (drain_ends idx σ false) as H. fold n in H.
    exists n. destruct (drain n idx (σ, false)) as [[σ' pr]|σ'|] eqn:E; [| |done].
    - left. exists σ', pr.
      pose proof (drain_queues_empty _ _ _ _ E) as Q. simpl in Q.
      apply queues_empty_spec in Q as [? ?]. split; [done|]. split; [done|].
      intros fuel' Hle. unfold processQueues.
      rewrite (drain_fuel_mono n fuel') by (done || congruence). exact E.
    - right. destruct (drain_Thrown _ _ _ _ E) as (σb & G & _ & T).
      exists σb, σ'. split; [exact G|]. split; [exact T|].
      intros fuel' Hle. unfold processQueues.
      rewrite (drain_fuel_mono n fuel') by (done || congruence). exact E. }
  split.
  { intros fuel idx σ σ' pr E. apply drain_queues_empty in E. simpl in E.
    by apply queues_empty_spec. }
  split.
  { intros queryQuads fuel idx rule c c' E.
    apply ruleStep_Returned in E as (_ & Q & _). by apply queues_empty_spec. }
  intros queryQuads fuel rules graph σ' E.
  destruct (runState_unfold queryQuads fuel rules graph) as (σs & Es & E').
  rewrite E' in E. apply mainLoop_Returned in E as (_ & Q & _).
  apply seedPhase_frame in Es as (_ & _ & HT & HP).
  apply queues_empty_spec, Q, queues_empty_spec. by rewrite HT, HP.
Qed.


Lemma processQueues_terminates_witness :
  processQueues 1 (startIndices sym_graph) drain_state
  = Returned (fst drained, snd drained)
  /\ workProps drain_state = [st (NamedNode "urn:y") "urn:q" (NamedNode "urn:x")]
  /\ workTypes (fst drained) = [] /\ workProps (fst drained) = [].
Proof.
  assert (E : processQueues 1 (startIndices sym_graph) drain_state
              = Returned (fst drained, snd drained)) by by_evaluation.
  split; [exact E|]. split; [by_evaluation|].
  exact (proj1 (proj2 processQueues_terminates) 1 (startIndices sym_graph)
           drain_state (fst drained) (snd drained) E).
Defined.

(** ** Running the algorithm again *)

Lemma enqueue_all_seen σ stmts :
  (forall s, s ∈ stmts -> toNT s ∈ seen σ) -> enqueue σ stmts = σ.
Proof.
  induction stmts as [|s stmts IH]; intros H; simpl; [done|].
  rewrite enqueue1_seen by (apply H; set_solver). apply IH.
  intros; apply H; set_solver.
Qed.

Lemma enqueue_seen_fixed σ stmts :
  seen (enqueue σ stmts) = seen σ -> forall s, s ∈ stmts -> toNT s ∈ seen σ.
Proof.
  revert σ. induction stmts as [|s stmts IH]; intros σ E t Ht; simpl in *.
  - by apply elem_of_nil in Ht.
  - pose proof (grows_enqueue (enqueue1 σ s) stmts) as (_ & G & _).
    pose proof (seen_enqueue1 σ s) as E1.
    assert (Hs : toNT s ∈ seen σ) by set_solver.
    rewrite (enqueue1_seen σ s Hs) in E.
    apply elem_of_cons in Ht as [->|Ht]; [done|]. by apply (IH σ).
Qed.

Lemma drain_empty fuel idx c :
  queues_empty (fst c) = true -> drain fuel idx c = Returned c.
Proof. intros Q. destruct fuel; simpl; by rewrite Q. Qed.

Section Again.
Variable queryQuads : string -> list Quad -> option (list Quad).

(** No rule answer has a literal subject. *)
Lemma applyConstructWithComunica_subject q store stmts s :
  applyConstructWithComunica queryQuads q store = Some stmts -> s ∈ stmts ->
  termType (subject s) <> T_Literal.
Proof.
  unfold applyConstructWithComunica. destruct (queryQuads q store) as [quads|]; [|done].
  intros [= <-] Hs.
  apply (proj2 (fold_formula_add (quadToStatement true) quads [])) in Hs
    as [Hs|(x & _ & ->)]; [by apply elem_of_nil in Hs|].
  simpl. by destruct (subject x).
Qed.

(** A rule step that starts with empty queues and reports no change asked
    its query, got only statements whose keys were seen, and left the state
    alone. *)
Lemma ruleStep_quiet fuel idx rule σ c' :
  queues_empty σ = true ->
  ruleStep queryQuads fuel idx rule (σ, false) = Returned c' -> snd c' = false ->
  c' = (add_asked (getConstructQueryForRule rule) σ, false)
  /\ exists stmts,
       applyConstructWithComunica queryQuads (getConstructQueryForRule rule)
         (rdfjsStore σ) = Some stmts
       /\ forall s, s ∈ dedupeBatch stmts -> toNT s ∈ seen σ.
Proof.
  intros Q. rewrite ruleStep_unfold. cbv zeta. cbn [fst snd].
  destruct (applyConstructWithComunica _ _ _) as [stmts|]; [|done].
  set (σ1 := add_asked (getConstructQueryForRule rule) σ).
  destruct (processQueues _ _ _) as [[σ3 pr]|σt|] eqn:E; [|done..].
  pose proof (grows_drain _ _ _ _ E) as (_ & G3 & _). cbn [fst] in G3.
  pose proof (grows_enqueue σ1 (dedupeBatch stmts)) as (_ & G2 & _).
  destruct (Nat.ltb_spec 0 (size (seen σ3) - size (seen σ))) as [Hlt|Hge];
    intros [= <-]; [done|]. intros _.
  assert (Hsz : size (seen σ3) <= size (seen σ1)) by (simpl; lia).
  assert (E2 : seen (enqueue σ1 (dedupeBatch stmts)) = seen σ1).
  { apply set_eq. intros k. split; [|apply G2]. intros Hk.
    assert (Heq : seen σ3 ≡ seen σ1).
    { symmetry. apply set_subseteq_size_equiv; [by etrans|done]. }
    apply Heq. by apply G3. }
  pose proof (enqueue_seen_fixed σ1 _ E2) as Hall.
  rewrite (enqueue_all_seen σ1 _ Hall) in E.
  unfold processQueues in E. rewrite drain_empty in E by done.
  injection E as <- <-. split; [done|]. by exists stmts.
Qed.

(** Conversely, such an answer leaves any state with empty queues alone,
    whatever its indices. *)
Lemma ruleStep_nothing_new fuel idx rule σ b stmts :
  queues_empty σ = true ->
  applyConstructWithComunica queryQuads (getConstructQueryForRule rule)
    (rdfjsStore σ) = Some stmts ->
  (forall s, s ∈ dedupeBatch stmts -> toNT s ∈ seen σ) ->
  ruleStep queryQuads fuel idx rule (σ, b)
  = Returned (add_asked (getConstructQueryForRule rule) σ, b).
Proof.
  intros Q Ea Hall. rewrite ruleStep_unfold. cbv zeta. cbn [fst snd]. rewrite Ea.
  rewrite enqueue_all_seen by done.
  unfold processQueues. rewrite drain_empty by done.
  simpl. by rewrite Nat.sub_diag.
Qed.

Lemma log_only_add_asked q τ : log_only τ (add_asked q τ).
Proof. by unfold log_only. Qed.

Lemma log_only_trans τ1 τ2 τ3 : log_only τ1 τ2 -> log_only τ2 τ3 -> log_only τ1 τ3.
Proof.
  unfold log_only. intros (? & ? & ? & ? & ? & ? & ?) (? & ? & ? & ? & ? & ? & ?).
  repeat split; congruence.
Qed.

Lemma log_only_queues τ τ' : log_only τ τ' -> queues_empty τ' = queues_empty τ.
Proof. intros (_ & _ & _ & _ & HT & HP & _). unfold queues_empty. by rewrite HT, HP. Qed.

(** A pass that reports no change can be replayed, with the same outcome,
    from any state that has the same store and knows the keys a rule answer
    can have. *)
Lemma forRules_quiet fuel idx rs σ σ' :
  queues_empty σ = true ->
  forRules queryQuads fuel idx rs (σ, false) = Returned (σ', false) ->
  log_only σ σ'
  /\ forall fuel' idx' τ b,
       queues_empty τ = true -> same_view σ τ ->
       exists τ', forRules queryQuads fuel' idx' rs (τ, b) = Returned (τ', b)
                  /\ log_only τ τ'.
Proof.
  revert σ. induction rs as [|r rs IH]; intros σ Q; simpl.
  - intros [= <-]. split; [by unfold log_only|].
    intros fuel' idx' τ b _ _. exists τ. split; [done|]. by unfold log_only.
  - destruct (ruleStep queryQuads fuel idx r (σ, false)) as [c1| |] eqn:E; try done.
    cbn [mbind Outcome_bind]. intros H.
    assert (Hc1 : snd c1 = false).
    { destruct (snd c1) eqn:Hb; [|done].
      apply forRules_Returned in H as (_ & _ & _ & _ & B). by specialize (B Hb). }
    destruct (ruleStep_quiet _ _ _ _ _ Q E Hc1) as (-> & stmts & Ea & Hall).
    cbn [fst] in H. apply IH in H as [L Hreplay]; [|done].
    split; [eapply log_only_trans; [apply log_only_add_asked|done]|].
    intros fuel' idx' τ b Qτ [Vs Vk].
    rewrite (ruleStep_nothing_new fuel' idx' r τ b stmts Qτ); cycle 1.
    { by rewrite Vs. }
    { intros s Hs. apply Vk; [|by apply Hall].
      eapply applyConstructWithComunica_subject; [exact Ea|].
      by apply dedupeBatch_subset. }
    cbn [mbind Outcome_bind].
    destruct (Hreplay fuel' idx' (add_asked (getConstructQueryForRule r) τ) b)
      as (τ' & E' & L'); [done|by split|].
    exists τ'. split; [done|].
    eapply log_only_trans; [apply log_only_add_asked|done].
Qed.

(** A loop that returns ended with a pass that reported no change. *)
Lemma mainLoop_last_pass fuel idx rules σ σ' :
  queues_empty σ = true ->
  mainLoop queryQuads fuel idx rules σ = Returned σ' ->
  exists n σl, queues_empty σl = true
               /\ pass queryQuads n idx rules σl = Returned (σ', false).
Proof.
  revert σ. induction fuel as [|n IH]; intros σ Q; [done|].
  cbn [mainLoop].
  destruct (pass queryQuads (S n) idx rules σ) as [[σ1 ch]| |] eqn:E; try done.
  cbn [mbind Outcome_bind]. destruct ch.
  - apply forRules_Returned in E as (_ & Q1 & _). apply IH. by apply Q1.
  - intros [= <-]. by exists (S n), σ.
Qed.

(** Replaying the last pass of a finished loop from a state with the same
    store and seen index adds nothing. *)
Lemma mainLoop_replay fuel idx rules σ σ' fuel' idx' τ :
  queues_empty σ = true ->
  mainLoop queryQuads fuel idx rules σ = Returned σ' ->
  queues_empty τ = true -> same_view σ' τ ->
  exists τ', mainLoop queryQuads (S fuel') idx' rules τ = Returned τ'
             /\ log_only τ τ'.
Proof.
  intros Q E Qτ [Vs Vk].
  destruct (mainLoop_last_pass _ _ _ _ _ Q E) as (n & σl & Ql & Ep).
  unfold pass in Ep. apply forRules_quiet in Ep as [L Hreplay]; [|done].
  destruct L as (_ & Lk & _ & Ls & _).
  destruct (Hreplay (S fuel') idx' τ false Qτ) as (τ' & E' & L').
  { split; [by rewrite Vs, Ls|]. intros s Hs Hk. apply Vk; [done|].
    by rewrite Lk. }
  exists τ'. split; [|done]. cbn [mainLoop]. unfold pass. rewrite E'. done.
Qed.
End Again.


(** ** Worked runs *)

(** Closure correctness: A subClassOf B, B subClassOf C and x of type A give
    x type B and x type C, by the seed alone. *)
Example closure_run :
  inferUntilStable failingEvaluator 1 []
    [ st (NamedNode "urn:A") RDFS_SC (NamedNode "urn:B");
      st (NamedNode "urn:B") RDFS_SC (NamedNode "urn:C");
      st (NamedNode "urn:x") RDF_TYPE (NamedNode "urn:A") ]
  = Returned
      {| overlayGraph := [st (NamedNode "urn:x") RDF_TYPE (NamedNode "urn:B");
                          st (NamedNode "urn:x") RDF_TYPE (NamedNode "urn:C")];
         metrics_totalAdded := 0 |}.
Proof. by_evaluation. Qed.

(** A super-class that is not an absolute IRI is skipped, not an error. *)
Example closure_skips_non_iri :
  inferUntilStable failingEvaluator 1 []
    [ st (NamedNode "urn:A") RDFS_SC (BlankNode "b0");
      st (NamedNode "urn:x") RDF_TYPE (NamedNode "urn:A") ]
  = Returned {| overlayGraph := []; metrics_totalAdded := 0 |}.
Proof. by_evaluation. Qed.

(** No declaration at all: an empty overlay after a single pass. *)
Example plain_run :
  runState symmetricEvaluator 1 ["symmetric"; "subclassof"]
    [st (NamedNode "urn:x") "urn:p" (NamedNode "urn:y")]
  = Returned
      (add_asked (getConstructQueryForRule "symmetric")
         (initState [st (NamedNode "urn:x") "urn:p" (NamedNode "urn:y")])).
Proof. by_evaluation. Qed.

(** The drain of [drain_state]: y q x flips back to x q y, which is seen, so
    one pass empties the queues and adds nothing; [progressed] is set all the
    same, since an expansion was not empty. *)
Example drain_run :
  processQueues 1 (startIndices sym_graph) drain_state
  = Returned (set_workProps [] drain_state, true).
Proof. by_evaluation. Qed.

(** An expander that throws ends the run: x q y with q symmetric and the
    anonymous inverse [_:b1 owl:inverseOf urn:q]. The symmetric rule answers
    y q x, which is written and queued; when the drain comes to it, "b1" is
    among the inverses of q and [$rdf.sym] refuses it. The run aborts with
    y q x in the working graph and no counter updated. *)
Example expander_abort_run :
  exists σ',
    inferUntilStable symmetricEvaluator 3 ["symmetric"]
      [ st (NamedNode "urn:x") "urn:q" (NamedNode "urn:y");
        st (NamedNode "urn:q") RDF_TYPE (NamedNode OWL_SYM);
        st (BlankNode "b1") OWL_INV (NamedNode "urn:q") ]
    = Thrown σ'
    /\ st (NamedNode "urn:y") "urn:q" (NamedNode "urn:x") ∈ baseGraph σ'
    /\ workProps σ' = [] /\ totalAdded σ' = 0.
Proof.
  eexists. split; [vm_compute; reflexivity|].
  split; [by_evaluation|]. split; reflexivity.
Qed.

(** The first run of the second-run example ends in a state whose store and
    seen index the union reproduces. *)
Example sym_union_view :
  rdfjsStore (initState (sym_graph ++ overlayGraph sym_result)) = rdfjsStore sym_final
  /\ seen (initState (sym_graph ++ overlayGraph sym_result)) = seen sym_final.
Proof. split; by_evaluation. Qed.


(** * Further properties of the inference module *)

(** ** Adjacency maps *)

Lemma lookup_set_fold_map_add (qs : list Quad) M k x :
  x ∈ lookup_set
        (fold_left (fun M q => map_add (value (subject q)) (value (object q)) M) qs M) k
  <-> (exists q, q ∈ qs /\ value (subject q) = k /\ value (object q) = x)
      \/ x ∈ lookup_set M k.
Proof.
  revert M. induction qs as [|q qs IH]; intros M; simpl.
  - split; [auto|]. intros [(q & Hq & _)|?]; [by apply elem_of_nil in Hq|done].
  - rewrite IH, lookup_set_map_add. split.
    + intros [(q' & ? & ? & ?)|[[-> ->]|?]]; [left; exists q'|left; exists q|by right];
        set_solver.
    + intros [(q' & Hq & E1 & E2)|?]; [|auto].
      apply elem_of_cons in Hq as [->|?]; [right; left; done|left; by exists q'].
Qed.

Lemma fold_map_add_tidy (qs : list Quad) M :
  (forall k l, M !! k = Some l -> l <> [] /\ NoDup l) ->
  forall k l,
    fold_left (fun M q => map_add (value (subject q)) (value (object q)) M) qs M !! k
    = Some l -> l <> [] /\ NoDup l.
Proof.
  revert M. induction qs as [|q qs IH]; intros M HM; simpl; [done|].
  apply IH. intros k l. unfold map_add.
  destruct (decide (k = value (subject q))) as [->|Hne].
  - rewrite lookup_insert_eq. intros [= <-]. split.
    + intros E. assert (H : value (object q)
                              ∈ set_add (value (object q))
                                  (lookup_set M (value (subject q)))).
      { apply elem_of_set_add; auto. }
      rewrite E in H. by apply elem_of_nil in H.
    + apply NoDup_set_add. unfold lookup_set.
      destruct (M !! value (subject q)) as [l0|] eqn:E0; simpl; [|constructor].
      by destruct (HM _ _ E0).
  - rewrite lookup_insert_ne by done. apply HM.
Qed.

(** X1. [mapFromQuads] maps [a] to the set of the [b] such that some quad
    of the store, in any graph, has the given predicate, a subject of value
    [a] and an object of value [b]. A key is present exactly when such a
    quad exists, and its set is never empty and holds no value twice. *)
Theorem mapFromQuads_spec (store : list Quad) (predIRI : string) :
  (forall a b,
      b ∈ lookup_set (mapFromQuads store predIRI) a
      <-> exists q, q ∈ store /\ predicate q = predIRI
                    /\ value (subject q) = a /\ value (object q) = b)
  /\ (forall a l, mapFromQuads store predIRI !! a = Some l -> l <> [] /\ NoDup l)
  /\ (forall a, mapFromQuads store predIRI !! a = None
                <-> forall q, q ∈ store -> predicate q = predIRI ->
                              value (subject q) <> a).
Proof.
  assert (H1 : forall a b,
             b ∈ lookup_set (mapFromQuads store predIRI) a
             <-> exists q, q ∈ store /\ predicate q = predIRI
                           /\ value (subject q) = a /\ value (object q) = b).
  { intros a b. unfold mapFromQuads. rewrite lookup_set_fold_map_add. split.
    - intros [(q & Hq & ? & ?)|H]; [|by apply elem_of_nil in H].
      apply elem_of_getQuads in Hq as (? & _ & Hp & _). exists q. auto.
    - intros (q & ? & ? & ? & ?). left. exists q. split; [|done].
      apply elem_of_getQuads. repeat split; try done. by intros ? [= <-]. }
  assert (H2 : forall a l, mapFromQuads store predIRI !! a = Some l ->
                           l <> [] /\ NoDup l).
  { unfold mapFromQuads. apply fold_map_add_tidy. intros k l.
    by rewrite lookup_empty. }
  split; [done|]. split; [done|]. intros a. split.
  - intros E q Hq Hp Ha.
    assert (Hin : value (object q) ∈ lookup_set (mapFromQuads store predIRI) a).
    { apply H1. by exists q. }
    unfold lookup_set in Hin. rewrite E in Hin. by apply elem_of_nil in Hin.
  - intros Hno. destruct (mapFromQuads store predIRI !! a) as [l|] eqn:E; [|done].
    destruct (H2 _ _ E) as [Hne _]. destruct l as [|b l]; [done|].
    assert (Hin : b ∈ lookup_set (mapFromQuads store predIRI) a).
    { unfold lookup_set. rewrite E. simpl. set_solver. }
    apply H1 in Hin as (q & ? & ? & ? & _). by destruct (Hno q).
Qed.

(** ** Batches of candidates, continued *)

Lemma selectUnseen_loop_first l1 s l2 G B :
  toNT s ∉ G -> toNT s ∉ B -> toNT s ∉ keys l1 ->
  s ∈ selectUnseen_loop (l1 ++ s :: l2) G B.
Proof.
  revert B. induction l1 as [|t l1 IH]; intros B HS HB Hl.
  - cbn [app selectUnseen_loop]. cbv zeta.
    rewrite !bool_decide_eq_false_2 by done. apply elem_of_cons; by left.
  - rewrite keys_cons in Hl. cbn [app selectUnseen_loop]. cbv zeta.
    assert (toNT s <> toNT t) by set_solver.
    assert (toNT s ∉ keys l1) by set_solver.
    repeat case_bool_decide; try (apply elem_of_cons; right); apply IH; try done;
      set_solver.
Qed.

Lemma selectUnseen_fold stmts G B U :
  fold_left (selectUnseen_step G) stmts (B, U)
  = (keys stmts ∪ B, U ++ selectUnseen_loop stmts G B).
Proof.
  revert B U. induction stmts as [|s stmts IH]; intros B U.
  - simpl. rewrite app_nil_r. f_equal. unfold keys; simpl. set_solver.
  - cbn [fold_left selectUnseen_loop]. cbv zeta. rewrite (keys_cons s stmts).
    unfold selectUnseen_step at 2. cbn [fst snd].
    case_bool_decide; [|case_bool_decide]; rewrite IH; f_equal;
      try (by rewrite <- app_assoc);
      generalize dependent (toNT s); generalize (keys stmts); clear;
      intros g k; intros; apply set_eq; intros x; destruct (decide (x = k));
      set_solver.
Qed.

Lemma length_NoDup_keys l : NoDup (map toNT l) -> length l = size (keys l).
Proof.
  intros H. unfold keys. rewrite size_list_to_set by done. by rewrite length_map.
Qed.

(** X2. [selectUnseen] keeps, in their order, the first statement of every
    key of the batch that the global index does not hold: [$new] is a
    sub-sequence of the batch with one statement per such key, and
    [batchUnique] is the number of distinct keys of the batch, seen or not. *)
Theorem selectUnseen_first_unseen (stmts : list Statement) (seenNT : gset string) :
  new (selectUnseenResult stmts seenNT) = selectUnseen stmts seenNT
  /\ new (selectUnseenResult stmts seenNT) `sublist_of` stmts
  /\ NoDup (map toNT (new (selectUnseenResult stmts seenNT)))
  /\ keys (new (selectUnseenResult stmts seenNT)) = keys stmts ∖ seenNT
  /\ length (new (selectUnseenResult stmts seenNT)) = size (keys stmts ∖ seenNT)
  /\ batchUnique (selectUnseenResult stmts seenNT) = size (keys stmts)
  /\ (forall l1 s l2,
         stmts = l1 ++ s :: l2 -> toNT s ∉ seenNT -> toNT s ∉ keys l1 ->
         s ∈ new (selectUnseenResult stmts seenNT)).
Proof.
  unfold selectUnseenResult. rewrite selectUnseen_fold. simpl.
  fold (selectUnseen stmts seenNT).
  assert (K : keys (selectUnseen stmts seenNT) = keys stmts ∖ seenNT).
  { unfold selectUnseen. rewrite selectUnseen_loop_keyset. set_solver. }
  assert (N : NoDup (map toNT (selectUnseen stmts seenNT))).
  { apply selectUnseen_loop_keys. }
  split; [done|]. split; [apply selectUnseen_loop_sublist|]. split; [done|].
  split; [done|]. split; [by rewrite length_NoDup_keys, K|].
  split; [f_equal; set_solver|].
  intros l1 s l2 -> ? ?. apply selectUnseen_loop_first; set_solver.
Qed.

(** ** [enqueue] as a batch operation *)

(** X3. [enqueue] acts on a batch as on the statements [selectUnseen] would
    keep: those and only those are routed, in order, type assertions to the
    type queue and all others to the property queue; their quads are what
    the overlay and the shared store gain; the seen index gains the keys of
    the whole batch, one per statement kept. *)
Theorem enqueue_routes_unseen (σ : State) (stmts : list Statement) :
  enqueue σ stmts = enqueue σ (selectUnseen stmts (seen σ))
  /\ seen (enqueue σ stmts) = keys stmts ∪ seen σ
  /\ size (seen (enqueue σ stmts))
     = size (seen σ) + length (selectUnseen stmts (seen σ))
  /\ workTypes (enqueue σ stmts)
     = workTypes σ ++ List.filter is_type (selectUnseen stmts (seen σ))
  /\ workProps (enqueue σ stmts)
     = workProps σ
       ++ List.filter (fun s => negb (is_type s)) (selectUnseen stmts (seen σ))
  /\ (forall q, q ∈ overlayStore (enqueue σ stmts)
                <-> q ∈ overlayStore σ
                    \/ exists s, s ∈ selectUnseen stmts (seen σ)
                         /\ q = quad (toSubject (subject s)) (predicate s)
                                     (toObject (object s)))
  /\ (forall q, q ∈ rdfjsStore (enqueue σ stmts)
                <-> q ∈ rdfjsStore σ
                    \/ exists s, s ∈ selectUnseen stmts (seen σ)
                         /\ q = quad (toSubject (subject s)) (predicate s)
                                     (toObject (object s))).
Proof.
  assert (E : enqueue σ stmts = enqueue σ (selectUnseen stmts (seen σ))).
  { apply enqueue_selectUnseen_loop. set_solver. }
  assert (N : NoDup (map toNT (selectUnseen stmts (seen σ)))).
  { apply selectUnseen_loop_keys. }
  assert (F : forall s, s ∈ selectUnseen stmts (seen σ) -> toNT s ∉ seen σ).
  { intros s Hs. by apply elem_of_selectUnseen in Hs as [_ ?]. }
  destruct (enqueue_fresh σ _ N F) as (T & P & O & R).
  split; [done|]. split; [apply seen_enqueue|].
  split.
  { rewrite seen_enqueue.
    assert (K : keys stmts ∪ seen σ = keys (selectUnseen stmts (seen σ)) ∪ seen σ).
    { unfold selectUnseen. rewrite selectUnseen_loop_keyset.
      apply set_eq. intros k. rewrite !elem_of_union, elem_of_difference.
      destruct (decide (k ∈ seen σ)); set_solver. }
    rewrite K, size_union.
    - rewrite <- length_NoDup_keys by done. lia.
    - intros k Hk Hk'. apply elem_of_keys in Hk as (s & Hs & <-). by apply (F s). }
  rewrite E. done.
Qed.


(** ** The evaluator trace *)

Lemma append_inj_l (p a b : string) : p +:+ a = p +:+ b -> a = b.
Proof. induction p as [|c p IH]; simpl; [done|]. intros [= H]. auto. Qed.

(** The queries of the two rules done by the closures belong to no other
    identifier. *)
Lemma closure_rule_queries r :
  (getConstructQueryForRule r = getConstructQueryForRule "subclassof"
   -> r = "subclassof")
  /\ (getConstructQueryForRule r = getConstructQueryForRule "subpropertyof"
      -> r = "subpropertyof").
Proof.
  unfold getConstructQueryForRule.
  split; intros H; apply append_inj_l in H; revert H; unfold RULES at 1;
    repeat match goal with
           | |- context [String.eqb r ?n] =>
               destruct (String.eqb_spec r n) as [->|_]
           end;
    try done; intros H;
    apply (f_equal (fun s => String.length s)) in H; vm_compute in H; discriminate.
Qed.

Section Trace.
Variable queryQuads : string -> list Quad -> option (list Quad).

Lemma forRules_Thrown_trace fuel idx rs c σ' :
  forRules queryQuads fuel idx rs c = Thrown σ' ->
  exists k, k < length rs
    /\ asked σ' = asked (fst c) ++ map getConstructQueryForRule (take (S k) rs).
Proof.
  revert c. induction rs as [|r rs IH]; intros c; simpl; [done|].
  destruct (ruleStep queryQuads fuel idx r c) as [c1|σ1|] eqn:E;
    cbn [mbind Outcome_bind]; [|intros [= <-]|done].
  - intros H. apply IH in H as (k & Hk & A).
    apply ruleStep_Returned in E as (_ & _ & A1 & _).
    exists (S k). split; [lia|]. rewrite A, A1, <- app_assoc. done.
  - apply ruleStep_Thrown, ruleThrew_frame in E as (_ & A & _).
    exists 0. split; [lia|]. rewrite A. by destruct rs.
Qed.

Lemma mainLoop_Returned_trace fuel idx rules σ σ' :
  mainLoop queryQuads fuel idx rules σ = Returned σ' ->
  exists n, asked σ' = asked σ ++ concat (replicate (S n) (keptQueries rules)).
Proof.
  revert σ. induction fuel as [|m IH]; intros σ; [done|].
  cbn [mainLoop]. unfold pass.
  destruct (forRules _ _ _ _ _) as [[σ1 ch]| |] eqn:E; try done.
  cbn [mbind Outcome_bind].
  apply forRules_Returned in E as (_ & _ & A & _). cbn [fst] in A.
  destruct ch.
  - intros H. apply IH in H as (n & A'). exists (S n).
    rewrite A', A, <- app_assoc. done.
  - intros [= <-]. exists 0. rewrite A. simpl. by rewrite app_nil_r.
Qed.

Lemma mainLoop_Thrown_trace fuel idx rules σ σ' :
  mainLoop queryQuads fuel idx rules σ = Thrown σ' ->
  exists n k, k < length (filterRules rules)
    /\ asked σ' = asked σ ++ concat (replicate n (keptQueries rules))
                  ++ map getConstructQueryForRule (take (S k) (filterRules rules)).
Proof.
  revert σ. induction fuel as [|m IH]; intros σ; [done|].
  cbn [mainLoop]. unfold pass.
  destruct (forRules _ _ _ _ _) as [[σ1 ch]|σ1|] eqn:E;
    cbn [mbind Outcome_bind]; [|intros [= <-]|done].
  - apply forRules_Returned in E as (_ & _ & A & _). cbn [fst] in A.
    destruct ch; [|done].
    intros H. apply IH in H as (n & k & Hk & A'). exists (S n), k.
    split; [done|]. rewrite A', A. simpl. by rewrite <- !app_assoc.
  - apply forRules_Thrown_trace in E as (k & Hk & A). exists 0, k.
    split; [done|]. done.
Qed.
End Trace.

Lemma elem_of_concat_replicate {A} (x : A) n l :
  x ∈ concat (replicate n l) -> x ∈ l.
Proof.
  induction n as [|n IH]; simpl; [by intros H; apply elem_of_nil in H|].
  rewrite elem_of_app. intros [?|?]; auto.
Qed.

Lemma elem_of_keptQueries q rules :
  q ∈ keptQueries rules
  <-> exists r, r ∈ rules /\ r <> "subclassof" /\ r <> "subpropertyof"
                /\ q = getConstructQueryForRule r.
Proof.
  unfold keptQueries. rewrite elem_of_map. split.
  - intros (r & -> & Hr). apply elem_of_filterRules in Hr as (? & ? & ?).
    by exists r.
  - intros (r & ? & ? & ? & ->). exists r. split; [done|].
    by apply elem_of_filterRules.
Qed.



(** X5. When the rule list holds nothing but "subclassof" and
    "subpropertyof" (or nothing at all), the run is the seed phase alone: the
    evaluator is never asked, the overlay is what the seed lifted, and
    totalAdded is 0 whatever the overlay holds. *)
Theorem closure_rules_only
    (queryQuads : string -> list Quad -> option (list Quad))
    (fuel : nat) (rules : list string) (graph : list Statement) :
  filterRules rules = [] ->
  runState queryQuads (S fuel) rules graph
  = seedPhase (startIndices graph) (initState graph)
  /\ exists σs,
       seedPhase (startIndices graph) (initState graph) = Returned σs
       /\ asked σs = []
       /\ inferUntilStable queryQuads (S fuel) rules graph
          = Returned {| overlayGraph := overlayOf σs; metrics_totalAdded := 0 |}.
Proof.
  intros F.
  destruct (runState_unfold queryQuads (S fuel) rules graph) as (σs & Es & E).
  assert (E' : runState queryQuads (S fuel) rules graph = Returned σs).
  { rewrite E. cbn [mainLoop]. unfold pass. rewrite F. done. }
  split; [by rewrite E', Es|]. exists σs. split; [done|].
  apply seedPhase_frame in Es as (_ & [Ht Ha] & _). simpl in Ht, Ha.
  split; [done|]. unfold inferUntilStable. rewrite E'.
  cbn [mbind Outcome_bind]. by rewrite Ht.
Qed.

Lemma closure_rules_only_witness :
  runState failingEvaluator 1 ["subclassof"; "subpropertyof"] sym_graph
  = seedPhase (startIndices sym_graph) (initState sym_graph)
  /\ exists σs,
       seedPhase (startIndices sym_graph) (initState sym_graph) = Returned σs
       /\ asked σs = []
       /\ inferUntilStable failingEvaluator 1 ["subclassof"; "subpropertyof"] sym_graph
          = Returned {| overlayGraph := overlayOf σs; metrics_totalAdded := 0 |}.
Proof.
  apply (closure_rules_only failingEvaluator 0 ["subclassof"; "subpropertyof"]
           sym_graph).
  reflexivity.
Defined.

(** ** The flag returned by [processQueues] *)

Lemma enqueue_extra_flag extra c :
  snd c = true -> snd (enqueue_extra extra c) = true.
Proof. by destruct extra. Qed.

Lemma drainPropsReturn_flag idx c :
  snd c = true -> snd (drainPropsReturn idx c) = true.
Proof.
  intros H. unfold drainPropsReturn. destruct (workProps (fst c)); [done|].
  cbv zeta. by repeat apply enqueue_extra_flag.
Qed.

Lemma drainTypes_flag idx c : snd c = true -> snd (drainTypes idx c) = true.
Proof.
  intros H. unfold drainTypes. destruct (workTypes (fst c)); [done|].
  cbv zeta. by apply enqueue_extra_flag.
Qed.

Lemma drain_flag fuel idx c c' :
  drain fuel idx c = Returned c' -> snd c = true -> snd c' = true.
Proof.
  revert c. induction fuel as [|n IH]; intros c.
  - simpl. destruct (queues_empty (fst c)); [by intros [= <-]|done].
  - destruct (queues_empty (fst c)) eqn:Q.
    + simpl. rewrite Q. by intros [= <-].
    + rewrite drain_step by done. destruct (propsAccepted idx _); [|done].
      intros H Hc. apply (IH _ H).
      by apply drainPropsReturn_flag, drainTypes_flag.
Qed.

Lemma enqueue_extra_false extra c :
  snd (enqueue_extra extra c) = false -> extra = [] /\ enqueue_extra extra c = c.
Proof. by destruct extra. Qed.

Ltac flag_true := first [reflexivity | apply enqueue_extra_flag; flag_true].

Lemma set_workTypes_id σ : workTypes σ = [] -> set_workTypes [] σ = σ.
Proof. destruct σ; simpl. by intros ->. Qed.

Lemma set_workProps_id σ : workProps σ = [] -> set_workProps [] σ = σ.
Proof. destruct σ; simpl. by intros ->. Qed.

Lemma drainTypes_false idx σ :
  snd (drainTypes idx (σ, false)) = false ->
  drainTypes idx (σ, false) = (set_workTypes [] σ, false)
  /\ expandTypesWithClosure idx (workTypes σ) = [].
Proof.
  unfold drainTypes. cbn [fst snd].
  destruct (workTypes σ) as [|t wt] eqn:WT.
  - intros _. by rewrite set_workTypes_id.
  - intros F. by apply enqueue_extra_false in F as [-> ->].
Qed.

Lemma drainPropsReturn_false idx σ :
  snd (drainPropsReturn idx (σ, false)) = false ->
  drainPropsReturn idx (σ, false) = (set_workProps [] σ, false)
  /\ expandPropsWithClosure idx (workProps σ) = []
  /\ inverseAndSymmetricOf idx (workProps σ) = []
  /\ applyDomainRange idx (workProps σ) = []
  /\ transitiveOf idx (rdfjsStore σ) (workProps σ) = [].
Proof.
  unfold drainPropsReturn. cbn [fst snd].
  destruct (workProps σ) as [|p wp] eqn:WP.
  - intros _. by rewrite set_workProps_id.
  - cbv zeta. change (rdfjsStore (set_workProps [] σ)) with (rdfjsStore σ).
    destruct (expandPropsWithClosure idx (p :: wp)) as [|x1 l1];
      [|intros F; exfalso; revert F; apply not_false_iff_true; flag_true].
    destruct (inverseAndSymmetricOf idx (p :: wp)) as [|x2 l2];
      [|intros F; exfalso; revert F; apply not_false_iff_true; flag_true].
    destruct (applyDomainRange idx (p :: wp)) as [|x3 l3];
      [|intros F; exfalso; revert F; apply not_false_iff_true; flag_true].
    destruct (transitiveOf idx (rdfjsStore σ) (p :: wp)) as [|x4 l4];
      [|intros F; exfalso; revert F; apply not_false_iff_true; flag_true].
    done.
Qed.

(** X6. The flag of [processQueues] says whether some expander produced a
    candidate, not whether a statement was added: when it is false, the five
    expansions of the queued statements were all empty and the drain only
    emptied the queues. *)
Theorem processQueues_no_progress
    (fuel : nat) (idx : Indices) (σ σ' : State) :
  processQueues fuel idx σ = Returned (σ', false) ->
  σ' = set_workProps [] (set_workTypes [] σ)
  /\ expandTypesWithClosure idx (workTypes σ) = []
  /\ expandPropsWithClosure idx (workProps σ) = []
  /\ applyInverseAndSymmetric idx (workProps σ) = Some []
  /\ applyDomainRange idx (workProps σ) = []
  /\ applyTransitiveProps idx (rdfjsStore σ) (workProps σ) = Some [].
Proof.
  unfold processQueues. intros H.
  destruct (queues_empty σ) eqn:Q.
  { rewrite drain_empty in H by done. injection H as <-.
    apply queues_empty_spec in Q as [QT QP].
    rewrite set_workTypes_id, set_workProps_id by done. by rewrite QT, QP. }
  destruct fuel as [|n]; [simpl in H; by rewrite Q in H|].
  rewrite drain_step in H by done.
  destruct (propsAccepted idx _) eqn:Ea; [|done].
  pose proof (drain_flag _ _ _ _ H) as F2. cbn [snd] in F2.
  assert (F2' : snd (drainPropsReturn idx (drainTypes idx (σ, false))) = false).
  { destruct (snd (drainPropsReturn _ _)); [by specialize (F2 eq_refl)|done]. }
  assert (F1 : snd (drainTypes idx (σ, false)) = false).
  { destruct (snd (drainTypes idx (σ, false))) eqn:F; [|done].
    by rewrite drainPropsReturn_flag in F2'. }
  destruct (drainTypes_false idx σ F1) as [E1 X1]. rewrite E1 in H, F2', Ea.
  destruct (drainPropsReturn_false idx _ F2') as (E2 & X2 & X3 & X4 & X5).
  rewrite E2 in H. rewrite drain_empty in H by done. injection H as <-.
  unfold propsAccepted in Ea. apply andb_true_iff in Ea as [Ea1 Ea2].
  cbn [fst workProps rdfjsStore set_workTypes] in *.
  rewrite applyInverseAndSymmetric_eq, applyTransitiveProps_eq, Ea1, Ea2.
  by rewrite X3, X5.
Qed.

Lemma processQueues_no_progress_witness :
  workProps lone_state = [st (NamedNode "urn:x") "urn:p" (NamedNode "urn:y")]
  /\ set_workProps [] lone_state = set_workProps [] (set_workTypes [] lone_state)
  /\ applyTransitiveProps (startIndices []) (rdfjsStore lone_state)
       (workProps lone_state) = Some [].
Proof.
  assert (E : processQueues 1 (startIndices []) lone_state
              = Returned (set_workProps [] lone_state, false)) by by_evaluation.
  destruct (processQueues_no_progress 1 (startIndices []) lone_state _ E)
    as (H1 & _ & _ & _ & _ & H5).
  split; [by_evaluation|]. split; [exact H1|exact H5].
Defined.

(** ** The CONSTRUCT runner *)

(** X7. [applyConstructWithComunica] fails when the engine does, and
    otherwise hands the engine's quads back as the statements of a fresh
    graph. A quad gives the statement with its predicate and graph, its
    subject (anything but a named node as a blank node) and its object, where
    a literal keeps its text and its language tag but not its datatype: a
    typed literal comes back as a plain string. These are all the statements;
    none comes twice, so quads that are equal, or differ only in the datatype
    of a literal without a tag, give one statement; no statement has a literal
    subject. *)
Theorem applyConstructWithComunica_spec
    (queryQuads : string -> list Quad -> option (list Quad))
    (constructQuery : string) (store : list Quad) :
  (queryQuads constructQuery store = None ->
   applyConstructWithComunica queryQuads constructQuery store = None)
  /\ (forall quads, queryQuads constructQuery store = Some quads ->
        exists stmts,
          applyConstructWithComunica queryQuads constructQuery store = Some stmts
          /\ NoDup stmts
          /\ (forall s, s ∈ stmts <-> exists q, q ∈ quads /\ s = quadToStatement true q)
          /\ (forall q, q ∈ quads ->
                st4 (match subject q with
                     | NamedNode v => NamedNode v
                     | t => BlankNode (value t)
                     end)
                    (predicate q)
                    (match object q with
                     | Literal v lang _ =>
                         if String.eqb lang "" then Literal v "" (Some XSD_STRING)
                         else Literal v lang (Some RDF_LANGSTRING)
                     | t => t
                     end)
                    (graph q)
                ∈ stmts)
          /\ (forall s, s ∈ stmts ->
                termType (subject s) <> T_Literal
                /\ forall v lang dt,
                     object s = Literal v lang dt ->
                     (lang = "" /\ dt = Some XSD_STRING)
                     \/ (lang <> "" /\ dt = Some RDF_LANGSTRING)))
  /\ (forall (s : Term) (p v : string) (d d' : option string) (g : option string),
         quadToStatement true (st4 s p (Literal v "" d) g)
         = quadToStatement true (st4 s p (Literal v "" d') g)).
Proof.
  split; [intros E; unfold applyConstructWithComunica; by rewrite E|].
  split; [|done].
  intros quads E. unfold applyConstructWithComunica. rewrite E.
  destruct (fold_formula_add (quadToStatement true) quads []) as [N M].
  eexists. split; [reflexivity|]. split; [apply N; constructor|].
  assert (M' : forall s,
             s ∈ fold_left (fun temp q => formula_add temp (quadToStatement true q))
                   quads []
             <-> exists q, q ∈ quads /\ s = quadToStatement true q).
  { intros s. rewrite M. split; [|auto].
    intros [H|?]; [by apply elem_of_nil in H|done]. }
  split; [done|]. split.
  - intros q Hq. apply M'. exists q. split; [done|].
    unfold quadToStatement. f_equal.
    + by destruct (subject q).
    + destruct (object q) as [| |v lang dt]; simpl; try done.
      by destruct (String.eqb lang "").
  - intros s Hs. apply M' in Hs as (q & _ & ->). simpl.
    split; [by destruct (subject q)|].
    intros v lang dt. destruct (object q) as [| |v' lang' dt']; simpl; try done.
    destruct (String.eqb_spec lang' "") as [->|Hne]; intros [= <- <- <-]; auto.
Qed.

Lemma applyConstructWithComunica_spec_witness :
  exists stmts,
    applyConstructWithComunica noisyEvaluator "q" [] = Some stmts
    /\ NoDup stmts
    /\ st (BlankNode "b0") "urn:p" (Literal "v" "" (Some XSD_STRING)) ∈ stmts
    /\ forall s, s ∈ stmts -> termType (subject s) <> T_Literal.
Proof.
  destruct (proj1 (proj2 (applyConstructWithComunica_spec noisyEvaluator "q" [])) _
              eq_refl) as (stmts & E & N & _ & M & T).
  exists stmts. split; [exact E|]. split; [exact N|]. split.
  - apply (M (quad (BlankNode "b0") "urn:p" (Literal "v" "" None))).
    apply list_elem_of_here.
  - intros s Hs. exact (proj1 (T s Hs)).
Defined.

(** A typed literal comes back as a plain string, and with the plain string
    itself gives one statement. *)
Example applyConstructWithComunica_run :
  applyConstructWithComunica noisyEvaluator "q" []
  = Some [st (BlankNode "b0") "urn:p" (literal_plain "v");
          st4 (NamedNode "urn:x") "urn:p" (NamedNode "urn:y") (Some "urn:g")]
  /\ applyConstructWithComunica
       (fun _ _ =>
          Some [quad (NamedNode "urn:x") "urn:p"
                  (Literal "1" "" (Some "http://www.w3.org/2001/XMLSchema#integer"));
                quad (NamedNode "urn:x") "urn:p" (Literal "1" "" (Some XSD_STRING))])
       "q" []
     = Some [st (NamedNode "urn:x") "urn:p" (literal_plain "1")].
Proof. split; by_evaluation. Qed.


(** ** Invariants of a run *)

(** A property of the four containers that [enqueue] keeps is kept by the
    drain, by every rule step and by the outer loop, whether the loop
    returns or aborts. *)
Section Invariant.
Variable queryQuads : string -> list Quad -> option (list Quad).
Variable Inv : State -> Prop.
Hypothesis Inv_enqueue1 : forall σ s, Inv σ -> Inv (enqueue1 σ s).
Hypothesis Inv_frame : forall σ σ',
  Inv σ -> baseGraph σ' = baseGraph σ -> seen σ' = seen σ ->
  overlayStore σ' = overlayStore σ -> rdfjsStore σ' = rdfjsStore σ -> Inv σ'.

Lemma Inv_enqueue σ stmts : Inv σ -> Inv (enqueue σ stmts).
Proof.
  revert σ. induction stmts as [|s stmts IH]; intros σ H; [done|].
  apply IH. by apply Inv_enqueue1.
Qed.

Lemma Inv_enqueue_extra extra c : Inv (fst c) -> Inv (fst (enqueue_extra extra c)).
Proof. destruct extra; [done|]. apply Inv_enqueue. Qed.

Lemma Inv_drainTypes idx c : Inv (fst c) -> Inv (fst (drainTypes idx c)).
Proof.
  intros H. unfold drainTypes. destruct (workTypes (fst c)); [done|].
  apply Inv_enqueue_extra. by apply (Inv_frame (fst c)).
Qed.

Lemma Inv_drainPropsReturn idx c :
  Inv (fst c) -> Inv (fst (drainPropsReturn idx c)).
Proof.
  intros H. unfold drainPropsReturn. destruct (workProps (fst c)); [done|].
  cbv zeta. repeat apply Inv_enqueue_extra. by apply (Inv_frame (fst c)).
Qed.

Lemma Inv_drain fuel idx c :
  Inv (fst c) ->
  match drain fuel idx c with
  | Returned c' => Inv (fst c')
  | Thrown σ' => Inv σ'
  | OutOfFuel => True
  end.
Proof.
  revert c. induction fuel as [|n IH]; intros c H.
  - simpl. by destruct (queues_empty (fst c)).
  - destruct (queues_empty (fst c)) eqn:Q; [simpl; by rewrite Q|].
    rewrite drain_step by done. destruct (propsAccepted idx _).
    + by apply IH, Inv_drainPropsReturn, Inv_drainTypes.
    + apply (Inv_frame (fst (drainTypes idx c))); [|done..].
      by apply Inv_drainTypes.
Qed.

Lemma Inv_ruleStep fuel idx rule c :
  Inv (fst c) ->
  match ruleStep queryQuads fuel idx rule c with
  | Returned c' => Inv (fst c')
  | Thrown σ' => Inv σ'
  | OutOfFuel => True
  end.
Proof.
  intros H. rewrite ruleStep_unfold. cbv zeta.
  assert (H1 : Inv (add_asked (getConstructQueryForRule rule) (fst c))).
  { by apply (Inv_frame (fst c)). }
  destruct (applyConstructWithComunica _ _ _) as [stmts|]; [|done].
  match goal with |- context [processQueues ?f ?i ?σ] =>
    pose proof (Inv_drain f i (σ, false)) as E end.
  unfold processQueues.
  destruct (drain _ _ _) as [[σ3 pr]|σt|]; [|by apply E, Inv_enqueue|done].
  specialize (E (Inv_enqueue _ _ H1)). cbn [fst] in E.
  destruct (Nat.ltb _ _); [|done]. by apply (Inv_frame σ3).
Qed.

Lemma Inv_forRules fuel idx rs c :
  Inv (fst c) ->
  match forRules queryQuads fuel idx rs c with
  | Returned c' => Inv (fst c')
  | Thrown σ' => Inv σ'
  | OutOfFuel => True
  end.
Proof.
  revert c. induction rs as [|r rs IH]; intros c H; simpl; [done|].
  pose proof (Inv_ruleStep fuel idx r c H) as H1.
  destruct (ruleStep queryQuads fuel idx r c) as [c1|σ1|]; cbn [mbind Outcome_bind];
    [by apply IH|done|done].
Qed.

Lemma Inv_mainLoop fuel idx rules σ :
  Inv σ ->
  match mainLoop queryQuads fuel idx rules σ with
  | Returned σ' => Inv σ'
  | Thrown σ' => Inv σ'
  | OutOfFuel => True
  end.
Proof.
  revert σ. induction fuel as [|n IH]; intros σ H; [done|].
  cbn [mainLoop]. unfold pass.
  pose proof (Inv_forRules (S n) idx (filterRules rules) (σ, false) H) as H1.
  destruct (forRules _ _ _ _ _) as [[σ1 ch]|σ1|]; cbn [mbind Outcome_bind];
    [|done|done].
  destruct ch; [by apply IH|done].
Qed.
End Invariant.

(** The containers of a run agree with one another. *)
Lemma keys_formula_add g s : keys (formula_add g s) = {[toNT s]} ∪ keys g.
Proof.
  unfold formula_add. case_bool_decide as H.
  - assert (toNT s ∈ keys g) by (apply elem_of_keys; by exists s).
    generalize dependent (toNT s). generalize (keys g). clear.
    intros; set_solver.
  - unfold keys. rewrite map_app, list_to_set_app_L. simpl.
    generalize (toNT s). generalize (list_to_set (map toNT g) : gset string).
    clear. intros; set_solver.
Qed.

Lemma NoDup_formulaToRdfjsStore g : NoDup (formulaToRdfjsStore g).
Proof.
  unfold formulaToRdfjsStore.
  assert (H : forall store, NoDup store ->
            NoDup (fold_left (fun store s => addQuad (statementToQuad s) store) g store)).
  { induction g as [|s g IH]; intros store Hs; simpl; [done|].
    by apply IH, NoDup_addQuad. }
  apply H. constructor.
Qed.

Lemma asRdfjsSubject_not_literal v ty : termType (asRdfjsSubject v ty) <> T_Literal.
Proof. unfold asRdfjsSubject. by destruct (isAbsoluteIri _). Qed.

Lemma toSubject_not_literal t : termType (toSubject t) <> T_Literal.
Proof. by destruct t. Qed.

Lemma consistent_initState g : consistent g (initState g).
Proof.
  unfold consistent. simpl. split; [done|].
  split; [intros q; split; [auto|intros [?|H]; [done|by apply elem_of_nil in H]]|].
  split; [constructor|]. split; [apply NoDup_formulaToRdfjsStore|].
  intros q H. by apply elem_of_nil in H.
Qed.

Lemma consistent_frame g σ σ' :
  consistent g σ -> baseGraph σ' = baseGraph σ -> seen σ' = seen σ ->
  overlayStore σ' = overlayStore σ -> rdfjsStore σ' = rdfjsStore σ ->
  consistent g σ'.
Proof. unfold consistent. by intros ? -> -> -> ->. Qed.

Lemma consistent_add g σ s q :
  consistent g σ -> graph q = None -> termType (subject q) <> T_Literal ->
  consistent g
    {| baseGraph := formula_add (baseGraph σ) (st (subject s) (predicate s) (object s));
       seen := {[toNT s]} ∪ seen σ;
       overlayStore := addQuad q (overlayStore σ);
       rdfjsStore := addQuad q (rdfjsStore σ);
       workTypes := workTypes σ; workProps := workProps σ;
       totalAdded := totalAdded σ; asked := asked σ |}.
Proof.
  intros (K & M & N1 & N2 & D) Hg Hl. unfold consistent. simpl.
  split.
  { rewrite keys_formula_add, K. f_equal. }
  split.
  { intros x. rewrite !elem_of_addQuad, M. tauto. }
  split; [by apply NoDup_addQuad|]. split; [by apply NoDup_addQuad|].
  intros x Hx. apply elem_of_addQuad in Hx as [->|Hx]; [done|by apply D].
Qed.

Lemma consistent_enqueue1 g σ s : consistent g σ -> consistent g (enqueue1 σ s).
Proof.
  intros H. unfold enqueue1. case_bool_decide; [done|].
  eapply consistent_frame;
    [apply (consistent_add g σ s
              (quad (toSubject (subject s)) (predicate s) (toObject (object s))) H);
     [done|apply toSubject_not_literal]|done..].
Qed.

Lemma consistent_seedApply g σ l :
  consistent g σ -> (forall s, s ∈ l -> isAbsoluteIri (predicate s) = true) ->
  exists σ', seedApply σ l = Returned σ' /\ consistent g σ'.
Proof.
  revert σ. induction l as [|s l IH]; intros σ H Habs; [by exists σ|].
  simpl. unfold seedApply1. rewrite (seedQuad_absolute s) by (apply Habs; set_solver).
  cbn [mbind Outcome_bind]. apply IH; [|intros; apply Habs; set_solver].
  apply (consistent_add g σ s (liftQuad s) H); [done|].
  apply asRdfjsSubject_not_literal.
Qed.

Lemma consistent_seedPhase g idx σ σ' :
  consistent g σ -> seedPhase idx σ = Returned σ' -> consistent g σ'.
Proof.
  intros H. destruct (seedPhase_spec idx σ) as (σ1 & σ2 & E1 & E2 & E).
  rewrite E. intros [= <-].
  destruct (consistent_seedApply g σ (seedPropUnseen idx σ) H) as (? & E1' & H1).
  { apply seedPropUnseen_absolute. }
  rewrite E1 in E1'. injection E1' as <-.
  destruct (consistent_seedApply g σ1 (seedTypeUnseen idx σ σ1) H1) as (? & E2' & H2).
  { apply seedTypeUnseen_absolute. }
  rewrite E2 in E2'. by injection E2' as <-.
Qed.

(** X8. In the last state of a run, returned or aborted, the containers
    agree: the seen index holds exactly the keys of the working graph; the
    shared store holds exactly the quads of the graph as loaded and those of
    the overlay store; neither store holds a quad twice; and every overlay
    quad is in the default graph and has a subject that is not a literal.
    The statements loaded are all still in the working graph. *)
Theorem run_containers_agree
    (queryQuads : string -> list Quad -> option (list Quad))
    (fuel : nat) (rules : list string) (loaded : list Statement) (σ' : State) :
  runState queryQuads fuel rules loaded = Returned σ'
  \/ runState queryQuads fuel rules loaded = Thrown σ' ->
  seen σ' = keys (baseGraph σ')
  /\ (forall q, q ∈ rdfjsStore σ'
                <-> q ∈ formulaToRdfjsStore loaded \/ q ∈ overlayStore σ')
  /\ NoDup (overlayStore σ') /\ NoDup (rdfjsStore σ')
  /\ (forall q, q ∈ overlayStore σ' ->
                graph q = None /\ termType (subject q) <> T_Literal)
  /\ (forall s, s ∈ loaded -> s ∈ baseGraph σ').
Proof.
  intros H.
  destruct (runState_unfold queryQuads fuel rules loaded) as (σs & Es & E).
  pose proof (consistent_seedPhase _ _ _ _ (consistent_initState loaded) Es) as Hs.
  pose proof (Inv_mainLoop queryQuads (consistent loaded)
                (consistent_enqueue1 loaded) (consistent_frame loaded)
                fuel (startIndices loaded) rules σs Hs) as Hm.
  apply seedPhase_frame in Es as ((Gs & _) & _). simpl in Gs.
  rewrite <- E in Hm.
  assert (G : grows σs σ').
  { rewrite E in H. destruct H as [H|H].
    - by apply mainLoop_Returned in H as (? & _).
    - apply mainLoop_Thrown in H as (rule & σb & _ & G & _ & T).
      apply ruleThrew_frame in T as (G' & _). by etrans. }
  assert (C : consistent loaded σ') by (destruct H as [H|H]; by rewrite H in Hm).
  destruct C as (C1 & C2 & C3 & C4 & C5).
  split; [done|]. split; [done|]. split; [done|]. split; [done|].
  split; [done|]. intros s Hs'. by apply G, Gs.
Qed.

Lemma run_containers_agree_witness :
  seen sym_final = keys (baseGraph sym_final)
  /\ (forall q, q ∈ rdfjsStore sym_final
                <-> q ∈ formulaToRdfjsStore sym_graph \/ q ∈ overlayStore sym_final)
  /\ NoDup (overlayStore sym_final) /\ NoDup (rdfjsStore sym_final)
  /\ (forall q, q ∈ overlayStore sym_final ->
                graph q = None /\ termType (subject q) <> T_Literal)
  /\ (forall s, s ∈ sym_graph -> s ∈ baseGraph sym_final).
Proof.
  apply (run_containers_agree symmetricEvaluator 3 ["symmetric"] sym_graph).
  left. by_evaluation.
Defined.


(** ** Saturation of the drain *)

Lemma flat_map_batch {A B} (f : A -> list B) (s : A) (batch : list A) (t : B) :
  s ∈ batch -> t ∈ flat_map f [s] -> t ∈ flat_map f batch.
Proof.
  intros Hs Ht. apply elem_of_flat_map in Ht as (x & Hx & Ht).
  apply list_elem_of_singleton in Hx as ->. apply elem_of_flat_map. by exists s.
Qed.

Lemma default_inverseAndSymmetric idx l t :
  t ∈ default [] (applyInverseAndSymmetric idx l) -> t ∈ inverseAndSymmetricOf idx l.
Proof.
  rewrite applyInverseAndSymmetric_eq. destruct (inverseNamesAccepted idx l); [done|].
  by intros H; apply elem_of_nil in H.
Qed.

Lemma default_transitive idx store l t :
  t ∈ default [] (applyTransitiveProps idx store l) -> t ∈ transitiveOf idx store l.
Proof.
  rewrite applyTransitiveProps_eq. destruct (transitiveNamesAccepted idx store l);
    [done|]. by intros H; apply elem_of_nil in H.
Qed.

Lemma inverseNamesAccepted_elem idx batch s :
  inverseNamesAccepted idx batch = true -> s ∈ batch ->
  is_Some (applyInverseAndSymmetric idx [s]).
Proof.
  intros H Hs. rewrite applyInverseAndSymmetric_eq.
  unfold inverseNamesAccepted in *. rewrite forallb_elem_of in H.
  simpl. by rewrite (H s Hs).
Qed.

Lemma transitiveNamesAccepted_elem idx store store' batch s :
  transitiveNamesAccepted idx store' batch = true -> store ⊆ store' -> s ∈ batch ->
  is_Some (applyTransitiveProps idx store [s]).
Proof.
  intros H Hst Hs. rewrite applyTransitiveProps_eq.
  unfold transitiveNamesAccepted in *. rewrite forallb_elem_of in H.
  specialize (H s Hs). rewrite forallb_elem_of in H. simpl.
  replace (forallb sym_ok (transitiveNames idx store s)) with true; [done|].
  symmetry. apply forallb_elem_of. intros name Hn. apply H.
  apply elem_of_transitiveNames in Hn as (Hp & Hn).
  apply elem_of_transitiveNames. split; [done|].
  destruct Hn as [(yz & ? & ?)|(wx & ? & ?)]; [left; exists yz|right; exists wx];
    split; auto.
Qed.

Lemma transitiveOf_mono idx store store' s batch t :
  store ⊆ store' -> s ∈ batch ->
  t ∈ transitiveOf idx store [s] -> t ∈ transitiveOf idx store' batch.
Proof.
  intros Hst Hs Ht. apply elem_of_transitiveOf in Ht as (x & Hx & Hp & Ht).
  apply list_elem_of_singleton in Hx as ->. apply elem_of_transitiveOf.
  exists s. split; [done|]. split; [done|].
  destruct Ht as [(yz & ? & ?)|(wx & ? & ?)]; [left; exists yz|right; exists wx];
    split; auto.
Qed.

Lemma enqueue_extra_seen extra c t :
  t ∈ extra -> toNT t ∈ seen (fst (enqueue_extra extra c)).
Proof.
  destruct extra as [|x l]; [by intros H; apply elem_of_nil in H|].
  intros H. cbn [enqueue_extra fst]. rewrite seen_enqueue.
  apply elem_of_union_l, elem_of_keys. by exists t.
Qed.

Section Saturation.
Variable idx : Indices.
Variable store : list Quad.

Lemma advances_refl σ : advances idx store σ σ.
Proof. unfold advances. repeat split; auto. Qed.

Lemma advances_trans σ1 σ2 σ3 :
  advances idx store σ1 σ2 -> advances idx store σ2 σ3 -> advances idx store σ1 σ3.
Proof.
  intros (T1 & P1 & S1 & B1) (T2 & P2 & S2 & B2).
  split; [auto|]. split; [auto|]. split; [by etrans|].
  intros s Hs. destruct (B2 s Hs) as [H|H]; [|by right].
  destruct (B1 s H) as [?|(s0 & -> & [[? ?]|[? ?]])]; [by left|right; exists s0..];
    (split; [done|]); [left|right]; auto.
Qed.

Lemma advances_enqueue1 σ s : advances idx store σ (enqueue1 σ s).
Proof.
  unfold enqueue1. case_bool_decide as Hs; [apply advances_refl|].
  assert (HT : forall x, typeSettled idx σ x -> typeSettled idx
      {| baseGraph := formula_add (baseGraph σ) (st (subject s) (predicate s) (object s));
         seen := {[toNT s]} ∪ seen σ;
         overlayStore := addQuad (quad (toSubject (subject s)) (predicate s)
                                       (toObject (object s))) (overlayStore σ);
         rdfjsStore := addQuad (quad (toSubject (subject s)) (predicate s)
                                     (toObject (object s))) (rdfjsStore σ);
         workTypes := if String.eqb (predicate s) RDF_TYPE
                      then workTypes σ ++ [s] else workTypes σ;
         workProps := if String.eqb (predicate s) RDF_TYPE
                      then workProps σ else workProps σ ++ [s];
         totalAdded := totalAdded σ; asked := asked σ |} x).
  { intros x [H|H]; [left|right]; simpl.
    - destruct (String.eqb _ _); [apply elem_of_app|]; auto.
    - intros t Ht. apply elem_of_union_r. by apply H. }
  assert (HP : forall x, propSettled idx store σ x -> propSettled idx store
      {| baseGraph := formula_add (baseGraph σ) (st (subject s) (predicate s) (object s));
         seen := {[toNT s]} ∪ seen σ;
         overlayStore := addQuad (quad (toSubject (subject s)) (predicate s)
                                       (toObject (object s))) (overlayStore σ);
         rdfjsStore := addQuad (quad (toSubject (subject s)) (predicate s)
                                     (toObject (object s))) (rdfjsStore σ);
         workTypes := if String.eqb (predicate s) RDF_TYPE
                      then workTypes σ ++ [s] else workTypes σ;
         workProps := if String.eqb (predicate s) RDF_TYPE
                      then workProps σ else workProps σ ++ [s];
         totalAdded := totalAdded σ; asked := asked σ |} x).
  { intros x [H|[Hx H]]; [left|right]; simpl.
    - destruct (String.eqb _ _); [|apply elem_of_app]; auto.
    - split; [done|]. intros t Ht. apply elem_of_union_r. by apply H. }
  split; [done|]. split; [done|]. simpl.
  split; [intros q Hq; apply elem_of_addQuad; auto|].
  intros x Hx. apply elem_of_formula_add in Hx as [->|?]; [|by left].
  right. exists s. split; [done|]. unfold is_type, typeSettled, propSettled. simpl.
  destruct (String.eqb (predicate s) RDF_TYPE); [left|right];
    (split; [done|]); left; apply elem_of_app; right; apply list_elem_of_singleton;
    done.
Qed.

Lemma advances_enqueue σ stmts : advances idx store σ (enqueue σ stmts).
Proof.
  revert σ. induction stmts as [|s stmts IH]; intros σ; [apply advances_refl|].
  eapply advances_trans; [apply advances_enqueue1|apply IH].
Qed.

Lemma advances_enqueue_extra extra c :
  advances idx store (fst c) (fst (enqueue_extra extra c)).
Proof. destruct extra; [apply advances_refl|apply advances_enqueue]. Qed.

Lemma advances_drainTypes c :
  advances idx store (fst c) (fst (drainTypes idx c)).
Proof.
  unfold drainTypes. destruct (workTypes (fst c)) as [|x batch] eqn:W;
    [apply advances_refl|].
  set (extra := expandTypesWithClosure idx (x :: batch)).
  set (σ1 := set_workTypes [] (fst c)).
  pose proof (advances_enqueue_extra extra (σ1, snd c)) as (T & P & S & B).
  pose proof (fun t => enqueue_extra_seen extra (σ1, snd c) t) as Hseen.
  cbn [fst] in *. split; [|split; [|split]].
  - intros s [Hs|Hs].
    + right. intros t Ht. apply Hseen. unfold extra, expandTypesWithClosure in *.
      rewrite W in Hs. by apply (flat_map_batch _ s).
    + apply T. by right.
  - intros s Hs. apply P. exact Hs.
  - exact S.
  - exact B.
Qed.

Lemma advances_drainPropsReturn c :
  store ⊆ rdfjsStore (fst c) -> propsAccepted idx (fst c) = true ->
  advances idx store (fst c) (fst (drainPropsReturn idx c)).
Proof.
  intros Hst Ha. apply andb_true_iff in Ha as [Ha1 Ha2].
  unfold drainPropsReturn. destruct (workProps (fst c)) as [|x batch] eqn:W;
    [apply advances_refl|].
  cbv zeta.
  set (σ1 := set_workProps [] (fst c)).
  set (e1 := expandPropsWithClosure idx (x :: batch)).
  set (e2 := inverseAndSymmetricOf idx (x :: batch)).
  set (e3 := applyDomainRange idx (x :: batch)).
  set (e4 := transitiveOf idx (rdfjsStore σ1) (x :: batch)).
  set (c1 := enqueue_extra e1 (σ1, snd c)).
  set (c2 := enqueue_extra e2 c1).
  set (c3 := enqueue_extra e3 c2).
  set (c4 := enqueue_extra e4 c3).
  pose proof (advances_enqueue_extra e1 (σ1, snd c)) as A1.
  pose proof (advances_enqueue_extra e2 c1) as A2.
  pose proof (advances_enqueue_extra e3 c2) as A3.
  pose proof (advances_enqueue_extra e4 c3) as A4.
  fold c1 in A1. fold c2 in A2. fold c3 in A3. fold c4 in A4.
  pose proof (advances_trans _ _ _ A1 (advances_trans _ _ _ A2
                (advances_trans _ _ _ A3 A4))) as (T & P & S & B).
  pose proof (grows_enqueue_extra e2 c1) as (_ & G2 & _).
  pose proof (grows_enqueue_extra e3 c2) as (_ & G3 & _).
  pose proof (grows_enqueue_extra e4 c3) as (_ & G4 & _).
  fold c2 in G2. fold c3 in G3. fold c4 in G4.
  assert (H1 : forall t, t ∈ e1 -> toNT t ∈ seen (fst c4)).
  { intros t Ht. apply G4, G3, G2. by apply enqueue_extra_seen. }
  assert (H2 : forall t, t ∈ e2 -> toNT t ∈ seen (fst c4)).
  { intros t Ht. apply G4, G3. by apply enqueue_extra_seen. }
  assert (H3 : forall t, t ∈ e3 -> toNT t ∈ seen (fst c4)).
  { intros t Ht. apply G4. by apply enqueue_extra_seen. }
  assert (H4 : forall t, t ∈ e4 -> toNT t ∈ seen (fst c4)).
  { intros t Ht. by apply enqueue_extra_seen. }
  cbn [fst] in *. split; [|split; [|split]].
  - intros s Hs. apply T. exact Hs.
  - intros s [Hs|Hs].
    + right. rewrite W in Hs.
      split; [split; [by eapply inverseNamesAccepted_elem
                     |by eapply transitiveNamesAccepted_elem]|].
      intros t Ht. unfold propExpansions in Ht.
      rewrite !elem_of_app in Ht. destruct Ht as [Ht|[Ht|[Ht|Ht]]].
      * apply H1. by apply (flat_map_batch _ s).
      * apply H2. apply default_inverseAndSymmetric in Ht.
        by apply (flat_map_batch _ s).
      * apply H3. by apply (flat_map_batch _ s).
      * apply H4. apply default_transitive in Ht.
        by apply (transitiveOf_mono idx store _ s).
    + apply P. by right.
  - exact S.
  - exact B.
Qed.

Lemma advances_drain fuel c c' :
  store ⊆ rdfjsStore (fst c) ->
  drain fuel idx c = Returned c' -> advances idx store (fst c) (fst c').
Proof.
  revert c. induction fuel as [|n IH]; intros c Hst.
  - simpl. destruct (queues_empty (fst c)); [|done].
    intros [= <-]; apply advances_refl.
  - destruct (queues_empty (fst c)) eqn:Q.
    { simpl. rewrite Q. intros [= <-]; apply advances_refl. }
    rewrite drain_step by done. destruct (propsAccepted idx _) eqn:Ea; [|done].
    intros H.
    pose proof (advances_drainTypes c) as A1.
    assert (Hst1 : store ⊆ rdfjsStore (fst (drainTypes idx c))).
    { destruct A1 as (_ & _ & S & _). by etrans. }
    pose proof (advances_drainPropsReturn (drainTypes idx c) Hst1 Ea) as A2.
    assert (Hst2 : store ⊆ rdfjsStore (fst (drainPropsReturn idx (drainTypes idx c)))).
    { destruct A2 as (_ & _ & S & _). by etrans. }
    eapply advances_trans; [exact A1|]. eapply advances_trans; [exact A2|].
    by apply IH.
Qed.
End Saturation.

(** X9. The drain saturates what it was given: when [processQueues] returns,
    every statement that waited in the type queue has its super-class
    typings in the seen index; every statement that waited in the property
    queue has its super-property, inverse, symmetric, domain, range and
    transitive consequences there, the transitive ones taken against the
    shared store as the drain found it; and so has every statement the drain
    added to the working graph, by the queue its predicate routes it to. *)
Theorem drain_saturates
    (fuel : nat) (idx : Indices) (σ σ' : State) (progressed : bool) :
  processQueues fuel idx σ = Returned (σ', progressed) ->
  (forall s t, s ∈ workTypes σ -> t ∈ expandTypesWithClosure idx [s] ->
               toNT t ∈ seen σ')
  /\ (forall s t, s ∈ workProps σ -> t ∈ propExpansions idx (rdfjsStore σ) s ->
                  toNT t ∈ seen σ')
  /\ (forall s t, s ∈ baseGraph σ' -> s ∉ baseGraph σ ->
                  t ∈ expansions idx (rdfjsStore σ) s -> toNT t ∈ seen σ')
  /\ (forall s, (s ∈ workProps σ
                 \/ (s ∈ baseGraph σ' /\ (s ∉ baseGraph σ) /\ is_type s = false)) ->
                is_Some (applyInverseAndSymmetric idx [s])
                /\ is_Some (applyTransitiveProps idx (rdfjsStore σ) [s])).
Proof.
  unfold processQueues. intros H.
  pose proof (drain_queues_empty _ _ _ _ H) as Q.
  apply queues_empty_spec in Q as [QT QP]. cbn [fst] in QT, QP.
  apply (advances_drain idx (rdfjsStore σ)) in H as (T & P & _ & B); [|done].
  cbn [fst] in *.
  assert (T' : forall s, typeSettled idx σ' s ->
                 forall t, t ∈ expandTypesWithClosure idx [s] -> toNT t ∈ seen σ').
  { intros s [Hs|Hs]; [|done]. rewrite QT in Hs. by apply elem_of_nil in Hs. }
  assert (P' : forall s, propSettled idx (rdfjsStore σ) σ' s ->
                 expandable idx (rdfjsStore σ) s
                 /\ forall t, t ∈ propExpansions idx (rdfjsStore σ) s ->
                              toNT t ∈ seen σ').
  { intros s [Hs|Hs]; [|done]. rewrite QP in Hs. by apply elem_of_nil in Hs. }
  split; [intros s t Hs; apply T'; apply T; by left|].
  split; [intros s t Hs; apply P'; apply P; by left|].
  split.
  - intros s t Hs Hn.
    destruct (B s Hs) as [?|(s0 & -> & [[E H0]|[E H0]])]; [done|..];
      change (expansions idx (rdfjsStore σ) (norm s0))
        with (expansions idx (rdfjsStore σ) s0);
      unfold expansions; rewrite E.
    + by apply T'.
    + by apply P'.
  - intros s [Hs|(Hs & Hn & Ht)]; [apply P', P; by left|].
    destruct (B s Hs) as [?|(s0 & -> & [[E H0]|[E H0]])]; [done|..].
    + change (is_type (norm s0)) with (is_type s0) in Ht. congruence.
    + apply (P' s0 H0).
Qed.

Lemma drain_saturates_witness :
  (forall s t, s ∈ workTypes drain_state ->
               t ∈ expandTypesWithClosure (startIndices sym_graph) [s] ->
               toNT t ∈ seen (fst drained))
  /\ (forall s t, s ∈ workProps drain_state ->
                  t ∈ propExpansions (startIndices sym_graph) (rdfjsStore drain_state) s ->
                  toNT t ∈ seen (fst drained))
  /\ (forall s t, s ∈ baseGraph (fst drained) -> s ∉ baseGraph drain_state ->
                  t ∈ expansions (startIndices sym_graph) (rdfjsStore drain_state) s ->
                  toNT t ∈ seen (fst drained))
  /\ (forall s, (s ∈ workProps drain_state
                 \/ (s ∈ baseGraph (fst drained) /\ (s ∉ baseGraph drain_state)
                     /\ is_type s = false)) ->
                is_Some (applyInverseAndSymmetric (startIndices sym_graph) [s])
                /\ is_Some (applyTransitiveProps (startIndices sym_graph)
                              (rdfjsStore drain_state) [s])).
Proof.
  apply (drain_saturates 1 (startIndices sym_graph) drain_state (fst drained)
           (snd drained)).
  by_evaluation.
Defined.

Example drain_saturates_run :
  propExpansions (startIndices sym_graph) (rdfjsStore drain_state)
    (st (NamedNode "urn:y") "urn:q" (NamedNode "urn:x"))
  = [st (NamedNode "urn:x") "urn:q" (NamedNode "urn:y")]
  /\ toNT (st (NamedNode "urn:x") "urn:q" (NamedNode "urn:y")) ∈ seen (fst drained).
Proof. split; by_evaluation. Qed.

(** ** The state a run returns is stable *)

Lemma keys_dedupeBatch stmts : keys (dedupeBatch stmts) = keys stmts.
Proof.
  unfold dedupeBatch. rewrite selectUnseen_loop_keyset.
  generalize (keys stmts). intros g. set_solver.
Qed.

Lemma advances_same idx store σ σ' :
  baseGraph σ' = baseGraph σ -> seen σ' = seen σ -> rdfjsStore σ' = rdfjsStore σ ->
  workTypes σ' = workTypes σ -> workProps σ' = workProps σ ->
  advances idx store σ σ'.
Proof.
  intros Eb Es Er Et Ep. unfold advances, typeSettled, propSettled.
  rewrite Eb, Es, Er, Et, Ep. repeat split; auto.
Qed.

Section Stable.
Variable queryQuads : string -> list Quad -> option (list Quad).

Lemma advances_ruleStep fuel idx store rule c c' :
  store ⊆ rdfjsStore (fst c) ->
  ruleStep queryQuads fuel idx rule c = Returned c' ->
  advances idx store (fst c) (fst c').
Proof.
  intros Hst. rewrite ruleStep_unfold. cbv zeta.
  destruct (applyConstructWithComunica _ _ _) as [stmts|]; [|done].
  set (σ1 := add_asked (getConstructQueryForRule rule) (fst c)).
  destruct (processQueues _ _ _) as [[σ3 pr]|σt|] eqn:E; [|done..].
  assert (A : advances idx store (fst c) σ3).
  { eapply advances_trans; [apply (advances_same idx store (fst c) σ1); done|].
    eapply advances_trans; [apply advances_enqueue|].
    apply (advances_drain idx store) in E; [exact E|].
    cbn [fst]. pose proof (grows_enqueue σ1 (dedupeBatch stmts)) as (_ & _ & _ & G).
    etrans; [exact Hst|exact G]. }
  destruct (Nat.ltb _ _); intros [= <-]; cbn [fst]; [|done].
  eapply advances_trans; [exact A|]. by apply advances_same.
Qed.

Lemma advances_forRules fuel idx store rs c c' :
  store ⊆ rdfjsStore (fst c) ->
  forRules queryQuads fuel idx rs c = Returned c' ->
  advances idx store (fst c) (fst c').
Proof.
  revert c. induction rs as [|r rs IH]; intros c Hst; simpl.
  - intros [= <-]. apply advances_refl.
  - destruct (ruleStep queryQuads fuel idx r c) as [c1| |] eqn:E; try done.
    cbn [mbind Outcome_bind]. intros H.
    pose proof (advances_ruleStep _ _ _ _ _ _ Hst E) as A1.
    eapply advances_trans; [exact A1|]. apply IH; [|done].
    destruct A1 as (_ & _ & S & _). by etrans.
Qed.

Lemma advances_mainLoop fuel idx store rules σ σ' :
  store ⊆ rdfjsStore σ ->
  mainLoop queryQuads fuel idx rules σ = Returned σ' ->
  advances idx store σ σ'.
Proof.
  revert σ. induction fuel as [|n IH]; intros σ Hst; [done|].
  cbn [mainLoop]. unfold pass.
  destruct (forRules _ _ _ _ _) as [[σ1 ch]| |] eqn:E; try done.
  cbn [mbind Outcome_bind].
  pose proof (advances_forRules _ _ store _ (σ, false) _ Hst E) as A1.
  cbn [fst] in A1.
  destruct ch; [|by intros [= <-]].
  intros H. eapply advances_trans; [exact A1|]. apply IH; [|done].
  destruct A1 as (_ & _ & S & _). by etrans.
Qed.

(** A pass that reports no change asked every rule and got nothing new. *)
Lemma forRules_quiet_answers fuel idx rs σ σ' :
  queues_empty σ = true ->
  forRules queryQuads fuel idx rs (σ, false) = Returned (σ', false) ->
  forall rule, rule ∈ rs ->
    exists stmts,
      applyConstructWithComunica queryQuads (getConstructQueryForRule rule)
        (rdfjsStore σ') = Some stmts
      /\ forall s, s ∈ stmts -> toNT s ∈ seen σ'.
Proof.
  revert σ. induction rs as [|r rs IH]; intros σ Q H rule Hr;
    [by apply elem_of_nil in Hr|].
  pose proof (forRules_quiet queryQuads _ _ _ _ _ Q H) as [L _].
  simpl in H.
  destruct (ruleStep queryQuads fuel idx r (σ, false)) as [c1| |] eqn:E; try done.
  cbn [mbind Outcome_bind] in H.
  assert (Hc1 : snd c1 = false).
  { destruct (snd c1) eqn:Hb; [|done].
    apply forRules_Returned in H as (_ & _ & _ & _ & B). by specialize (B Hb). }
  destruct (ruleStep_quiet queryQuads _ _ _ _ _ Q E Hc1) as (-> & stmts & Ea & Hall).
  apply elem_of_cons in Hr as [->|Hr].
  - destruct L as (_ & Lk & _ & Ls & _). exists stmts. rewrite Ls, Lk.
    split; [done|]. intros s Hs.
    assert (Hk : toNT s ∈ keys (dedupeBatch stmts)).
    { rewrite keys_dedupeBatch. apply elem_of_keys. by exists s. }
    apply elem_of_keys in Hk as (s' & Hs' & <-). by apply Hall.
  - by apply (IH (add_asked (getConstructQueryForRule r) σ)).
Qed.
End Stable.

(** X10. The state a run returns is stable. Every rule of the list other
    than "subclassof" and "subpropertyof", asked once more over the final
    shared store, answers with statements whose keys are all in the seen
    index. And every statement that the rule loop added to the working
    graph, whether a rule derived it or an expander, has its super-class or
    super-property, inverse, symmetric, domain, range and transitive
    consequences in the seen index, the transitive ones taken against the
    store as the seed left it. *)
Theorem returned_state_is_stable
    (queryQuads : string -> list Quad -> option (list Quad))
    (fuel : nat) (rules : list string) (loaded : list Statement) (σ' : State) :
  runState queryQuads fuel rules loaded = Returned σ' ->
  (forall rule, rule ∈ rules -> rule <> "subclassof" -> rule <> "subpropertyof" ->
     exists stmts,
       applyConstructWithComunica queryQuads (getConstructQueryForRule rule)
         (rdfjsStore σ') = Some stmts
       /\ forall s, s ∈ stmts -> toNT s ∈ seen σ')
  /\ exists σs,
       seedPhase (startIndices loaded) (initState loaded) = Returned σs
       /\ (forall s t, s ∈ baseGraph σ' -> s ∉ baseGraph σs ->
             t ∈ expansions (startIndices loaded) (rdfjsStore σs) s ->
             toNT t ∈ seen σ')
       /\ (forall s, s ∈ baseGraph σ' -> s ∉ baseGraph σs -> is_type s = false ->
             is_Some (applyInverseAndSymmetric (startIndices loaded) [s])
             /\ is_Some (applyTransitiveProps (startIndices loaded)
                           (rdfjsStore σs) [s])).
Proof.
  intros H.
  destruct (runState_unfold queryQuads fuel rules loaded) as (σs & Es & E).
  rewrite E in H.
  assert (Qs : queues_empty σs = true).
  { apply seedPhase_frame in Es as (_ & _ & HT & HP).
    apply queues_empty_spec. by rewrite HT, HP. }
  split.
  - intros rule Hr N1 N2.
    destruct (mainLoop_last_pass queryQuads _ _ _ _ _ Qs H) as (n & σl & Ql & Ep).
    unfold pass in Ep.
    apply (forRules_quiet_answers queryQuads _ _ _ _ _ Ql Ep).
    by apply elem_of_filterRules.
  - exists σs. split; [done|].
    pose proof (mainLoop_Returned queryQuads _ _ _ _ _ H) as (_ & Q' & _).
    apply queues_empty_spec in Q' as [QT QP]; [|done].
    apply (advances_mainLoop queryQuads _ _ (rdfjsStore σs)) in H
      as (_ & _ & _ & B); [|done].
    split.
    + intros s t Hs Hn Ht.
      destruct (B s Hs) as [?|(s0 & -> & [[E0 H0]|[E0 H0]])]; [done|..];
        change (expansions (startIndices loaded) (rdfjsStore σs) (norm s0))
          with (expansions (startIndices loaded) (rdfjsStore σs) s0) in Ht;
        unfold expansions in Ht; rewrite E0 in Ht.
      * destruct H0 as [H0|H0]; [|by apply H0].
        rewrite QT in H0. by apply elem_of_nil in H0.
      * destruct H0 as [H0|H0]; [|by apply H0].
        rewrite QP in H0. by apply elem_of_nil in H0.
    + intros s Hs Hn Ht.
      destruct (B s Hs) as [?|(s0 & -> & [[E0 H0]|[E0 H0]])]; [done|..].
      * change (is_type (norm s0)) with (is_type s0) in Ht. congruence.
      * destruct H0 as [H0|H0]; [|apply H0].
        rewrite QP in H0. by apply elem_of_nil in H0.
Qed.

Lemma returned_state_is_stable_witness :
  (forall rule, rule ∈ ["symmetric"] -> rule <> "subclassof" ->
     rule <> "subpropertyof" ->
     exists stmts,
       applyConstructWithComunica symmetricEvaluator (getConstructQueryForRule rule)
         (rdfjsStore sym_final) = Some stmts
       /\ forall s, s ∈ stmts -> toNT s ∈ seen sym_final)
  /\ exists σs,
       seedPhase (startIndices sym_graph) (initState sym_graph) = Returned σs
       /\ (forall s t, s ∈ baseGraph sym_final -> s ∉ baseGraph σs ->
             t ∈ expansions (startIndices sym_graph) (rdfjsStore σs) s ->
             toNT t ∈ seen sym_final)
       /\ (forall s, s ∈ baseGraph sym_final -> s ∉ baseGraph σs ->
             is_type s = false ->
             is_Some (applyInverseAndSymmetric (startIndices sym_graph) [s])
             /\ is_Some (applyTransitiveProps (startIndices sym_graph)
                           (rdfjsStore σs) [s])).
Proof.
  apply (returned_state_is_stable symmetricEvaluator 3 ["symmetric"] sym_graph).
  by_evaluation.
Defined.


(** * Terms from stored values *)

(** ** Absolute IRIs *)

Lemma prefix_cons (a : ascii) p x r :
  String.prefix (String a p) (String x r) = true -> x = a /\ String.prefix p r = true.
Proof. simpl. destruct (ascii_dec a x) as [->|]; [done|discriminate]. Qed.

Lemma prefix_short (a b : ascii) p x :
  String.prefix (String a (String b p)) (String x "") = false.
Proof. cbn [String.prefix]. by destruct (ascii_dec a x). Qed.

Lemma isAbsoluteIri_scheme s :
  isAbsoluteIri s = true ->
  exists a b p, (a, b) ∈ schemeHeads
    /\ String.prefix (String a (String b p)) (lower_string s) = true.
Proof.
  unfold isAbsoluteIri. destruct (String.eqb s ""); [done|].
  destruct (has_ws s); [done|].
  destruct (existsb _ _) eqn:E1.
  - intros _. apply existsb_exists in E1 as (sch & Hin & Hp).
    unfold startsWith_ci in Hp. simpl in Hin.
    repeat destruct Hin as [<-|Hin]; try done;
      match type of Hp with
      | String.prefix ?x _ = true =>
          let y := eval vm_compute in x in change x with y in Hp
      end;
      match type of Hp with
      | String.prefix (String ?a (String ?b ?p)) _ = true =>
          exists a, b, p; split; [unfold schemeHeads; set_solver|exact Hp]
      end.
  - clear E1. destruct (existsb _ _) eqn:E2; [|done].
    intros _. apply existsb_exists in E2 as (sch & Hin & Hp).
    unfold startsWith_ci in Hp. simpl in Hin.
    repeat destruct Hin as [<-|Hin]; try done;
      match type of Hp with
      | String.prefix ?x _ = true =>
          let y := eval vm_compute in x in change x with y in Hp
      end;
      match type of Hp with
      | String.prefix (String ?a (String ?b ?p)) _ = true =>
          exists a, b, p; split; [unfold schemeHeads; set_solver|exact Hp]
      end.
Qed.

(** An absolute IRI is a name that [$rdf.sym] accepts: it has a colon and
    no space. *)
Lemma has_ws_no_space s : has_ws s = false -> includes " " s = false.
Proof.
  induction s as [|a r IH]; [done|]. cbn [has_ws includes].
  destruct (ws_strip (String a r)) eqn:E; [done|]. intros H.
  rewrite (IH H), orb_false_r. unfold ws_strip in E.
  destruct (ws1 a) eqn:W; [done|].
  destruct (Ascii.eqb_spec a " ") as [->|]; [|done]. by vm_compute in W.
Qed.

Lemma prefix_includes c p s :
  String.prefix p s = true -> includes c p = true -> includes c s = true.
Proof.
  revert s. induction p as [|a p IH]; intros s; [done|].
  destruct s as [|x r]; [done|]. intros H. apply prefix_cons in H as [-> H].
  cbn [includes]. destruct (Ascii.eqb a c); [done|]. simpl. by apply IH.
Qed.

Lemma lower_colon c : Ascii.eqb (lower c) ":" = Ascii.eqb c ":".
Proof. destruct c as [[] [] [] [] [] [] [] []]; reflexivity. Qed.

Lemma includes_lower_colon s : includes ":" (lower_string s) = includes ":" s.
Proof.
  induction s as [|c r IH]; [done|]. cbn [lower_string includes].
  by rewrite lower_colon, IH.
Qed.

Lemma isAbsoluteIri_sym_ok s : isAbsoluteIri s = true -> sym_ok s = true.
Proof.
  intros H. pose proof (isAbsoluteIri_no_ws s H) as Hw.
  unfold sym_ok. rewrite (has_ws_no_space s Hw), andb_true_r.
  rewrite <- includes_lower_colon. revert H.
  unfold isAbsoluteIri. destruct (String.eqb s ""); [done|].
  destruct (has_ws s); [done|].
  destruct (existsb _ _) eqn:E1.
  - intros _. apply existsb_exists in E1 as (sch & Hin & Hp).
    unfold startsWith_ci in Hp. apply (prefix_includes _ _ _ Hp).
    simpl in Hin. repeat destruct Hin as [<-|Hin]; done.
  - clear E1. destruct (existsb _ _) eqn:E2; [|done].
    intros _. apply existsb_exists in E2 as (sch & Hin & Hp).
    unfold startsWith_ci in Hp. apply (prefix_includes _ _ _ Hp).
    simpl in Hin. repeat destruct Hin as [<-|Hin]; done.
Qed.

Lemma lower_fixed c :
  (Nat.leb 65 (nat_of_ascii c) && Nat.leb (nat_of_ascii c) 90) = false ->
  lower c = c.
Proof. unfold lower. by intros ->. Qed.

Lemma is_digit_lower d : is_digit d = true -> lower d = d.
Proof.
  unfold is_digit. intros H. apply lower_fixed.
  apply andb_true_iff in H as [H1 H2]. apply Nat.leb_le in H1, H2.
  apply andb_false_iff. left. apply Nat.leb_gt. lia.
Qed.

Lemma schemeHeads_spec a b :
  (a, b) ∈ schemeHeads -> is_digit b = false /\ a <> "_"%char /\ a <> "<"%char.
Proof.
  unfold schemeHeads. intros H.
  repeat (apply elem_of_cons in H as [H|H];
          [injection H as -> ->; split; [reflexivity|split; discriminate]|]).
  by apply elem_of_nil in H.
Qed.

(** An absolute IRI does not look like a blank-node label. *)
Lemma isAbsoluteIri_not_bnode s :
  isAbsoluteIri s = true -> looksLikeBnodeId s = false.
Proof.
  intros H. destruct (isAbsoluteIri_scheme s H) as (a & b & p & Hin & Hp).
  apply schemeHeads_spec in Hin as (Hb & Ha & _).
  destruct s as [|c [|d r]]; [done| |].
  { unfold looksLikeBnodeId, startsWith. by rewrite !prefix_short. }
  cbn [lower_string] in Hp.
  apply prefix_cons in Hp as [Hc Hp]. apply prefix_cons in Hp as [Hd _].
  unfold looksLikeBnodeId, startsWith.
  assert (H1 : String.prefix "_:" (String c (String d r)) = false).
  { destruct (String.prefix "_:" _) eqn:E; [|done].
    apply prefix_cons in E as [-> _]. by subst a. }
  assert (H2 : String.prefix "_g_" (String c (String d r)) = false).
  { destruct (String.prefix "_g_" _) eqn:E; [|done].
    apply prefix_cons in E as [-> _]. by subst a. }
  rewrite H1, H2. cbn [orb all_digits].
  destruct (is_digit d) eqn:Hdig; [|by rewrite andb_false_r].
  rewrite (is_digit_lower d Hdig) in Hd. congruence.
Qed.

Lemma asSubjectTerm_spec v type :
  asSubjectTerm v type
  = if isAbsoluteIri v then NamedNode v else BlankNode (bnodeId v "s").
Proof. unfold asSubjectTerm. destruct (type_is _ _), (isAbsoluteIri v); done. Qed.

Lemma asPredicateTerm_spec v type :
  asPredicateTerm v type = if isAbsoluteIri v then Some v else None.
Proof. unfold asPredicateTerm. destruct (type_is _ _), (isAbsoluteIri v); done. Qed.

Lemma bnodeId_nonempty v fallback : fallback <> "" -> bnodeId v fallback <> "".
Proof.
  unfold bnodeId. intros H. destruct (String.eqb_spec (strip_bnode_prefix v) ""); done.
Qed.

Lemma asObjectTerm_named v type lang datatype x :
  asObjectTerm v type lang datatype = Some (NamedNode x) ->
  x = v /\ isAbsoluteIri x = true.
Proof.
  unfold asObjectTerm.
  destruct (isAbsoluteIri v) eqn:E; rewrite ?andb_false_r, ?andb_true_r;
    repeat match goal with
           | |- context [if ?b then _ else _] => destruct b
           end; try done; by intros [= <-].
Qed.

Lemma asObjectTerm_bnode v type lang datatype i :
  asObjectTerm v type lang datatype = Some (BlankNode i) -> i <> "".
Proof.
  unfold asObjectTerm.
  repeat match goal with
         | |- context [if ?b then _ else _] => destruct b
         end; try done; intros [= <-]; by apply bnodeId_nonempty.
Qed.

(** X11. The terms made from stored values. A named node that any of the six
    helpers returns has an absolute IRI, and a predicate is accepted only
    with one (the RDF/JS helpers judge the value after normalisation, the
    rdflib helpers the value as stored). A subject is never a literal. The
    blank nodes of the rdflib helpers never have an empty label. Type
    metadata has no say for subjects and predicates: the value alone
    decides. *)
Theorem named_nodes_are_absolute
    (v : string) (ty : TermType) (type lang datatype : option string) :
  (forall x, asSubjectTerm v type = NamedNode x -> x = v /\ isAbsoluteIri x = true)
  /\ (forall x, asObjectTerm v type lang datatype = Some (NamedNode x) ->
        x = v /\ isAbsoluteIri x = true)
  /\ (forall p, asPredicateTerm v type = Some p <-> p = v /\ isAbsoluteIri v = true)
  /\ (forall x, asRdfjsSubject v ty = NamedNode x ->
        x = normalizeIriString v /\ isAbsoluteIri x = true)
  /\ (forall x, asRdfjsObject v ty lang datatype = NamedNode x ->
        x = normalizeIriString v /\ isAbsoluteIri x = true)
  /\ (forall p, asRdfjsPredicate v ty = Some p
        <-> p = normalizeIriString v /\ isAbsoluteIri p = true)
  /\ termType (asSubjectTerm v type) <> T_Literal
  /\ termType (asRdfjsSubject v ty) <> T_Literal
  /\ (forall i, asSubjectTerm v type = BlankNode i -> i <> "")
  /\ (forall i, asObjectTerm v type lang datatype = Some (BlankNode i) -> i <> "")
  /\ asSubjectTerm v type = asSubjectTerm v None
  /\ asPredicateTerm v type = asPredicateTerm v None.
Proof.
  split.
  { intros x. rewrite asSubjectTerm_spec.
    destruct (isAbsoluteIri v) eqn:E; [|done]. by intros [= <-]. }
  split; [apply asObjectTerm_named|].
  split.
  { intros p. rewrite asPredicateTerm_spec.
    destruct (isAbsoluteIri v) eqn:E; split; try done.
    - by intros [= <-].
    - by intros [-> _].
    - by intros [_ ?]. }
  split.
  { intros x. unfold asRdfjsSubject.
    destruct (isAbsoluteIri (normalizeIriString v)) eqn:E; [|done].
    by intros [= <-]. }
  split.
  { intros x. unfold asRdfjsObject.
    destruct (isAbsoluteIri (normalizeIriString v)) eqn:E.
    - destruct (decide (ty = T_NamedNode)); [by intros [= <-]|].
      destruct (if decide (ty = T_BlankNode) then true else looksLikeBnodeId v);
        [done|].
      destruct (truthy lang); [done|]. destruct (truthy datatype); [done|].
      by intros [= <-].
    - destruct (decide (ty = T_NamedNode));
        (destruct (if decide (ty = T_BlankNode) then true else looksLikeBnodeId v);
         [done|]);
        (destruct (truthy lang); [done|]); by destruct (truthy datatype). }
  split.
  { intros p. unfold asRdfjsPredicate.
    destruct (isAbsoluteIri (normalizeIriString v)) eqn:E; split; try done.
    - by intros [= <-].
    - by intros [-> _].
    - intros [-> ?]. congruence. }
  split; [rewrite asSubjectTerm_spec; by destruct (isAbsoluteIri v)|].
  split; [apply asRdfjsSubject_not_literal|].
  split.
  { intros i. rewrite asSubjectTerm_spec. destruct (isAbsoluteIri v); [done|].
    intros [= <-]. by apply bnodeId_nonempty. }
  split; [apply asObjectTerm_bnode|].
  split; [by rewrite !asSubjectTerm_spec|by rewrite !asPredicateTerm_spec].
Qed.

(** ** Angle brackets *)

Lemma ws_tail_ascii x y : ws_tail x y 62 = false.
Proof.
  do 240 (destruct x as [|x]; [try done; cbn; rewrite ?andb_false_r; done|]).
  done.
Qed.

Lemma ws_strip_snoc s :
  s <> "" -> ws_strip s = None -> ws_strip (s +:+ ">") = None.
Proof.
  destruct s as [|a [|b [|c r]]]; [done|..]; intros _.
  - change (String a "" +:+ ">") with (String a ">"). unfold ws_strip.
    destruct (ws1 a); [done|]. intros _.
    by destruct (Nat.eqb (nat_of_ascii a) 194).
  - change (String a (String b "") +:+ ">") with (String a (String b ">")).
    unfold ws_strip. destruct (ws1 a); [done|].
    destruct (Nat.eqb (nat_of_ascii a) 194 && Nat.eqb (nat_of_ascii b) 160); [done|].
    intros _. change (nat_of_ascii ">") with 62. by rewrite ws_tail_ascii.
  - change (String a (String b (String c r)) +:+ ">")
      with (String a (String b (String c (r +:+ ">")))).
    unfold ws_strip. destruct (ws1 a); [done|].
    destruct (Nat.eqb (nat_of_ascii a) 194 && Nat.eqb (nat_of_ascii b) 160); [done|].
    by destruct (ws_tail _ _ _).
Qed.

Lemma has_ws_snoc s : has_ws s = false -> has_ws (s +:+ ">") = false.
Proof.
  induction s as [|a r IH]; [done|]. intros H.
  pose proof (has_ws_tail _ _ H) as Hr. cbn [has_ws] in H.
  destruct (ws_strip (String a r)) eqn:E; [done|].
  change (String a r +:+ ">") with (String a (r +:+ ">")).
  cbn [has_ws]. change (String a (r +:+ ">")) with (String a r +:+ ">").
  rewrite (ws_strip_snoc (String a r)) by done. by apply IH.
Qed.

Lemma last_char_snoc s c : last_char (s +:+ String c "") = Some c.
Proof.
  induction s as [|a r IH]; [done|].
  change (String a r +:+ String c "") with (String a (r +:+ String c "")).
  cbn [last_char]. rewrite IH. by destruct r.
Qed.

Lemma drop_last_snoc s c : drop_last (s +:+ String c "") = s.
Proof.
  induction s as [|a r IH]; [done|].
  change (String a r +:+ String c "") with (String a (r +:+ String c "")).
  cbn [drop_last]. rewrite IH. by destruct r.
Qed.

Lemma normalizeIriString_bracketed v :
  isAbsoluteIri v = true -> normalizeIriString ("<" +:+ v +:+ ">") = v.
Proof.
  intros H. pose proof (isAbsoluteIri_no_ws v H) as Hw.
  unfold normalizeIriString.
  change ("<" +:+ v +:+ ">") with (String "<" (v +:+ ">")).
  pose proof (last_char_snoc v ">") as Hl. pose proof (drop_last_snoc v ">") as Hd.
  pose proof (has_ws_snoc v Hw) as Hs.
  assert (Hne : v +:+ ">" <> "") by (by destruct v).
  destruct (v +:+ ">") as [|b w]; [done|].
  rewrite (trim_no_ws (String "<" (String b w))).
  2:{ cbn [has_ws]. replace (ws_strip (String "<" (String b w))) with (@None string);
        [done|].
      unfold ws_strip. change (ws1 "<") with false. cbv iota.
      by destruct w. }
  rewrite Hl, Hd. change (Ascii.eqb "<" "<") with true.
  change (Ascii.eqb ">" ">") with true. cbn [andb]. by apply trim_no_ws.
Qed.

(** X12. An absolute IRI written between angle brackets is unwrapped by
    [normalizeIriString], so the RDF/JS helpers read it as that IRI. The
    rdflib helpers, which the loader of the inference run uses, do not
    normalise: they refuse it as a predicate and make a blank node of it as a
    subject. *)
Theorem bracketed_iri_is_unwrapped
    (v : string) (ty : TermType) (type : option string) :
  isAbsoluteIri v = true ->
  normalizeIriString ("<" +:+ v +:+ ">") = v
  /\ normalizeIriString v = v
  /\ asRdfjsSubject ("<" +:+ v +:+ ">") ty = NamedNode v
  /\ asRdfjsPredicate ("<" +:+ v +:+ ">") ty = Some v
  /\ asRdfjsObject ("<" +:+ v +:+ ">") T_NamedNode None None = NamedNode v
  /\ asPredicateTerm ("<" +:+ v +:+ ">") type = None
  /\ asSubjectTerm ("<" +:+ v +:+ ">") type = BlankNode ("<" +:+ v +:+ ">").
Proof.
  intros H. pose proof (normalizeIriString_bracketed v H) as N.
  assert (B : isAbsoluteIri ("<" +:+ v +:+ ">") = false).
  { destruct (isAbsoluteIri ("<" +:+ v +:+ ">")) eqn:E; [|done].
    change ("<" +:+ v +:+ ">") with (String "<" (v +:+ ">")) in E.
    by apply isAbsoluteIri_head in E. }
  split; [done|]. split; [by apply normalizeIriString_absolute|].
  split; [unfold asRdfjsSubject; by rewrite N, H|].
  split; [unfold asRdfjsPredicate; by rewrite N, H|].
  split; [unfold asRdfjsObject; rewrite N, H; by destruct (decide _)|].
  split; [by rewrite asPredicateTerm_spec, B|].
  rewrite asSubjectTerm_spec, B. f_equal.
Qed.

Lemma bracketed_iri_is_unwrapped_witness :
  normalizeIriString ("<" +:+ "urn:x" +:+ ">") = "urn:x"
  /\ normalizeIriString "urn:x" = "urn:x"
  /\ asRdfjsSubject ("<" +:+ "urn:x" +:+ ">") T_NamedNode = NamedNode "urn:x"
  /\ asRdfjsPredicate ("<" +:+ "urn:x" +:+ ">") T_NamedNode = Some "urn:x"
  /\ asRdfjsObject ("<" +:+ "urn:x" +:+ ">") T_NamedNode None None = NamedNode "urn:x"
  /\ asPredicateTerm ("<" +:+ "urn:x" +:+ ">") (Some "NamedNode") = None
  /\ asSubjectTerm ("<" +:+ "urn:x" +:+ ">") (Some "NamedNode")
     = BlankNode ("<" +:+ "urn:x" +:+ ">").
Proof.
  apply (bracketed_iri_is_unwrapped "urn:x" T_NamedNode (Some "NamedNode")).
  reflexivity.
Defined.

(** ** The two conversions of the inference run *)

Lemma strip_prefix_none pat s : String.prefix pat s = false -> strip_prefix pat s = s.
Proof. unfold strip_prefix. by intros ->. Qed.

Lemma strip_bnode_prefix_plain i :
  startsWith "_:" i = false -> startsWith "_g_" i = false -> strip_bnode_prefix i = i.
Proof.
  unfold startsWith, strip_bnode_prefix. intros H1 H2.
  by rewrite (strip_prefix_none "_:" i H1), (strip_prefix_none "_g_" i H2).
Qed.

Lemma asRdfjsSubject_plain t :
  plainTerm t = true -> termType t <> T_Literal ->
  asRdfjsSubject (value t) (termType t) = toSubject t.
Proof.
  destruct t as [v|i|v lang dt]; simpl; intros H Hl; [| |done].
  - unfold asRdfjsSubject. by rewrite (normalizeIriString_absolute v H), H.
  - apply andb_true_iff in H as [H H3]. apply andb_true_iff in H as [H1 H2].
    apply negb_true_iff in H1, H2, H3.
    unfold asRdfjsSubject. rewrite H1. by rewrite strip_bnode_prefix_plain.
Qed.

Lemma asRdfjsObject_plain t :
  plainTerm t = true ->
  asRdfjsObject (value t) (termType t) (lang_of t) (datatype_of t) = toObject t.
Proof.
  destruct t as [v|i|v lang dt]; simpl; intros H.
  - unfold asRdfjsObject. rewrite (normalizeIriString_absolute v H), H.
    by destruct (decide _).
  - apply andb_true_iff in H as [H H3]. apply andb_true_iff in H as [H1 H2].
    apply negb_true_iff in H1, H2, H3.
    unfold asRdfjsObject.
    destruct (decide (T_BlankNode = T_NamedNode)); [done|].
    destruct (decide (T_BlankNode = T_BlankNode)); [|done].
    by rewrite strip_bnode_prefix_plain.
  - apply andb_true_iff in H as [H1 H2]. apply negb_true_iff in H1.
    unfold asRdfjsObject.
    destruct (decide (T_Literal = T_NamedNode)); [done|].
    destruct (decide (T_Literal = T_BlankNode)); [done|]. rewrite H1. simpl.
    destruct (String.eqb lang "") eqn:E; simpl; [|by rewrite E]. simpl in H2.
    destruct dt as [d|]; [|done]. simpl.
    assert (Hd : negb (String.eqb d "") = true).
    { destruct (String.eqb_spec d ""); [by subst d|done]. }
    rewrite Hd. by rewrite (normalizeIriString_absolute d H2).
Qed.

(** X13. The seed writes its lifts with the bridge's converters and
    [enqueue] writes with its own. For a statement with an absolute predicate
    whose subject and object are plain terms, the subject not a literal,
    both write the same quad. *)
Theorem seed_and_enqueue_write_alike (s : Statement) :
  isAbsoluteIri (predicate s) = true ->
  plainTerm (subject s) = true -> termType (subject s) <> T_Literal ->
  plainTerm (object s) = true ->
  seedQuad s
  = Some (quad (toSubject (subject s)) (predicate s) (toObject (object s))).
Proof.
  intros Hp Hs Hl Ho. rewrite (seedQuad_absolute s Hp). unfold liftQuad.
  by rewrite (asRdfjsSubject_plain _ Hs Hl), (asRdfjsObject_plain _ Ho).
Qed.

Lemma seed_and_enqueue_write_alike_witness :
  seedQuad (st (BlankNode "b0") "urn:p" (Literal "v" "en" None))
  = Some (quad (toSubject (BlankNode "b0")) "urn:p"
               (toObject (Literal "v" "en" None))).
Proof.
  apply (seed_and_enqueue_write_alike (st (BlankNode "b0") "urn:p" (Literal "v" "en" None)));
    [reflexivity|reflexivity|by_evaluation|reflexivity].
Defined.

(** Outside the plain terms the two differ: a named node of a scheme the
    bridge does not list is written as a literal by the seed, a blank node
    labelled by the parser of rdflib ([_g_...]) loses its prefix, and a
    literal whose text looks like a blank-node label becomes a blank node. *)
Example seed_and_enqueue_differ :
  seedQuad (st (NamedNode "urn:x") "urn:p" (NamedNode "foo:bar"))
  = Some (quad (NamedNode "urn:x") "urn:p" (literal_plain "foo:bar"))
  /\ seedQuad (st (BlankNode "_g_L1C1") "urn:p" (NamedNode "urn:y"))
     = Some (quad (BlankNode "L1C1") "urn:p" (NamedNode "urn:y"))
  /\ seedQuad (st (NamedNode "urn:x") "urn:p" (literal_plain "b1"))
     = Some (quad (NamedNode "urn:x") "urn:p" (BlankNode "b1"))
  /\ toObject (NamedNode "foo:bar") = NamedNode "foo:bar"
  /\ toSubject (BlankNode "_g_L1C1") = BlankNode "_g_L1C1"
  /\ toObject (literal_plain "b1") = literal_plain "b1".
Proof. repeat split; by_evaluation. Qed.


(** * The object store and the loader *)

(** ** The order of the keys *)

Lemma compare_Eq (a b : string) : String.compare a b = Eq <-> a = b.
Proof. apply OrderedTypeEx.String_as_OT.cmp_eq. Qed.

Lemma compare_Lt_trans (a b c : string) :
  String.compare a b = Lt -> String.compare b c = Lt -> String.compare a c = Lt.
Proof.
  intros H1 H2. apply OrderedTypeEx.String_as_OT.cmp_lt.
  apply OrderedTypeEx.String_as_OT.cmp_lt in H1, H2.
  by eapply OrderedTypeEx.String_as_OT.lt_trans.
Qed.

Lemma compare_refl (a : string) : String.compare a a = Eq.
Proof. by apply compare_Eq. Qed.

Lemma compare_Gt (a b : string) : String.compare a b = Gt <-> String.compare b a = Lt.
Proof.
  rewrite (String.compare_antisym a b). by destruct (String.compare b a).
Qed.

Ltac cmp_solve :=
  split; intros;
  repeat match goal with
         | H : _ \/ _ |- _ => destruct H
         | H : _ /\ _ |- _ => destruct H
         end;
  subst; rewrite ?compare_refl in *; try discriminate; try congruence; eauto 10.

Lemma key_lt_spec (a1 a2 a3 a4 b1 b2 b3 b4 : string) :
  key_lt (a1, a2, a3, a4) (b1, b2, b3, b4)
  <-> String.compare a1 b1 = Lt
      \/ (a1 = b1 /\ String.compare a2 b2 = Lt)
      \/ (a1 = b1 /\ a2 = b2 /\ String.compare a3 b3 = Lt)
      \/ (a1 = b1 /\ a2 = b2 /\ a3 = b3 /\ String.compare a4 b4 = Lt).
Proof.
  unfold key_lt, key_compare.
  destruct (String.compare a1 b1) eqn:E1; [apply compare_Eq in E1| |];
    [|cmp_solve..].
  destruct (String.compare a2 b2) eqn:E2; [apply compare_Eq in E2| |];
    [|cmp_solve..].
  destruct (String.compare a3 b3) eqn:E3; [apply compare_Eq in E3| |];
    cmp_solve.
Qed.

Lemma key_compare_Eq (a b : Key) : key_compare a b = Eq <-> a = b.
Proof.
  destruct a as [[[a1 a2] a3] a4], b as [[[b1 b2] b3] b4]. unfold key_compare.
  split.
  - destruct (String.compare a1 b1) eqn:E1; try done.
    destruct (String.compare a2 b2) eqn:E2; try done.
    destruct (String.compare a3 b3) eqn:E3; try done.
    intros E4. apply compare_Eq in E1, E2, E3, E4. by subst.
  - intros [= -> -> -> ->]. by rewrite !compare_refl.
Qed.

Lemma key_lt_irrefl (a : Key) : ~ key_lt a a.
Proof. unfold key_lt. by rewrite (proj2 (key_compare_Eq a a) eq_refl). Qed.

Lemma key_lt_trans (a b c : Key) : key_lt a b -> key_lt b c -> key_lt a c.
Proof.
  destruct a as [[[a1 a2] a3] a4], b as [[[b1 b2] b3] b4], c as [[[c1 c2] c3] c4].
  rewrite !key_lt_spec.
  intros [H1|[[-> H1]|[(-> & -> & H1)|(-> & -> & -> & H1)]]]
         [H2|[[-> H2]|[(-> & -> & H2)|(-> & -> & -> & H2)]]];
    eauto 10 using compare_Lt_trans.
Qed.

Lemma key_compare_antisym (a b : Key) :
  key_compare a b = CompOpp (key_compare b a).
Proof.
  destruct a as [[[a1 a2] a3] a4], b as [[[b1 b2] b3] b4]. unfold key_compare.
  rewrite (String.compare_antisym a1 b1), (String.compare_antisym a2 b2),
    (String.compare_antisym a3 b3), (String.compare_antisym a4 b4).
  destruct (String.compare b1 a1), (String.compare b2 a2), (String.compare b3 a3);
    done.
Qed.

Lemma key_compare_Gt (a b : Key) : key_compare a b = Gt <-> key_lt b a.
Proof.
  unfold key_lt. rewrite (key_compare_antisym a b).
  by destruct (key_compare b a).
Qed.

Lemma key_lt_neq (a b : Key) : key_lt a b -> a <> b.
Proof. intros H ->. by apply key_lt_irrefl in H. Qed.

(** ** [put] and [storeTriplesInNamedGraph] *)

Lemma put_spec t db :
  sortedDB db ->
  sortedDB (put t db)
  /\ forall r, r ∈ put t db <-> r = t \/ (r ∈ db /\ keyOf r <> keyOf t).
Proof.
  induction db as [|r0 rest IH]; intros Hs.
  - simpl. split; [split; [intros r' H; by apply elem_of_nil in H|done]|].
    intros r. rewrite list_elem_of_singleton. split; [auto|].
    intros [?|[H _]]; [done|by apply elem_of_nil in H].
  - destruct Hs as [Hlt Hs]. destruct (IH Hs) as [IHs IHm]. cbn [put].
    destruct (key_compare (keyOf t) (keyOf r0)) eqn:E.
    + apply key_compare_Eq in E. split.
      * split; [|done]. intros r' Hr'. rewrite E. by apply Hlt.
      * intros r. rewrite !elem_of_cons. split.
        -- intros [->|Hr]; [by left|]. right. split; [by right|].
           rewrite E. symmetry. apply key_lt_neq. by apply Hlt.
        -- intros [->|[[->|Hr] Hne]]; [by left|congruence|by right].
    + assert (Hall : forall r', r' ∈ r0 :: rest -> key_lt (keyOf t) (keyOf r')).
      { intros r' Hr'. apply elem_of_cons in Hr' as [->|Hr']; [done|].
        eapply key_lt_trans; [exact E|by apply Hlt]. }
      split; [split; [done|by split]|].
      intros r. rewrite elem_of_cons. split; [|tauto].
      intros [->|Hr]; [by left|]. right. split; [done|].
      symmetry. apply key_lt_neq. by apply Hall.
    + apply key_compare_Gt in E. split.
      * split; [|done]. intros r' Hr'. apply IHm in Hr' as [->|[Hr' _]]; [done|].
        by apply Hlt.
      * intros r. rewrite !elem_of_cons, IHm. split.
        -- intros [->|[->|[Hr Hne]]]; [|by left|tauto].
           right. split; [by left|]. by apply key_lt_neq.
        -- intros [->|[[->|Hr] Hne]]; tauto.
Qed.

Lemma storeTriples_sorted triples db :
  sortedDB db -> sortedDB (storeTriplesInNamedGraph triples db).
Proof.
  revert db. induction triples as [|s l IH]; intros db Hs; [done|].
  apply IH. by apply put_spec.
Qed.

Lemma storeTriples_elem triples db r :
  sortedDB db ->
  r ∈ storeTriplesInNamedGraph triples db
  <-> (exists l1 s l2, triples = l1 ++ s :: l2 /\ r = rowOf s
         /\ forall s', s' ∈ l2 -> keyOf (rowOf s') <> keyOf (rowOf s))
      \/ (r ∈ db /\ forall s, s ∈ triples -> keyOf (rowOf s) <> keyOf r).
Proof.
  revert db. induction triples as [|s l IH]; intros db Hs.
  - simpl. split.
    + intros H. right. split; [done|]. intros s Hs'. by apply elem_of_nil in Hs'.
    + intros [(l1 & s & l2 & E & _)|[? _]]; [by destruct l1|done].
  - change (storeTriplesInNamedGraph (s :: l) db)
      with (storeTriplesInNamedGraph l (put (rowOf s) db)).
    destruct (put_spec (rowOf s) db Hs) as [Hs' Hm]. rewrite (IH _ Hs'). split.
    + intros [(l1 & s0 & l2 & -> & -> & Hl)|[Hr Hn]].
      * left. by exists (s :: l1), s0, l2.
      * apply Hm in Hr as [->|[Hr Hne]].
        -- left. exists [], s, l. split; [done|]. split; [done|].
           intros s' Hs''. by apply Hn.
        -- right. split; [done|]. intros s' Hs''.
           apply elem_of_cons in Hs'' as [->|?]; [congruence|by apply Hn].
    + intros [(l1 & s0 & l2 & E & -> & Hl)|[Hr Hn]].
      * destruct l1 as [|x l1]; simpl in E; injection E as -> ->.
        -- right. split; [apply Hm; by left|].
           intros s' Hs''. by apply Hl.
        -- left. by exists l1, s0, l2.
      * right. split.
        -- apply Hm. right. split; [done|]. symmetry. apply Hn. by left.
        -- intros s' Hs''. apply Hn. by right.
Qed.

Lemma keyOf_rowOf s : keyOf (rowOf s) = keyOfStatement s.
Proof. done. Qed.

Lemma last_with_key {A} `{EqDecision K} (f : A -> K) (l : list A) (k : K) :
  (exists y, y ∈ l /\ f y = k) ->
  exists l1 s0 l2, l = l1 ++ s0 :: l2 /\ f s0 = k
    /\ forall s', s' ∈ l2 -> f s' <> k.
Proof.
  induction l as [|x l IH]; intros (y & Hy & Ey); [by apply elem_of_nil in Hy|].
  destruct (decide (Exists (fun y => f y = k) l)) as [Hex|Hno].
  - apply Exists_exists in Hex. destruct (IH Hex) as (l1 & s0 & l2 & -> & E0 & Hl).
    by exists (x :: l1), s0, l2.
  - assert (Es : f x = k).
    { apply elem_of_cons in Hy as [->|Hy]; [done|]. exfalso. apply Hno.
      apply Exists_exists. by exists y. }
    exists [], x, l. split; [done|]. split; [done|].
    intros s' Hs' E. apply Hno. apply Exists_exists. by exists s'.
Qed.

(** X14. Writing to the object store. The store stays in strict key order,
    so no two rows share a key. After [storeTriplesInNamedGraph] every
    statement of the batch has a row under its key (the values of subject,
    predicate and object, and the graph name, empty for the default graph);
    the row under a key is that of the last statement of the batch with the
    key, whatever the kinds of its terms; rows whose key no statement of the
    batch has are kept, and nothing else is in the store. *)
Theorem storeTriplesInNamedGraph_spec (triples : list Statement) (db : list Row) :
  sortedDB db ->
  sortedDB (storeTriplesInNamedGraph triples db)
  /\ (forall s, s ∈ triples ->
        exists r, r ∈ storeTriplesInNamedGraph triples db
                  /\ keyOf r = keyOfStatement s)
  /\ (forall l1 s l2, triples = l1 ++ s :: l2 ->
        (forall s', s' ∈ l2 -> keyOfStatement s' <> keyOfStatement s) ->
        rowOf s ∈ storeTriplesInNamedGraph triples db)
  /\ (forall r, r ∈ db ->
        (forall s, s ∈ triples -> keyOfStatement s <> keyOf r) ->
        r ∈ storeTriplesInNamedGraph triples db)
  /\ (forall r, r ∈ storeTriplesInNamedGraph triples db ->
        r ∈ db \/ exists s, s ∈ triples /\ r = rowOf s)
  /\ (forall r r', r ∈ storeTriplesInNamedGraph triples db ->
        r' ∈ storeTriplesInNamedGraph triples db -> keyOf r = keyOf r' -> r = r').
Proof.
  intros Hs. pose proof (storeTriples_sorted triples db Hs) as Hs'.
  pose proof (fun r => storeTriples_elem triples db r Hs) as M.
  split; [done|]. split.
  { intros s Hin.
    destruct (last_with_key keyOfStatement triples (keyOfStatement s))
      as (l1 & s0 & l2 & E & E0 & Hl); [by exists s|].
    exists (rowOf s0). split; [|by rewrite keyOf_rowOf].
    apply M. left. exists l1, s0, l2. split; [done|]. split; [done|].
    intros s' Hs''. rewrite !keyOf_rowOf, E0. by apply Hl. }
  split.
  { intros l1 s l2 E Hl. apply M. left. by exists l1, s, l2. }
  split.
  { intros r Hr Hn. apply M. right. split; [done|]. intros s Hin.
    rewrite keyOf_rowOf. by apply Hn. }
  split.
  { intros r Hr. apply M in Hr as [(l1 & s & l2 & -> & -> & _)|[? _]]; [|by left].
    right. exists s. split; [|done]. apply elem_of_app. right. by left. }
  generalize (storeTriplesInNamedGraph triples db) Hs'. clear.
  intros l. induction l as [|x l IH]; intros Hs0 r r' Hr Hr' E;
    [by apply elem_of_nil in Hr|]. destruct Hs0 as [Hlt Hs].
  apply elem_of_cons in Hr as [->|Hr], Hr' as [->|Hr']; [done| | |by apply IH].
  - apply Hlt in Hr'. rewrite E in Hr'. by apply key_lt_irrefl in Hr'.
  - apply Hlt in Hr. rewrite E in Hr. by apply key_lt_irrefl in Hr.
Qed.

Lemma storeTriplesInNamedGraph_spec_witness :
  sortedDB (storeTriplesInNamedGraph labelled [])
  /\ (forall s, s ∈ labelled ->
        exists r, r ∈ storeTriplesInNamedGraph labelled []
                  /\ keyOf r = keyOfStatement s)
  /\ (forall l1 s l2, labelled = l1 ++ s :: l2 ->
        (forall s', s' ∈ l2 -> keyOfStatement s' <> keyOfStatement s) ->
        rowOf s ∈ storeTriplesInNamedGraph labelled [])
  /\ (forall r, r ∈ [] ->
        (forall s, s ∈ labelled -> keyOfStatement s <> keyOf r) ->
        r ∈ storeTriplesInNamedGraph labelled [])
  /\ (forall r, r ∈ storeTriplesInNamedGraph labelled [] ->
        r ∈ [] \/ exists s, s ∈ labelled /\ r = rowOf s)
  /\ (forall r r', r ∈ storeTriplesInNamedGraph labelled [] ->
        r' ∈ storeTriplesInNamedGraph labelled [] -> keyOf r = keyOf r' -> r = r').
Proof. apply (storeTriplesInNamedGraph_spec labelled []). exact I. Defined.

(** A later statement with the same values takes the row of an earlier one,
    even when its terms are of other kinds; rows come back in key order. *)
Example storeTriplesInNamedGraph_run :
  storeTriplesInNamedGraph
    [st (NamedNode "urn:x") "urn:p" (NamedNode "urn:y");
     st (NamedNode "urn:a") "urn:p" (NamedNode "urn:b");
     st (NamedNode "urn:x") "urn:p" (literal_plain "urn:y")] []
  = [rowOf (st (NamedNode "urn:a") "urn:p" (NamedNode "urn:b"));
     rowOf (st (NamedNode "urn:x") "urn:p" (literal_plain "urn:y"))].
Proof. by_evaluation. Qed.

(** ** [loadGraphFromIndexedDB] *)

Lemma load_fold (rows : list Row) (g : list Statement) :
  (NoDup g ->
   NoDup (fold_left (fun graph t => match loadTriple t with
                                    | Some s => formula_add graph s
                                    | None => graph
                                    end) rows g))
  /\ (forall s,
        s ∈ fold_left (fun graph t => match loadTriple t with
                                      | Some s => formula_add graph s
                                      | None => graph
                                      end) rows g
        <-> s ∈ g \/ exists t, t ∈ rows /\ loadTriple t = Some s)
  /\ length (fold_left (fun graph t => match loadTriple t with
                                       | Some s => formula_add graph s
                                       | None => graph
                                       end) rows g)
     <= length g + length rows.
Proof.
  revert g. induction rows as [|t rows IH]; intros g; simpl.
  - split; [done|]. split; [|lia]. intros s. split; [auto|].
    intros [?|(t & Ht & _)]; [done|by apply elem_of_nil in Ht].
  - destruct (loadTriple t) as [s0|] eqn:E.
    + destruct (IH (formula_add g s0)) as (IH1 & IH2 & IH3). split.
      { intros H. by apply IH1, NoDup_formula_add. }
      split.
      { intros s. rewrite IH2, elem_of_formula_add. split.
        - intros [[->|?]|(t' & ? & ?)]; [right; exists t|by left|right; exists t'];
            set_solver.
        - intros [?|(t' & Ht' & E')]; [auto|].
          apply elem_of_cons in Ht' as [->|?]; [left; left; congruence|].
          right. by exists t'. }
      assert (length (formula_add g s0) <= S (length g)); [|lia].
      unfold formula_add. case_bool_decide; [lia|]. rewrite length_app. simpl. lia.
    + destruct (IH g) as (IH1 & IH2 & IH3). split; [done|]. split; [|lia].
      intros s. rewrite IH2. split.
      * intros [?|(t' & ? & ?)]; [by left|right; exists t']; set_solver.
      * intros [?|(t' & Ht' & E')]; [auto|].
        apply elem_of_cons in Ht' as [->|?]; [congruence|]. right. by exists t'.
Qed.

Lemma elem_of_loadGraph db s :
  s ∈ loadGraphFromIndexedDB db <-> exists t, t ∈ db /\ loadTriple t = Some s.
Proof.
  unfold loadGraphFromIndexedDB, getAllTriples.
  rewrite (proj1 (proj2 (load_fold db []))). split; [|auto].
  intros [H|?]; [by apply elem_of_nil in H|done].
Qed.

Lemma asObjectTerm_None v type lang datatype :
  asObjectTerm v type lang datatype = None
  <-> (type_is type "NamedNode" && isAbsoluteIri v) = false
      /\ (type_is type "BlankNode" || looksLikeBnodeId v) = false
      /\ truthy lang = false /\ truthy datatype = true
      /\ sym_ok (default "" datatype) = false.
Proof.
  unfold asObjectTerm.
  destruct (type_is type "NamedNode" && isAbsoluteIri v); [naive_solver|].
  destruct (type_is type "BlankNode" || looksLikeBnodeId v); [naive_solver|].
  destruct (truthy lang); [naive_solver|].
  destruct (truthy datatype); [|destruct (isAbsoluteIri v); naive_solver].
  destruct (sym_ok (default "" datatype)); naive_solver.
Qed.

Lemma asObjectTerm_literal v type lang datatype w l dt :
  asObjectTerm v type lang datatype = Some (Literal w l dt) ->
  (l = "" /\ dt = Some XSD_STRING) \/ (l <> "" /\ dt = Some RDF_LANGSTRING).
Proof.
  unfold asObjectTerm.
  destruct (type_is type "NamedNode" && isAbsoluteIri v); [done|].
  destruct (type_is type "BlankNode" || looksLikeBnodeId v); [done|].
  destruct (truthy lang) eqn:El.
  { intros [= <- <- <-]. right. split; [|done].
    destruct lang as [x|]; [|done]. simpl in *.
    by destruct (String.eqb_spec x ""). }
  destruct (truthy datatype).
  { destruct (sym_ok _); [|done]. intros [= <- <- <-]. by left. }
  destruct (isAbsoluteIri v); [done|]. intros [= <- <- <-]. by left.
Qed.

Lemma trim_nonempty g : trim g <> "" -> g <> "".
Proof. by intros H ->. Qed.

(** The rows that [loadTriple] skips, and what it makes of the others. *)
Lemma loadTriple_None t :
  loadTriple t = None
  <-> isAbsoluteIri (row_predicate t) = false
      \/ asObjectTerm (row_object t)
           (nullish (row_objectType t) (row_oType t))
           (nullish (row_objectLang t) (row_lang t))
           (nullish (row_objectDatatype t) (row_datatype t)) = None
      \/ (trim (row_graph t) <> "" /\ sym_ok (row_graph t) = false).
Proof.
  unfold loadTriple. rewrite asPredicateTerm_spec.
  destruct (isAbsoluteIri (row_predicate t)); [|naive_solver].
  destruct (asObjectTerm _ _ _ _); [|naive_solver].
  destruct (String.eqb_spec (trim (row_graph t)) "") as [E|E].
  - rewrite andb_false_r. naive_solver.
  - pose proof (trim_nonempty _ E).
    destruct (String.eqb_spec (row_graph t) ""); [done|]. simpl.
    destruct (sym_ok (row_graph t)); naive_solver.
Qed.

Lemma loadTriple_Some t s :
  loadTriple t = Some s ->
  subject s = asSubjectTerm (row_subject t) (nullish (row_subjectType t) (row_sType t))
  /\ predicate s = row_predicate t
  /\ isAbsoluteIri (row_predicate t) = true
  /\ asObjectTerm (row_object t)
       (nullish (row_objectType t) (row_oType t))
       (nullish (row_objectLang t) (row_lang t))
       (nullish (row_objectDatatype t) (row_datatype t)) = Some (object s)
  /\ graph s = (if String.eqb (trim (row_graph t)) "" then None
                else Some (row_graph t)).
Proof.
  unfold loadTriple. rewrite asPredicateTerm_spec.
  destruct (isAbsoluteIri (row_predicate t)); [|done].
  destruct (asObjectTerm _ _ _ _); [|done].
  destruct (String.eqb_spec (trim (row_graph t)) "") as [E|E].
  - rewrite andb_false_r. by intros [= <-].
  - pose proof (trim_nonempty _ E).
    destruct (String.eqb_spec (row_graph t) ""); [done|]. simpl.
    destruct (sym_ok (row_graph t)); [|done]. by intros [= <-].
Qed.

(** X15. What [loadGraphFromIndexedDB] hands to the inference run. A row is
    skipped, and the load goes on, exactly when its predicate is not an
    absolute IRI, or its object is read as a typed literal whose datatype is
    a name rdflib refuses, or its graph name is not blank and is such a name.
    Every other row gives the statement made of its terms, in the graph it
    names if any; the datatype of a typed literal is not kept, so that every
    literal loaded is a plain string or carries a language tag. Rows that
    give the same statement give it once. Hence every statement loaded has an
    absolute predicate, a subject that is no literal, absolute IRIs in all
    its named nodes, no empty blank-node label as subject, and a graph name
    that is not blank; and there are at most as many statements as rows. *)
Theorem loadGraphFromIndexedDB_spec (db : list Row) :
  NoDup (loadGraphFromIndexedDB db)
  /\ (forall s, s ∈ loadGraphFromIndexedDB db
        <-> exists t, t ∈ db /\ loadTriple t = Some s)
  /\ (forall t,
        loadTriple t = None
        <-> isAbsoluteIri (row_predicate t) = false
            \/ asObjectTerm (row_object t)
                 (nullish (row_objectType t) (row_oType t))
                 (nullish (row_objectLang t) (row_lang t))
                 (nullish (row_objectDatatype t) (row_datatype t)) = None
            \/ (trim (row_graph t) <> "" /\ sym_ok (row_graph t) = false))
  /\ (forall v type lang datatype,
        asObjectTerm v type lang datatype = None
        <-> (type_is type "NamedNode" && isAbsoluteIri v) = false
            /\ (type_is type "BlankNode" || looksLikeBnodeId v) = false
            /\ truthy lang = false /\ truthy datatype = true
            /\ sym_ok (default "" datatype) = false)
  /\ (forall t s, loadTriple t = Some s ->
        subject s
        = asSubjectTerm (row_subject t) (nullish (row_subjectType t) (row_sType t))
        /\ predicate s = row_predicate t
        /\ asObjectTerm (row_object t)
             (nullish (row_objectType t) (row_oType t))
             (nullish (row_objectLang t) (row_lang t))
             (nullish (row_objectDatatype t) (row_datatype t)) = Some (object s)
        /\ graph s = (if String.eqb (trim (row_graph t)) "" then None
                      else Some (row_graph t)))
  /\ length (loadGraphFromIndexedDB db) <= length db
  /\ (forall s, s ∈ loadGraphFromIndexedDB db ->
        isAbsoluteIri (predicate s) = true
        /\ termType (subject s) <> T_Literal
        /\ (forall x, subject s = NamedNode x -> isAbsoluteIri x = true)
        /\ (forall x, object s = NamedNode x -> isAbsoluteIri x = true)
        /\ (forall i, subject s = BlankNode i -> i <> "")
        /\ (forall v lang dt, object s = Literal v lang dt ->
              (lang = "" /\ dt = Some XSD_STRING)
              \/ (lang <> "" /\ dt = Some RDF_LANGSTRING))
        /\ (forall g, graph s = Some g -> trim g <> "" /\ sym_ok g = true)).
Proof.
  split.
  { unfold loadGraphFromIndexedDB. apply load_fold. constructor. }
  split; [apply elem_of_loadGraph|].
  split; [apply loadTriple_None|].
  split; [apply asObjectTerm_None|].
  split.
  { intros t s H. apply loadTriple_Some in H as (? & ? & _ & ? & ?). done. }
  split.
  { unfold loadGraphFromIndexedDB, getAllTriples.
    pose proof (proj2 (proj2 (load_fold db []))) as H. simpl in H. exact H. }
  intros s Hs. apply elem_of_loadGraph in Hs as (t & _ & E).
  pose proof (loadTriple_Some t s E) as (Es & Ep & Ha & Eo & Eg).
  assert (Hg : forall g, graph s = Some g -> trim g <> "" /\ sym_ok g = true).
  { intros g. rewrite Eg.
    destruct (String.eqb_spec (trim (row_graph t)) "") as [|Hne]; [done|].
    intros [= <-]. split; [done|].
    destruct (sym_ok (row_graph t)) eqn:Ok; [done|].
    assert (loadTriple t = None) by (apply loadTriple_None; auto). congruence. }
  rewrite Es, Ep, asSubjectTerm_spec.
  split; [done|].
  split; [by destruct (isAbsoluteIri (row_subject t))|].
  split.
  { destruct (isAbsoluteIri (row_subject t)) eqn:Hx; [|done]. by intros x [= <-]. }
  split.
  { intros x Hx. rewrite Hx in Eo. by apply asObjectTerm_named in Eo as [_ ?]. }
  split.
  { destruct (isAbsoluteIri (row_subject t)); [done|].
    intros i [= <-]. by apply bnodeId_nonempty. }
  split; [|done].
  intros v lang dt Hx. rewrite Hx in Eo. by apply asObjectTerm_literal in Eo.
Qed.

(** A row with a relative predicate is left out, the rows around it are
    loaded; a typed literal loads as a plain string; a row whose datatype or
    graph name has no colon is left out. *)
Example loadGraphFromIndexedDB_run :
  loadGraphFromIndexedDB
    (storeTriplesInNamedGraph
       [st (NamedNode "urn:x") "urn:p" (NamedNode "urn:y");
        st (NamedNode "urn:x") "p" (NamedNode "urn:y");
        st (NamedNode "urn:x") "urn:q"
           (literal_dt "1" "http://www.w3.org/2001/XMLSchema#integer");
        st (NamedNode "urn:x") "urn:r" (literal_dt "2" "integer");
        st4 (NamedNode "urn:x") "urn:s" (NamedNode "urn:y") (Some "g")] [])
  = [st (NamedNode "urn:x") "urn:p" (NamedNode "urn:y");
     st (NamedNode "urn:x") "urn:q" (literal_plain "1")].
Proof. vm_compute. reflexivity. Qed.

(** ** From the store and back *)

Lemma isAbsoluteIri_nonempty v : isAbsoluteIri v = true -> v <> "".
Proof. by intros H ->. Qed.

Lemma bnodeId_plain i fallback :
  startsWith "_:" i = false -> startsWith "_g_" i = false -> i <> "" ->
  bnodeId i fallback = i.
Proof.
  intros H1 H2 H3. unfold bnodeId. rewrite strip_bnode_prefix_plain by done.
  by destruct (String.eqb_spec i "").
Qed.

Lemma nullish_None_r {A} (a : option A) : nullish a None = a.
Proof. by destruct a. Qed.

Lemma loadTriple_rowOf s : storable s = true -> loadTriple (rowOf s) = Some s.
Proof.
  destruct s as [sub p obj g]. unfold storable. cbn [subject predicate object graph].
  intros H. apply andb_true_iff in H as [H Hg]. apply andb_true_iff in H as [H Ho].
  apply andb_true_iff in H as [Hs Hp].
  unfold loadTriple, rowOf.
  cbn [row_subject row_predicate row_object row_graph row_subjectType
       row_predicateType row_objectType row_objectLang row_objectDatatype
       row_sType row_pType row_oType row_lang row_datatype nullish
       subject predicate object graph].
  rewrite !nullish_None_r, asPredicateTerm_spec, Hp.
  assert (Es : asSubjectTerm (value sub) (Some (termTypeName (termType sub))) = sub).
  { rewrite asSubjectTerm_spec. destruct sub as [v|i|]; simpl in *; [by rewrite Hs| |done].
    apply andb_true_iff in Hs as [Hs H4]. apply andb_true_iff in Hs as [Hs H3].
    apply andb_true_iff in Hs as [H1 H2]. apply negb_true_iff in H1, H2, H3, H4.
    rewrite H1. f_equal. apply bnodeId_plain; try done.
    by destruct (String.eqb_spec i ""). }
  assert (Eo : asObjectTerm (value obj) (Some (termTypeName (termType obj)))
                 (orNull (lang_of obj)) (orNull (datatype_of obj)) = Some obj).
  { unfold asObjectTerm. destruct obj as [v|i|v lang dt]; simpl in *.
    - by rewrite Ho.
    - apply andb_true_iff in Ho as [Ho H3]. apply andb_true_iff in Ho as [H1 H2].
      apply negb_true_iff in H1, H2, H3. simpl. do 2 f_equal.
      apply bnodeId_plain; try done. by destruct (String.eqb_spec i "").
    - apply andb_true_iff in Ho as [H1 H2]. apply negb_true_iff in H1. rewrite H1.
      simpl. destruct (String.eqb_spec lang "") as [->|Hl].
      + apply bool_decide_eq_true in H2 as ->. done.
      + apply bool_decide_eq_true in H2 as ->. unfold orNull. simpl.
        destruct (String.eqb_spec lang ""); [done|]. simpl.
        destruct (String.eqb_spec lang ""); [done|]. done. }
  rewrite Es, Eo.
  destruct g as [g|]; [|done]. simpl.
  pose proof (isAbsoluteIri_nonempty g Hg).
  rewrite (trim_no_ws g) by (by apply isAbsoluteIri_no_ws).
  destruct (String.eqb_spec g ""); [done|]. simpl.
  by rewrite (isAbsoluteIri_sym_ok g Hg).
Qed.

(** X16. From the store and back. The row written for a storable statement
    (absolute IRIs in its named nodes, predicate and graph name, blank-node
    labels that are not empty and have no prefix, literals that are plain
    strings or carry a language tag and do not look like blank-node labels)
    loads as that statement. Hence, when a batch has been written to a store
    in key order, every storable statement of the batch that no later
    statement of the batch shares its key with is in the graph loaded next. *)
Theorem stored_statements_load_back
    (triples : list Statement) (db : list Row) (l1 l2 : list Statement)
    (s : Statement) :
  sortedDB db -> triples = l1 ++ s :: l2 -> storable s = true ->
  (forall s', s' ∈ l2 -> keyOfStatement s' <> keyOfStatement s) ->
  loadTriple (rowOf s) = Some s
  /\ s ∈ loadGraphFromIndexedDB (storeTriplesInNamedGraph triples db).
Proof.
  intros Hs E Hst Hl. pose proof (loadTriple_rowOf s Hst) as El.
  split; [done|]. apply elem_of_loadGraph. exists (rowOf s). split; [|done].
  apply storeTriples_elem; [done|]. left. by exists l1, s, l2.
Qed.

Lemma stored_statements_load_back_witness :
  loadTriple (rowOf (st (NamedNode "urn:x") "urn:p" (literal_lang "chat" "fr")))
  = Some (st (NamedNode "urn:x") "urn:p" (literal_lang "chat" "fr"))
  /\ st (NamedNode "urn:x") "urn:p" (literal_lang "chat" "fr")
     ∈ loadGraphFromIndexedDB (storeTriplesInNamedGraph labelled []).
Proof.
  apply (stored_statements_load_back labelled [] []
           [st (BlankNode "n0") "urn:p"
               (literal_dt "1" "http://www.w3.org/2001/XMLSchema#integer")]);
    [exact I|reflexivity|reflexivity|].
  intros s' Hs'. apply list_elem_of_singleton in Hs' as ->. by_evaluation.
Defined.

(** What does not come back as it went in: a typed literal loads as a plain
    string, a literal whose text looks like a blank-node label loads as a
    blank node, a blank node labelled by the parser of rdflib loses its
    prefix, a named node of a scheme the bridge does not list loads as a
    blank node when it is a subject and is skipped when it is a predicate. *)
Example stored_statements_altered :
  loadTriple (rowOf (st (NamedNode "urn:x") "urn:p"
                        (literal_dt "1" "http://www.w3.org/2001/XMLSchema#integer")))
  = Some (st (NamedNode "urn:x") "urn:p" (literal_plain "1"))
  /\ loadTriple (rowOf (st (NamedNode "urn:x") "urn:p" (literal_plain "b1")))
     = Some (st (NamedNode "urn:x") "urn:p" (BlankNode "b1"))
  /\ loadTriple (rowOf (st (BlankNode "_g_L1C1") "urn:p" (NamedNode "urn:y")))
     = Some (st (BlankNode "L1C1") "urn:p" (NamedNode "urn:y"))
  /\ loadTriple (rowOf (st (NamedNode "foo:bar") "urn:p" (NamedNode "urn:y")))
     = Some (st (BlankNode "foo:bar") "urn:p" (NamedNode "urn:y"))
  /\ loadTriple (rowOf (st (NamedNode "urn:x") "foo:p" (NamedNode "urn:y"))) = None.
Proof. repeat split; by_evaluation. Qed.


(** * Stashing an overlay *)

Lemma append_nonempty_r (a b : string) : b <> "" -> a +:+ b <> "".
Proof. intros H. destruct a; [done|]. simpl. discriminate. Qed.

Lemma makeNamedGraphIRI_nonempty h base : makeNamedGraphIRI h base <> "".
Proof. unfold makeNamedGraphIRI. by apply append_nonempty_r. Qed.

Lemma stashTarget_truthy h mode graphIRI autoBase :
  (if truthy (stashTarget h mode graphIRI autoBase)
   then stashTarget h mode graphIRI autoBase else None)
  = stashTarget h mode graphIRI autoBase
  /\ (if truthy (stashTarget h mode graphIRI autoBase)
      then default "" (stashTarget h mode graphIRI autoBase)
      else "(default graph)")
     = default "(default graph)" (stashTarget h mode graphIRI autoBase).
Proof.
  unfold stashTarget. destruct (String.eqb mode "named"); [|done].
  destruct (truthy graphIRI) eqn:E.
  - destruct graphIRI as [g|]; [|done]. simpl in *. by rewrite E.
  - simpl. pose proof (makeNamedGraphIRI_nonempty h autoBase) as H.
    destruct (String.eqb_spec (makeNamedGraphIRI h autoBase) ""); done.
Qed.

Lemma stash_unfold h statements mode graphIRI autoBase dedupe db :
  stashGraphToIndexedDB h (Some statements) mode graphIRI autoBase dedupe db
  = let prepared := map (retarget (stashTarget h mode graphIRI autoBase)) statements in
    let prepared := if dedupe then dedupeBatch prepared else prepared in
    Ok (storeTriplesInNamedGraph prepared db,
        {| count := length prepared;
           graphIRI := default "(default graph)"
                         (stashTarget h mode graphIRI autoBase) |}).
Proof.
  destruct (stashTarget_truthy h mode graphIRI autoBase) as [E1 E2].
  unfold stashGraphToIndexedDB. cbv zeta.
  change (if String.eqb mode "named"
          then Some (if truthy graphIRI then default "" graphIRI
                     else makeNamedGraphIRI h autoBase)
          else None) with (stashTarget h mode graphIRI autoBase).
  by rewrite E1, E2.
Qed.

Lemma toNT_retarget g s : toNT (retarget g s) = toNT s.
Proof. done. Qed.

Lemma keys_retarget g l : keys (map (retarget g) l) = keys l.
Proof.
  unfold keys. rewrite map_map. f_equal.
Qed.

Lemma prepared_spec (dedupe : bool) (l : list Statement) :
  let prepared := if dedupe then dedupeBatch l else l in
  length prepared <= length l
  /\ (dedupe = true -> length prepared = size (keys l))
  /\ (dedupe = false -> prepared = l)
  /\ (forall s, s ∈ prepared -> s ∈ l)
  /\ (forall s, s ∈ l -> exists s0, s0 ∈ prepared /\ toNT s0 = toNT s).
Proof.
  destruct dedupe; cbv zeta.
  - pose proof (selectUnseen_loop_sublist l ∅ ∅) as Hsub.
    pose proof (selectUnseen_loop_keys l ∅ ∅) as [Hn Hm].
    fold (dedupeBatch l) in Hsub, Hn, Hm.
    split; [by apply sublist_length|].
    split; [intros _; rewrite (length_NoDup_keys _ Hn); by rewrite keys_dedupeBatch|].
    split; [done|]. split; [intros s Hs; by apply Hm|].
    intros s Hs. apply elem_of_keys. rewrite keys_dedupeBatch.
    apply elem_of_keys. by exists s.
  - split; [done|]. split; [done|]. split; [done|]. split; [done|].
    intros s Hs. by exists s.
Qed.

(** X17. [stashGraphToIndexedDB], for a store in key order and a target
    that, given or made, is an absolute IRI. Its one failure is the missing
    graph. Otherwise it resolves: the name it reports is the IRI given or
    made in mode [named] and the default graph in any other mode, where an
    IRI given is ignored; the count it reports is the number of distinct
    keys among the statements when it de-duplicates, and their number when
    it does not; the store stays in key order, every row it holds afterwards
    was there before or is the row of one of the statements moved to the
    target graph, no key of the store is lost, and every statement has its
    key, or that of a statement printed alike, in the store. *)
Theorem stashGraphToIndexedDB_spec (h : Host) (graph : option (list Statement))
    (mode : string) (graphIRI : option string) (autoBase : string)
    (dedupe : bool) (db : list Row) :
  sortedDB db ->
  (forall g, stashTarget h mode graphIRI autoBase = Some g -> isAbsoluteIri g = true) ->
  match graph with
  | None =>
      stashGraphToIndexedDB h None mode graphIRI autoBase dedupe db
      = Err "No graph provided"
  | Some statements =>
      let target := stashTarget h mode graphIRI autoBase in
      exists db' n,
        stashGraphToIndexedDB h (Some statements) mode graphIRI autoBase dedupe db
        = Ok (db', {| count := n; graphIRI := default "(default graph)" target |})
        /\ (mode <> "named" -> target = None)
        /\ (mode = "named" -> forall g, graphIRI = Some g -> g <> "" -> target = Some g)
        /\ n <= length statements
        /\ (dedupe = true -> n = size (keys statements))
        /\ (dedupe = false -> n = length statements)
        /\ sortedDB db'
        /\ (forall r, r ∈ db' ->
              r ∈ db \/ exists s, s ∈ statements /\ r = rowOf (retarget target s))
        /\ (forall r, r ∈ db -> exists r', r' ∈ db' /\ keyOf r' = keyOf r)
        /\ (forall s, s ∈ statements ->
              exists s0 r', s0 ∈ statements /\ toNT s0 = toNT s /\ r' ∈ db'
                /\ keyOf r' = keyOfStatement (retarget target s0))
  end.
Proof.
  intros Hs _. destruct graph as [statements|]; [|done]. cbv zeta.
  rewrite stash_unfold. cbv zeta.
  set (target := stashTarget h mode graphIRI autoBase).
  pose proof (prepared_spec dedupe (map (retarget target) statements)) as P.
  cbv zeta in P. set (prepared := if dedupe then _ else _) in *.
  destruct P as (P1 & P2 & P3 & P4 & P5).
  rewrite length_map in P1. rewrite keys_retarget in P2.
  exists (storeTriplesInNamedGraph prepared db), (length prepared).
  split; [done|]. split.
  { intros Hm. unfold target, stashTarget.
    by destruct (String.eqb_spec mode "named"). }
  split.
  { intros -> g -> Hg. unfold target, stashTarget. simpl.
    by destruct (String.eqb_spec g ""). }
  split; [done|]. split; [done|]. split.
  { intros Hd. rewrite (P3 Hd). by rewrite length_map. }
  split; [by apply storeTriples_sorted|]. split.
  { intros r Hr. apply (storeTriples_elem prepared db r Hs) in Hr
      as [(l1 & s & l2 & E & -> & _)|[Hr _]]; [|by left].
    right. assert (Hin : s ∈ prepared).
    { rewrite E. apply elem_of_app. right. apply elem_of_cons. by left. }
    apply P4, list_elem_of_fmap in Hin as (s0 & -> & Hs0). by exists s0. }
  split.
  { intros r Hr.
    destruct (decide (Exists (fun s => keyOf (rowOf s) = keyOf r) prepared)) as [He|Hn].
    - apply Exists_exists in He as (s & Hin & Ek).
      destruct (last_with_key (fun s => keyOf (rowOf s)) prepared (keyOf r))
        as (l1 & s1 & l2 & E & Ek1 & Hl); [by exists s|].
      exists (rowOf s1). split; [|done].
      apply (storeTriples_elem prepared db _ Hs). left. exists l1, s1, l2.
      split; [done|]. split; [done|]. intros s' Hs'. rewrite Ek1. by apply Hl.
    - exists r. split; [|done]. apply (storeTriples_elem prepared db _ Hs). right.
      split; [done|]. intros s Hin Ek. apply Hn, Exists_exists. by exists s. }
  intros s Hin.
  destruct (P5 (retarget target s)) as (s0 & Hs0 & Et);
    [apply list_elem_of_fmap; by exists s|].
  pose proof (P4 _ Hs0) as Hs0'. apply list_elem_of_fmap in Hs0' as (s1 & -> & Hs1).
  destruct (last_with_key (fun s => keyOf (rowOf s)) prepared
              (keyOf (rowOf (retarget target s1))))
    as (l1 & s2 & l2 & E & Ek & Hl); [by exists (retarget target s1)|].
  exists s1, (rowOf s2). split; [done|]. split; [done|]. split.
  - apply (storeTriples_elem prepared db _ Hs). left. exists l1, s2, l2.
    split; [done|]. split; [done|]. intros s' Hs'. rewrite Ek. by apply Hl.
  - by rewrite Ek, keyOf_rowOf.
Qed.

Lemma stashGraphToIndexedDB_spec_witness :
  exists db' n,
    stashGraphToIndexedDB someHost (Some labelled) "named" None "urn:graph:inferred"
      true []
    = Ok (db', {| count := n;
                  graphIRI := default "(default graph)"
                    (stashTarget someHost "named" None "urn:graph:inferred") |})
    /\ n = size (keys labelled).
Proof.
  destruct (stashGraphToIndexedDB_spec someHost (Some labelled) "named" None
              "urn:graph:inferred" true [])
    as (db' & n & E & _ & _ & _ & Hn & _);
    [exact I|intros g [= <-]; by_evaluation|].
  exists db', n. split; [exact E|]. by apply Hn.
Defined.

(** The graph is named by the time and a UUID when no name is given; in the
    default mode a name given is not used; and two statements of one key
    count once. *)
Example stashGraphToIndexedDB_run :
  (exists db',
     stashGraphToIndexedDB someHost (Some labelled) "named" None "urn:graph:inferred"
       true []
     = Ok (db', {| count := 2;
                   graphIRI := "urn:graph:inferred/20261102T090500Z/"
                               +:+ "01234567-89ab-4cde-b012-3456789abcde" |}))
  /\ (exists db',
        stashGraphToIndexedDB someHost (Some (labelled ++ labelled)) "default"
          (Some "urn:g") "urn:graph:inferred" true []
        = Ok (db', {| count := 2; graphIRI := "(default graph)" |})
        /\ forall r, r ∈ db' -> row_graph r = "").
Proof.
  split.
  - eexists. vm_compute. reflexivity.
  - eexists. split; [vm_compute; reflexivity|].
    intros r Hr. repeat (apply elem_of_cons in Hr as [->|Hr]; [reflexivity|]).
    by apply elem_of_nil in Hr.
Qed.

(** * The inference run over the store *)

Lemma NoDup_split_last {A K} (f : A -> K) (l : list A) (s : A) :
  NoDup (map f l) -> s ∈ l ->
  exists l1 l2, l = l1 ++ s :: l2 /\ forall s', s' ∈ l2 -> f s' <> f s.
Proof.
  intros Hn Hs. apply list_elem_of_split in Hs as (l1 & l2 & ->).
  exists l1, l2. split; [done|]. intros s' Hs' E.
  rewrite map_app in Hn. apply NoDup_app in Hn as (_ & _ & Hn). simpl in Hn.
  apply NoDup_cons in Hn as [Hn _]. apply Hn. rewrite <- E.
  apply (list_elem_of_fmap_2 f). done.
Qed.

(** X18. A persisted overlay reaches the next run. Take a store in key
    order and a target graph that is the default graph or has an absolute
    IRI. When the run over the loaded store returns, [runInferenceOverlay]
    without [persist] resolves with the result and leaves the store as it
    was. With [persist] it resolves with the result, the number of distinct
    keys of the overlay and the name of the target graph; and when the
    overlay's statements, moved to the target graph, are storable and have
    different store keys, each of them, or one printed alike, is in the
    graph loaded afterwards, so that the seen index of the next run holds
    every key of the overlay. *)
Theorem persisted_overlay_is_seen_next (h : Host)
    (queryQuads : string -> list Quad -> option (list Quad)) (fuel : nat)
    (rules : list string) (targetMode : string) (graphIRI : option string)
    (db : list Row) (r : Result) :
  let target := stashTarget h targetMode graphIRI "urn:graph:inferred" in
  sortedDB db ->
  (forall g, target = Some g -> isAbsoluteIri g = true) ->
  inferUntilStable queryQuads fuel rules (loadGraphFromIndexedDB db) = Returned r ->
  (forall s, s ∈ overlayGraph r -> storable (retarget target s) = true) ->
  NoDup (map keyOfStatement (map (retarget target) (overlayGraph r))) ->
  runInferenceOverlay h queryQuads fuel rules targetMode graphIRI false db
  = Resolved db {| result := r; stashed := None |}
  /\ exists db',
       runInferenceOverlay h queryQuads fuel rules targetMode graphIRI true db
       = Resolved db'
           {| result := r;
              stashed := Some {| count := size (keys (overlayGraph r));
                                 graphIRI := default "(default graph)" target |} |}
       /\ sortedDB db'
       /\ (forall s, s ∈ overlayGraph r ->
             exists s0, s0 ∈ overlayGraph r /\ toNT s0 = toNT s
               /\ retarget target s0 ∈ loadGraphFromIndexedDB db')
       /\ keys (overlayGraph r) ⊆ seen (initState (loadGraphFromIndexedDB db')).
Proof.
  intros target Hs _ Hr Hst Hn. unfold runInferenceOverlay. rewrite Hr.
  split; [done|]. cbn [negb]. rewrite stash_unfold. cbv zeta. fold target.
  pose proof (prepared_spec true (map (retarget target) (overlayGraph r))) as P.
  cbv zeta in P. destruct P as (_ & P2 & _ & P4 & P5).
  rewrite keys_retarget in P2. rewrite (P2 eq_refl).
  set (prepared := dedupeBatch (map (retarget target) (overlayGraph r))) in *.
  exists (storeTriplesInNamedGraph prepared db).
  split; [done|]. split; [by apply storeTriples_sorted|].
  assert (Hn' : NoDup (map keyOfStatement prepared)).
  { eapply sublist_NoDup; [exact Hn|].
    apply (fmap_sublist keyOfStatement), selectUnseen_loop_sublist. }
  assert (Hl : forall s, s ∈ overlayGraph r ->
             exists s0, s0 ∈ overlayGraph r /\ toNT s0 = toNT s
               /\ retarget target s0
                  ∈ loadGraphFromIndexedDB (storeTriplesInNamedGraph prepared db)).
  { intros s Hin.
    destruct (P5 (retarget target s)) as (s0 & Hs0 & Et);
      [apply list_elem_of_fmap; by exists s|].
    pose proof (P4 _ Hs0) as Hs0'.
    apply list_elem_of_fmap in Hs0' as (s1 & -> & Hs1).
    exists s1. split; [done|]. split; [done|].
    destruct (NoDup_split_last keyOfStatement prepared _ Hn' Hs0)
      as (l1 & l2 & E & Hlast).
    apply elem_of_loadGraph. exists (rowOf (retarget target s1)).
    split; [|by apply loadTriple_rowOf, Hst].
    apply (storeTriples_elem prepared db _ Hs). left.
    exists l1, (retarget target s1), l2. split; [done|]. split; [done|].
    intros s' Hs'. rewrite !keyOf_rowOf. by apply Hlast. }
  split; [done|].
  intros k Hk. apply elem_of_keys in Hk as (s & Hin & <-).
  destruct (Hl s Hin) as (s0 & _ & <- & Hload).
  change (seen (initState ?g)) with (keys g).
  apply elem_of_keys. by exists (retarget target s0).
Qed.

Lemma persisted_overlay_is_seen_next_witness :
  runInferenceOverlay someHost symmetricEvaluator 3 ["symmetric"] "named"
    (Some "urn:graph:overlay") false sym_db
  = Resolved sym_db
      {| result := returned_of (inferUntilStable symmetricEvaluator 3 ["symmetric"]
                                  (loadGraphFromIndexedDB sym_db));
         stashed := None |}
  /\ exists db',
       runInferenceOverlay someHost symmetricEvaluator 3 ["symmetric"] "named"
         (Some "urn:graph:overlay") true sym_db
       = Resolved db'
           {| result := returned_of (inferUntilStable symmetricEvaluator 3
                                       ["symmetric"] (loadGraphFromIndexedDB sym_db));
              stashed :=
                Some {| count :=
                          size (keys (overlayGraph
                                  (returned_of
                                     (inferUntilStable symmetricEvaluator 3
                                        ["symmetric"]
                                        (loadGraphFromIndexedDB sym_db)))));
                        graphIRI := "urn:graph:overlay" |} |}
       /\ sortedDB db'
       /\ (forall s,
             s ∈ overlayGraph
                   (returned_of (inferUntilStable symmetricEvaluator 3 ["symmetric"]
                                   (loadGraphFromIndexedDB sym_db))) ->
             exists s0,
               s0 ∈ overlayGraph
                      (returned_of (inferUntilStable symmetricEvaluator 3
                                      ["symmetric"] (loadGraphFromIndexedDB sym_db)))
               /\ toNT s0 = toNT s
               /\ retarget (Some "urn:graph:overlay") s0 ∈ loadGraphFromIndexedDB db')
       /\ keys (overlayGraph
                  (returned_of (inferUntilStable symmetricEvaluator 3 ["symmetric"]
                                  (loadGraphFromIndexedDB sym_db))))
          ⊆ seen (initState (loadGraphFromIndexedDB db')).
Proof.
  apply (persisted_overlay_is_seen_next someHost symmetricEvaluator 3 ["symmetric"]
           "named" (Some "urn:graph:overlay") sym_db).
  - by apply storeTriples_sorted.
  - intros g [= <-]. by_evaluation.
  - by_evaluation.
  - apply Forall_forall. by_evaluation.
  - by_evaluation.
Defined.

(** The overlay of the symmetric graph, stored under a name, and the graph
    loaded afterwards. *)
Example persisted_overlay_run :
  exists db' o,
    runInferenceOverlay someHost symmetricEvaluator 3 ["symmetric"] "named"
      (Some "urn:graph:overlay") true sym_db = Resolved db' o
    /\ overlayGraph (result o)
       = [st (NamedNode "urn:x") "urn:q" (NamedNode "urn:y");
          st (NamedNode "urn:y") "urn:q" (NamedNode "urn:x")]
    /\ stashed o = Some {| count := 2; graphIRI := "urn:graph:overlay" |}
    /\ length db' = 5
    /\ st4 (NamedNode "urn:y") "urn:q" (NamedNode "urn:x") (Some "urn:graph:overlay")
       ∈ loadGraphFromIndexedDB db'.
Proof.
  do 2 eexists. split; [vm_compute; reflexivity|].
  split; [reflexivity|]. split; [reflexivity|]. split; [reflexivity|]. by_evaluation.
Qed.


(** * Names of graphs *)

(** ** The time stamp *)

Lemma compare_app (a a' b b' : string) :
  String.length a = String.length a' ->
  String.compare (a +:+ b) (a' +:+ b') = lexi (String.compare a a') (String.compare b b').
Proof.
  revert a'. induction a as [|c a IH]; intros [|c' a'] H; try done.
  change (match Ascii.compare c c' with
          | Eq => String.compare (a +:+ b) (a' +:+ b')
          | o => o
          end
          = lexi (match Ascii.compare c c' with
                  | Eq => String.compare a a'
                  | o => o
                  end) (String.compare b b')).
  destruct (Ascii.compare c c'); try done. apply IH. simpl in H. lia.
Qed.

Lemma length_append (a b : string) :
  String.length (a +:+ b) = String.length a + String.length b.
Proof.
  induction a as [|c a IH]; [done|].
  change (S (String.length (a +:+ b)) = S (String.length a) + String.length b).
  by rewrite IH.
Qed.

Lemma append_assoc (a b c : string) : (a +:+ b) +:+ c = a +:+ (b +:+ c).
Proof.
  induction a as [|x a IH]; [done|].
  change (String x ((a +:+ b) +:+ c) = String x (a +:+ (b +:+ c))). by rewrite IH.
Qed.

Lemma below_100 (P : nat -> bool) :
  forallb P (seq 0 100) = true -> forall n, n < 100 -> P n = true.
Proof.
  intros H n Hn. rewrite forallb_forall in H. apply H, in_seq. lia.
Qed.

Lemma pad2_length n : n < 100 -> String.length (pad2 n) = 2.
Proof.
  intros Hn.
  apply Nat.eqb_eq, (below_100 (fun n => Nat.eqb (String.length (pad2 n)) 2));
    [by vm_compute|done].
Qed.

Lemma pad2_compare n m :
  n < 100 -> m < 100 -> String.compare (pad2 n) (pad2 m) = Nat.compare n m.
Proof.
  intros Hn Hm.
  pose proof (below_100
    (fun n => forallb (fun m => bool_decide
                         (String.compare (pad2 n) (pad2 m) = Nat.compare n m))
                (seq 0 100))) as H.
  specialize (H ltac:(by vm_compute) n Hn). rewrite forallb_forall in H.
  eapply bool_decide_eq_true_1, H, in_seq. lia.
Qed.

Lemma year_digits y :
  1000 <= y < 10 * 1000 -> String_of_nat y = pad2 (y / 100) +:+ pad2 (y mod 100).
Proof.
  intros Hy.
  assert (H : forallb (fun y => String.eqb (String_of_nat y)
                                  (pad2 (y / 100) +:+ pad2 (y mod 100)))
                (seq 1000 (9 * 1000)) = true) by (by vm_compute).
  rewrite forallb_forall in H. apply String.eqb_eq, H, in_seq. lia.
Qed.

Lemma lexi_Eq c1 c2 : lexi c1 c2 = Eq <-> c1 = Eq /\ c2 = Eq.
Proof. destruct c1; simpl; naive_solver. Qed.

Lemma compare_hundreds y1 y2 :
  Nat.compare y1 y2
  = lexi (Nat.compare (y1 / 100) (y2 / 100)) (Nat.compare (y1 mod 100) (y2 mod 100)).
Proof.
  pose proof (Nat.div_mod_eq y1 100) as E1. pose proof (Nat.div_mod_eq y2 100) as E2.
  pose proof (Nat.mod_upper_bound y1 100 ltac:(lia)) as B1.
  pose proof (Nat.mod_upper_bound y2 100 ltac:(lia)) as B2.
  revert E1 E2 B1 B2.
  generalize (y1 / 100) (y2 / 100) (y1 mod 100) (y2 mod 100). intros a1 a2 b1 b2.
  intros E1 E2 B1 B2.
  destruct (Nat.compare_spec a1 a2); cbn [lexi].
  - destruct (Nat.compare_spec b1 b2);
      [apply Nat.compare_eq_iff|apply Nat.compare_lt_iff|apply Nat.compare_gt_iff]; lia.
  - apply Nat.compare_lt_iff. lia.
  - apply Nat.compare_gt_iff. lia.
Qed.

Lemma timestampUTC_digits d :
  fourDigitYear d ->
  timestampUTC d
  = pad2 (getUTCFullYear d / 100) +:+ pad2 (getUTCFullYear d mod 100)
    +:+ pad2 (getUTCMonth d + 1) +:+ pad2 (getUTCDate d) +:+ "T"
    +:+ pad2 (getUTCHours d) +:+ pad2 (getUTCMinutes d) +:+ pad2 (getUTCSeconds d)
    +:+ "Z".
Proof.
  intros (Hy & _). unfold timestampUTC. rewrite (year_digits _ Hy).
  by rewrite append_assoc.
Qed.

Lemma timestampUTC_length d : fourDigitYear d -> String.length (timestampUTC d) = 16.
Proof.
  intros Hd. rewrite (timestampUTC_digits d Hd).
  destruct Hd as (Hy & Hm & Hd & Hh & Hmi & Hs).
  assert (getUTCFullYear d / 100 < 100) by (apply Nat.Div0.div_lt_upper_bound; lia).
  pose proof (Nat.mod_upper_bound (getUTCFullYear d) 100 ltac:(lia)).
  rewrite !length_append, !pad2_length by lia. done.
Qed.

Lemma timestampUTC_compare d1 d2 :
  fourDigitYear d1 -> fourDigitYear d2 ->
  String.compare (timestampUTC d1) (timestampUTC d2) = dateCompare d1 d2.
Proof.
  intros H1 H2. rewrite (timestampUTC_digits d1 H1), (timestampUTC_digits d2 H2).
  destruct H1 as (Hy1 & Hm1 & Hd1 & Hh1 & Hmi1 & Hs1).
  destruct H2 as (Hy2 & Hm2 & Hd2 & Hh2 & Hmi2 & Hs2).
  assert (getUTCFullYear d1 / 100 < 100) by (apply Nat.Div0.div_lt_upper_bound; lia).
  assert (getUTCFullYear d2 / 100 < 100) by (apply Nat.Div0.div_lt_upper_bound; lia).
  pose proof (Nat.mod_upper_bound (getUTCFullYear d1) 100 ltac:(lia)).
  pose proof (Nat.mod_upper_bound (getUTCFullYear d2) 100 ltac:(lia)).
  unfold dateCompare. rewrite (compare_hundreds (getUTCFullYear d1)).
  repeat (rewrite compare_app by (rewrite !pad2_length by lia; done)).
  rewrite !pad2_compare by lia.
  rewrite (compare_app "T" "T") by done.
  repeat (rewrite compare_app by (rewrite !pad2_length by lia; done)).
  rewrite !pad2_compare by lia.
  replace (Nat.compare (getUTCMonth d1 + 1) (getUTCMonth d2 + 1))
    with (Nat.compare (getUTCMonth d1) (getUTCMonth d2))
    by (rewrite !Nat.add_1_r; by rewrite Nat.compare_succ).
  simpl (String.compare "T" "T"). simpl (String.compare "Z" "Z").
  repeat match goal with
         | |- context [Nat.compare ?a ?b] => destruct (Nat.compare a b); simpl; try done
         end.
Qed.

Lemma dateCompare_Eq d1 d2 :
  dateCompare d1 d2 = Eq
  <-> getUTCFullYear d1 = getUTCFullYear d2 /\ getUTCMonth d1 = getUTCMonth d2
      /\ getUTCDate d1 = getUTCDate d2 /\ getUTCHours d1 = getUTCHours d2
      /\ getUTCMinutes d1 = getUTCMinutes d2 /\ getUTCSeconds d1 = getUTCSeconds d2.
Proof.
  unfold dateCompare. rewrite !lexi_Eq, !Nat.compare_eq_iff. done.
Qed.

(** X19. The time stamp sorts, to the second. For dates of the years 1000
    to 9999 the stamp has sixteen characters, two stamps compare as strings
    as their dates compare in time to the second, and two dates have the same
    stamp exactly when they fall in the same second: the milliseconds of a
    date take no part. *)
Theorem timestampUTC_sorts (d1 d2 : Date) :
  fourDigitYear d1 -> fourDigitYear d2 ->
  String.length (timestampUTC d1) = 16
  /\ String.compare (timestampUTC d1) (timestampUTC d2) = dateCompare d1 d2
  /\ (timestampUTC d1 = timestampUTC d2
      <-> getUTCFullYear d1 = getUTCFullYear d2 /\ getUTCMonth d1 = getUTCMonth d2
          /\ getUTCDate d1 = getUTCDate d2 /\ getUTCHours d1 = getUTCHours d2
          /\ getUTCMinutes d1 = getUTCMinutes d2
          /\ getUTCSeconds d1 = getUTCSeconds d2)
  /\ (forall ms,
        timestampUTC (mkDate (getUTCFullYear d1) (getUTCMonth d1) (getUTCDate d1)
                        (getUTCHours d1) (getUTCMinutes d1) (getUTCSeconds d1) ms)
        = timestampUTC d1).
Proof.
  intros H1 H2. split; [by apply timestampUTC_length|].
  split; [by apply timestampUTC_compare|]. split; [|done].
  rewrite <- dateCompare_Eq, <- timestampUTC_compare by done.
  by rewrite compare_Eq.
Qed.

Lemma timestampUTC_sorts_witness :
  String.length (timestampUTC (mkDate 2026 10 2 9 5 0 250)) = 16
  /\ String.compare (timestampUTC (mkDate 2026 10 2 9 5 0 250))
       (timestampUTC (mkDate 2026 11 1 0 0 0 0))
     = dateCompare (mkDate 2026 10 2 9 5 0 250) (mkDate 2026 11 1 0 0 0 0).
Proof.
  destruct (timestampUTC_sorts (mkDate 2026 10 2 9 5 0 250)
              (mkDate 2026 11 1 0 0 0 0)) as (H1 & H2 & _);
    [unfold fourDigitYear; simpl; lia..|].
  split; [exact H1|exact H2].
Defined.

(** Months count from 0 and are printed from 1; two instants of one second
    have one stamp; the year is not padded, so the stamps of the years 999
    and 1000 are in the wrong order. *)
Example timestampUTC_run :
  timestampUTC (mkDate 2026 10 2 9 5 0 0) = "20261102T090500Z"
  /\ timestampUTC (mkDate 2026 10 2 9 5 0 999) = "20261102T090500Z"
  /\ timestampUTC (mkDate 999 0 1 0 0 0 0) = "9990101T000000Z"
  /\ dateCompare (mkDate 999 0 1 0 0 0 0) (mkDate 1000 0 1 0 0 0 0) = Lt
  /\ String.compare (timestampUTC (mkDate 999 0 1 0 0 0 0))
       (timestampUTC (mkDate 1000 0 1 0 0 0 0)) = Gt.
Proof. repeat split; vm_compute; reflexivity. Qed.

(** ** The UUID *)

Lemma toString16_hex v :
  v < 16 -> exists c, toString16 v = String c "" /\ is_hex c = true.
Proof.
  intros Hv.
  do 16 (destruct v as [|v]; [eexists; split; vm_compute; reflexivity|]). lia.
Qed.

Lemma toString16_variant r :
  exists c, toString16 (Nat.lor (Nat.land r 3) 8) = String c ""
            /\ existsb (Ascii.eqb c) ["8"; "9"; "a"; "b"]%char = true.
Proof.
  change 3 with (Nat.ones 2). rewrite Nat.land_ones.
  pose proof (Nat.mod_upper_bound r (2 ^ 2) ltac:(simpl; lia)) as H.
  revert H. generalize (r mod 2 ^ 2). intros v Hv. simpl in Hv.
  do 4 (destruct v as [|v]; [eexists; split; vm_compute; reflexivity|]). lia.
Qed.

Lemma uuid_replace_shaped template random i :
  (forall i, random i < 16) -> shaped template (uuid_replace template random i) = true.
Proof.
  intros Hr. revert i. induction template as [|t template IH]; intros i; [done|].
  cbn [uuid_replace]. destruct (Ascii.eqb t "x") eqn:Ex.
  - destruct (toString16_hex (random i) (Hr i)) as (c & -> & Hc).
    change (String c "" +:+ ?s) with (String c s). cbn [shaped].
    by rewrite Ex, Hc, IH.
  - destruct (Ascii.eqb t "y") eqn:Ey.
    + destruct (toString16_variant (random i)) as (c & -> & Hc).
      change (String c "" +:+ ?s) with (String c s). cbn [shaped].
      by rewrite Ex, Ey, Hc, IH.
    + cbn [shaped]. by rewrite Ex, Ey, Ascii.eqb_refl, IH.
Qed.

Lemma shaped_length template s :
  shaped template s = true -> String.length s = String.length template.
Proof.
  revert s. induction template as [|t template IH]; intros [|c s]; try done.
  simpl. intros H. apply andb_true_iff in H as [_ H]. by rewrite (IH s H).
Qed.

(** X20. The UUID of a host without [crypto.randomUUID] is a version-4
    UUID in lower case: thirty-six characters, hexadecimal digits in five
    groups of 8, 4, 4, 4 and 12 with hyphens between them, the third group
    beginning with 4 and the fourth with one of 8, 9, a, b. With
    [crypto.randomUUID] it is what that function gives. *)
Theorem uuid_fallback_is_v4 (h : Host) :
  (forall i, random16 h i < 16) ->
  (randomUUID h = None -> isUuidV4 (uuid h) = true /\ String.length (uuid h) = 36)
  /\ (forall u, randomUUID h = Some u -> uuid h = u).
Proof.
  intros Hr. split.
  - intros E. unfold uuid. rewrite E.
    pose proof (uuid_replace_shaped "xxxxxxxx-xxxx-4xxx-yxxx-xxxxxxxxxxxx"
                  (random16 h) 0 Hr) as H.
    split; [done|]. by rewrite (shaped_length _ _ H).
  - intros u E. unfold uuid. by rewrite E.
Qed.

Lemma uuid_fallback_is_v4_witness :
  (randomUUID someHost = None ->
   isUuidV4 (uuid someHost) = true /\ String.length (uuid someHost) = 36)
  /\ (forall u, randomUUID someHost = Some u -> uuid someHost = u).
Proof.
  apply (uuid_fallback_is_v4 someHost). intros i.
  change (i mod 16 < 16). apply Nat.mod_upper_bound. lia.
Defined.

(** ** The graph name *)

Lemma all_slashes_snoc b : all_slashes (b +:+ "/") = all_slashes b.
Proof.
  induction b as [|c b IH]; [done|].
  change (String c b +:+ "/") with (String c (b +:+ "/")). simpl. by rewrite IH.
Qed.

Lemma strip_trailing_slashes_snoc b :
  strip_trailing_slashes (b +:+ "/") = strip_trailing_slashes b.
Proof.
  induction b as [|c b IH]; [done|].
  change (String c b +:+ "/") with (String c (b +:+ "/")).
  cbn [strip_trailing_slashes]. rewrite IH.
  change (all_slashes (String c (b +:+ "/")))
    with (Ascii.eqb c "/" && all_slashes (b +:+ "/")).
  rewrite all_slashes_snoc. done.
Qed.

Lemma strip_trailing_slashes_end b c :
  last_char (strip_trailing_slashes b) = Some c -> c <> "/"%char.
Proof.
  induction b as [|x b IH]; [done|]. cbn [strip_trailing_slashes].
  destruct (all_slashes (String x b)) eqn:E; [done|].
  cbn [last_char]. destruct (strip_trailing_slashes b) as [|y r] eqn:Er.
  - intros [= <-] ->. simpl in E.
    assert (all_slashes b = true); [|congruence].
    clear -Er. induction b as [|z b IH]; [done|]. simpl in *.
    destruct (Ascii.eqb z "/" && all_slashes b); done.
  - exact IH.
Qed.

(** X21. The name of a graph. Trailing slashes of the base are dropped,
    so a base and the same base with one more slash give one name, and the
    part before the time stamp does not end in a slash; and for dates of
    the years 1000 to 9999, two names made from one base at different
    seconds are different, whatever the UUIDs are. *)
Theorem makeNamedGraphIRI_spec (h h' : Host) (base : string) :
  fourDigitYear (now h) -> fourDigitYear (now h') ->
  makeNamedGraphIRI h (base +:+ "/") = makeNamedGraphIRI h base
  /\ (forall c, last_char (strip_trailing_slashes base) = Some c -> c <> "/"%char)
  /\ (dateCompare (now h) (now h') <> Eq ->
      makeNamedGraphIRI h base <> makeNamedGraphIRI h' base).
Proof.
  intros H1 H2. split.
  { unfold makeNamedGraphIRI. by rewrite strip_trailing_slashes_snoc. }
  split; [intros c; apply strip_trailing_slashes_end|].
  intros Hne E. apply Hne. unfold makeNamedGraphIRI in E.
  apply append_inj_l in E. apply (append_inj_l "/") in E.
  rewrite <- timestampUTC_compare by done.
  assert (C : String.compare (timestampUTC (now h) +:+ "/" +:+ uuid h)
                (timestampUTC (now h') +:+ "/" +:+ uuid h') = Eq)
    by (by apply compare_Eq).
  rewrite compare_app in C by (by rewrite !timestampUTC_length).
  by apply lexi_Eq in C as [C _].
Qed.

Lemma makeNamedGraphIRI_spec_witness :
  makeNamedGraphIRI someHost ("urn:graph:inferred" +:+ "/")
  = makeNamedGraphIRI someHost "urn:graph:inferred"
  /\ (forall c, last_char (strip_trailing_slashes "urn:graph:inferred") = Some c ->
        c <> "/"%char)
  /\ (dateCompare (now someHost)
        (now (mkHost (mkDate 2026 10 2 9 5 1 0) None (fun _ => 0))) <> Eq ->
      makeNamedGraphIRI someHost "urn:graph:inferred"
      <> makeNamedGraphIRI (mkHost (mkDate 2026 10 2 9 5 1 0) None (fun _ => 0))
           "urn:graph:inferred").
Proof.
  apply (makeNamedGraphIRI_spec someHost
           (mkHost (mkDate 2026 10 2 9 5 1 0) None (fun _ => 0)) "urn:graph:inferred");
    unfold fourDigitYear; simpl; lia.
Defined.

(** A base made of slashes only leaves a name that begins with a slash, and
    a base that ends in a scheme's slashes loses them. *)
Example makeNamedGraphIRI_run :
  makeNamedGraphIRI someHost "urn:graph:inferred//"
  = "urn:graph:inferred/20261102T090500Z/01234567-89ab-4cde-b012-3456789abcde"
  /\ makeNamedGraphIRI someHost "///"
     = "/20261102T090500Z/01234567-89ab-4cde-b012-3456789abcde"
  /\ makeNamedGraphIRI someHost "http://"
     = "http:/20261102T090500Z/01234567-89ab-4cde-b012-3456789abcde"
  /\ isAbsoluteIri (makeNamedGraphIRI someHost "http://") = false.
Proof. repeat split; vm_compute; reflexivity. Qed.


(** * The indices of a run *)

Lemma edge_mapFromQuads store p a b :
  edge (mapFromQuads store p) a b <-> declares store p a b.
Proof.
  assert (H : b ∈ lookup_set (mapFromQuads store p) a <-> declares store p a b).
  { unfold mapFromQuads. rewrite lookup_set_fold_map_add. split.
    - intros [(q & Hq & ? & ?)|H]; [|by apply elem_of_nil in H].
      apply elem_of_getQuads in Hq as (? & _ & Hp & _). exists q. auto.
    - intros (q & ? & ? & ? & ?). left. exists q. split; [|done].
      apply elem_of_getQuads. repeat split; try done. by intros ? [= <-]. }
  rewrite <- H. unfold edge, lookup_set. split.
  - by intros (ps & -> & Hb).
  - destruct (mapFromQuads store p !! a) as [ps|]; simpl; [|by intros ?%elem_of_nil].
    intros Hb. by exists ps.
Qed.

Lemma tc_iff {A} (R R' : A -> A -> Prop) :
  (forall a b, R a b <-> R' a b) -> forall a b, tc R a b <-> tc R' a b.
Proof.
  intros H a b. split; induction 1 as [? ? Hxy|? ? ? Hxy _ IH];
    apply H in Hxy; first [by apply tc_once|by eapply tc_l].
Qed.

Lemma supers_reachable store p c sup :
  sup ∈ lookup_set (transitiveClosure (mapFromQuads store p)) c
  <-> tc (declares store p) c sup.
Proof.
  rewrite <- (tc_iff _ _ (edge_mapFromQuads store p)).
  unfold lookup_set, transitiveClosure. rewrite lookup_fmap.
  destruct (mapFromQuads store p !! c) as [parents|] eqn:E; simpl.
  - by apply closure_loop_reachable.
  - split; [by intros ?%elem_of_nil|].
    intros H. inversion H as [? ? (ps & E' & _)|? ? ? (ps & E' & _)]; congruence.
Qed.

(** X22. What the local expanders derive, read off the store the indices
    were built from. A type assertion gets every absolute IRI that
    [rdfs:subClassOf] quads of that store, in any graph, lead to from the
    value of its object in one or more steps, through classes of any kind;
    a property assertion is repeated with every absolute IRI that
    [rdfs:subPropertyOf] quads lead to from its predicate; and its subject
    gets every absolute domain, its object, literal or not, every absolute
    range that a quad of the store gives its predicate directly. Nothing
    else is derived. *)
Theorem expanders_follow_the_store (store : list Quad) (batch : list Statement) :
  let idx := buildIndices store in
  (forall t, t ∈ expandTypesWithClosure idx batch
     <-> exists s sup, s ∈ batch
           /\ tc (declares store RDFS_SC) (value (object s)) sup
           /\ isAbsoluteIri sup = true
           /\ t = st (subject s) RDF_TYPE (NamedNode sup))
  /\ (forall t, t ∈ expandPropsWithClosure idx batch
        <-> exists s sup, s ∈ batch
              /\ tc (declares store RDFS_SP) (predicate s) sup
              /\ isAbsoluteIri sup = true
              /\ t = st (subject s) sup (object s))
  /\ (forall t, t ∈ applyDomainRange idx batch
        <-> exists s, s ∈ batch
              /\ ((exists d, declares store RDFS_DOMAIN (predicate s) d
                             /\ isAbsoluteIri d = true
                             /\ t = st (subject s) RDF_TYPE (NamedNode d))
                  \/ (exists r, declares store RDFS_RANGE (predicate s) r
                                /\ isAbsoluteIri r = true
                                /\ t = st (object s) RDF_TYPE (NamedNode r)))).
Proof.
  intros idx. split; [|split]; intros t.
  - rewrite elem_of_expandTypesWithClosure.
    do 2 (apply exist_proper; intros ?). apply and_iff_compat_l.
    by rewrite <- (supers_reachable store RDFS_SC).
  - rewrite elem_of_expandPropsWithClosure.
    do 2 (apply exist_proper; intros ?). apply and_iff_compat_l.
    by rewrite <- (supers_reachable store RDFS_SP).
  - rewrite elem_of_applyDomainRange.
    apply exist_proper; intros s. apply and_iff_compat_l.
    assert (H : forall p x, x ∈ lookup_set (mapFromQuads store p) (predicate s)
                            <-> declares store p (predicate s) x).
    { intros p x. rewrite <- edge_mapFromQuads. unfold edge, lookup_set. split.
      - destruct (mapFromQuads store p !! predicate s) as [ps|]; simpl;
          [|by intros ?%elem_of_nil].
        intros Hb. by exists ps.
      - by intros (ps & -> & Hb). }
    unfold idx, buildIndices. cbn [domainMap rangeMap].
    split; (intros [(d & Hd & ?)|(r & Hr & ?)];
            [left; exists d|right; exists r]; (split; [by apply H|done])).
Qed.

(** A chain through a class that is no IRI, and a range that types a
    literal. *)
Example expanders_run :
  let store := [quad (NamedNode "urn:A") RDFS_SC (Literal "B" "" None);
                st4 (BlankNode "B") RDFS_SC (NamedNode "urn:C") (Some "urn:g");
                quad (NamedNode "urn:p") RDFS_RANGE (NamedNode "urn:R")] in
  expandTypesWithClosure (buildIndices store)
    [st (NamedNode "urn:x") RDF_TYPE (NamedNode "urn:A")]
  = [st (NamedNode "urn:x") RDF_TYPE (NamedNode "urn:C")]
  /\ applyDomainRange (buildIndices store)
       [st (NamedNode "urn:x") "urn:p" (literal_plain "v")]
     = [st (literal_plain "v") RDF_TYPE (NamedNode "urn:R")].
Proof. split; vm_compute; reflexivity. Qed.

(** * The store of a loaded graph *)

Lemma elem_of_formulaToRdfjsStore g q :
  q ∈ formulaToRdfjsStore g <-> exists s, s ∈ g /\ q = statementToQuad s.
Proof.
  unfold formulaToRdfjsStore.
  assert (H : forall acc,
    q ∈ fold_left (fun store s => addQuad (statementToQuad s) store) g acc
    <-> q ∈ acc \/ exists s, s ∈ g /\ q = statementToQuad s).
  { induction g as [|s g IH]; intros acc; simpl.
    - split; [auto|]. intros [?|(s & Hs & _)]; [done|by apply elem_of_nil in Hs].
    - rewrite IH, elem_of_addQuad. split.
      + intros [[->|?]|(s' & ? & ->)]; [right; exists s|by left|right; exists s'];
          set_solver.
      + intros [?|(s' & Hs' & ->)]; [auto|].
        apply elem_of_cons in Hs' as [->|?]; [auto|]. right. by exists s'. }
  rewrite H. split; [|auto]. intros [Hq|?]; [by apply elem_of_nil in Hq|done].
Qed.

(** The conversion of a loaded statement changes nothing but the case of a
    language tag. *)
Lemma statementToQuad_loaded t s :
  loadTriple t = Some s -> statementToQuad s = lowerTag s.
Proof.
  intros E. pose proof (loadTriple_Some t s E) as (Es & _ & _ & Eo & Eg).
  unfold statementToQuad, lowerTag. f_equal.
  - rewrite Es, asSubjectTerm_spec.
    by destruct (isAbsoluteIri (row_subject t)).
  - destruct (object s) as [v|i|v lang dt] eqn:Ho; [done| |].
    + pose proof (asObjectTerm_bnode _ _ _ _ _ Eo).
      by destruct (String.eqb_spec i "").
    + destruct (asObjectTerm_literal _ _ _ _ _ _ _ Eo) as [[-> ->]|[Hl ->]]; [done|].
      simpl. by destruct (String.eqb_spec lang "").
  - rewrite Eg. destruct (String.eqb_spec (trim (row_graph t)) "") as [|Hne]; [done|].
    pose proof (trim_nonempty _ Hne). by destruct (String.eqb_spec (row_graph t) "").
Qed.

Lemma lowerTag_id s :
  (forall v lang dt, object s = Literal v lang dt -> lower_string lang = lang) ->
  lowerTag s = s.
Proof.
  destruct s as [sub p obj g]. unfold lowerTag. simpl. intros H. f_equal.
  destruct obj as [| |v lang dt]; [done..|]. by rewrite (H v lang dt).
Qed.

(** X23. The store the rules are evaluated on holds the statements of the
    loaded graph and nothing else, each as it is but for the language tag of
    a literal, which is put in lower case: on a graph that
    [loadGraphFromIndexedDB] gives, the conversion of [formulaToRdfjsStore]
    changes no other term and drops no statement, and a statement whose tag,
    if any, is in lower case is in the store as it is. The run starts with
    that store, which holds no quad twice, and with the keys of the statements
    as loaded in its seen index. *)
Theorem loaded_graph_is_its_store (db : list Row) :
  (forall s, s ∈ loadGraphFromIndexedDB db -> statementToQuad s = lowerTag s)
  /\ (forall q, q ∈ formulaToRdfjsStore (loadGraphFromIndexedDB db)
        <-> exists s, s ∈ loadGraphFromIndexedDB db /\ q = lowerTag s)
  /\ (forall s, s ∈ loadGraphFromIndexedDB db ->
        (forall v lang dt, object s = Literal v lang dt -> lower_string lang = lang) ->
        s ∈ formulaToRdfjsStore (loadGraphFromIndexedDB db))
  /\ NoDup (formulaToRdfjsStore (loadGraphFromIndexedDB db))
  /\ rdfjsStore (initState (loadGraphFromIndexedDB db))
     = formulaToRdfjsStore (loadGraphFromIndexedDB db)
  /\ (forall k, k ∈ seen (initState (loadGraphFromIndexedDB db))
        <-> exists t s, t ∈ db /\ loadTriple t = Some s /\ toNT s = k).
Proof.
  assert (Hid : forall s, s ∈ loadGraphFromIndexedDB db ->
                          statementToQuad s = lowerTag s).
  { intros s Hs. apply elem_of_loadGraph in Hs as (t & _ & E).
    by apply (statementToQuad_loaded t). }
  assert (M : forall q, q ∈ formulaToRdfjsStore (loadGraphFromIndexedDB db)
                <-> exists s, s ∈ loadGraphFromIndexedDB db /\ q = lowerTag s).
  { intros q. rewrite elem_of_formulaToRdfjsStore. split.
    - intros (s & Hs & ->). exists s. split; [done|]. by apply Hid.
    - intros (s & Hs & ->). exists s. split; [done|]. symmetry. by apply Hid. }
  split; [done|]. split; [done|].
  split.
  { intros s Hs Hl. apply M. exists s. split; [done|]. symmetry. by apply lowerTag_id. }
  split; [apply NoDup_formulaToRdfjsStore|]. split; [done|].
  intros k. change (seen (initState ?g)) with (keys g). rewrite elem_of_keys. split.
  - intros (s & Hs & <-). apply elem_of_loadGraph in Hs as (t & ? & ?). by exists t, s.
  - intros (t & s & ? & ? & <-). exists s. split; [|done].
    apply elem_of_loadGraph. by exists t.
Qed.

(** A tag in upper case is in lower case in the store, and as it was in the
    key of the seen index. *)
Example loaded_graph_run :
  loadGraphFromIndexedDB tagged_db
  = [st (NamedNode "urn:x") "urn:p" (literal_lang "chat" "FR");
     st (NamedNode "urn:x") "urn:q" (literal_lang "cat" "en")]
  /\ formulaToRdfjsStore (loadGraphFromIndexedDB tagged_db)
     = [quad (NamedNode "urn:x") "urn:p" (literal_lang "chat" "fr");
        quad (NamedNode "urn:x") "urn:q" (literal_lang "cat" "en")]
  /\ toNT (st (NamedNode "urn:x") "urn:p" (literal_lang "chat" "FR"))
     ∈ seen (initState (loadGraphFromIndexedDB tagged_db))
  /\ toNT (st (NamedNode "urn:x") "urn:p" (literal_lang "chat" "fr"))
     ∉ seen (initState (loadGraphFromIndexedDB tagged_db)).
Proof. repeat split; by_evaluation. Qed.

(** On other graphs the conversion changes terms: a literal subject and an
    empty blank-node label. *)
Example formulaToRdfjsStore_alters :
  formulaToRdfjsStore [st (literal_plain "v") "urn:p" (BlankNode "")]
  = [quad (BlankNode "v") "urn:p" (BlankNode "o")].
Proof. vm_compute. reflexivity. Qed.


(** * Running the algorithm a second time *)

(** ** Normal terms *)

Lemma toObject_normal t : normalTerm t = true -> toObject t = t.
Proof.
  destruct t as [v|i|v lang dt]; simpl; [done..|].
  destruct (String.eqb lang "") eqn:E; simpl.
  - intros H. apply bool_decide_eq_true in H as ->.
    apply String.eqb_eq in E as ->. done.
  - intros H. apply andb_true_iff in H as [H1 H2].
    apply String.eqb_eq in H1. apply bool_decide_eq_true in H2 as ->.
    unfold n3_literal_lang, literal_lang. by rewrite H1.
Qed.

Lemma quadObject_normal t : normalTerm t = true -> quadObject t = t.
Proof.
  destruct t as [v|i|v lang dt]; simpl; [done..|].
  destruct (String.eqb lang "") eqn:E; simpl.
  - intros H. apply bool_decide_eq_true in H as ->.
    apply String.eqb_eq in E as ->. done.
  - intros H. apply andb_true_iff in H as [_ H2].
    apply bool_decide_eq_true in H2 as ->. done.
Qed.

Lemma toSubject_nonliteral t : termType t <> T_Literal -> toSubject t = t.
Proof. by destruct t. Qed.

Lemma quadSubject_nonliteral t : termType t <> T_Literal -> quadSubject t = t.
Proof. by destruct t. Qed.

Lemma toSubject_idem t : toSubject (toSubject t) = toSubject t.
Proof. by destruct t. Qed.

Lemma quadSubject_toSubject t : quadSubject (toSubject t) = toSubject t.
Proof. by destruct t. Qed.

Lemma normalStatement_st a p b g :
  normalStatement (st4 a p b g) = normalTerm a && normalTerm b.
Proof. done. Qed.

Lemma normalStatement_terms s :
  normalStatement s = true <-> normalTerm (subject s) = true /\ normalTerm (object s) = true.
Proof. unfold normalStatement. apply andb_true_iff. Qed.

(** The quad written for a normal statement goes to the overlay graph and
    back to a store unchanged. *)
Lemma quadOf_roundtrip s :
  normalStatement s = true ->
  quadToStatement false (quadOf s) = quadOf s
  /\ statementToQuad (quadOf s) = quadOf s.
Proof.
  intros [_ Ho]%normalStatement_terms.
  unfold quadOf, quadToStatement, statementToQuad, quad.
  cbn [subject predicate object graph]. rewrite (toObject_normal _ Ho).
  rewrite quadSubject_toSubject, toSubject_idem, (quadObject_normal _ Ho).
  split; [done|]. f_equal.
  destruct (object s) as [v|i|v lang dt]; simpl in *; [done| |].
  - by destruct (String.eqb i "").
  - destruct (String.eqb lang "") eqn:E.
    + apply bool_decide_eq_true in Ho as ->. apply String.eqb_eq in E as ->. done.
    + apply andb_true_iff in Ho as [H1 H2]. apply String.eqb_eq in H1.
      apply bool_decide_eq_true in H2 as ->.
      unfold n3_literal_lang, literal_lang. by rewrite H1.
Qed.

Lemma quadOf_nonliteral s :
  normalStatement s = true -> termType (subject s) <> T_Literal ->
  quadOf s = norm s.
Proof.
  intros [_ Ho]%normalStatement_terms Hs. unfold quadOf, norm.
  by rewrite (toSubject_nonliteral _ Hs), (toObject_normal _ Ho).
Qed.

(** ** The first character of a key *)

Lemma get0_append a b :
  String.get 0 (a +:+ b)
  = match String.get 0 a with Some c => Some c | None => String.get 0 b end.
Proof.
  destruct a as [|x a]; [done|].
  change (String x a +:+ b) with (String x (a +:+ b)). done.
Qed.

Lemma term_toNT_head t :
  String.get 0 (term_toNT t)
  = Some (match t with
          | NamedNode _ => "<" | BlankNode _ => "_" | Literal _ _ _ => chr 34
          end)%char.
Proof.
  destruct t as [v|i|v lang dt]; [done..|]. unfold term_toNT.
  destruct (negb (String.eqb lang "")); [by rewrite !get0_append|].
  destruct dt as [d|]; [|by rewrite !get0_append].
  destruct (String.eqb d XSD_STRING); by rewrite !get0_append.
Qed.

Lemma toNT_head s : String.get 0 (toNT s) = String.get 0 (term_toNT (subject s)).
Proof. unfold toNT. by rewrite get0_append, term_toNT_head. Qed.

(** Two statements with one key have subjects of one kind. *)
Lemma toNT_subject_kind a b :
  toNT a = toNT b -> termType (subject b) <> T_Literal ->
  termType (subject a) <> T_Literal.
Proof.
  intros E Hb Ha. apply (f_equal (String.get 0)) in E.
  rewrite !toNT_head, !term_toNT_head in E.
  destruct (subject a), (subject b); done.
Qed.

(** ** Stores as folds *)

Lemma elem_of_fold_addQuad (l acc : list Quad) q :
  q ∈ fold_left (fun store x => addQuad x store) l acc <-> q ∈ acc \/ q ∈ l.
Proof.
  revert acc. induction l as [|x l IH]; intros acc; cbn [fold_left].
  - rewrite elem_of_nil. tauto.
  - rewrite IH, elem_of_addQuad, elem_of_cons. naive_solver.
Qed.

Lemma addQuad_in q (l : list Quad) : q ∈ l -> addQuad q l = l.
Proof. intros H. unfold addQuad. by rewrite bool_decide_eq_true_2. Qed.

Lemma addQuad_notin q (l : list Quad) : q ∉ l -> addQuad q l = l ++ [q].
Proof. intros H. unfold addQuad. by rewrite bool_decide_eq_false_2. Qed.

(** Adding a quad to the overlay and to the store keeps the store the fold
    of the overlay. *)
Lemma fold_addQuad_addQuad (o acc : list Quad) q :
  fold_left (fun store x => addQuad x store) (addQuad q o) acc
  = addQuad q (fold_left (fun store x => addQuad x store) o acc).
Proof.
  destruct (decide (q ∈ o)) as [H|H].
  - rewrite (addQuad_in q o H). symmetry. apply addQuad_in.
    apply elem_of_fold_addQuad. by right.
  - rewrite (addQuad_notin q o H). by rewrite fold_left_app.
Qed.

Lemma fold_left_ext_in {A B} (f g : A -> B -> A) (l : list B) (a : A) :
  (forall a x, x ∈ l -> f a x = g a x) -> fold_left f l a = fold_left g l a.
Proof.
  revert a. induction l as [|x l IH]; intros a H; simpl; [done|].
  rewrite H by (apply elem_of_cons; by left). apply IH.
  intros a' y Hy. apply H. apply elem_of_cons. by right.
Qed.

Lemma fold_addQuad_id (f : Statement -> Quad) (l acc : list Statement) :
  (forall s, s ∈ l -> f s = s) -> NoDup (acc ++ l) ->
  fold_left (fun store s => addQuad (f s) store) l acc = acc ++ l.
Proof.
  revert acc. induction l as [|s l IH]; intros acc Hf Hn; simpl.
  - by rewrite app_nil_r.
  - rewrite (Hf s) by (apply elem_of_cons; by left).
    assert (Hs : s ∉ acc).
    { apply NoDup_app in Hn as (_ & Hn & _). intros Hin. apply (Hn s Hin).
      apply elem_of_cons. by left. }
    rewrite (addQuad_notin s acc Hs), IH.
    + by rewrite <- app_assoc.
    + intros s' Hs'. apply Hf. apply elem_of_cons. by right.
    + by rewrite <- app_assoc.
Qed.

Lemma fold_formula_add_id (f : Quad -> Statement) (l : list Quad) :
  (forall q, q ∈ l -> f q = q) -> NoDup l ->
  fold_left (fun g q => formula_add g (f q)) l [] = l.
Proof.
  intros Hf Hn.
  change (fold_left (fun g q => addQuad (f q) g) l [] = l).
  by rewrite (fold_addQuad_id f l []).
Qed.

(** ** The steady state of a run *)

Section Steady.
Variable g : list Statement.

Lemma steady_initState : steady g (initState g).
Proof.
  unfold steady. cbn [workTypes workProps overlayStore rdfjsStore seen
                      initState fold_left app].
  split; [intros s Hs; by apply elem_of_nil in Hs|].
  split; [intros q Hq; by apply elem_of_nil in Hq|]. split; [done|].
  intros k Hk. by left.
Qed.

Lemma steady_frame σ σ' :
  steady g σ -> seen σ' = seen σ ->
  overlayStore σ' = overlayStore σ -> rdfjsStore σ' = rdfjsStore σ ->
  (forall s, s ∈ workTypes σ' ++ workProps σ' -> s ∈ workTypes σ ++ workProps σ) ->
  steady g σ'.
Proof.
  intros (W1 & W2 & W3 & W4) Es Eo Er Hq. unfold steady.
  rewrite Es, Eo, Er. split; [|done].
  intros s Hs. by apply W1, Hq.
Qed.

(** Writing a normal statement: its quad to both stores, its key to the
    seen index and, at most, the statement to a queue. *)
Lemma steady_add σ σ' s :
  steady g σ -> normalStatement s = true ->
  (forall x, x ∈ workTypes σ' ++ workProps σ' ->
             x = s \/ x ∈ workTypes σ ++ workProps σ) ->
  seen σ' = {[toNT s]} ∪ seen σ ->
  overlayStore σ' = addQuad (quadOf s) (overlayStore σ) ->
  rdfjsStore σ' = addQuad (quadOf s) (rdfjsStore σ) ->
  steady g σ'.
Proof.
  intros (W1 & W2 & W3 & W4) Hn Hq Hs Ho Hr. unfold steady. split.
  { intros x Hx. destruct (Hq x Hx) as [->|?]; [done|]. by apply W1. }
  split.
  { intros q. rewrite Ho, elem_of_addQuad. intros [->|Hq']; [by exists s|by apply W2]. }
  split.
  { rewrite Hr, Ho, W3. symmetry. apply fold_addQuad_addQuad. }
  intros k. rewrite Hs, elem_of_union, elem_of_singleton. intros [->|Hk].
  - right. exists s. split; [done|]. split; [done|].
    rewrite Ho. apply elem_of_addQuad. by left.
  - destruct (W4 k Hk) as [?|(s' & ? & ? & ?)]; [by left|]. right. exists s'.
    split; [done|]. split; [done|]. rewrite Ho. apply elem_of_addQuad. by right.
Qed.

Lemma steady_enqueue1 σ s :
  steady g σ -> normalStatement s = true -> steady g (enqueue1 σ s).
Proof.
  intros W Hn. unfold enqueue1. case_bool_decide; [done|].
  apply (steady_add σ _ s W Hn); cbn [workTypes workProps seen
                                      overlayStore rdfjsStore]; try done.
  intros x. destruct (String.eqb (predicate s) RDF_TYPE);
      rewrite !elem_of_app, list_elem_of_singleton; tauto.
Qed.

Lemma steady_enqueue σ stmts :
  steady g σ -> (forall s, s ∈ stmts -> normalStatement s = true) ->
  steady g (enqueue σ stmts).
Proof.
  revert σ. induction stmts as [|s stmts IH]; intros σ W H; [done|].
  apply IH; [|intros; apply H; apply elem_of_cons; by right].
  apply steady_enqueue1; [done|]. apply H. apply elem_of_cons. by left.
Qed.

Lemma steady_enqueue_extra extra c :
  steady g (fst c) -> (forall s, s ∈ extra -> normalStatement s = true) ->
  steady g (fst (enqueue_extra extra c)).
Proof. intros W H. rewrite enqueue_extra_enqueue. by apply steady_enqueue. Qed.

Ltac normal_st :=
  apply normalStatement_terms; split; simpl; first [assumption|reflexivity].

(** What the expanders make of normal statements is normal. *)
Lemma normal_expandTypes idx batch t :
  (forall s, s ∈ batch -> normalStatement s = true) ->
  t ∈ expandTypesWithClosure idx batch -> normalStatement t = true.
Proof.
  intros Hb Ht. apply elem_of_expandTypesWithClosure in Ht
    as (s & sup & Hs & _ & _ & ->).
  apply Hb, normalStatement_terms in Hs as [H1 _].
  by normal_st.
Qed.

Lemma normal_expandProps idx batch t :
  (forall s, s ∈ batch -> normalStatement s = true) ->
  t ∈ expandPropsWithClosure idx batch -> normalStatement t = true.
Proof.
  intros Hb Ht. apply elem_of_expandPropsWithClosure in Ht
    as (s & sup & Hs & _ & _ & ->).
  apply Hb, normalStatement_terms in Hs as [H1 H2].
  by normal_st.
Qed.

Lemma normal_inverseSymmetric idx batch t :
  (forall s, s ∈ batch -> normalStatement s = true) ->
  t ∈ inverseAndSymmetricOf idx batch -> normalStatement t = true.
Proof.
  intros Hb Ht. apply elem_of_inverseAndSymmetricOf in Ht
    as (s & Hs & [[_ ->]|(inv & _ & ->)]);
    apply Hb, normalStatement_terms in Hs as [H1 H2];
    by normal_st.
Qed.

Lemma normal_domainRange idx batch t :
  (forall s, s ∈ batch -> normalStatement s = true) ->
  t ∈ applyDomainRange idx batch -> normalStatement t = true.
Proof.
  intros Hb Ht. apply elem_of_applyDomainRange in Ht
    as (s & Hs & [(d & _ & _ & ->)|(r & _ & _ & ->)]);
    apply Hb, normalStatement_terms in Hs as [H1 H2];
    by normal_st.
Qed.

Lemma normal_transitive idx store batch t :
  (forall s, s ∈ batch -> normalStatement s = true) ->
  t ∈ transitiveOf idx store batch -> normalStatement t = true.
Proof.
  intros Hb Ht. apply elem_of_transitiveOf in Ht
    as (s & Hs & _ & [(yz & _ & _ & _ & ->)|(wx & _ & _ & _ & ->)]);
    apply Hb, normalStatement_terms in Hs as [H1 H2];
    by normal_st.
Qed.

Lemma steady_queues σ s :
  steady g σ -> s ∈ workTypes σ ++ workProps σ -> normalStatement s = true.
Proof. intros (W1 & _) Hs. by apply W1. Qed.

Lemma steady_drainTypes idx c :
  steady g (fst c) -> steady g (fst (drainTypes idx c)).
Proof.
  intros W. unfold drainTypes. destruct (workTypes (fst c)) as [|x batch] eqn:E;
    [done|].
  apply steady_enqueue_extra.
  - apply (steady_frame (fst c)); try done. cbn [fst workTypes workProps set_workTypes].
    intros s Hs. apply elem_of_app. right. exact Hs.
  - intros t. apply normal_expandTypes. intros s Hs.
    apply (steady_queues (fst c)); [done|]. rewrite E. apply elem_of_app. by left.
Qed.

Lemma steady_drainPropsReturn idx c :
  steady g (fst c) -> steady g (fst (drainPropsReturn idx c)).
Proof.
  intros W. unfold drainPropsReturn.
  destruct (workProps (fst c)) as [|x batch] eqn:E; [done|]. cbv zeta.
  assert (Hb : forall s, s ∈ x :: batch -> normalStatement s = true).
  { intros s Hs. apply (steady_queues (fst c)); [done|]. rewrite E.
    apply elem_of_app. by right. }
  apply steady_enqueue_extra; [|intros t; by apply normal_transitive].
  apply steady_enqueue_extra; [|intros t; by apply normal_domainRange].
  apply steady_enqueue_extra; [|intros t; by apply normal_inverseSymmetric].
  apply steady_enqueue_extra; [|intros t; by apply normal_expandProps].
  apply (steady_frame (fst c)); try done. cbn [fst workTypes workProps set_workProps].
  intros s Hs. rewrite app_nil_r in Hs. apply elem_of_app. by left.
Qed.

Lemma steady_drain fuel idx c c' :
  steady g (fst c) -> drain fuel idx c = Returned c' -> steady g (fst c').
Proof.
  revert c. induction fuel as [|n IH]; intros c W.
  - simpl. destruct (queues_empty (fst c)); [by intros [= <-]|done].
  - destruct (queues_empty (fst c)) eqn:Q; [simpl; rewrite Q; by intros [= <-]|].
    rewrite drain_step by done. destruct (propsAccepted idx _); [|done].
    apply IH. by apply steady_drainPropsReturn, steady_drainTypes.
Qed.

Section Rules.
Variable queryQuads : string -> list Quad -> option (list Quad).
Hypothesis answers : wellFormedAnswers queryQuads.

Lemma normal_answers q store stmts s :
  applyConstructWithComunica queryQuads q store = Some stmts -> s ∈ stmts ->
  normalStatement s = true.
Proof.
  unfold applyConstructWithComunica.
  destruct (queryQuads q store) as [quads|] eqn:E; [|done].
  intros [= <-] Hs.
  apply (proj2 (fold_formula_add (quadToStatement true) quads [])) in Hs
    as [Hs|(x & Hx & ->)]; [by apply elem_of_nil in Hs|].
  exact (answers q store quads E x Hx).
Qed.

Lemma steady_ruleStep fuel idx rule c c' :
  steady g (fst c) -> ruleStep queryQuads fuel idx rule c = Returned c' ->
  steady g (fst c').
Proof.
  intros W. rewrite ruleStep_unfold. cbv zeta.
  destruct (applyConstructWithComunica _ _ _) as [stmts|] eqn:Ea; [|done].
  destruct (processQueues _ _ _) as [[σ3 pr]|σt|] eqn:E; [|done..].
  apply steady_drain in E.
  - cbn [fst] in E. destruct (Nat.ltb _ _); intros [= <-]; [|done].
    by apply (steady_frame σ3).
  - cbn [fst]. apply steady_enqueue.
    + by apply (steady_frame (fst c)).
    + intros s Hs. apply dedupeBatch_subset in Hs.
      by eapply normal_answers.
Qed.

Lemma steady_forRules fuel idx rs c c' :
  steady g (fst c) -> forRules queryQuads fuel idx rs c = Returned c' ->
  steady g (fst c').
Proof.
  revert c. induction rs as [|r rs IH]; intros c W; simpl; [by intros [= <-]|].
  destruct (ruleStep queryQuads fuel idx r c) as [c1| |] eqn:E; try done.
  cbn [mbind Outcome_bind]. apply IH. by eapply steady_ruleStep.
Qed.

Lemma steady_mainLoop fuel idx rules σ σ' :
  steady g σ -> mainLoop queryQuads fuel idx rules σ = Returned σ' -> steady g σ'.
Proof.
  revert σ. induction fuel as [|n IH]; intros σ W; [done|].
  cbn [mainLoop]. unfold pass.
  destruct (forRules _ _ _ _ _) as [[σ1 ch]| |] eqn:E; try done.
  cbn [mbind Outcome_bind]. apply steady_forRules in E; [|done]. cbn [fst] in E.
  destruct ch; [by apply IH|by intros [= <-]].
Qed.
End Rules.
End Steady.

(** ** The seed of the first run *)

Lemma liftable_spec s :
  liftable s = true ->
  plainTerm (subject s) = true /\ plainTerm (object s) = true
  /\ normalStatement s = true /\ termType (subject s) <> T_Literal.
Proof.
  intros H. unfold liftable in H. apply andb_true_iff in H as [H Hl].
  apply andb_true_iff in H as [H Hn]. apply andb_true_iff in H as [H1 H2].
  apply negb_true_iff, bool_decide_eq_false in Hl. done.
Qed.

(** The seed writes for such a lift the quad [enqueue] would write. *)
Lemma seedQuad_plain s :
  isAbsoluteIri (predicate s) = true ->
  plainTerm (subject s) = true -> termType (subject s) <> T_Literal ->
  plainTerm (object s) = true ->
  seedQuad s = Some (quadOf s).
Proof.
  intros Hp Hs Hl Ho. rewrite (seedQuad_absolute s Hp). unfold liftQuad, quadOf.
  by rewrite (asRdfjsSubject_plain _ Hs Hl), (asRdfjsObject_plain _ Ho).
Qed.

Lemma steady_seedApply g σ l :
  steady g σ ->
  (forall s, s ∈ l -> normalStatement s = true /\ seedQuad s = Some (quadOf s)) ->
  exists σ', seedApply σ l = Returned σ' /\ steady g σ'.
Proof.
  revert σ. induction l as [|s l IH]; intros σ W H; [by exists σ|].
  destruct (H s) as [Hn Hq]; [apply elem_of_cons; by left|].
  simpl. unfold seedApply1. rewrite Hq. cbn [mbind Outcome_bind].
  apply IH; [|intros; apply H; apply elem_of_cons; by right].
  apply (steady_add g σ _ s W Hn); cbn [workTypes workProps seen
                                        overlayStore rdfjsStore]; try done.
  intros x Hx. by right.
Qed.

Lemma steady_seedPhase g idx σs :
  forallb liftable (seedLifts idx g) = true ->
  seedPhase idx (initState g) = Returned σs -> steady g σs.
Proof.
  intros Hg. rewrite forallb_elem_of in Hg.
  assert (L : forall s,
            s ∈ expandPropsWithClosure idx
                  (List.filter (fun s => negb (is_type s)) g)
                ++ expandTypesWithClosure idx (List.filter is_type g) ->
            toNT s ∉ keys g ->
            isAbsoluteIri (predicate s) = true ->
            normalStatement s = true /\ seedQuad s = Some (quadOf s)).
  { intros s Hs Hk Hp.
    destruct (liftable_spec s) as (P1 & P2 & N & Hl).
    { apply Hg. unfold seedLifts. apply elem_of_filter_bool. split; [done|].
      by apply negb_true_iff, bool_decide_eq_false. }
    split; [done|]. by apply seedQuad_plain. }
  destruct (seedPhase_lifts idx (initState g))
    as (σ1 & σ2 & E1 & E2 & E & _ & _ & S1 & _).
  rewrite E. intros [= <-].
  destruct (steady_seedApply g (initState g) (seedPropUnseen idx (initState g))
              (steady_initState g)) as (? & E1' & W1).
  { intros s Hs. pose proof (seedPropUnseen_absolute _ _ _ Hs) as Hp.
    apply elem_of_selectUnseen in Hs as [Hs Hk].
    apply L; [apply elem_of_app; by left|exact Hk|exact Hp]. }
  rewrite E1 in E1'. injection E1' as <-.
  destruct (steady_seedApply g σ1 (seedTypeUnseen idx (initState g) σ1) W1)
    as (? & E2' & W2).
  { intros s Hs. pose proof (seedTypeUnseen_absolute _ _ _ _ Hs) as Hp.
    apply elem_of_selectUnseen in Hs as [Hs Hk].
    apply L; [apply elem_of_app; by right| |exact Hp].
    intros Hin. apply Hk. rewrite S1. apply elem_of_union. by right. }
  rewrite E2 in E2'. by injection E2' as <-.
Qed.

(** ** The union of the input and the overlay *)

Section Union.
Variable queryQuads : string -> list Quad -> option (list Quad).
Hypothesis answers : wellFormedAnswers queryQuads.

(** What the union of a graph with liftable seed and the overlay of a
    finished run over it loads to: the store the run ended with, and the keys that a rule
    answer can have. *)
Lemma union_view fuel rules g σs σf :
  wellFormedSeed g = true ->
  seedPhase (startIndices g) (initState g) = Returned σs ->
  mainLoop queryQuads fuel (startIndices g) rules σs = Returned σf ->
  overlayOf σf = overlayStore σf
  /\ same_view σf (initState (g ++ overlayOf σf)).
Proof.
  intros Hg Es El.
  pose proof (steady_mainLoop g queryQuads answers _ _ _ _ _
                (steady_seedPhase g _ _ Hg Es) El) as (W1 & W2 & W3 & W4).
  pose proof (consistent_seedPhase _ _ _ _ (consistent_initState g) Es) as Cs.
  pose proof (Inv_mainLoop queryQuads (consistent g) (consistent_enqueue1 g)
                (consistent_frame g) fuel (startIndices g) rules σs Cs) as Cf.
  rewrite El in Cf. destruct Cf as (_ & _ & Nd & _).
  assert (R : forall q, q ∈ overlayStore σf ->
                quadToStatement false q = q /\ statementToQuad q = q).
  { intros q Hq. destruct (W2 q Hq) as (s & Hn & ->). by apply quadOf_roundtrip. }
  assert (O : overlayOf σf = overlayStore σf).
  { unfold overlayOf. apply fold_formula_add_id; [|done].
    intros q Hq. by apply R. }
  split; [done|]. rewrite O. split.
  - cbn [rdfjsStore initState]. unfold formulaToRdfjsStore at 1.
    rewrite fold_left_app. fold (formulaToRdfjsStore g). rewrite W3.
    apply fold_left_ext_in. intros a q Hq. by rewrite (proj2 (R q Hq)).
  - intros s Hs Hk. change (seen (initState ?x)) with (keys x).
    rewrite keys_app. apply elem_of_union.
    destruct (W4 _ Hk) as [?|(s' & Ek & Hn & Hq)]; [by left|]. right.
    assert (Hs' : termType (subject s') <> T_Literal)
      by (by apply (toNT_subject_kind s' s)).
    rewrite (quadOf_nonliteral s' Hn Hs') in Hq.
    apply elem_of_keys. exists (norm s'). split; [done|]. rewrite <- Ek.
    by apply toNT_spo.
Qed.
End Union.


Lemma cleanEvaluator_answers : wellFormedAnswers cleanEvaluator.
Proof.
  intros query store quads E x Hx. unfold cleanEvaluator in E.
  destruct (symmetricEvaluator query store) as [l|]; [|done].
  injection E as <-. by apply elem_of_filter_bool in Hx as [_ ?].
Qed.


(** A lift that is not liftable: the seed writes x r 5 with its datatype, the
    run returns it without, and the seed of the second run lifts it again. *)
Example typed_lift_second_run :
  wellFormedSeed typed_lift = false
  /\ inferUntilStable symmetricEvaluator 1 [] typed_lift
     = Returned {| overlayGraph := [st (NamedNode "urn:x") "urn:r" (literal_plain "5")];
                   metrics_totalAdded := 0 |}
  /\ inferUntilStable symmetricEvaluator 1 []
       (typed_lift ++ [st (NamedNode "urn:x") "urn:r" (literal_plain "5")])
     = Returned {| overlayGraph := [st (NamedNode "urn:x") "urn:r" (literal_plain "5")];
                   metrics_totalAdded := 0 |}.
Proof. split; [reflexivity|split; by_evaluation]. Qed.

